(** * go-huggingface: model-artifact loading and tokenization engine

    A shallow embedding of the parts of the Go sources that the
    specification speaks about, with the properties stated after the
    code they are about.

    Conventions of the embedding.
    - A Go [string] is a byte sequence: it is a Stdlib [string], one
      [ascii] per byte.  File contents and [[]byte] are [list byte].
      Runes ([int32] code points) are [Z].
    - Go [int], [int64], [uint32], [uint64] are [Z]; where the source
      relies on wrap-around it is written out with [mod].
    - A Go [map] is a stdpp [gmap]; where the source iterates over a map,
      the iteration order is a parameter (Go leaves it unspecified).
    - [(T, error)] results are [result T]. *)

From Stdlib Require Import ZArith Bool.
From Stdlib Require Import Strings.String Strings.Ascii Strings.Byte.
From Stdlib Require Import Floats.SpecFloat.
From stdpp Require Import base option list gmap strings sorting.

Set Warnings "-register-all".
Local Open Scope Z_scope.

(** ** Results with errors *)

Inductive error : Type :=
  | ErrNotFound                      (* "tensor %s not found" *)
  | ErrUnsupportedDType              (* "dtype %q not supported" *)
  | ErrSizeMismatch                  (* "tensor shape %s expected %d bytes, but got %d bytes" *)
  | ErrEOF                           (* io.EOF / io.ErrUnexpectedEOF *)
  | ErrIO                            (* any other error of the file layer *)
  | ErrNotLoaded                     (* "Repo is nil ...", "model not loaded, call LoadModel first" *)
  | ErrStringTooLong                 (* "string length %d exceeds 1MB limit" *)
  | ErrUnknownValueType (t : Z)      (* "unknown value type %d" *)
  | ErrUnsupportedArrayElem (t : Z)  (* "unsupported array element type %d" *)
  | ErrUnsupportedQuant (t : Z)      (* "unsupported quantization type %s (%d)" *)
  | ErrDequantBuffer                 (* "expected %d float32 elements, got buffer for %d" *)
  | ErrPanic.                        (* a run-time panic: index out of range, negative dimension *)

Inductive result (A : Type) : Type :=
  | Ok (a : A)
  | Err (e : error).
Arguments Ok {A} a.
Arguments Err {A} e.

Definition is_ok {A} (r : result A) : bool :=
  match r with Ok _ => true | Err _ => false end.

(** ** Machine integers and bytes *)

Definition byteZ (b : byte) : Z := Z.of_N (Byte.to_N b).

Definition wrap_u32 (z : Z) : Z := z mod 2 ^ 32.
Definition wrap_u64 (z : Z) : Z := z mod 2 ^ 64.
Definition wrap_i64 (z : Z) : Z := (z + 2 ^ 63) mod 2 ^ 64 - 2 ^ 63.

(** [binary.LittleEndian]: the unsigned value of a byte sequence. *)
Fixpoint le_decode (bs : list byte) : Z :=
  match bs with
  | [] => 0
  | b :: tl => byteZ b + 256 * le_decode tl
  end.

(** The reverse direction, [binary.LittleEndian.PutUint]: [w] bytes of [z]. *)
Fixpoint le_encode (w : nat) (z : Z) : list byte :=
  match w with
  | O => []
  | S k =>
      match Byte.of_N (Z.to_N (z mod 256)) with
      | Some b => b :: le_encode k (z / 256)
      | None => x00 :: le_encode k (z / 256)
      end
  end.

(** Reinterpretation of a [w]-bit pattern as a signed integer
    ([int8(x)], [int16], [int32], [int64] of the bytes read). *)
Definition to_signed (bits : Z) (u : Z) : Z :=
  if u <? 2 ^ (bits - 1) then u else u - 2 ^ bits.

(** ** The memory map ([golang.org/x/exp/mmap], [ReaderAt.ReadAt])

    [ReadAt(p, off)] fails on an offset outside the file, copies
    [min(len(p), len(data)-off)] bytes into the front of [p] and reports
    [io.EOF] when that is fewer than [len(p)].  The result is the buffer
    after the call and the error, if any. *)
Definition ReadAt (data : list byte) (p : list byte) (off : Z)
  : list byte * option error :=
  if (off <? 0) || (Z.of_nat (length data) <? off) then (p, Some ErrIO)
  else
    let src := take (length p) (drop (Z.to_nat off) data) in
    let p' := src ++ drop (length src) p in
    if (length src <? length p)%nat then (p', Some ErrEOF) else (p', None).

(** ** [slices.SortFunc]

    [slices.SortFunc(x, cmp)] "sorts the slice x in ascending order as
    determined by the cmp function.  This sort is not guaranteed to be
    stable.  cmp(a, b) should return a negative number when a < b, a
    positive number when a > b and zero when a == b [...].  SortFunc
    requires that cmp is a strict weak ordering."  The function is a
    parameter of the embedding; the comparators handed to it are the
    closures of the source. *)
Definition sort_func : Type := ∀ A : Type, (A → A → Z) → list A → list A.

(** [cmp] is a strict weak ordering: "less" is [cmp a b < 0]. *)
Record strict_weak {A : Type} (cmp : A → A → Z) : Prop := mk_strict_weak {
  sw_irrefl : ∀ a, ¬ cmp a a < 0;
  sw_trans : ∀ a b c, cmp a b < 0 → cmp b c < 0 → cmp a c < 0;
  sw_incomp : ∀ a b c, ¬ cmp a b < 0 → ¬ cmp b c < 0 → ¬ cmp a c < 0
}.

(** Ascending order as determined by [cmp]: no element is less than the
    one before it. *)
Definition ascending {A : Type} (cmp : A → A → Z) (l : list A) : Prop :=
  Sorted (λ a b, ¬ cmp b a < 0) l.

(** The contract of [slices.SortFunc]: the sorted slice has the elements
    of the slice, and on a strict weak ordering it is ascending. *)
Definition sorts (SortFunc : sort_func) : Prop :=
  ∀ (A : Type) (cmp : A → A → Z) (l : list A),
    SortFunc A cmp l ≡ₚ l ∧ (strict_weak cmp → ascending cmp (SortFunc A cmp l)).

(** * Safetensors *)

Module Safetensor.

(** [dtypes.DType] of the tensor runtime, restricted to the types a
    safetensors header can name. *)
Inductive DType : Type :=
  | Float64 | Float32 | Float16 | BFloat16
  | Int8 | Int16 | Int32 | Int64
  | Uint8 | Uint16 | Uint32 | Uint64
  | Bool.

(** [DType.Size()]: bytes per element. *)
Definition DType_Size (d : DType) : Z :=
  match d with
  | Float64 | Int64 | Uint64 => 8
  | Float32 | Int32 | Uint32 => 4
  | Float16 | BFloat16 | Int16 | Uint16 => 2
  | Int8 | Uint8 | Bool => 1
  end.

(** ASCII part of [strings.ToLower]. *)
Definition lower_ascii (c : ascii) : ascii :=
  let n := nat_of_ascii c in
  if ((65 <=? n) && (n <=? 90))%nat then ascii_of_nat (n + 32) else c.

Fixpoint ToLower (s : string) : string :=
  match s with
  | EmptyString => EmptyString
  | String c tl => String (lower_ascii c) (ToLower tl)
  end.

(** Modelled from the spec: [dtypes.MapOfNames], the name table of the
    tensor runtime, is not part of the repository; section 4.A lists the
    names it resolves ("F64, F32, F16, BF16, I8/I16/I32/I64,
    U8/U16/U32/U64, BOOL", case-insensitive, anything else fails). *)
Definition MapOfNames : gmap string DType :=
  list_to_map
    [ ("f64", Float64); ("f32", Float32); ("f16", Float16); ("bf16", BFloat16);
      ("i8", Int8); ("i16", Int16); ("i32", Int32); ("i64", Int64);
      ("u8", Uint8); ("u16", Uint16); ("u32", Uint32); ("u64", Uint64);
      ("bool", Bool) ]%string.

Definition dtypeToGoMLX (stDtype : string) : result DType :=
  match MapOfNames !! ToLower stDtype with
  | Some d => Ok d
  | None => Err ErrUnsupportedDType
  end.

Record TensorMetadata : Type := mkTensorMetadata {
  Name : string;
  Dtype : string;
  Shape : list Z;
  DataOffsets : Z * Z      (* [start, end] byte offsets in the data region *)
}.

Record Header : Type := mkHeader {
  Tensors : gmap string TensorMetadata
}.

Definition SizeBytes (tm : TensorMetadata) : Z :=
  snd (DataOffsets tm) - fst (DataOffsets tm).

(** [TensorMetadata.NumElements]: the product runs in [int64]. *)
Definition NumElements (tm : TensorMetadata) : Z :=
  if (length (Shape tm) =? 0)%nat then 1
  else foldl (λ prod dim, wrap_i64 (prod * dim)) 1 (Shape tm).

(** The tensor runtime: [tensors.FromShape(shapes.Make(dtype, dims...))]
    allocates [Size() * dtype.Size()] zeroed bytes, where [Size()] is the
    product of the dimensions (1 for a scalar); [MutableBytes] hands that
    buffer to its callback. *)
Record Tensor : Type := mkTensor {
  t_dtype : DType;
  t_dims : list Z;
  t_bytes : list byte
}.

Definition Shape_Size (dims : list Z) : Z := foldl Z.mul 1 dims.

Definition FromShape (dtype : DType) (dims : list Z) : Tensor :=
  mkTensor dtype dims
    (replicate (Z.to_nat (Shape_Size dims * DType_Size dtype)) x00).

(** [MMapReader]: the mapped file, the offset of the data region and the
    parsed header. *)
Record MMapReader : Type := mkMMapReader {
  reader : list byte;
  dataOffset : Z;
  header : Header
}.

(** [MMapReader.ReadTensor] (reader.go).  [shapes.Make] of the runtime
    refuses a negative dimension with a panic.  An [io.EOF] of [ReadAt]
    is not wrapped, but it is returned like every other error. *)
Definition ReadTensor (mr : MMapReader) (tensorName : string) : result Tensor :=
  match Tensors (header mr) !! tensorName with
  | None => Err ErrNotFound
  | Some meta =>
      match dtypeToGoMLX (Dtype meta) with
      | Err e => Err e
      | Ok dtype =>
          if existsb (λ d, d <? 0) (Shape meta) then Err ErrPanic
          else
            let t := FromShape dtype (Shape meta) in
            let tensorOffset := dataOffset mr + fst (DataOffsets meta) in
            let data := t_bytes t in
            let expectedBytes := Shape_Size (t_dims t) * DType_Size dtype in
            if negb (Z.of_nat (length data) =? expectedBytes) then Err ErrSizeMismatch
            else
              match ReadAt (reader mr) data tensorOffset with
              | (_, Some e) => Err e
              | (data', None) => Ok (mkTensor dtype (Shape meta) data')
              end
      end
  end.

(** ** Iteration over a model

    What [IterTensors] uses of its surroundings:
    - the hub client and the file layer ([Repo.DownloadFile],
      [Model.parseHeader], [mmap.Open]), as functions of the file name
      resp. local path;
    - the order in which [range] enumerates a Go map;
    - [slices.SortFunc]. *)
Record Env : Type := mkEnv {
  DownloadFile : string → result string;
  parseHeader : string → result (Header * Z);
  mmapOpen : string → result (list byte);
  range_map : ∀ V : Type, gmap string V → list (string * V);
  SortFunc : sort_func
}.

(** [Model]: [Repo] is set or nil, [Index] is nil or holds the weight map
    (tensor name -> shard file name). *)
Record Model : Type := mkModel {
  hasRepo : bool;
  Index : option (gmap string string)
}.

(** What the consumer of the iterator sees, in order.  A shard is named
    by its file name in [EvOpen] and [EvClose]. *)
Inductive event : Type :=
  | EvOpen (filename : string)               (* mmap.Open succeeded *)
  | EvClose (filename : string)              (* reader.Close() *)
  | EvYield (name : string) (t : Tensor)     (* yield(TensorWithName{..}, nil) *)
  | EvError (e : error).                     (* yield(TensorWithName{}, err) *)

(** The body of the [range] loop handed to the iterator: it is given the
    items received so far, the last one included, and answers whether the
    iteration goes on ([yield] returning [true]). *)
Definition consumer : Type := list (string * Tensor) → bool.

(** [sortTensorsByOffset]: names without an entry in the header are
    skipped when the offsets are collected. *)
Definition collect_offsets (tensorNames : list string) (h : Header) : list (string * Z) :=
  omap (λ name, meta ← Tensors h !! name; Some (name, fst (DataOffsets meta))) tensorNames.

(** The comparator handed to [slices.SortFunc], on the pairs of a name
    and an offset. *)
Definition cmp_offset (a b : string * Z) : Z :=
  if a.2 <? b.2 then -1
  else if b.2 <? a.2 then 1
  else 0.

Definition sortTensorsByOffset (E : Env) (tensorNames : list string) (h : Header)
  : list string :=
  map fst (SortFunc E _ cmp_offset (collect_offsets tensorNames h)).

(** "Group tensors by shard file": one [append] per entry of the weight map. *)
Definition group_step (m : gmap string (list string)) (kv : string * string)
  : gmap string (list string) :=
  <[kv.2 := default [] (m !! kv.2) ++ [kv.1]]> m.

Definition shardToTensors (E : Env) (weightMap : gmap string string)
  : gmap string (list string) :=
  foldl group_step ∅ (range_map E string weightMap).

(** How the inner loop over the sorted names of one shard ends. *)
Inductive outcome : Type :=
  | Finished                 (* all names read and accepted *)
  | Stopped                  (* [yield] returned false *)
  | Failed (e : error).      (* [ReadTensor] failed *)

(** The inner loop: the items yielded, and how the loop ended. *)
Fixpoint read_shard (mr : MMapReader) (c : consumer) (names : list string)
    (seen : list (string * Tensor)) : list (string * Tensor) * outcome :=
  match names with
  | [] => ([], Finished)
  | tensorName :: rest =>
      match ReadTensor mr tensorName with
      | Err e => ([], Failed e)
      | Ok tensor =>
          let seen' := seen ++ [(tensorName, tensor)] in
          if c seen' then
            let '(items, o) := read_shard mr c rest seen' in
            ((tensorName, tensor) :: items, o)
          else ([(tensorName, tensor)], Stopped)
      end
  end.

Definition yields (items : list (string * Tensor)) : list event :=
  map (λ it, EvYield it.1 it.2) items.

(** The outer loop over the shards.  In every exit of the inner loop the
    reader is closed first: before the error is yielded, after the
    refused item, or at the end of the shard. *)
Fixpoint iter_shards (E : Env) (c : consumer) (shards : list (string * list string))
    (seen : list (string * Tensor)) : list event :=
  match shards with
  | [] => []
  | (filename, tensorNames) :: rest =>
      match DownloadFile E filename with
      | Err e => [EvError e]
      | Ok localPath =>
          match parseHeader E localPath with
          | Err e => [EvError e]
          | Ok (h, dataOffset) =>
              match mmapOpen E localPath with
              | Err e => [EvError e]
              | Ok data =>
                  let mmapReader := mkMMapReader data dataOffset h in
                  let sortedTensors := sortTensorsByOffset E tensorNames h in
                  let '(items, o) := read_shard mmapReader c sortedTensors seen in
                  EvOpen filename :: yields items ++ EvClose filename ::
                    match o with
                    | Finished => iter_shards E c rest (seen ++ items)
                    | Stopped => []
                    | Failed e => [EvError e]
                    end
              end
          end
      end
  end.

(** [Model.IterTensors], run against a consumer. *)
Definition IterTensors (E : Env) (m : Model) (c : consumer) : list event :=
  if negb (hasRepo m) then [EvError ErrNotLoaded]
  else
    match Index m with
    | None => [EvError ErrNotLoaded]
    | Some weightMap =>
        if (size weightMap =? 0)%nat then [EvError ErrNotLoaded]
        else iter_shards E c (range_map E _ (shardToTensors E weightMap)) []
    end.

End Safetensor.

(** * GGUF *)

Module GGUF.

(** ** Stream readers

    The parser reads from an [io.Reader] front to back; a reader is a
    function of the remaining bytes that returns the value and the rest
    of the stream, or the error that ends the parse. *)
Definition Reader (A : Type) : Type := list byte → result (A * list byte).

Definition ret {A} (a : A) : Reader A := λ s, Ok (a, s).

Definition bind {A B} (m : Reader A) (k : A → Reader B) : Reader B :=
  λ s, match m s with
       | Ok (a, s') => k a s'
       | Err e => Err e
       end.

Definition fail {A} (e : error) : Reader A := λ _, Err e.

Notation "'do' x <- m ; k" := (bind m (λ x, k))
  (at level 10, x name, m at level 100, k at level 200).

(** [binary.Read(r, binary.LittleEndian, &v)] for a [w]-byte unsigned [v]. *)
Definition readUint (w : nat) : Reader Z :=
  λ s, if (length s <? w)%nat then Err ErrEOF
       else Ok (le_decode (take w s), drop w s).

(** [io.ReadFull(r, buf)] for a buffer of [n] bytes. *)
Definition readFull (n : nat) : Reader (list byte) :=
  λ s, if (length s <? n)%nat then Err ErrEOF else Ok (take n s, drop n s).

(** A loop [for i := range count] that reads one element per iteration. *)
Fixpoint readN {A} (n : nat) (elem : Reader A) : Reader (list A) :=
  match n with
  | O => ret []
  | S k => do x <- elem; do xs <- readN k elem; ret (x :: xs)
  end.

Definition readString : Reader string :=
  do len <- readUint 8;
  if 2 ^ 20 <? len then fail ErrStringTooLong
  else do buf <- readFull (Z.to_nat len); ret (string_of_list_byte buf).

(** ** Metadata values *)

Definition valueTypeUint8 : Z := 0.
Definition valueTypeInt8 : Z := 1.
Definition valueTypeUint16 : Z := 2.
Definition valueTypeInt16 : Z := 3.
Definition valueTypeUint32 : Z := 4.
Definition valueTypeInt32 : Z := 5.
Definition valueTypeFloat32 : Z := 6.
Definition valueTypeBool : Z := 7.
Definition valueTypeString : Z := 8.
Definition valueTypeArray : Z := 9.
Definition valueTypeUint64 : Z := 10.
Definition valueTypeInt64 : Z := 11.
Definition valueTypeFloat64 : Z := 12.

(** [Value{data: any}]: the dynamic type of [data] is the constructor.
    Floats are kept as their bit patterns.  A slice [[]T] is [VSlice]
    with the tag of [T] and one scalar value per element. *)
Inductive Value : Type :=
  | VUint8 (v : Z) | VInt8 (v : Z)
  | VUint16 (v : Z) | VInt16 (v : Z)
  | VUint32 (v : Z) | VInt32 (v : Z)
  | VFloat32 (bits : Z)
  | VBool (b : bool)
  | VString (s : string)
  | VUint64 (v : Z) | VInt64 (v : Z)
  | VFloat64 (bits : Z)
  | VSlice (elemType : Z) (elems : list Value).

Record KeyValue : Type := mkKeyValue { Key : string; KValue : Value }.

(** The scalar cases of [readValue]; [None] for the tags that are not
    scalars (array) or not known. *)
Definition readScalar (vtype : Z) : option (Reader Value) :=
  if vtype =? valueTypeUint8 then Some (do v <- readUint 1; ret (VUint8 v))
  else if vtype =? valueTypeInt8 then Some (do v <- readUint 1; ret (VInt8 (to_signed 8 v)))
  else if vtype =? valueTypeUint16 then Some (do v <- readUint 2; ret (VUint16 v))
  else if vtype =? valueTypeInt16 then Some (do v <- readUint 2; ret (VInt16 (to_signed 16 v)))
  else if vtype =? valueTypeUint32 then Some (do v <- readUint 4; ret (VUint32 v))
  else if vtype =? valueTypeInt32 then Some (do v <- readUint 4; ret (VInt32 (to_signed 32 v)))
  else if vtype =? valueTypeFloat32 then Some (do v <- readUint 4; ret (VFloat32 v))
  else if vtype =? valueTypeBool then Some (do v <- readUint 1; ret (VBool (negb (v =? 0))))
  else if vtype =? valueTypeString then Some (do s <- readString; ret (VString s))
  else if vtype =? valueTypeUint64 then Some (do v <- readUint 8; ret (VUint64 v))
  else if vtype =? valueTypeInt64 then Some (do v <- readUint 8; ret (VInt64 (to_signed 64 v)))
  else if vtype =? valueTypeFloat64 then Some (do v <- readUint 8; ret (VFloat64 v))
  else None.

(** [readArray]: element type, count, then [count] elements read by
    [readArrayOf[T]], [readBoolArray] or [readStringArray]; these are the
    scalar readers run [count] times.  Every other element type,
    [valueTypeArray] included, takes the [default] branch. *)
Definition readArray : Reader Value :=
  do elemType <- readUint 4;
  do count <- readUint 8;
  match readScalar elemType with
  | Some elem => do vals <- readN (Z.to_nat count) elem; ret (VSlice elemType vals)
  | None => fail (ErrUnsupportedArrayElem elemType)
  end.

Definition readValue (vtype : Z) : Reader Value :=
  if vtype =? valueTypeArray then readArray
  else
    match readScalar vtype with
    | Some rd => rd
    | None => fail (ErrUnknownValueType vtype)
    end.

Definition readKeyValue : Reader KeyValue :=
  do key <- readString;
  do typeTag <- readUint 4;
  do val <- readValue typeTag;
  ret (mkKeyValue key val).

(** ** Tensor types *)

Definition TensorTypeF32 : Z := 0.
Definition TensorTypeF16 : Z := 1.
Definition TensorTypeQ4_0 : Z := 2.
Definition TensorTypeQ4_1 : Z := 3.
Definition TensorTypeQ5_0 : Z := 6.
Definition TensorTypeQ5_1 : Z := 7.
Definition TensorTypeQ8_0 : Z := 8.
Definition TensorTypeQ8_1 : Z := 9.
Definition TensorTypeQ2_K : Z := 10.
Definition TensorTypeQ3_K : Z := 11.
Definition TensorTypeQ4_K : Z := 12.
Definition TensorTypeQ5_K : Z := 13.
Definition TensorTypeQ6_K : Z := 14.
Definition TensorTypeQ8_K : Z := 15.
Definition TensorTypeIQ2_XXS : Z := 16.
Definition TensorTypeIQ2_XS : Z := 17.
Definition TensorTypeIQ3_XXS : Z := 18.
Definition TensorTypeIQ1_S : Z := 19.
Definition TensorTypeIQ4_NL : Z := 20.
Definition TensorTypeIQ3_S : Z := 21.
Definition TensorTypeIQ2_S : Z := 22.
Definition TensorTypeIQ4_XS : Z := 23.
Definition TensorTypeI8 : Z := 24.
Definition TensorTypeI16 : Z := 25.
Definition TensorTypeI32 : Z := 26.
Definition TensorTypeI64 : Z := 27.
Definition TensorTypeF64 : Z := 28.
Definition TensorTypeIQ1_M : Z := 29.
Definition TensorTypeBF16 : Z := 30.
Definition TensorTypeTQ1_0 : Z := 34.
Definition TensorTypeTQ2_0 : Z := 35.
Definition TensorTypeMXFP4 : Z := 39.

Definition is_one_of (t : Z) (l : list Z) : bool := existsb (Z.eqb t) l.

Definition native_types : list Z :=
  [TensorTypeF32; TensorTypeF16; TensorTypeBF16; TensorTypeF64;
   TensorTypeI8; TensorTypeI16; TensorTypeI32; TensorTypeI64].

Definition BlockSize (t : Z) : Z :=
  if is_one_of t native_types then 1
  else if is_one_of t [TensorTypeQ4_0; TensorTypeQ4_1; TensorTypeQ5_0; TensorTypeQ5_1;
                       TensorTypeQ8_0; TensorTypeQ8_1; TensorTypeIQ4_NL] then 32
  else if is_one_of t [TensorTypeQ2_K; TensorTypeQ3_K; TensorTypeQ4_K; TensorTypeQ5_K;
                       TensorTypeQ6_K; TensorTypeQ8_K;
                       TensorTypeIQ2_XXS; TensorTypeIQ2_XS; TensorTypeIQ3_XXS;
                       TensorTypeIQ1_S; TensorTypeIQ3_S; TensorTypeIQ2_S; TensorTypeIQ4_XS;
                       TensorTypeIQ1_M; TensorTypeTQ1_0; TensorTypeTQ2_0] then 256
  else if t =? TensorTypeMXFP4 then 32
  else 0.

Definition TypeSize (t : Z) : Z :=
  if t =? TensorTypeF32 then 4
  else if t =? TensorTypeF16 then 2
  else if t =? TensorTypeBF16 then 2
  else if t =? TensorTypeF64 then 8
  else if t =? TensorTypeI8 then 1
  else if t =? TensorTypeI16 then 2
  else if t =? TensorTypeI32 then 4
  else if t =? TensorTypeI64 then 8
  else if t =? TensorTypeQ4_0 then 2 + 32 / 2
  else if t =? TensorTypeQ4_1 then 2 + 2 + 32 / 2
  else if t =? TensorTypeQ5_0 then 2 + 4 + 32 / 2
  else if t =? TensorTypeQ5_1 then 2 + 2 + 4 + 32 / 2
  else if t =? TensorTypeQ8_0 then 2 + 32
  else if t =? TensorTypeQ8_1 then 2 + 2 + 32
  else if t =? TensorTypeQ2_K then 256 / 4 + 256 / 16 + 2 + 2
  else if t =? TensorTypeQ3_K then 256 / 4 + 256 / 8 + 12 + 2
  else if t =? TensorTypeQ4_K then 2 + 2 + 12 + 256 / 2
  else if t =? TensorTypeQ5_K then 2 + 2 + 12 + 256 / 2 + 256 / 8
  else if t =? TensorTypeQ6_K then 256 / 2 + 256 / 4 + 256 / 16 + 2
  else if t =? TensorTypeQ8_K then 4 + 256 + 256 / 16 * 2
  else if t =? TensorTypeIQ4_NL then 2 + 32 / 2
  else 0.

Definition IsQuantized (t : Z) : bool := negb (is_one_of t native_types).

Record TensorInfo : Type := mkTensorInfo {
  Name : string;
  Shape : list Z;     (* dimensions, innermost first *)
  Type_ : Z;          (* TensorType *)
  Offset : Z          (* byte offset within the tensor data section *)
}.

(** [TensorInfo.NumElements]: the product runs in [uint64]. *)
Definition NumElements (ti : TensorInfo) : Z :=
  if (length (Shape ti) =? 0)%nat then 0
  else foldl (λ n d, wrap_u64 (n * d)) 1 (Shape ti).

Definition NumBytes (ti : TensorInfo) : Z :=
  let bs := BlockSize (Type_ ti) in
  let ts := TypeSize (Type_ ti) in
  if (bs =? 0) || (ts =? 0) then 0
  else
    let nBlocks := NumElements ti / bs in
    wrap_i64 (wrap_i64 nBlocks * ts).

(** [readTensorInfo]: the type tag is stored as read, without a check. *)
Definition readTensorInfo : Reader TensorInfo :=
  do name <- readString;
  do nDims <- readUint 4;
  do shape <- readN (Z.to_nat nDims) (readUint 8);
  do ttype <- readUint 4;
  do offset <- readUint 8;
  ret (mkTensorInfo name shape ttype offset).

(** ** float32 and float16

    A [float32] is an IEEE-754 binary32 value: a [spec_float] with 24
    bits of precision and [emax = 128], with the operations of the
    standard library's specification of IEEE arithmetic (round to
    nearest, ties to even). *)
Definition float32 : Type := spec_float.

Definition f32_mul : float32 → float32 → float32 := SFmul 24 128.

(** [float32(x)] for an integer [x]. *)
Definition f32_of_int (x : Z) : float32 := binary_normalize 24 128 x 0 false.

(** [math.Float32frombits]. *)
Definition Float32frombits (f : Z) : float32 :=
  let sign := Z.testbit f 31 in
  let e := Z.land (Z.shiftr f 23) 255 in
  let m := Z.land f (2 ^ 23 - 1) in
  if e =? 0 then
    match m with
    | Zpos p => S754_finite sign p (-149)
    | _ => S754_zero sign
    end
  else if e =? 255 then
    (if m =? 0 then S754_infinity sign else S754_nan)
  else
    match m + 2 ^ 23 with
    | Zpos p => S754_finite sign p (e - 150)
    | _ => S754_nan
    end.

(** The loop [for mant&0x400 == 0 { mant <<= 1; exp-- }] of the subnormal
    case, on [uint32] values; ten iterations are enough for a non-zero
    10-bit mantissa. *)
Fixpoint normalize_subnormal (fuel : nat) (mant exp : Z) : Z * Z :=
  match fuel with
  | O => (mant, exp)
  | S k =>
      if Z.land mant 1024 =? 0
      then normalize_subnormal k (wrap_u32 (Z.shiftl mant 1)) (wrap_u32 (exp - 1))
      else (mant, exp)
  end.

(** [float16ToFloat32], up to [math.Float32frombits]: the [uint32] [f]. *)
Definition float16ToFloat32_bits (bits : Z) : Z :=
  let sign := Z.land (Z.shiftr bits 15) 1 in
  let exp := Z.land (Z.shiftr bits 10) 31 in
  let mant := Z.land bits 1023 in
  if exp =? 0 then
    if mant =? 0 then wrap_u32 (Z.shiftl sign 31)
    else
      let '(mant1, exp1) := normalize_subnormal 10 mant 1 in
      let mant2 := Z.land mant1 1023 in
      Z.lor (Z.lor (wrap_u32 (Z.shiftl sign 31))
                   (wrap_u32 (Z.shiftl (wrap_u32 (exp1 + 127 - 15)) 23)))
            (wrap_u32 (Z.shiftl mant2 13))
  else if exp =? 31 then
    Z.lor (Z.lor (wrap_u32 (Z.shiftl sign 31)) (wrap_u32 (Z.shiftl 255 23)))
          (wrap_u32 (Z.shiftl mant 13))
  else
    Z.lor (Z.lor (wrap_u32 (Z.shiftl sign 31))
                 (wrap_u32 (Z.shiftl (wrap_u32 (exp + 127 - 15)) 23)))
          (wrap_u32 (Z.shiftl mant 13)).

Definition float16ToFloat32 (bits : Z) : float32 :=
  Float32frombits (float16ToFloat32_bits bits).

(** ** Block kernels

    [dequantFunc]: [func(src []byte, dst []float32)].  The kernel writes
    into [dst]; the result is [dst] after the call, or [None] when an
    index is out of range (a panic in Go). *)
Definition dequantFunc : Type := list byte → list float32 → option (list float32).

(** [dst[i] = v]. *)
Definition store (dst : list float32) (i : nat) (v : float32) : option (list float32) :=
  if (i <? length dst)%nat then Some (<[i := v]> dst) else None.

(** [binary.LittleEndian.Uint16(src[lo:lo+2])]. *)
Definition Uint16_at (src : list byte) (lo : nat) : option Z :=
  if (lo + 2 <=? length src)%nat then Some (le_decode (take 2 (drop lo src))) else None.

(** One iteration of the loop of [dequantQ4_0]. *)
Definition dequantQ4_0_step (qs : list byte) (d : float32)
    (acc : option (list float32)) (j : nat) : option (list float32) :=
  dst ← acc;
  q ← qs !! j;
  let x0 := Z.land (byteZ q) 15 - 8 in
  let x1 := Z.shiftr (byteZ q) 4 - 8 in
  dst1 ← store dst j (f32_mul (f32_of_int x0) d);
  store dst1 (j + 16) (f32_mul (f32_of_int x1) d).

Definition dequantQ4_0 : dequantFunc := λ src dst,
  h ← Uint16_at src 0;
  let d := float16ToFloat32 h in
  let qs := drop 2 src in
  foldl (dequantQ4_0_step qs d) (Some dst) (seq 0 16).

(** One iteration of the loop of [dequantQ8_0]. *)
Definition dequantQ8_0_step (src : list byte) (d : float32)
    (acc : option (list float32)) (j : nat) : option (list float32) :=
  dst ← acc;
  q ← src !! (2 + j)%nat;
  store dst j (f32_mul d (f32_of_int (to_signed 8 (byteZ q)))).

Definition dequantQ8_0 : dequantFunc := λ src dst,
  h ← Uint16_at src 0;
  let d := float16ToFloat32 h in
  foldl (dequantQ8_0_step src d) (Some dst) (seq 0 32).

(** The eight other kernels of the dispatch table are not embedded; they
    are a parameter of the reader. *)
Record kernels : Type := mkKernels {
  dequantQ4_1 : dequantFunc;
  dequantQ5_0 : dequantFunc;
  dequantQ5_1 : dequantFunc;
  dequantQ2_K : dequantFunc;
  dequantQ3_K : dequantFunc;
  dequantQ4_K : dequantFunc;
  dequantQ5_K : dequantFunc;
  dequantQ6_K : dequantFunc
}.

Definition getDequantFunc (K : kernels) (t : Z) : result dequantFunc :=
  if t =? TensorTypeQ8_0 then Ok dequantQ8_0
  else if t =? TensorTypeQ4_0 then Ok dequantQ4_0
  else if t =? TensorTypeQ4_1 then Ok (dequantQ4_1 K)
  else if t =? TensorTypeQ5_0 then Ok (dequantQ5_0 K)
  else if t =? TensorTypeQ5_1 then Ok (dequantQ5_1 K)
  else if t =? TensorTypeQ2_K then Ok (dequantQ2_K K)
  else if t =? TensorTypeQ3_K then Ok (dequantQ3_K K)
  else if t =? TensorTypeQ4_K then Ok (dequantQ4_K K)
  else if t =? TensorTypeQ5_K then Ok (dequantQ5_K K)
  else if t =? TensorTypeQ6_K then Ok (dequantQ6_K K)
  else Err (ErrUnsupportedQuant t).

(** The types for which [getDequantFunc] has a case. *)
Definition supported_quants : list Z :=
  [TensorTypeQ4_0; TensorTypeQ4_1; TensorTypeQ5_0; TensorTypeQ5_1; TensorTypeQ8_0;
   TensorTypeQ2_K; TensorTypeQ3_K; TensorTypeQ4_K; TensorTypeQ5_K; TensorTypeQ6_K].

(** ** Reading tensors *)

Inductive DType : Type :=
  | Float32 | Float16 | BFloat16 | Float64 | Int8 | Int16 | Int32 | Int64.

Definition DType_Size (d : DType) : Z :=
  match d with
  | Float64 | Int64 => 8
  | Float32 | Int32 => 4
  | Float16 | BFloat16 | Int16 => 2
  | Int8 => 1
  end.

Definition GoMLXDType (t : Z) : DType :=
  if t =? TensorTypeF32 then Float32
  else if t =? TensorTypeF16 then Float16
  else if t =? TensorTypeBF16 then BFloat16
  else if t =? TensorTypeF64 then Float64
  else if t =? TensorTypeI8 then Int8
  else if t =? TensorTypeI16 then Int16
  else if t =? TensorTypeI32 then Int32
  else if t =? TensorTypeI64 then Int64
  else Float32.

(** [TensorInfo.GoMLXShape]: [int(d)] of every dimension, reversed. *)
Definition GoMLXShape (ti : TensorInfo) : DType * list Z :=
  (GoMLXDType (Type_ ti), reverse (map wrap_i64 (Shape ti))).

(** The storage of a tensor of the runtime: raw bytes, or the same
    memory seen as [[]float32] after [bytesToFloat32]. *)
Inductive TensorData : Type :=
  | Bytes (bs : list byte)
  | Floats (fs : list float32).

Record Tensor : Type := mkTensor {
  t_dtype : DType;
  t_dims : list Z;
  t_data : TensorData
}.

(** The parsed file, as far as the reader uses it.  [Open] fills
    [tensorByName] from [TensorInfos] front to back, so that the last
    entry of a name is the one found. *)
Record File : Type := mkFile {
  TensorInfos : list TensorInfo;
  fileDataOffset : Z
}.

Definition tensorByName (f : File) : gmap string TensorInfo :=
  foldl (λ m ti, <[Name ti := ti]> m) ∅ (TensorInfos f).

Definition GetTensorInfo (f : File) (name : string) : option TensorInfo :=
  tensorByName f !! name.

Record MMapReader : Type := mkMMapReader {
  reader : list byte;
  file : File
}.

(** The loop over the blocks in [ReadTensor]: block [b] is dequantized
    from [rawBuf[b*typeSize : (b+1)*typeSize]] into
    [dst[b*blockSize : (b+1)*blockSize]]. *)
Definition dequant_block (dequant : dequantFunc) (rawBuf : list byte)
    (typeSize blockSize : nat) (acc : option (list float32)) (b : nat)
  : option (list float32) :=
  dst ← acc;
  let src := take typeSize (drop (b * typeSize) rawBuf) in
  let window := take blockSize (drop (b * blockSize) dst) in
  out ← dequant src window;
  Some (take (b * blockSize) dst ++ out ++ drop (b * blockSize + blockSize) dst).

(** [MMapReader.ReadTensor]. *)
Definition ReadTensor (K : kernels) (mr : MMapReader) (tensorName : string)
  : result Tensor :=
  match GetTensorInfo (file mr) tensorName with
  | None => Err ErrNotFound
  | Some info =>
      let '(dtype, dims) := GoMLXShape info in
      if existsb (λ d, d <? 0) dims then Err ErrPanic
      else
        let size := foldl Z.mul 1 dims in
        let tensorOffset := wrap_i64 (fileDataOffset (file mr) + wrap_i64 (Offset info)) in
        if negb (IsQuantized (Type_ info)) then
          let data := replicate (Z.to_nat (size * DType_Size dtype)) x00 in
          match ReadAt (reader mr) data tensorOffset with
          | (data', None) | (data', Some ErrEOF) => Ok (mkTensor dtype dims (Bytes data'))
          | (_, Some e) => Err e
          end
        else
          match getDequantFunc K (Type_ info) with
          | Err e => Err e
          | Ok dequant =>
              let rawSize := NumBytes info in
              if rawSize <? 0 then Err ErrPanic
              else
                let rawBuf0 := replicate (Z.to_nat rawSize) x00 in
                match ReadAt (reader mr) rawBuf0 tensorOffset with
                | (rawBuf, None) | (rawBuf, Some ErrEOF) =>
                    let blockSize := BlockSize (Type_ info) in
                    let typeSize := TypeSize (Type_ info) in
                    let nElements := wrap_i64 (NumElements info) in
                    let dst := replicate (Z.to_nat size) (S754_zero false) in
                    if negb (Z.of_nat (length dst) =? nElements) then Err ErrDequantBuffer
                    else
                      let nBlocks := nElements / blockSize in
                      match foldl (dequant_block dequant rawBuf
                                     (Z.to_nat typeSize) (Z.to_nat blockSize))
                                  (Some dst) (seq 0 (Z.to_nat nBlocks)) with
                      | Some dst' => Ok (mkTensor dtype dims (Floats dst'))
                      | None => Err ErrPanic
                      end
                | (_, Some e) => Err e
                end
          end
  end.

End GGUF.

(** * The byte-level alphabet (hftokenizer, [init]) *)

Module ByteLevel.

(** The test of the [if] in [init]:
    [(b >= '!' && b <= '~') || (b >= '\xa1' && b <= '\xac') || (b >= '\xae' && b <= '\xff')]. *)
Definition printable (b : Z) : bool :=
  ((33 <=? b) && (b <=? 126)) || ((161 <=? b) && (b <=? 172)) || ((174 <=? b) && (b <=? 255)).

(** The two package-level maps and the counter [n] of [init]. *)
Record tables : Type := Tables {
  b2u : gmap Z Z;    (* byteToUnicode map[byte]rune *)
  u2b : gmap Z Z;    (* unicodeToByte map[rune]byte *)
  next : Z           (* n *)
}.

(** One iteration of [for b := 0; b < 256; b++]. *)
Definition init_step (t : tables) (b : Z) : tables :=
  if printable b then
    Tables (<[b := b]> (b2u t)) (<[b := b]> (u2b t)) (next t)
  else
    Tables (<[b := 256 + next t]> (b2u t)) (<[256 + next t := b]> (u2b t)) (next t + 1).

Definition init : tables := foldl init_step (Tables ∅ ∅ 0) (seqZ 0 256).

Definition byteToUnicode : gmap Z Z := b2u init.
Definition unicodeToByte : gmap Z Z := u2b init.

(** The bytes that take the [else] branch, in ascending order. *)
Definition shifted_bytes : list Z := filter (λ b, printable b = false) (seqZ 0 256).

End ByteLevel.

(** * Strings, runes and UTF-8 (the Go language and [unicode/utf8]) *)

Module UTF8.

Definition RuneError : Z := 65533.

Definition zbyte (z : Z) : byte := default x00 (Byte.of_N (Z.to_N (z mod 256))).

(** The bytes of a string, as numbers, and back. *)
Definition bytes_of (s : string) : list Z := map byteZ (list_byte_of_string s).
Definition string_of (l : list Z) : string := string_of_list_byte (map zbyte l).

(** [len(s)]. *)
Definition len (s : string) : Z := Z.of_nat (String.length s).

Definition is_cont (b : Z) : bool := (128 <=? b) && (b <=? 191).

(** [utf8.DecodeRune]: the rune at the front of the bytes and its width;
    an invalid or truncated encoding is [RuneError] of width 1. *)
Definition DecodeRune (l : list Z) : Z * nat :=
  match l with
  | [] => (RuneError, 0%nat)
  | b0 :: tl =>
      if b0 <? 128 then (b0, 1%nat)
      else if (194 <=? b0) && (b0 <=? 223) then
        match tl with
        | b1 :: _ =>
            if is_cont b1 then ((b0 - 192) * 64 + (b1 - 128), 2%nat)
            else (RuneError, 1%nat)
        | _ => (RuneError, 1%nat)
        end
      else if (224 <=? b0) && (b0 <=? 239) then
        match tl with
        | b1 :: b2 :: _ =>
            let lo := if b0 =? 224 then 160 else 128 in
            let hi := if b0 =? 237 then 159 else 191 in
            if (lo <=? b1) && (b1 <=? hi) && is_cont b2
            then ((b0 - 224) * 4096 + (b1 - 128) * 64 + (b2 - 128), 3%nat)
            else (RuneError, 1%nat)
        | _ => (RuneError, 1%nat)
        end
      else if (240 <=? b0) && (b0 <=? 244) then
        match tl with
        | b1 :: b2 :: b3 :: _ =>
            let lo := if b0 =? 240 then 144 else 128 in
            let hi := if b0 =? 244 then 143 else 191 in
            if (lo <=? b1) && (b1 <=? hi) && is_cont b2 && is_cont b3
            then ((b0 - 240) * 262144 + (b1 - 128) * 4096 + (b2 - 128) * 64 + (b3 - 128), 4%nat)
            else (RuneError, 1%nat)
        | _ => (RuneError, 1%nat)
        end
      else (RuneError, 1%nat)
  end.

(** [utf8.AppendRune], which is also [string(r)] and [WriteRune(r)]:
    surrogates and values out of range are written as [RuneError]. *)
Definition EncodeRune (r : Z) : list Z :=
  if (r <? 0) || (1114111 <? r) || ((55296 <=? r) && (r <=? 57343)) then [239; 191; 189]
  else if r <? 128 then [r]
  else if r <? 2048 then [192 + r / 64; 128 + r mod 64]
  else if r <? 65536 then [224 + r / 4096; 128 + (r / 64) mod 64; 128 + r mod 64]
  else [240 + r / 262144; 128 + (r / 4096) mod 64; 128 + (r / 64) mod 64; 128 + r mod 64].

(** [for i, r := range s]: the byte index and the rune of every
    iteration.  [skip] counts the bytes of the current rune still to be
    passed over. *)
Fixpoint range_from (i : Z) (skip : nat) (l : list Z) : list (Z * Z) :=
  match l with
  | [] => []
  | _ :: tl =>
      match skip with
      | S k => range_from (i + 1) k tl
      | O =>
          let '(r, w) := DecodeRune l in
          (i, r) :: range_from (i + 1) (Nat.pred w) tl
      end
  end.

Definition range_string (s : string) : list (Z * Z) := range_from 0 0 (bytes_of s).

(** [[]rune(s)] and [string(runes)]. *)
Definition runes_of (s : string) : list Z := map snd (range_string s).
Definition bytes_of_runes (rs : list Z) : list Z := flat_map EncodeRune rs.
Definition string_of_runes (rs : list Z) : string := string_of (bytes_of_runes rs).

(** [len(string(runes[:i]))]. *)
Definition byte_len_prefix (rs : list Z) (i : nat) : Z :=
  Z.of_nat (length (bytes_of_runes (take i rs))).

(** [unicode.IsSpace]: the Latin-1 cases of the function, then the
    [White_Space] range table. *)
Definition IsSpace (r : Z) : bool :=
  if (0 <=? r) && (r <=? 255) then
    existsb (Z.eqb r) [9; 10; 11; 12; 13; 32; 133; 160]
  else
    (r =? 5760) || ((8192 <=? r) && (r <=? 8202)) || (r =? 8232) || (r =? 8233)
    || (r =? 8239) || (r =? 8287) || (r =? 12288).

End UTF8.

(** * The tokenizer pipeline (hftokenizer) *)

Module HFTokenizer.
Import UTF8.

(** [api.TokenSpan]. *)
Record TokenSpan : Type := mkSpan { Start : Z; End_ : Z }.

(** [api.EncodingResult]. *)
Record EncodingResult : Type := mkEncoding { IDs : list Z; Spans : list TokenSpan }.

(** The pre-tokenizer tree.  [PTFields] stands for the tags that end in
    [fieldsWithOffsets]: "Whitespace", "WhitespaceSplit", "Split" and
    every unknown tag.  "BertPreTokenizer" and "Punctuation", which need
    the Unicode punctuation tables, are not embedded. *)
Inductive PreTokenizer : Type :=
  | PTFields
  | PTByteLevel (AddPrefixSpace : bool)
  | PTMetaspace (AddPrefixSpace : bool)
  | PTSequence (PreTokenizers : list PreTokenizer).

Record Model : Type := mkModel {
  Type_ : string;
  Vocab : gmap string Z;
  Merges : list string;
  UnkToken : string;
  ContinuingSubwordPrefix : string;
  MaxInputCharsPerWord : Z;
  EndOfWordSuffix : string
}.

Record AddedToken : Type := mkAddedToken {
  ID : Z;
  Content : string;
  Special : bool
}.

(** [TokenizerJSON], for descriptors whose ["normalizer"] is [null]. *)
Record TokenizerJSON : Type := mkTokenizerJSON {
  AddedTokens : list AddedToken;
  PreTokenizer_ : option PreTokenizer;
  Model_ : Model
}.

Record Tokenizer : Type := mkTokenizer {
  tokenizer : TokenizerJSON;
  mergeRanks : gmap string Z;
  unkID : Z;
  addedTokens : gmap string Z
}.

(** [resolveSpecialTokens], as far as [unkID] goes.  [cfgUnk] is
    [config.UnkToken] when a config is given. *)
Definition resolve_unk (tj : TokenizerJSON) (cfgUnk : option string) : Z :=
  let m := Model_ tj in
  let u0 :=
    if String.eqb (UnkToken m) "" then -1
    else default (-1) (Vocab m !! UnkToken m) in
  let u1 :=
    foldl (λ u at_,
             if Special at_ && (String.eqb (Content at_) "[UNK]" || String.eqb (Content at_) "<unk>")
             then ID at_ else u)
          u0 (AddedTokens tj) in
  match cfgUnk with
  | Some cu =>
      if (u1 =? -1) && negb (String.eqb cu "")
      then default u1 (Vocab m !! cu) else u1
  | None => u1
  end.

(** [NewFromContent], after the JSON has been parsed. *)
Definition NewFromContent (cfgUnk : option string) (tj : TokenizerJSON) : Tokenizer :=
  mkTokenizer tj
    (if String.eqb (Type_ (Model_ tj)) "BPE"
     then (foldl (λ acc merge, (<[merge := acc.2]> acc.1, acc.2 + 1)) (∅, 0) (Merges (Model_ tj))).1
     else ∅)
    (resolve_unk tj cfgUnk)
    (foldl (λ m at_, <[Content at_ := ID at_]> m) ∅ (AddedTokens tj)).

(** [wordWithOffset]. *)
Record wordWithOffset : Type := mkWord { text : string; start : Z; end_ : Z }.

(** [offsets[i]] for an index known to be in range. *)
Definition at_ (offsets : list Z) (i : Z) : Z := default 0 (offsets !! Z.to_nat i).

Definition last_plus_1 (offsets : list Z) : Z := at_ offsets (Z.of_nat (length offsets) - 1) + 1.

(** [normalizeWithSpans] for [Normalizer == nil]:
    [offsets := make([]int, len(text)); for i := range text { offsets[i] = i }].
    The [range] visits the first byte of every rune. *)
Definition normalizeWithSpans (s : string) : string * list Z :=
  (s, foldl (λ offsets ir, <[Z.to_nat ir.1 := ir.1]> offsets)
            (replicate (String.length s) 0) (range_string s)).

(** The loop state shared by the pre-tokenizers: [words], the builder
    [current] (its bytes) and [currentStart]. *)
Record pt_state : Type := mkPt {
  words : list wordWithOffset;
  current : list Z;
  currentStart : Z
}.

(** [fieldsWithOffsets]: one iteration, and the whole function. *)
Definition fields_step (textLen : Z) (normOffsets : list Z) (st : pt_state) (ir : Z * Z)
  : pt_state :=
  let '(i, r) := ir in
  if IsSpace r then
    if (0 <? Z.of_nat (length (current st))) then
      let origStart :=
        if currentStart st <? Z.of_nat (length normOffsets)
        then at_ normOffsets (currentStart st) else 0 in
      let origEnd :=
        if (i <=? Z.of_nat (length normOffsets)) && (0 <? i)
        then at_ normOffsets (i - 1) + 1 else textLen in
      mkPt (words st ++ [mkWord (string_of (current st)) origStart origEnd]) [] (-1)
    else st
  else
    mkPt (words st) (current st ++ EncodeRune r)
         (if currentStart st =? -1 then i else currentStart st).

Definition flush_tail (textLen : Z) (normOffsets : list Z) (st : pt_state)
  : list wordWithOffset :=
  if (0 <? Z.of_nat (length (current st))) then
    let origStart :=
      if (currentStart st <? Z.of_nat (length normOffsets))
      then at_ normOffsets (currentStart st) else 0 in
    let origEnd :=
      if (0 <? Z.of_nat (length normOffsets)) then last_plus_1 normOffsets else textLen in
    words st ++ [mkWord (string_of (current st)) origStart origEnd]
  else words st.

Definition fieldsWithOffsets (s : string) (normOffsets : list Z) : list wordWithOffset :=
  flush_tail (len s) normOffsets
    (foldl (fields_step (len s) normOffsets) (mkPt [] [] (-1)) (range_string s)).

(** [byteToUnicode[b]]. *)
Definition b2u (b : Z) : Z := default 0 (ByteLevel.byteToUnicode !! b).

(** [byteLevelPreTokenizeWithOffsets]: the state is [words], [current]
    and [currentOffsets]. *)
Record bl_state : Type := mkBl {
  bl_words : list wordWithOffset;
  bl_current : list Z;
  bl_offsets : list Z
}.

Definition bl_word (fallbackEnd : Z) (st : bl_state) : wordWithOffset :=
  if (0 <? Z.of_nat (length (bl_offsets st)))
  then mkWord (string_of (bl_current st)) (at_ (bl_offsets st) 0) (last_plus_1 (bl_offsets st))
  else mkWord (string_of (bl_current st)) 0 fallbackEnd.

Definition bl_step (normOffsets : list Z) (st : bl_state) (ir : Z * Z) : bl_state :=
  let '(i, r) := ir in
  let here := if i <? Z.of_nat (length normOffsets) then [at_ normOffsets i] else [] in
  if r =? 32 then
    let ws :=
      if (0 <? Z.of_nat (length (bl_current st)))
      then bl_words st ++ [bl_word i st] else bl_words st in
    let offs0 := if (0 <? Z.of_nat (length (bl_current st))) then [] else bl_offsets st in
    mkBl ws (EncodeRune (b2u 32)) (offs0 ++ here)
  else
    foldl (λ st' b, mkBl (bl_words st') (bl_current st' ++ EncodeRune (b2u b))
                         (bl_offsets st' ++ here))
          st (EncodeRune r).

Definition byteLevelPreTokenizeWithOffsets (s : string) (normOffsets : list Z)
  : list wordWithOffset :=
  let st := foldl (bl_step normOffsets) (mkBl [] [] []) (range_string s) in
  if (0 <? Z.of_nat (length (bl_current st)))
  then bl_words st ++ [bl_word (len s) st] else bl_words st.

(** The prefix space of "ByteLevel" and "Metaspace":
    [text = " " + text], and a new first offset 0. *)
Definition add_prefix_space (addPrefixSpace : bool) (s : string) (normOffsets : list Z)
  : string * list Z :=
  match s with
  | String c _ =>
      if addPrefixSpace && negb (Ascii.eqb c " ") then (String " " s, 0 :: normOffsets)
      else (s, normOffsets)
  | EmptyString => (s, normOffsets)
  end.

(** [metaspacePreTokenizeWithOffsets], after the prefix space. *)
Definition ms_step (normOffsets : list Z) (st : pt_state) (ir : Z * Z) : pt_state :=
  let '(i, r) := ir in
  if r =? 32 then
    let ws :=
      if (0 <? Z.of_nat (length (current st))) then
        let origStart :=
          if (currentStart st <? Z.of_nat (length normOffsets)) && (0 <=? currentStart st)
          then at_ normOffsets (currentStart st) else 0 in
        let origEnd :=
          if (0 <? i) && (i <=? Z.of_nat (length normOffsets))
          then at_ normOffsets (i - 1) + 1 else i in
        words st ++ [mkWord (string_of (current st)) origStart origEnd]
      else words st in
    mkPt ws (EncodeRune 9601) i
  else
    mkPt (words st) (current st ++ EncodeRune r)
         (if currentStart st =? -1 then i else currentStart st).

Definition ms_flush (textLen : Z) (normOffsets : list Z) (st : pt_state)
  : list wordWithOffset :=
  if (0 <? Z.of_nat (length (current st))) then
    let origStart :=
      if (currentStart st <? Z.of_nat (length normOffsets)) && (0 <=? currentStart st)
      then at_ normOffsets (currentStart st) else 0 in
    let origEnd :=
      if (0 <? Z.of_nat (length normOffsets)) then last_plus_1 normOffsets else textLen in
    words st ++ [mkWord (string_of (current st)) origStart origEnd]
  else words st.

Definition metaspacePreTokenizeWithOffsets (s : string) (normOffsets : list Z)
    (addPrefixSpace : bool) : list wordWithOffset :=
  let '(s1, offs1) := add_prefix_space addPrefixSpace s normOffsets in
  ms_flush (len s1) offs1 (foldl (ms_step offs1) (mkPt [] [] (-1)) (range_string s1)).

(** [subOffsets[i] = w.start + i] for [i < len(w.text)]. *)
Definition subOffsets (w : wordWithOffset) : list Z :=
  map (λ i, start w + Z.of_nat i) (seq 0 (String.length (text w))).

(** [applyPreTokenizerWithSpans]. *)
Fixpoint applyPreTokenizerWithSpans (pt : PreTokenizer) (s : string) (normOffsets : list Z)
  {struct pt} : list wordWithOffset :=
  match pt with
  | PTFields => fieldsWithOffsets s normOffsets
  | PTByteLevel addPrefixSpace =>
      let '(s1, offs1) := add_prefix_space addPrefixSpace s normOffsets in
      byteLevelPreTokenizeWithOffsets s1 offs1
  | PTMetaspace addPrefixSpace =>
      metaspacePreTokenizeWithOffsets s normOffsets addPrefixSpace
  | PTSequence children =>
      let first :=
        mkWord s 0 (if (0 <? Z.of_nat (length normOffsets))
                    then last_plus_1 normOffsets else len s) in
      (fix over (cs : list PreTokenizer) (result : list wordWithOffset)
         : list wordWithOffset :=
         match cs with
         | [] => result
         | child :: cs' =>
             over cs'
               (flat_map (λ w, applyPreTokenizerWithSpans child (text w) (subOffsets w))
                         result)
         end) children [first]
  end.

(** [preTokenizeWithSpans]. *)
Definition preTokenizeWithSpans (t : Tokenizer) (s : string) (normOffsets : list Z)
  : list wordWithOffset :=
  match PreTokenizer_ (tokenizer t) with
  | None => fieldsWithOffsets s normOffsets
  | Some pt => applyPreTokenizerWithSpans pt s normOffsets
  end.

(** ** The subword models *)

Definition tokens : Type := list Z * list TokenSpan.

(** [runes[lo:hi]] as a string. *)
Definition substr (runes : list Z) (lo hi : nat) : string :=
  string_of_runes (take (hi - lo) (drop lo runes)).

(** The span of [runes[lo:hi]] inside [word]:
    [word.start + len(string(runes[:lo]))], [word.start + len(string(runes[:hi]))]. *)
Definition sub_span (word : wordWithOffset) (runes : list Z) (lo hi : nat) : TokenSpan :=
  mkSpan (start word + byte_len_prefix runes lo) (start word + byte_len_prefix runes hi).

(** The exits [if t.unkID >= 0 { return unk, whole word }; return nil, nil]. *)
Definition unk_or_nothing (t : Tokenizer) (word : wordWithOffset) : tokens :=
  if 0 <=? unkID t then ([unkID t], [mkSpan (start word) (end_ word)]) else ([], []).

Definition wp_maxChars (t : Tokenizer) : Z :=
  let m := MaxInputCharsPerWord (Model_ (tokenizer t)) in
  if m =? 0 then 100 else m.

Definition wp_prefix (t : Tokenizer) : string :=
  let p := ContinuingSubwordPrefix (Model_ (tokenizer t)) in
  if String.eqb p "" then "##"%string else p.

(** The inner loop of [wordPieceTokenizeWithSpans],
    [for start < end { ...; end-- }], entered with [end = start + k]:
    the id found and the value of [end] at the [break]. *)
Fixpoint wp_match (t : Tokenizer) (runes : list Z) (start_ : nat) (k : nat)
  : option (Z * nat) :=
  match k with
  | O => None
  | S k' =>
      let e := (start_ + k)%nat in
      let s0 := substr runes start_ e in
      let s1 := if (0 <? start_)%nat then (wp_prefix t ++ s0)%string else s0 in
      match Vocab (Model_ (tokenizer t)) !! s1 with
      | Some id => Some (id, e)
      | None => wp_match t runes start_ k'
      end
  end.

(** The outer loop [for start < charLen]; every iteration moves [start]
    forward, [fuel] bounds the number of iterations. *)
Fixpoint wp_loop (t : Tokenizer) (word : wordWithOffset) (runes : list Z)
    (fuel : nat) (start_ : nat) (acc : tokens) : tokens :=
  match fuel with
  | O => acc
  | S fuel' =>
      if (start_ <? length runes)%nat then
        match wp_match t runes start_ (length runes - start_) with
        | None => unk_or_nothing t word
        | Some (id, e) =>
            wp_loop t word runes fuel' e
              (acc.1 ++ [id], acc.2 ++ [sub_span word runes start_ e])
        end
      else acc
  end.

(** [wordPieceTokenizeWithSpans]. *)
Definition wordPieceTokenizeWithSpans (t : Tokenizer) (word : wordWithOffset) : tokens :=
  if String.eqb (text word) "" then ([], [])
  else if wp_maxChars t <? len (text word) then unk_or_nothing t word
  else
    let runes := runes_of (text word) in
    wp_loop t word runes (length runes) 0 ([], []).

(** [symbolWithPos] of [bpeTokenizeWithSpans]. *)
Record symbolWithPos : Type := mkSym { sym_text : string; sym_start : nat; sym_end : nat }.

(** The scan for the best pair: [bestPair], [bestRank], [bestIdx]. *)
Fixpoint bpe_best (ranks : gmap string Z) (syms : list symbolWithPos) (i : nat)
    (best : option (string * Z * nat)) : option (string * Z * nat) :=
  match syms with
  | a :: ((b :: _) as tl) =>
      let pair := (sym_text a ++ " " ++ sym_text b)%string in
      let best' :=
        match ranks !! pair with
        | Some rank =>
            match best with
            | Some (_, bestRank, _) =>
                if (bestRank =? -1) || (rank <? bestRank) then Some (pair, rank, i) else best
            | None => Some (pair, rank, i)
            end
        | None => best
        end in
      bpe_best ranks tl (S i) best'
  | _ => best
  end.

(** [strings.Replace(s, " ", "", 1)]. *)
Fixpoint remove_first_space (s : string) : string :=
  match s with
  | EmptyString => EmptyString
  | String c tl => if Ascii.eqb c " " then tl else String c (remove_first_space tl)
  end.

(** The merge loop [for len(symbols) > 1]; every merge shortens the list. *)
Fixpoint bpe_merge (ranks : gmap string Z) (fuel : nat) (syms : list symbolWithPos)
  : list symbolWithPos :=
  match fuel with
  | O => syms
  | S fuel' =>
      if (1 <? length syms)%nat then
        match bpe_best ranks syms 0 None with
        | None => syms
        | Some (bestPair, _, bestIdx) =>
            match syms !! bestIdx, syms !! S bestIdx with
            | Some a, Some b =>
                bpe_merge ranks fuel'
                  (take bestIdx syms
                   ++ [mkSym (remove_first_space bestPair) (sym_start a) (sym_end b)]
                   ++ drop (bestIdx + 2) syms)
            | _, _ => syms
            end
        end
      else syms
  end.

Definition append_last (s : string) (syms : list symbolWithPos) : list symbolWithPos :=
  match reverse syms with
  | [] => []
  | l :: rest => reverse rest ++ [mkSym (sym_text l ++ s) (sym_start l) (sym_end l)]
  end.

(** [bpeTokenizeWithSpans]. *)
Definition bpeTokenizeWithSpans (t : Tokenizer) (word : wordWithOffset) : tokens :=
  if String.eqb (text word) "" then ([], [])
  else
    let m := Model_ (tokenizer t) in
    let runes := runes_of (text word) in
    let syms0 := imap (λ i r, mkSym (string_of_runes [r]) i (S i)) runes in
    let syms1 :=
      if negb (String.eqb (EndOfWordSuffix m) "") then append_last (EndOfWordSuffix m) syms0
      else syms0 in
    let single :=
      match syms1 with
      | [s] => (λ id, ([id], [mkSpan (start word) (end_ word)])) <$> (Vocab m !! sym_text s)
      | _ => None
      end in
    match single with
    | Some r => r
    | None =>
        let syms := bpe_merge (mergeRanks t) (length syms1) syms1 in
        foldl (λ (acc : tokens) sym,
                 let sp := sub_span word runes (sym_start sym) (sym_end sym) in
                 match Vocab m !! sym_text sym with
                 | Some id => (acc.1 ++ [id], acc.2 ++ [sp])
                 | None =>
                     if 0 <=? unkID t then (acc.1 ++ [unkID t], acc.2 ++ [sp]) else acc
                 end)
              ([], []) syms
    end.

(** The inner loop of [unigramTokenizeWithSpans], [for end > start]. *)
Fixpoint uni_match (t : Tokenizer) (runes : list Z) (start_ : nat) (k : nat)
  : option (Z * nat) :=
  match k with
  | O => None
  | S k' =>
      let e := (start_ + k)%nat in
      match Vocab (Model_ (tokenizer t)) !! substr runes start_ e with
      | Some id => Some (id, e)
      | None => uni_match t runes start_ k'
      end
  end.

Fixpoint uni_loop (t : Tokenizer) (word : wordWithOffset) (runes : list Z)
    (fuel : nat) (start_ : nat) (acc : tokens) : tokens :=
  match fuel with
  | O => acc
  | S fuel' =>
      if (start_ <? length runes)%nat then
        match uni_match t runes start_ (length runes - start_) with
        | Some (id, e) =>
            uni_loop t word runes fuel' e
              (acc.1 ++ [id], acc.2 ++ [sub_span word runes start_ e])
        | None =>
            let sp := sub_span word runes start_ (S start_) in
            let ids :=
              match Vocab (Model_ (tokenizer t)) !! substr runes start_ (S start_) with
              | Some id => acc.1 ++ [id]
              | None => if 0 <=? unkID t then acc.1 ++ [unkID t] else acc.1
              end in
            uni_loop t word runes fuel' (S start_) (ids, acc.2 ++ [sp])
        end
      else acc
  end.

Definition unigramTokenizeWithSpans (t : Tokenizer) (word : wordWithOffset) : tokens :=
  if String.eqb (text word) "" then ([], [])
  else
    let runes := runes_of (text word) in
    uni_loop t word runes (length runes) 0 ([], []).

(** [tokenizeWordWithSpans]. *)
Definition tokenizeWordWithSpans (t : Tokenizer) (word : wordWithOffset) : tokens :=
  match addedTokens t !! text word with
  | Some id => ([id], [mkSpan (start word) (end_ word)])
  | None =>
      let m := Model_ (tokenizer t) in
      if String.eqb (Type_ m) "WordPiece" then wordPieceTokenizeWithSpans t word
      else if String.eqb (Type_ m) "BPE" then bpeTokenizeWithSpans t word
      else if String.eqb (Type_ m) "Unigram" then unigramTokenizeWithSpans t word
      else
        match Vocab m !! text word with
        | Some id => ([id], [mkSpan (start word) (end_ word)])
        | None => unk_or_nothing t word
        end
  end.

(** [EncodeWithSpans]. *)
Definition EncodeWithSpans (t : Tokenizer) (s : string) : EncodingResult :=
  let '(normalized, normSpans) := normalizeWithSpans s in
  let ws := preTokenizeWithSpans t normalized normSpans in
  let r := foldl (λ (acc : tokens) word,
                    let '(wordIDs, wordSpans) := tokenizeWordWithSpans t word in
                    (acc.1 ++ wordIDs, acc.2 ++ wordSpans))
                 ([], []) ws in
  mkEncoding r.1 r.2.

(** [Encode]. *)
Definition Encode (t : Tokenizer) (s : string) : list Z := IDs (EncodeWithSpans t s).

(** [byteLevelDecode]: every rune of the text is mapped back through
    [unicodeToByte]; a rune that is not in the alphabet is kept as its
    UTF-8 bytes. *)
Definition byteLevelDecode (s : string) : string :=
  string_of
    (foldl (λ result ir,
              match ByteLevel.unicodeToByte !! ir.2 with
              | Some b => result ++ [b]
              | None => result ++ EncodeRune ir.2
              end)
           [] (range_string s)).

End HFTokenizer.

(** * The SentencePiece adapter *)

Module SentencePiece.
Import UTF8.

(** [esentencepiece.Token]. *)
Record Token : Type := mkToken { ID : Z; Text : string }.

(** The adapter wraps the external processor; all it uses of it here is
    [Processor.Encode]. *)
Record Tokenizer : Type := mkTokenizer {
  Processor_Encode : string → list Token
}.

Record TokenSpan : Type := mkSpan { Start : Z; End_ : Z }.
Record EncodingResult : Type := mkEncoding { IDs : list Z; Spans : list TokenSpan }.

(** [sliceMap]. *)
Definition sliceMap {In Out : Type} (l : list In) (fn : In → Out) : list Out :=
  foldl (λ out e, out ++ [fn e]) [] l.

(** [Encode]. *)
Definition Encode (p : Tokenizer) (s : string) : list Z :=
  sliceMap (Processor_Encode p s) ID.

(** [strings.Index] on byte sequences. *)
Fixpoint is_prefix (needle hay : list Z) : bool :=
  match needle, hay with
  | [], _ => true
  | n :: ns, h :: hs => (n =? h) && is_prefix ns hs
  | _ :: _, [] => false
  end.

Fixpoint Index (hay needle : list Z) : Z :=
  if is_prefix needle hay then 0
  else
    match hay with
    | [] => -1
    | _ :: tl => let i := Index tl needle in if i <? 0 then -1 else i + 1
    end.

(** [findSubstring]. *)
Definition findSubstring (s substr : list Z) (start : Z) : Z :=
  if Z.of_nat (length s) <=? start then -1
  else
    let idx := Index (drop (Z.to_nat start) s) substr in
    if idx <? 0 then -1 else start + idx.

(** The loop that passes over blanks:
    [for pos < len(text) && (text[pos] == ' ' || '\t' || '\n' || '\r') { pos++ }],
    on the bytes from [pos] on. *)
Fixpoint skip_blanks (rest : list Z) (pos : Z) : Z :=
  match rest with
  | b :: tl =>
      if (b =? 32) || (b =? 9) || (b =? 10) || (b =? 13) then skip_blanks tl (pos + 1) else pos
  | [] => pos
  end.

(** The state of the loop of [EncodeWithSpans]: the slices [ids] and
    [spans] filled so far, and [pos]. *)
Record loop_state : Type := mkLoop { l_ids : list Z; l_spans : list TokenSpan; l_pos : Z }.

Definition span_step (txt : list Z) (st : loop_state) (tok : Token) : loop_state :=
  let piece := bytes_of (Text tok) in
  let '(matchPiece, hasLeadingSpace) :=
    match piece with
    | 226 :: 150 :: 129 :: tl => (tl, true)
    | _ => (piece, false)
    end in
  let pos :=
    if hasLeadingSpace then skip_blanks (drop (Z.to_nat (l_pos st)) txt) (l_pos st)
    else l_pos st in
  let '(sp, pos') :=
    match matchPiece with
    | [] =>
        if hasLeadingSpace && (0 <? pos) then (mkSpan (pos - 1) pos, pos)
        else (mkSpan pos pos, pos)
    | _ =>
        let foundAt := findSubstring txt matchPiece pos in
        if 0 <=? foundAt then
          (mkSpan foundAt (foundAt + Z.of_nat (length matchPiece)),
           foundAt + Z.of_nat (length matchPiece))
        else
          let p1 := pos + Z.of_nat (length matchPiece) in
          let p2 := if Z.of_nat (length txt) <? p1 then Z.of_nat (length txt) else p1 in
          (mkSpan pos p2, p2)
    end in
  mkLoop (l_ids st ++ [ID tok]) (l_spans st ++ [sp]) pos'.

(** [EncodeWithSpans]. *)
Definition EncodeWithSpans (p : Tokenizer) (s : string) : EncodingResult :=
  let toks := Processor_Encode p s in
  let st := foldl (span_step (bytes_of s)) (mkLoop [] [] 0) toks in
  mkEncoding (l_ids st) (l_spans st).

End SentencePiece.

(** * WordPiece as the specification words it

    "With start=0: find the longest end in (start, L] such that
    word[start..end] (prefixed by the continuing-subword prefix when
    start>0) is in vocab.  Emit its id with the sub-span mapped back to
    byte offsets in the original segment range.  If no such end exists,
    emit unk with the whole-segment span and stop.  Otherwise set
    start=end and loop."  This definition follows these words; it is
    compared with the embedding of the source below. *)

Module WordPieceSpec.
Import UTF8 HFTokenizer.

(** word[s..e], prefixed when s > 0, and its id if it is in the vocabulary. *)
Definition piece (t : Tokenizer) (runes : list Z) (s e : nat) : string :=
  if (0 <? s)%nat then (wp_prefix t ++ substr runes s e)%string else substr runes s e.

Definition in_vocab (t : Tokenizer) (runes : list Z) (s e : nat) : option Z :=
  Vocab (Model_ (tokenizer t)) !! piece t runes s e.

(** The first end of a list of candidates whose piece is in the vocabulary. *)
Fixpoint first_match (t : Tokenizer) (runes : list Z) (s : nat) (ends : list nat)
  : option (nat * Z) :=
  match ends with
  | [] => None
  | e :: rest =>
      match in_vocab t runes s e with
      | Some id => Some (e, id)
      | None => first_match t runes s rest
      end
  end.

(** The ends L, L-1, ..., s+1, longest first. *)
Definition candidates (s L : nat) : list nat := reverse (seq (S s) (L - s)).

Definition longest_end (t : Tokenizer) (runes : list Z) (s : nat) : option (nat * Z) :=
  first_match t runes s (candidates s (length runes)).

(** The pieces (start, end, id) from [s] on; [None] when some start has
    no end in the vocabulary. *)
Fixpoint greedy (t : Tokenizer) (runes : list Z) (fuel : nat) (s : nat)
  : option (list (nat * nat * Z)) :=
  match fuel with
  | O => Some []
  | S fuel' =>
      if (s <? length runes)%nat then
        match longest_end t runes s with
        | None => None
        | Some (e, id) => cons (s, e, id) <$> greedy t runes fuel' e
        end
      else Some []
  end.

Definition greedy_tokens (t : Tokenizer) (word : wordWithOffset) : tokens :=
  let runes := runes_of (text word) in
  match greedy t runes (length runes) 0 with
  | None => unk_or_nothing t word
  | Some ps =>
      (map (λ p, p.2) ps, map (λ p, sub_span word runes p.1.1 p.1.2) ps)
  end.

End WordPieceSpec.

(** * The GGUF wire format, written

    The byte sequences that the readers of [GGUF] take apart: fixed-width
    little-endian integers, length-prefixed strings, typed arrays and
    tensor-info entries, as section 6 of the specification lays them out. *)

Module GGUFWire.

Definition encodeString (s : string) : list byte :=
  le_encode 8 (Z.of_nat (String.length s)) ++ list_byte_of_string s.

(** A scalar value and the tag under which it is stored.  Signed
    integers are stored in two's complement. *)
Definition encodeScalar (v : GGUF.Value) : list byte :=
  match v with
  | GGUF.VUint8 z => le_encode 1 z
  | GGUF.VInt8 z => le_encode 1 (z mod 2 ^ 8)
  | GGUF.VUint16 z => le_encode 2 z
  | GGUF.VInt16 z => le_encode 2 (z mod 2 ^ 16)
  | GGUF.VUint32 z => le_encode 4 z
  | GGUF.VInt32 z => le_encode 4 (z mod 2 ^ 32)
  | GGUF.VFloat32 bits => le_encode 4 bits
  | GGUF.VBool b => [if b then x01 else x00]
  | GGUF.VString s => encodeString s
  | GGUF.VUint64 z => le_encode 8 z
  | GGUF.VInt64 z => le_encode 8 (z mod 2 ^ 64)
  | GGUF.VFloat64 bits => le_encode 8 bits
  | GGUF.VSlice _ _ => []
  end.

(** [v] is a scalar of the type with tag [tag], within the range of
    that type; strings are within the 1 MiB bound. *)
Definition wf_scalar (tag : Z) (v : GGUF.Value) : Prop :=
  match v with
  | GGUF.VUint8 z => tag = GGUF.valueTypeUint8 ∧ 0 ≤ z < 2 ^ 8
  | GGUF.VInt8 z => tag = GGUF.valueTypeInt8 ∧ - 2 ^ 7 ≤ z < 2 ^ 7
  | GGUF.VUint16 z => tag = GGUF.valueTypeUint16 ∧ 0 ≤ z < 2 ^ 16
  | GGUF.VInt16 z => tag = GGUF.valueTypeInt16 ∧ - 2 ^ 15 ≤ z < 2 ^ 15
  | GGUF.VUint32 z => tag = GGUF.valueTypeUint32 ∧ 0 ≤ z < 2 ^ 32
  | GGUF.VInt32 z => tag = GGUF.valueTypeInt32 ∧ - 2 ^ 31 ≤ z < 2 ^ 31
  | GGUF.VFloat32 bits => tag = GGUF.valueTypeFloat32 ∧ 0 ≤ bits < 2 ^ 32
  | GGUF.VBool _ => tag = GGUF.valueTypeBool
  | GGUF.VString s => tag = GGUF.valueTypeString ∧ Z.of_nat (String.length s) ≤ 2 ^ 20
  | GGUF.VUint64 z => tag = GGUF.valueTypeUint64 ∧ 0 ≤ z < 2 ^ 64
  | GGUF.VInt64 z => tag = GGUF.valueTypeInt64 ∧ - 2 ^ 63 ≤ z < 2 ^ 63
  | GGUF.VFloat64 bits => tag = GGUF.valueTypeFloat64 ∧ 0 ≤ bits < 2 ^ 64
  | GGUF.VSlice _ _ => False
  end.

(** An array value: element type, count, elements. *)
Definition encodeArray (elemType : Z) (elems : list GGUF.Value) : list byte :=
  le_encode 4 elemType ++ le_encode 8 (Z.of_nat (length elems))
  ++ flat_map encodeScalar elems.

(** A tensor-info entry: name, number of dimensions, dimensions, type
    tag, offset. *)
Definition encodeTensorInfo (ti : GGUF.TensorInfo) : list byte :=
  encodeString (GGUF.Name ti)
  ++ le_encode 4 (Z.of_nat (length (GGUF.Shape ti)))
  ++ flat_map (le_encode 8) (GGUF.Shape ti)
  ++ le_encode 4 (GGUF.Type_ ti)
  ++ le_encode 8 (GGUF.Offset ti).

(** The fields of the entry fit their wire types; the type tag is any
    32-bit value. *)
Definition wf_tensor_info (ti : GGUF.TensorInfo) : Prop :=
  Z.of_nat (String.length (GGUF.Name ti)) ≤ 2 ^ 20
  ∧ Z.of_nat (length (GGUF.Shape ti)) < 2 ^ 32
  ∧ Forall (λ d, 0 ≤ d < 2 ^ 64) (GGUF.Shape ti)
  ∧ 0 ≤ GGUF.Type_ ti < 2 ^ 32
  ∧ 0 ≤ GGUF.Offset ti < 2 ^ 64.

End GGUFWire.

(** * Inputs used in the statements below *)


Definition f32_zero : GGUF.float32 := S754_zero false.

(** A single-file safetensors archive whose header declares one tensor
    't' of dtype F32 and shape [2] (8 bytes) with data_offsets [0, 4]
    (4 bytes).  The 54 header bytes are the JSON text
    {'t':{'dtype':'F32','shape':[2],'data_offsets':[0,4]}} (with double
    quotes); the data region holds the bytes 1..8. *)
Definition short_span_json : list byte :=
  [x7b; x22; x74; x22; x3a; x7b; x22; x64; x74; x79; x70; x65; x22; x3a; x22; x46;
   x33; x32; x22; x2c; x22; x73; x68; x61; x70; x65; x22; x3a; x5b; x32; x5d; x2c;
   x22; x64; x61; x74; x61; x5f; x6f; x66; x66; x73; x65; x74; x73; x22; x3a; x5b;
   x30; x2c; x34; x5d; x7d; x7d].

Definition short_span_file : list byte :=
  le_encode 8 54 ++ short_span_json ++ [x01; x02; x03; x04; x05; x06; x07; x08].

Definition short_span_meta : Safetensor.TensorMetadata :=
  Safetensor.mkTensorMetadata "t" "F32" [2] (0, 4).

Definition short_span_reader : Safetensor.MMapReader :=
  Safetensor.mkMMapReader short_span_file (8 + 54)
    (Safetensor.mkHeader {[ "t"%string := short_span_meta ]}).

(** Tokenizer descriptors.  [G_] is the image of the space byte in the
    byte-level alphabet (U+0120), [e_acute] is U+00E9 (two bytes). *)
Definition G_ : string := UTF8.string_of_runes [288].
Definition e_acute : string := UTF8.string_of_runes [233].

(** A byte-level BPE descriptor: no normalizer, a ByteLevel
    pre-tokenizer without prefix space, the vocabulary a = 0, G_ = 1,
    b = 2 and no merges. *)
Definition bytelevel_bpe : HFTokenizer.Tokenizer :=
  HFTokenizer.NewFromContent None
    (HFTokenizer.mkTokenizerJSON [] (Some (HFTokenizer.PTByteLevel false))
       (HFTokenizer.mkModel "BPE"
          (list_to_map [("a"%string, 0); (G_, 1); ("b"%string, 2)]) [] "" "" 0 "")).

(** A WordPiece descriptor with an unk token: no normalizer, no
    pre-tokenizer, the vocabulary a = 0, [UNK] = 1. *)
Definition wordpiece_unk : HFTokenizer.Tokenizer :=
  HFTokenizer.NewFromContent None
    (HFTokenizer.mkTokenizerJSON [] None
       (HFTokenizer.mkModel "WordPiece"
          (list_to_map [("a"%string, 0); ("[UNK]"%string, 1)]) [] "[UNK]" "" 0 "")).

(** A WordPiece descriptor without an unk token (unk_token is the empty
    string), the vocabulary a = 0. *)
Definition wordpiece_no_unk : HFTokenizer.Tokenizer :=
  HFTokenizer.NewFromContent None
    (HFTokenizer.mkTokenizerJSON [] None
       (HFTokenizer.mkModel "WordPiece" (list_to_map [("a"%string, 0)]) [] "" "" 0 "")).

(** A WordPiece descriptor that knows e_acute at the start of a word and
    as a continuation, [UNK] = 2. *)
Definition wordpiece_accents : HFTokenizer.Tokenizer :=
  HFTokenizer.NewFromContent None
    (HFTokenizer.mkTokenizerJSON [] None
       (HFTokenizer.mkModel "WordPiece"
          (list_to_map [(e_acute, 0); (("##" ++ e_acute)%string, 1); ("[UNK]"%string, 2)])
          [] "[UNK]" "" 0 "")).

(** A word of 101 letters a, and a word of 51 letters e_acute (102 bytes). *)
Definition word_101_a : HFTokenizer.wordWithOffset :=
  HFTokenizer.mkWord (UTF8.string_of_runes (replicate 101 97)) 0 101.
Definition word_51_e_acute : HFTokenizer.wordWithOffset :=
  HFTokenizer.mkWord (UTF8.string_of_runes (replicate 51 233)) 0 102.

(** The bound of the span property: [0 <= a <= b <= n]. *)
Definition span_in_bounds (n : Z) (sp : HFTokenizer.TokenSpan) : bool :=
  (0 <=? HFTokenizer.Start sp) && (HFTokenizer.Start sp <=? HFTokenizer.End_ sp)
  && (HFTokenizer.End_ sp <=? n).

(** The tags of the scalar types: every value type but the array. *)
Definition scalar_tags : list Z :=
  [GGUF.valueTypeUint8; GGUF.valueTypeInt8; GGUF.valueTypeUint16; GGUF.valueTypeInt16;
   GGUF.valueTypeUint32; GGUF.valueTypeInt32; GGUF.valueTypeFloat32; GGUF.valueTypeBool;
   GGUF.valueTypeString; GGUF.valueTypeUint64; GGUF.valueTypeInt64; GGUF.valueTypeFloat64].

(** A metadata pair with the key k whose value is an array with one
    element, itself an array with the single uint32 element 7:
    key, value tag 9, element tag 9, count 1, then the inner array
    (element tag 4, count 1, 7). *)
Definition nested_array_kv : list byte :=
  GGUFWire.encodeString "k"
  ++ le_encode 4 GGUF.valueTypeArray
  ++ le_encode 4 GGUF.valueTypeArray ++ le_encode 8 1
  ++ GGUFWire.encodeArray GGUF.valueTypeUint32 [GGUF.VUint32 7].

(** The same pair with the flat array of the single uint32 element 7. *)
Definition flat_array_kv : list byte :=
  GGUFWire.encodeString "k"
  ++ le_encode 4 GGUF.valueTypeArray
  ++ GGUFWire.encodeArray GGUF.valueTypeUint32 [GGUF.VUint32 7].

(** A GGUF file with two tensors: q, of the quantized type IQ4_NL that
    has no kernel, 32 elements at offset 0 (18 bytes), and w, of type
    F32 with 2 elements at offset 32.  The data region starts at byte 0
    of [two_tensor_data]. *)
Definition tensor_q : GGUF.TensorInfo := GGUF.mkTensorInfo "q" [32] GGUF.TensorTypeIQ4_NL 0.
Definition tensor_w : GGUF.TensorInfo := GGUF.mkTensorInfo "w" [2] GGUF.TensorTypeF32 32.

Definition two_tensor_data : list byte :=
  replicate 32 xff ++ [x01; x02; x03; x04; x05; x06; x07; x08].

Definition two_tensor_reader : GGUF.MMapReader :=
  GGUF.mkMMapReader two_tensor_data (GGUF.mkFile [tensor_q; tensor_w] 0).

(** Kernels that are never reached in the statements that use them. *)
Definition no_kernels : GGUF.kernels :=
  GGUF.mkKernels (λ _ _, None) (λ _ _, None) (λ _ _, None) (λ _ _, None)
                 (λ _ _, None) (λ _ _, None) (λ _ _, None) (λ _ _, None).

(** * Vocabulary for the iteration over a safetensors model *)

Module IterSpec.
Import Safetensor.

(** What the iterator does with one shard, as the consumer sees it: the
    mmap is opened, the items are yielded, the mmap is closed. *)
Definition block (g : string * list (string * Tensor)) : list event :=
  EvOpen g.1 :: map (λ it, EvYield it.1 it.2) g.2 ++ [EvClose g.1].

(** [data_offsets[0]] of a tensor in a header. *)
Definition offset_in (h : Header) (name : string) : Z :=
  default 0 ((λ meta, fst (DataOffsets meta)) <$> Tensors h !! name).

(** The reader of a shard, when the shard can be downloaded, parsed and
    mapped. *)
Definition shard_reader (E : Env) (filename : string) : option MMapReader :=
  match DownloadFile E filename with
  | Ok localPath =>
      match parseHeader E localPath with
      | Ok (h, dataOffset) =>
          match mmapOpen E localPath with
          | Ok data => Some (mkMMapReader data dataOffset h)
          | Err _ => None
          end
      | Err _ => None
      end
  | Err _ => None
  end.

(** What is assumed of the surroundings: [range] over a map enumerates
    its entries, each once, in some order; [slices.SortFunc] keeps its
    contract. *)
Definition good_env (E : Env) : Prop :=
  (∀ (V : Type) (m : gmap string V), range_map E V m ≡ₚ map_to_list m)
  ∧ sorts (SortFunc E).

(** The tensor [name] of the weight map can be read from its shard
    [filename]: the shard is downloaded, parsed and mapped, its header
    has the tensor (the invariant of the shard index) and the read
    succeeds. *)
Definition readable_from (E : Env) (name filename : string) : Prop :=
  ∃ localPath h dataOffset data,
    DownloadFile E filename = Ok localPath
    ∧ parseHeader E localPath = Ok (h, dataOffset)
    ∧ mmapOpen E localPath = Ok data
    ∧ is_Some (Tensors h !! name)
    ∧ is_ok (ReadTensor (mkMMapReader data dataOffset h) name) = true.

(** The property of one group of the iteration: the header of its shard
    has every yielded tensor, each item is what the reader of the shard
    reads under its name, and the tensors come in ascending order of
    [data_offsets[0]]. *)
Definition group_sorted (E : Env) (g : string * list (string * Tensor)) : Prop :=
  ∃ mr, shard_reader E g.1 = Some mr
        ∧ Forall (λ it, is_Some (Tensors (header mr) !! it.1)
                        ∧ ReadTensor mr it.1 = Ok it.2) g.2
        ∧ Sorted Z.le (map (λ it, offset_in (header mr) it.1) g.2).

End IterSpec.

(** The shard [sh] (file name, tensor names) of the weight map holds
    tensors, and each of them can be read from it. *)
Definition shard_readable (E : Safetensor.Env) (sh : string * list string) : Prop :=
  sh.2 ≠ [] ∧ Forall (λ n, IterSpec.readable_from E n sh.1) sh.2.

(** A sharded model as in scenario S7: two shards with three one-byte
    tensors each.  In shard a the tensors z, y, x lie at the offsets
    0, 1, 2; in shard b the tensors p, q, r.  A local path is the file
    name; [range] enumerates a map as [map_to_list] does; the sort is a
    merge sort on the offsets. *)
Definition u8_meta (name : string) (off : Z) : Safetensor.TensorMetadata :=
  Safetensor.mkTensorMetadata name "U8" [1] (off, off + 1).

Definition shard_a_header : Safetensor.Header :=
  Safetensor.mkHeader
    (list_to_map [("z"%string, u8_meta "z" 0); ("y"%string, u8_meta "y" 1);
                  ("x"%string, u8_meta "x" 2)]).

Definition shard_b_header : Safetensor.Header :=
  Safetensor.mkHeader
    (list_to_map [("p"%string, u8_meta "p" 0); ("q"%string, u8_meta "q" 1);
                  ("r"%string, u8_meta "r" 2)]).

(** A [slices.SortFunc]: the merge sort by "not less than the one
    before". *)
Definition not_less {A : Type} (cmp : A → A → Z) (a b : A) : Prop := ¬ cmp b a < 0.

Definition not_less_dec {A : Type} (cmp : A → A → Z) (a b : A)
  : Decision (not_less cmp a b) :=
  not_dec (Z_lt_dec (cmp b a) 0).

Definition merge_SortFunc : sort_func :=
  λ A cmp, @merge_sort A (not_less cmp) (not_less_dec cmp).

Definition two_shard_env : Safetensor.Env :=
  Safetensor.mkEnv
    (λ filename,
       if String.eqb filename "a.safetensors" || String.eqb filename "b.safetensors"
       then Ok filename else Err ErrIO)
    (λ localPath,
       if String.eqb localPath "a.safetensors" then Ok (shard_a_header, 0)
       else if String.eqb localPath "b.safetensors" then Ok (shard_b_header, 0)
       else Err ErrIO)
    (λ localPath,
       if String.eqb localPath "a.safetensors" then Ok [x0a; x0b; x0c]
       else if String.eqb localPath "b.safetensors" then Ok [x14; x15; x16]
       else Err ErrIO)
    (λ V m, map_to_list m)
    merge_SortFunc.

Definition two_shard_model : Safetensor.Model :=
  Safetensor.mkModel true
    (Some (list_to_map
             [("x"%string, "a.safetensors"%string); ("p"%string, "b.safetensors"%string);
              ("y"%string, "a.safetensors"%string); ("r"%string, "b.safetensors"%string);
              ("z"%string, "a.safetensors"%string); ("q"%string, "b.safetensors"%string)])).

Definition u8_tensor (b : byte) : Safetensor.Tensor :=
  Safetensor.mkTensor Safetensor.Uint8 [1] [b].

(** The checks of the byte-level alphabet, per byte and per entry of
    [unicodeToByte]. *)
Definition roundtrip_ok (b : Z) : bool :=
  match ByteLevel.byteToUnicode !! b with
  | Some r => bool_decide (ByteLevel.unicodeToByte !! r = Some b)
  | None => false
  end.

Definition fixed_ok (b : Z) : bool :=
  if ByteLevel.printable b then bool_decide (ByteLevel.byteToUnicode !! b = Some b) else true.

Definition back_ok (rb : Z * Z) : bool :=
  (0 <=? rb.2) && (rb.2 <? 256) && bool_decide (ByteLevel.byteToUnicode !! rb.2 = Some rb.1).

(** * GGUF: opening a file (parser, [Open]) and the metadata accessors *)

Module GGUFFile.

(** ** Accessors of [Value] (metadata.go)

    An accessor returns the zero value when the dynamic type of the
    value is not one of its cases. *)
Definition String_ (v : GGUF.Value) : string :=
  match v with GGUF.VString s => s | _ => ""%string end.

Definition Bool (v : GGUF.Value) : bool :=
  match v with GGUF.VBool b => b | _ => false end.

(** [Value.Int]: [int64(n)] of every integer type. *)
Definition Int (v : GGUF.Value) : Z :=
  match v with
  | GGUF.VInt8 n | GGUF.VInt16 n | GGUF.VInt32 n | GGUF.VInt64 n => n
  | GGUF.VUint8 n | GGUF.VUint16 n | GGUF.VUint32 n => n
  | GGUF.VUint64 n => wrap_i64 n
  | _ => 0
  end.

(** [Value.Uint]: [uint64(n)] of every integer type. *)
Definition Uint (v : GGUF.Value) : Z :=
  match v with
  | GGUF.VUint8 n | GGUF.VUint16 n | GGUF.VUint32 n | GGUF.VUint64 n => n
  | GGUF.VInt8 n | GGUF.VInt16 n | GGUF.VInt32 n | GGUF.VInt64 n => wrap_u64 n
  | _ => 0
  end.

(** ** The parsed file *)

(** [File].  A map field that is still [nil] is the empty map: a lookup
    in a [nil] map finds nothing. *)
Record File : Type := mkFile {
  Version : Z;
  Alignment : Z;
  KeyValues : list GGUF.KeyValue;
  TensorInfos : list GGUF.TensorInfo;
  kvByKey : gmap string GGUF.KeyValue;
  tensorByName : gmap string GGUF.TensorInfo;
  dataOffset : Z
}.

Definition getKV (f : File) (key : string) : option GGUF.KeyValue := kvByKey f !! key.

Definition GetKeyValue (f : File) (key : string) : option GGUF.KeyValue := getKV f key.

Definition GetTensorInfo (f : File) (name : string) : option GGUF.TensorInfo :=
  tensorByName f !! name.

Definition Architecture (f : File) : string :=
  match getKV f "general.architecture" with
  | None => ""%string
  | Some kv => String_ (GGUF.KValue kv)
  end.

Definition ListTensorNames (f : File) : list string := map GGUF.Name (TensorInfos f).

(** What the memory-mapped reader uses of the file. *)
Definition reader_file (f : File) : GGUF.File :=
  GGUF.mkFile (TensorInfos f) (dataOffset f).

(** ** [Open] *)

Definition ggufMagic : string := "GGUF".
Definition defaultAlignment : Z := 32.
Definition minSupportedVersion : Z := 2.

Inductive open_error : Type :=
  | InvalidMagic (magic : string)     (* "gguf: invalid magic %q, expected %q" *)
  | UnsupportedVersion (v : Z)        (* "gguf: unsupported version %d (minimum %d)" *)
  | ReadFailed (e : error)            (* the wrapped error of a reader *)
  | MakeFailed.                       (* make([]T, 0, count) does not return *)

(** The two loops "Build indexes". *)
Definition index_kvs (kvs : list GGUF.KeyValue) : gmap string GGUF.KeyValue :=
  foldl (λ m kv, <[GGUF.Key kv := kv]> m) ∅ kvs.

Definition index_infos (tis : list GGUF.TensorInfo) : gmap string GGUF.TensorInfo :=
  foldl (λ m ti, <[GGUF.Name ti := ti]> m) ∅ tis.

(** "Compute aligned data offset", on the file as it is at that point
    of [Open]: [KeyValues] and [TensorInfos] are filled, the two indexes
    are built only afterwards.  [n] is the count of bytes read so far;
    the arithmetic is in [uint64], the result is converted to [int64]. *)
Definition align (file : File) (n : Z) : Z * Z :=
  let alignment0 := defaultAlignment in
  let alignment :=
    match getKV file "general.alignment" with
    | Some kv => let a := Uint (GGUF.KValue kv) in if 0 <? a then a else alignment0
    | None => alignment0
    end in
  let offset := wrap_u64 n in
  (alignment,
   wrap_i64 (wrap_u64 (offset + wrap_u64 (alignment - offset mod alignment) mod alignment))).

(** [Open], on the content of the file.  [make_ok size count] tells
    whether [make([]T, 0, count)] returns for an element type of [size]
    bytes (32 for [KeyValue], 56 for [TensorInfo] on a 64-bit platform);
    otherwise the run-time system panics or runs out of memory. *)
Definition Open (make_ok : Z → Z → bool) (content : list byte) : File + open_error :=
  match GGUF.readFull 4 content with
  | Err e => inr (ReadFailed e)
  | Ok (magic, s1) =>
      if negb (String.eqb (string_of_list_byte magic) ggufMagic)
      then inr (InvalidMagic (string_of_list_byte magic))
      else
        match GGUF.readUint 4 s1 with
        | Err e => inr (ReadFailed e)
        | Ok (version, s2) =>
            if version <? minSupportedVersion then inr (UnsupportedVersion version)
            else
              match GGUF.readUint 8 s2 with
              | Err e => inr (ReadFailed e)
              | Ok (tensorCount, s3) =>
                  match GGUF.readUint 8 s3 with
                  | Err e => inr (ReadFailed e)
                  | Ok (kvCount, s4) =>
                      if negb (make_ok 32 kvCount) then inr MakeFailed
                      else
                        match GGUF.readN (Z.to_nat kvCount) GGUF.readKeyValue s4 with
                        | Err e => inr (ReadFailed e)
                        | Ok (kvs, s5) =>
                            if negb (make_ok 56 tensorCount) then inr MakeFailed
                            else
                              match GGUF.readN (Z.to_nat tensorCount) GGUF.readTensorInfo s5 with
                              | Err e => inr (ReadFailed e)
                              | Ok (tis, s6) =>
                                  let file := mkFile version 0 kvs tis ∅ ∅ 0 in
                                  let n := Z.of_nat (length content - length s6) in
                                  let '(alignment, off) := align file n in
                                  inl (mkFile version alignment kvs tis
                                         (index_kvs kvs) (index_infos tis) off)
                              end
                        end
                  end
              end
        end
  end.

End GGUFFile.

(** * The GGUF wire format of a whole header, written *)

Module GGUFFileWire.

(** The tag under which a value is stored. *)
Definition tag_of (v : GGUF.Value) : Z :=
  match v with
  | GGUF.VUint8 _ => GGUF.valueTypeUint8
  | GGUF.VInt8 _ => GGUF.valueTypeInt8
  | GGUF.VUint16 _ => GGUF.valueTypeUint16
  | GGUF.VInt16 _ => GGUF.valueTypeInt16
  | GGUF.VUint32 _ => GGUF.valueTypeUint32
  | GGUF.VInt32 _ => GGUF.valueTypeInt32
  | GGUF.VFloat32 _ => GGUF.valueTypeFloat32
  | GGUF.VBool _ => GGUF.valueTypeBool
  | GGUF.VString _ => GGUF.valueTypeString
  | GGUF.VUint64 _ => GGUF.valueTypeUint64
  | GGUF.VInt64 _ => GGUF.valueTypeInt64
  | GGUF.VFloat64 _ => GGUF.valueTypeFloat64
  | GGUF.VSlice _ _ => GGUF.valueTypeArray
  end.

Definition encodeValue (v : GGUF.Value) : list byte :=
  match v with
  | GGUF.VSlice elemType elems => GGUFWire.encodeArray elemType elems
  | _ => GGUFWire.encodeScalar v
  end.

(** A value that the format can hold: a scalar within the range of its
    type, or an array of scalars of one type. *)
Definition wf_value (v : GGUF.Value) : Prop :=
  match v with
  | GGUF.VSlice elemType elems =>
      elemType ∈ scalar_tags
      ∧ Forall (GGUFWire.wf_scalar elemType) elems
      ∧ Z.of_nat (length elems) < 2 ^ 64
  | _ => GGUFWire.wf_scalar (tag_of v) v
  end.

Definition encodeKeyValue (kv : GGUF.KeyValue) : list byte :=
  GGUFWire.encodeString (GGUF.Key kv)
  ++ le_encode 4 (tag_of (GGUF.KValue kv))
  ++ encodeValue (GGUF.KValue kv).

Definition wf_kv (kv : GGUF.KeyValue) : Prop :=
  Z.of_nat (String.length (GGUF.Key kv)) ≤ 2 ^ 20 ∧ wf_value (GGUF.KValue kv).

(** The header: magic, version, tensor count, pair count, the pairs,
    the tensor-info entries. *)
Definition encodeHeader (version : Z) (kvs : list GGUF.KeyValue)
    (tis : list GGUF.TensorInfo) : list byte :=
  list_byte_of_string GGUFFile.ggufMagic
  ++ le_encode 4 version
  ++ le_encode 8 (Z.of_nat (length tis))
  ++ le_encode 8 (Z.of_nat (length kvs))
  ++ flat_map encodeKeyValue kvs
  ++ flat_map GGUFWire.encodeTensorInfo tis.

(** The first multiple of 32 at or after [n]. *)
Definition align_up_32 (n : Z) : Z := 32 * ((n + 31) / 32).

End GGUFFileWire.

(** A header with two metadata pairs, one of them the key
    general.alignment with the uint32 value 64, and one tensor. *)
Definition kv_arch : GGUF.KeyValue :=
  GGUF.mkKeyValue "general.architecture" (GGUF.VString "llama").
Definition kv_align_64 : GGUF.KeyValue :=
  GGUF.mkKeyValue "general.alignment" (GGUF.VUint32 64).
Definition header_align_64 : list byte :=
  GGUFFileWire.encodeHeader 3 [kv_arch; kv_align_64] [tensor_w].

(** The allocator of a machine on which slices of up to 2^20 elements
    can be made. *)
Definition make_small (size count : Z) : bool := count <=? 2 ^ 20.

(** * Safetensors: access to single tensors of a model *)

Module SafetensorModel.
Import Safetensor.

(** [Model.GetTensorFilename]: [m.Index.WeightMap[tensorName]], without
    a check of [m.Index]; a nil index is a nil-pointer panic. *)
Definition GetTensorFilename (m : Model) (tensorName : string) : result string :=
  match Index m with
  | None => Err ErrPanic
  | Some weightMap =>
      match weightMap !! tensorName with
      | Some filename => Ok filename
      | None => Err ErrNotFound
      end
  end.

(** [Model.GetTensorFromFile]. *)
Definition GetTensorFromFile (E : Env) (m : Model) (filename tensorName : string)
  : result (string * Tensor) :=
  if negb (hasRepo m) then Err ErrNotLoaded
  else
    match Index m with
    | None => Err ErrNotLoaded
    | Some weightMap =>
        if (size weightMap =? 0)%nat then Err ErrNotLoaded
        else
          match DownloadFile E filename with
          | Err e => Err e
          | Ok localPath =>
              match parseHeader E localPath with
              | Err e => Err e
              | Ok (h, dataOffset) =>
                  match mmapOpen E localPath with
                  | Err e => Err e
                  | Ok data =>
                      match ReadTensor (mkMMapReader data dataOffset h) tensorName with
                      | Err e => Err e
                      | Ok tensor => Ok (tensorName, tensor)
                      end
                  end
              end
          end
    end.

(** [Model.GetTensor]. *)
Definition GetTensor (E : Env) (m : Model) (tensorName : string)
  : result (string * Tensor) :=
  match GetTensorFilename m tensorName with
  | Err e => Err e
  | Ok filename => GetTensorFromFile E m filename tensorName
  end.

(** The items that a run of the iterator hands to its consumer. *)
Definition yielded (trace : list event) : list (string * Tensor) :=
  omap (λ ev, match ev with EvYield name t => Some (name, t) | _ => None end) trace.

Definition is_error (ev : event) : bool :=
  match ev with EvError _ => true | _ => false end.

End SafetensorModel.

(** * GGUF: more of the block kernels and of the reader *)

Module GGUFKernels.
Import GGUF.

(** [binary.LittleEndian.Uint32(src[lo:lo+4])]. *)
Definition Uint32_at (src : list byte) (lo : nat) : option Z :=
  if (lo + 4 <=? length src)%nat then Some (le_decode (take 4 (drop lo src))) else None.

(** One iteration of the loop of [dequantQ5_0]; [qh] is a [uint32]. *)
Definition dequantQ5_0_step (qs : list byte) (qh : Z) (d : float32)
    (acc : option (list float32)) (j : nat) : option (list float32) :=
  dst ← acc;
  q ← qs !! j;
  let xh0 := Z.land (wrap_u32 (Z.shiftl (Z.shiftr qh (Z.of_nat j)) 4)) 16 in
  let xh1 := Z.land (Z.shiftr qh (Z.of_nat j + 12)) 16 in
  let x0 := Z.lor (Z.land (byteZ q) 15) xh0 - 16 in
  let x1 := Z.lor (Z.shiftr (byteZ q) 4) xh1 - 16 in
  dst1 ← store dst j (f32_mul (f32_of_int x0) d);
  store dst1 (j + 16) (f32_mul (f32_of_int x1) d).

Definition dequantQ5_0 : dequantFunc := λ src dst,
  h ← Uint16_at src 0;
  let d := float16ToFloat32 h in
  qh ← Uint32_at src 2;
  let qs := drop 6 src in
  foldl (dequantQ5_0_step qs qh d) (Some dst) (seq 0 16).

(** [getScaleMinK4]: the results are [uint8]; [None] is an index out of
    range. *)
Definition getScaleMinK4 (j : Z) (scales : list byte) : option (Z * Z) :=
  let at_ (i : Z) : option Z := if i <? 0 then None else byteZ <$> scales !! Z.to_nat i in
  if j <? 4 then
    a ← at_ j;
    b ← at_ (j + 4);
    Some (Z.land a 63, Z.land b 63)
  else
    a ← at_ (j + 4);
    b ← at_ (j - 4);
    c ← at_ j;
    Some (Z.lor (Z.land a 15) (Z.shiftl (Z.shiftr b 6) 4 mod 256),
          Z.lor (Z.shiftr a 4) (Z.shiftl (Z.shiftr c 6) 4 mod 256)).

(** [MMapReader.ReadTensorRaw]. *)
Definition ReadTensorRaw (mr : MMapReader) (tensorName : string)
  : result (list byte * TensorInfo) :=
  match GetTensorInfo (file mr) tensorName with
  | None => Err ErrNotFound
  | Some info =>
      let rawSize := NumBytes info in
      if rawSize <? 0 then Err ErrPanic
      else
        let buf := replicate (Z.to_nat rawSize) x00 in
        let tensorOffset := wrap_i64 (fileDataOffset (file mr) + wrap_i64 (Offset info)) in
        match ReadAt (reader mr) buf tensorOffset with
        | (buf', None) | (buf', Some ErrEOF) => Ok (buf', info)
        | (_, Some e) => Err e
        end
  end.

End GGUFKernels.

(** * The values of IEEE numbers, for the statements about [float16ToFloat32] *)

Module FloatValue.

(** What a bit pattern or a float stands for: a finite number, given by
    an integer [m] and an exponent [e] as [m * 2^e], an infinity, or
    not a number. *)
Inductive value : Type :=
  | Finite (neg : bool) (scaled : Z)     (* sign, magnitude times 2^149 *)
  | Infinite (neg : bool)
  | NotANumber.

(** The value of a float32, with the magnitude scaled by 2^149 (the
    least positive float32 is 2^-149). *)
Definition of_float32 (f : GGUF.float32) : value :=
  match f with
  | S754_zero s => Finite s 0
  | S754_finite s m e => Finite s (Z.pos m * 2 ^ (e + 149))
  | S754_infinity s => Infinite s
  | S754_nan => NotANumber
  end.

(** The value of an IEEE binary16 pattern: sign bit, five exponent bits
    with bias 15, ten fraction bits.  The magnitude is
    [fraction * 2^-24] for the exponent 0 and
    [(1024 + fraction) * 2^(exponent - 25)] for the exponents 1..30. *)
Definition of_half (bits : Z) : value :=
  let neg := bits / 32768 mod 2 =? 1 in
  let e := bits / 1024 mod 32 in
  let frac := bits mod 1024 in
  if e =? 31 then (if frac =? 0 then Infinite neg else NotANumber)
  else if e =? 0 then Finite neg (frac * 2 ^ 125)
  else Finite neg ((1024 + frac) * 2 ^ (e + 124)).

Definition value_eqb (a b : value) : bool :=
  match a, b with
  | Finite s x, Finite t y => Bool.eqb s t && (x =? y)
  | Infinite s, Infinite t => Bool.eqb s t
  | NotANumber, NotANumber => true
  | _, _ => false
  end.

(** The float is in the binary32 format: at most 24 bits of mantissa and
    an exponent within the range of the format. *)
Definition is_binary32 (f : GGUF.float32) : bool :=
  match f with
  | S754_finite _ m e => (Z.pos m <? 2 ^ 24) && (-149 <=? e) && (e <=? 104)
  | _ => true
  end.

Definition half_ok (bits : Z) : bool :=
  value_eqb (of_float32 (GGUF.float16ToFloat32 bits)) (of_half bits)
  && is_binary32 (GGUF.float16ToFloat32 bits).

End FloatValue.

(** * Finite checks on ranges of integers *)

(** [P i && P (i+1) && ...], [fuel] times. *)
Fixpoint all_from (P : Z → bool) (fuel : nat) (i : Z) : bool :=
  match fuel with
  | O => true
  | S k => P i && all_from P k (i + 1)
  end.

(** [l[i]] as a number, 0 out of range. *)
Definition byte_at (l : list byte) (i : nat) : Z := default 0 (byteZ <$> l !! i).

(** The bit [i] of [z], as 0 or 1. *)
Definition bit (z : Z) (i : Z) : Z := Z.b2z (Z.testbit z i).

(** The packing of [getScaleMinK4] for [j >= 4], on two bytes. *)
Definition scale_pair_ok (a b : Z) : bool :=
  (Z.lor (Z.land a 15) (Z.shiftl (Z.shiftr b 6) 4 mod 256) =? a mod 16 + 16 * (b / 64))
  && (Z.lor (Z.shiftr a 4) (Z.shiftl (Z.shiftr b 6) 4 mod 256) =? a / 16 + 16 * (b / 64)).

(** The fifth bit of [dequantQ5_0], on a byte. *)
Definition fifth_bit_ok (b : Z) : bool :=
  (Z.lor (Z.land b 15) 16 =? b mod 16 + 16) && (Z.lor (Z.land b 15) 0 =? b mod 16)
  && (Z.lor (Z.shiftr b 4) 16 =? b / 16 + 16) && (Z.lor (Z.shiftr b 4) 0 =? b / 16).

(** A Q8_0 block: the scale f16(0.5), then the bytes 2, 0xFE (-2) and
    thirty zero bytes; and a Q5_0 block with the same scale, the high
    bits 0x00010001 and sixteen bytes 0x10. *)
Definition q8_0_test_block : list byte := [x00; x38; x02; xfe] ++ replicate 30 x00.
Definition q5_0_test_block : list byte :=
  [x00; x38; x01; x00; x01; x00] ++ replicate 16 x10.
Definition k4_test_scales : list byte :=
  [x41; x02; x03; x04; x85; x06; x07; x08; xc9; x0a; x0b; x0c].

(** * GGUF: the model (one file) and its iterator *)

Module GGUFModel.

(** [Model]: [File] is nil or the opened file; [path] is the local path
    of the .gguf file. *)
Record Model : Type := mkModel {
  File_ : option GGUF.File;
  path : string
}.

(** What the model uses of its surroundings: [mmap.Open],
    [slices.SortFunc] and the block kernels. *)
Record Env : Type := mkEnv {
  mmapOpen : string → result (list byte);
  SortFunc : sort_func;
  K : GGUF.kernels
}.

(** What the consumer of the iterator sees, and the life of the mmap. *)
Inductive event : Type :=
  | EvOpen                                       (* NewMMapReader succeeded *)
  | EvClose                                      (* the deferred reader.Close() *)
  | EvYield (name : string) (t : GGUF.Tensor)    (* yield(TensorAndName{..}, nil) *)
  | EvError (e : error).                         (* yield(TensorAndName{}, err) *)

Definition consumer : Type := list (string * GGUF.Tensor) → bool.

(** [Model.GetTensor]. *)
Definition GetTensor (E : Env) (m : Model) (tensorName : string)
  : result (string * GGUF.Tensor) :=
  match File_ m with
  | None => Err ErrNotLoaded
  | Some f =>
      match mmapOpen E (path m) with
      | Err e => Err e
      | Ok data =>
          match GGUF.ReadTensor (K E) (GGUF.mkMMapReader data f) tensorName with
          | Err e => Err e
          | Ok t => Ok (tensorName, t)
          end
      end
  end.

(** The loop [for _, info := range sorted] of [IterTensors]. *)
Fixpoint read_all (E : Env) (mr : GGUF.MMapReader) (c : consumer)
    (infos : list GGUF.TensorInfo) (seen : list (string * GGUF.Tensor)) : list event :=
  match infos with
  | [] => []
  | info :: rest =>
      match GGUF.ReadTensor (K E) mr (GGUF.Name info) with
      | Err e => [EvError e]
      | Ok t =>
          let seen' := seen ++ [(GGUF.Name info, t)] in
          EvYield (GGUF.Name info) t :: (if c seen' then read_all E mr c rest seen' else [])
      end
  end.

(** The comparator that [IterTensors] hands to [slices.SortFunc]. *)
Definition cmp_info_offset (a b : GGUF.TensorInfo) : Z :=
  if GGUF.Offset a <? GGUF.Offset b then -1
  else if GGUF.Offset b <? GGUF.Offset a then 1
  else 0.

(** [Model.IterTensors], run against a consumer. *)
Definition IterTensors (E : Env) (m : Model) (c : consumer) : list event :=
  match File_ m with
  | None => [EvError ErrNotLoaded]
  | Some f =>
      match mmapOpen E (path m) with
      | Err e => [EvError e]
      | Ok data =>
          let sorted := SortFunc E _ cmp_info_offset (GGUF.TensorInfos f) in
          EvOpen :: read_all E (GGUF.mkMMapReader data f) c sorted [] ++ [EvClose]
      end
  end.

End GGUFModel.

(** The product of the dimensions of a shape. *)
Definition dims_product (dims : list Z) : Z := foldr Z.mul 1 dims.

(** A GGUF model on the two-tensor file, without the tensor of the
    unsupported type: the tensors v (F32, 1 element, offset 36) and w
    (F32, 2 elements, offset 32), listed in this order. *)
Definition tensor_v : GGUF.TensorInfo := GGUF.mkTensorInfo "v" [1] GGUF.TensorTypeF32 36.

Definition vw_env : GGUFModel.Env :=
  GGUFModel.mkEnv (λ _, Ok two_tensor_data)
    merge_SortFunc no_kernels.

Definition vw_model : GGUFModel.Model :=
  GGUFModel.mkModel (Some (GGUF.mkFile [tensor_v; tensor_w] 0)) "vw.gguf".

Definition vw_reader : GGUF.MMapReader :=
  GGUF.mkMMapReader two_tensor_data (GGUF.mkFile [tensor_v; tensor_w] 0).

(** * Spans that tile a range *)

(** The spans follow one another without a gap from [a] to [b], and
    none of them is empty. *)
Fixpoint tiles (a b : Z) (spans : list HFTokenizer.TokenSpan) : Prop :=
  match spans with
  | [] => a = b
  | sp :: rest =>
      HFTokenizer.Start sp = a ∧ a < HFTokenizer.End_ sp ∧ tiles (HFTokenizer.End_ sp) b rest
  end.

(** The count of bytes of [string(runes)] for the runes of a word. *)
Definition rune_bytes (s : string) : Z :=
  Z.of_nat (length (UTF8.bytes_of_runes (UTF8.runes_of s))).

(** A Unigram descriptor without an unk token: no normalizer, no
    pre-tokenizer, the vocabulary a = 0. *)
Definition unigram_no_unk : HFTokenizer.Tokenizer :=
  HFTokenizer.NewFromContent None
    (HFTokenizer.mkTokenizerJSON [] None
       (HFTokenizer.mkModel "Unigram" (list_to_map [("a"%string, 0)]) [] "" "" 0 "")).

(** * Texts of ASCII bytes *)

(** Every byte of the string is below 128. *)
Definition is_ascii (s : string) : Prop := Forall (λ b, 0 ≤ b < 128) (UTF8.bytes_of s).

(** The span lies within the first [n] bytes and is not empty. *)
Definition span_inside (n : Z) (sp : HFTokenizer.TokenSpan) : Prop :=
  0 ≤ HFTokenizer.Start sp ∧ HFTokenizer.Start sp < HFTokenizer.End_ sp
  ∧ HFTokenizer.End_ sp ≤ n.

(** * The tokenizer: the reverse vocabulary and [Decode] (hftokenizer) *)

Module HFDecode.
Import UTF8 HFTokenizer.

(** [t.idToToken], as [NewFromContent] fills it: first
    [for token, id := range tj.Model.Vocab { t.idToToken[id] = token }],
    where [order] is the order in which the [range] visits the map, then
    [t.idToToken[at.ID] = at.Content] for the added tokens in their order. *)
Definition idToToken (order : list (string * Z)) (tj : TokenizerJSON) : gmap Z string :=
  foldl (λ m at_, <[ID at_ := Content at_]> m)
        (foldl (λ m (kv : string * Z), <[kv.2 := kv.1]> m) ∅ order)
        (AddedTokens tj).

(** [TokenToID] and [IDToToken]; [None] is [ok == false]. *)
Definition TokenToID (t : Tokenizer) (token : string) : option Z :=
  match addedTokens t !! token with
  | Some id => Some id
  | None => Vocab (Model_ (tokenizer t)) !! token
  end.

Definition IDToToken (i2t : gmap Z string) (id : Z) : option string := i2t !! id.

(** [GetVocab]: the vocabulary, then the added tokens over it. *)
Definition GetVocab (tj : TokenizerJSON) : gmap string Z :=
  foldl (λ m at_, <[Content at_ := ID at_]> m) (Vocab (Model_ tj)) (AddedTokens tj).

(** Every pair of a token and an id that [NewFromContent] sees. *)
Definition entries (tj : TokenizerJSON) : list (string * Z) :=
  map_to_list (Vocab (Model_ tj)) ++ map (λ at_, (Content at_, ID at_)) (AddedTokens tj).

(** [strings.HasPrefix], [strings.TrimPrefix], [strings.HasSuffix],
    [strings.TrimSuffix] and [strings.Join(_, "")]. *)
Definition HasPrefix (s p : string) : bool := String.prefix p s.

Definition TrimPrefix (s p : string) : string :=
  if HasPrefix s p then String.substring (String.length p) (String.length s - String.length p) s
  else s.

Definition HasSuffix (s suffix : string) : bool :=
  (String.length suffix <=? String.length s)%nat
  && String.eqb (String.substring (String.length s - String.length suffix)
                                  (String.length suffix) s) suffix.

Definition TrimSuffix (s suffix : string) : string :=
  if HasSuffix s suffix then String.substring 0 (String.length s - String.length suffix) s
  else s.

Definition Join (tokens : list string) : string := String.concat "" tokens.

(** [strings.ReplaceAll(token, "▁", " ")]: U+2581 is the three
    bytes E2 96 81. *)
Fixpoint replace_metaspace (l : list Z) : list Z :=
  match l with
  | 226 :: 150 :: 129 :: tl2 => 32 :: replace_metaspace tl2
  | b :: tl => b :: replace_metaspace tl
  | [] => []
  end.

(** [strings.TrimLeft(s, " ")]. *)
Fixpoint TrimLeft_spaces (s : string) : string :=
  match s with
  | String c tl => if Ascii.eqb c " " then TrimLeft_spaces tl else s
  | EmptyString => s
  end.

(** [Decoder]: the fields that [applyDecoder] reads. *)
Inductive Decoder : Type :=
  | mkDecoder (Type_ : string) (Prefix : string) (Decoders : list Decoder).

Definition Decoder_Type (d : Decoder) : string := let 'mkDecoder ty _ _ := d in ty.
Definition Decoder_Prefix (d : Decoder) : string := let 'mkDecoder _ p _ := d in p.
Definition Decoder_Decoders (d : Decoder) : list Decoder := let 'mkDecoder _ _ ds := d in ds.

(** The loop shared by [defaultDecode] and [wordPieceDecode]: a token
    that starts with the prefix is glued to the text without it, another
    one is written after a space unless it is the first token. *)
Definition glue_step (prefix : string) (acc : nat * string) (token : string)
  : nat * string :=
  (S acc.1,
   if HasPrefix token prefix then (acc.2 ++ TrimPrefix token prefix)%string
   else ((if (0 <? acc.1)%nat then acc.2 ++ " " else acc.2) ++ token)%string).

Definition glue_pieces (prefix : string) (tokens : list string) : string :=
  (foldl (glue_step prefix) (0%nat, EmptyString) tokens).2.

Definition defaultDecode (t : Tokenizer) (tokens : list string) : string :=
  glue_pieces (wp_prefix t) tokens.

Definition wordPieceDecode (d : Decoder) (tokens : list string) : string :=
  glue_pieces (if String.eqb (Decoder_Prefix d) "" then "##"%string else Decoder_Prefix d) tokens.

(** The method [byteLevelDecode] of the tokenizer. *)
Definition byteLevelDecode_tokens (tokens : list string) : string :=
  byteLevelDecode (Join tokens).

Definition metaspaceDecode (tokens : list string) : string :=
  TrimLeft_spaces
    (foldl (λ result token, (result ++ string_of (replace_metaspace (bytes_of token)))%string)
           EmptyString tokens).

Definition bpeDecode (t : Tokenizer) (tokens : list string) : string :=
  let suffix := EndOfWordSuffix (Model_ (tokenizer t)) in
  (foldl (λ (acc : nat * string) token,
            (S acc.1,
             if negb (String.eqb suffix "") && HasSuffix token suffix then
               let r := (acc.2 ++ TrimSuffix token suffix)%string in
               if (Z.of_nat acc.1 <? Z.of_nat (length tokens) - 1) then (r ++ " ")%string else r
             else (acc.2 ++ token)%string))
         (0%nat, EmptyString) tokens).2.

(** [applyDecoderStep]: every case of its [switch] returns the tokens as
    they came (the "Replace" case as a copy). *)
Definition applyDecoderStep (tokens : list string) (d : Decoder) : list string := tokens.

(** [applyDecoder]; [decoder] is [t.tokenizer.Decoder]. *)
Definition applyDecoder (t : Tokenizer) (decoder : option Decoder) (tokens : list string)
  : string :=
  match decoder with
  | None => defaultDecode t tokens
  | Some d =>
      if String.eqb (Decoder_Type d) "WordPiece" then wordPieceDecode d tokens
      else if String.eqb (Decoder_Type d) "ByteLevel" then byteLevelDecode_tokens tokens
      else if String.eqb (Decoder_Type d) "Metaspace" then metaspaceDecode tokens
      else if String.eqb (Decoder_Type d) "BPEDecoder" then bpeDecode t tokens
      else if String.eqb (Decoder_Type d) "Sequence"
      then Join (foldl applyDecoderStep tokens (Decoder_Decoders d))
      else defaultDecode t tokens
  end.

(** [Decode]: the ids that [idToToken] does not know are passed over. *)
Definition Decode (t : Tokenizer) (i2t : gmap Z string) (decoder : option Decoder)
    (ids : list Z) : string :=
  applyDecoder t decoder (omap (λ id, i2t !! id) ids).

End HFDecode.

(** No byte of the string is a space. *)
Fixpoint no_space (s : string) : bool :=
  match s with
  | EmptyString => true
  | String c tl => negb (Ascii.eqb c " ") && no_space tl
  end.

(** The text behind a string: [string([]rune(s))], which is [s] with
    every byte that is not part of a well-formed UTF-8 sequence replaced
    by U+FFFD. *)
Definition valid_text (s : string) : string := UTF8.string_of_runes (UTF8.runes_of s).

(** The byte-level decoder of a tokenizer descriptor. *)
Definition byte_level_decoder : HFDecode.Decoder := HFDecode.mkDecoder "ByteLevel" "" [].

(** [idToToken] gives back the token of every id of the vocabulary and
    of the added tokens. *)
Definition inverts (t : HFTokenizer.Tokenizer) (i2t : gmap Z string) : Prop :=
  ∀ tok id,
    HFTokenizer.addedTokens t !! tok = Some id
    ∨ HFTokenizer.Vocab (HFTokenizer.Model_ (HFTokenizer.tokenizer t)) !! tok = Some id →
    i2t !! id = Some tok.

(** The vocabulary holds the result of every merge. *)
Definition merges_known (t : HFTokenizer.Tokenizer) : Prop :=
  ∀ pair rank,
    HFTokenizer.mergeRanks t !! pair = Some rank →
    is_Some (HFTokenizer.Vocab (HFTokenizer.Model_ (HFTokenizer.tokenizer t))
             !! HFTokenizer.remove_first_space pair).

(** A symbol of the merge loop that has no space and is in the vocabulary. *)
Definition sym_known (V : gmap string Z) (sym : HFTokenizer.symbolWithPos) : Prop :=
  no_space (HFTokenizer.sym_text sym) = true ∧ is_Some (V !! HFTokenizer.sym_text sym).

(** [p] is the key of the symbols at [j] and [j + 1], and a merge. *)
Definition pair_at (ranks : gmap string Z) (all : list HFTokenizer.symbolWithPos)
    (p : string) (j : nat) : Prop :=
  ∃ a b, all !! j = Some a ∧ all !! S j = Some b
         ∧ p = (HFTokenizer.sym_text a ++ " " ++ HFTokenizer.sym_text b)%string
         ∧ is_Some (ranks !! p).

(** The state of the byte-level pre-tokenizer after the bytes [done]:
    the words and the builder spell, in the byte-level alphabet, a
    split of [done]. *)
Definition bl_inv (st : HFTokenizer.bl_state) (done : list Z) : Prop :=
  ∃ (bss : list (list Z)) (cur : list Z),
    Forall2 (λ w bs, HFTokenizer.text w = UTF8.string_of_runes (map HFTokenizer.b2u bs))
            (HFTokenizer.bl_words st) bss
    ∧ HFTokenizer.bl_current st = UTF8.bytes_of_runes (map HFTokenizer.b2u cur)
    ∧ concat bss ++ cur = done.

(** The text that the "ByteLevel" pre-tokenizer splits: [s], or [s]
    after a space when the prefix space is asked for and [s] does not
    start with one. *)
Definition byte_level_text (f : bool) (s : string) : string :=
  (HFTokenizer.add_prefix_space f s (HFTokenizer.normalizeWithSpans s).2).1.

(** A byte-level BPE descriptor with a merge: the vocabulary a = 0,
    G_ = 1, b = 2, ab = 3 and the merge of a and b. *)
Definition bytelevel_merge_json : HFTokenizer.TokenizerJSON :=
  HFTokenizer.mkTokenizerJSON [] (Some (HFTokenizer.PTByteLevel false))
    (HFTokenizer.mkModel "BPE"
       (list_to_map [("a"%string, 0); (G_, 1); ("b"%string, 2); ("ab"%string, 3)])
       ["a b"%string] "" "" 0 "").

Definition bytelevel_merge : HFTokenizer.Tokenizer :=
  HFTokenizer.NewFromContent None bytelevel_merge_json.

(** A descriptor whose added tokens repeat a pair of the vocabulary and
    add a new one. *)
Definition added_json : HFTokenizer.TokenizerJSON :=
  HFTokenizer.mkTokenizerJSON
    [HFTokenizer.mkAddedToken 2 "[UNK]" true; HFTokenizer.mkAddedToken 3 "<s>" true]
    None
    (HFTokenizer.mkModel "WordPiece"
       (list_to_map [("a"%string, 0); ("##b"%string, 1); ("[UNK]"%string, 2)])
       [] "[UNK]" "" 0 "").

(** Two pairs of a token and an id agree: the same token exactly when
    the same id. *)
Definition pairs_agree (x y : string * Z) : bool :=
  Bool.eqb (String.eqb x.1 y.1) (x.2 =? y.2).

(** A Unicode scalar value: a code point that is not a surrogate. *)
Definition valid_rune (r : Z) : Prop := 0 ≤ r ≤ 1114111 ∧ ¬ (55296 ≤ r ≤ 57343).

(** A word made of the runes [rs], none of them a space, all from [S]. *)
Definition word_of (S : list Z) (w : HFTokenizer.wordWithOffset) : Prop :=
  ∃ rs, HFTokenizer.text w = UTF8.string_of_runes rs ∧ rs ≠ []
        ∧ Forall (λ r, valid_rune r ∧ UTF8.IsSpace r = false ∧ r ∈ S) rs.

(** The state of [fieldsWithOffsets]: words made of runes of [S], and a
    builder that holds such runes. *)
Definition fields_state (S : list Z) (st : HFTokenizer.pt_state) : Prop :=
  Forall (word_of S) (HFTokenizer.words st)
  ∧ ∃ cur, HFTokenizer.current st = UTF8.bytes_of_runes cur
           ∧ Forall (λ r, valid_rune r ∧ UTF8.IsSpace r = false ∧ r ∈ S) cur.

(** The strings of a list, one after the other. *)
Definition cat (l : list string) : string := foldr String.append EmptyString l.

(** The tokens [toks] are the pieces of [txt]: a first piece as it is,
    then the next ones behind the prefix. *)
Definition pieces_of (prefix : string) (toks : list string) (txt : string) : Prop :=
  ∃ p0 ps, toks = p0 :: map (String.append prefix) ps ∧ (p0 +:+ cat ps) = txt.

(** The vocabulary holds the rune as a word of its own and as a
    continuation. *)
Definition rune_known (t : HFTokenizer.Tokenizer) (r : Z) : Prop :=
  is_Some (HFTokenizer.Vocab (HFTokenizer.Model_ (HFTokenizer.tokenizer t))
           !! UTF8.string_of_runes [r])
  ∧ is_Some (HFTokenizer.Vocab (HFTokenizer.Model_ (HFTokenizer.tokenizer t))
             !! (HFTokenizer.wp_prefix t +:+ UTF8.string_of_runes [r])).

(** The decoder is absent, or a "WordPiece" decoder with the prefix of
    the model: both glue the pieces with the prefix [wp_prefix]. *)
Definition glues_with_model_prefix (t : HFTokenizer.Tokenizer)
    (decoder : option HFDecode.Decoder) : Prop :=
  match decoder with
  | None => True
  | Some d =>
      HFDecode.Decoder_Type d = "WordPiece"%string
      ∧ (if String.eqb (HFDecode.Decoder_Prefix d) "" then "##"%string
         else HFDecode.Decoder_Prefix d) = HFTokenizer.wp_prefix t
  end.

(** A WordPiece descriptor with a decoder: the vocabulary a = 0, b = 1,
    ##a = 2, ##b = 3, ab = 4, ##ba = 5. *)
Definition wordpiece_ab_json : HFTokenizer.TokenizerJSON :=
  HFTokenizer.mkTokenizerJSON [] None
    (HFTokenizer.mkModel "WordPiece"
       (list_to_map [("a"%string, 0); ("b"%string, 1); ("##a"%string, 2);
                     ("##b"%string, 3); ("ab"%string, 4); ("##ba"%string, 5)])
       [] "" "" 0 "").

Definition wordpiece_ab : HFTokenizer.Tokenizer :=
  HFTokenizer.NewFromContent None wordpiece_ab_json.

Definition wordpiece_decoder : HFDecode.Decoder := HFDecode.mkDecoder "WordPiece" "##" [].

(** * GGUF: the header as [Open] reads it *)

(** A reader that takes its bytes from the front of the stream: what it
    leaves is a back part of what it was given. *)
Definition consumes {A : Type} (m : GGUF.Reader A) : Prop :=
  ∀ s a s', m s = Ok (a, s') → ∃ pre, s = pre ++ s'.

(** The reads of [Open], in their order and without the checks between
    them: the magic, the version, the two counts, the key-value pairs
    and the tensor infos.  What they take from the stream is what the
    counting reader of [Open] has counted at "Compute aligned data
    offset". *)
Definition read_header : GGUF.Reader (Z * list GGUF.KeyValue * list GGUF.TensorInfo) :=
  GGUF.bind (GGUF.readFull 4) (λ _,
  GGUF.bind (GGUF.readUint 4) (λ version,
  GGUF.bind (GGUF.readUint 8) (λ tensorCount,
  GGUF.bind (GGUF.readUint 8) (λ kvCount,
  GGUF.bind (GGUF.readN (Z.to_nat kvCount) GGUF.readKeyValue) (λ kvs,
  GGUF.bind (GGUF.readN (Z.to_nat tensorCount) GGUF.readTensorInfo) (λ tis,
  GGUF.ret (version, kvs, tis))))))).

(** * The tokenizer: the loop over the words

    The loop [for _, word := range words] of [EncodeWithSpans], on the
    words that normalization and pre-tokenization hand over, whatever
    normalizer and pre-tokenizer made them: the ids and the spans
    appended so far. *)
Definition tokenizeWords (t : HFTokenizer.Tokenizer) (words : list HFTokenizer.wordWithOffset)
  : HFTokenizer.tokens :=
  foldl (λ (acc : HFTokenizer.tokens) word,
           let '(wordIDs, wordSpans) := HFTokenizer.tokenizeWordWithSpans t word in
           (acc.1 ++ wordIDs, acc.2 ++ wordSpans))
        ([], []) words.

(** * Properties *)

(** ** Finite checks

    A property of every byte is checked on the list of the 256 bytes. *)
Lemma forallb_elem_of {A : Type} (P : A → bool) (l : list A) :
  forallb P l = true → ∀ x, x ∈ l → P x = true.
Proof.
  induction l as [|y l IH]; intros H x Hx.
  - by apply elem_of_nil in Hx.
  - simpl in H. apply andb_prop in H as [Hy Hl].
    apply elem_of_cons in Hx as [->|Hx]; [exact Hy | by apply IH].
Qed.

Lemma forallb_seqZ_bytes (P : Z → bool) :
  forallb P (seqZ 0 256) = true → ∀ b : Z, 0 ≤ b < 256 → P b = true.
Proof.
  intros H b Hb. apply (forallb_elem_of P _ H).
  apply elem_of_seqZ. lia.
Qed.

(** ** Element counts of 0-dimensional shapes *)




(** ** The byte-level alphabet *)

Lemma fixed_ok_all : forallb fixed_ok (seqZ 0 256) = true.
Proof. vm_compute. reflexivity. Qed.

Lemma roundtrip_ok_all : forallb roundtrip_ok (seqZ 0 256) = true.
Proof. vm_compute. reflexivity. Qed.

Lemma back_ok_all : forallb back_ok (map_to_list ByteLevel.unicodeToByte) = true.
Proof. vm_compute. reflexivity. Qed.

Lemma shifted_bytes_length : length ByteLevel.shifted_bytes = 68%nat.
Proof. vm_compute. reflexivity. Qed.

Lemma shifted_bytes_image :
  (λ b, ByteLevel.byteToUnicode !! b) <$> ByteLevel.shifted_bytes = Some <$> seqZ 256 68.
Proof. vm_compute. reflexivity. Qed.

Lemma byteToUnicode_size : size ByteLevel.byteToUnicode = 256%nat.
Proof. vm_compute. reflexivity. Qed.

Lemma unicodeToByte_size : size ByteLevel.unicodeToByte = 256%nat.
Proof. vm_compute. reflexivity. Qed.

Lemma fixed_ok_spec (b : Z) :
  fixed_ok b = true → ByteLevel.printable b = true → ByteLevel.byteToUnicode !! b = Some b.
Proof.
  unfold fixed_ok. intros H Hp. rewrite Hp in H. by apply bool_decide_eq_true in H.
Qed.

Lemma roundtrip_ok_spec (b : Z) :
  roundtrip_ok b = true →
  ∃ r, ByteLevel.byteToUnicode !! b = Some r ∧ ByteLevel.unicodeToByte !! r = Some b.
Proof.
  unfold roundtrip_ok. intros H.
  destruct (ByteLevel.byteToUnicode !! b) as [r|]; [|discriminate].
  exists r. split; [reflexivity|]. by apply bool_decide_eq_true in H.
Qed.

Lemma back_ok_spec (r b : Z) :
  back_ok (r, b) = true → 0 ≤ b < 256 ∧ ByteLevel.byteToUnicode !! b = Some r.
Proof.
  unfold back_ok. cbn [fst snd]. intros H.
  apply andb_prop in H as [H H3]. apply andb_prop in H as [H1 H2].
  apply bool_decide_eq_true in H3. split; [lia | exact H3].
Qed.

(** C9: the byte-level alphabet is a bijection between the bytes 0..255
    and 256 code points.  The bytes of the three printable ranges map to
    themselves; the 68 others map, in ascending order, to the code points
    256, 257, ..., 323; [unicodeToByte] after [byteToUnicode] is the
    identity on every byte, and [unicodeToByte] has no other entries. *)
Theorem byte_level_alphabet_bijection :
  (∀ b : Z, 0 ≤ b < 256 → ByteLevel.printable b = true →
     ByteLevel.byteToUnicode !! b = Some b)
  ∧ length ByteLevel.shifted_bytes = 68%nat
  ∧ (λ b, ByteLevel.byteToUnicode !! b) <$> ByteLevel.shifted_bytes = Some <$> seqZ 256 68
  ∧ (∀ b : Z, 0 ≤ b < 256 →
       ∃ r, ByteLevel.byteToUnicode !! b = Some r ∧ ByteLevel.unicodeToByte !! r = Some b)
  ∧ (∀ r b : Z, ByteLevel.unicodeToByte !! r = Some b →
       0 ≤ b < 256 ∧ ByteLevel.byteToUnicode !! b = Some r)
  ∧ size ByteLevel.byteToUnicode = 256%nat
  ∧ size ByteLevel.unicodeToByte = 256%nat.
Proof.
  split_and!.
  - intros b Hb. apply fixed_ok_spec.
    exact (forallb_seqZ_bytes fixed_ok fixed_ok_all b Hb).
  - exact shifted_bytes_length.
  - exact shifted_bytes_image.
  - intros b Hb. apply roundtrip_ok_spec.
    exact (forallb_seqZ_bytes roundtrip_ok roundtrip_ok_all b Hb).
  - intros r b H. apply back_ok_spec.
    apply (forallb_elem_of back_ok _ back_ok_all (r, b)).
    apply elem_of_map_to_list. exact H.
  - exact byteToUnicode_size.
  - exact unicodeToByte_size.
Qed.

Lemma byte_level_alphabet_bijection_witness :
  ByteLevel.byteToUnicode !! 65 = Some 65
  ∧ (∃ r, ByteLevel.byteToUnicode !! 32 = Some r ∧ ByteLevel.unicodeToByte !! r = Some 32)
  ∧ (0 ≤ 32 < 256 ∧ ByteLevel.byteToUnicode !! 32 = Some 288).
Proof.
  pose proof byte_level_alphabet_bijection as (Hfix & _ & _ & Hrt & Hback & _ & _).
  split; [|split].
  - apply Hfix; [lia | reflexivity].
  - apply Hrt. lia.
  - apply Hback. vm_compute. reflexivity.
Defined.

(** ** The SentencePiece adapter: ids of the two encoders *)

Lemma sliceMap_map {A B : Type} (fn : A → B) (l : list A) (acc : list B) :
  foldl (λ out e, out ++ [fn e]) acc l = acc ++ map fn l.
Proof.
  revert acc. induction l as [|x l IH]; intros acc; simpl.
  - by rewrite app_nil_r.
  - rewrite IH. by rewrite <- app_assoc.
Qed.

Lemma span_step_ids (txt : list Z) (st : SentencePiece.loop_state) (tok : SentencePiece.Token) :
  SentencePiece.l_ids (SentencePiece.span_step txt st tok)
  = SentencePiece.l_ids st ++ [SentencePiece.ID tok].
Proof.
  unfold SentencePiece.span_step.
  repeat (match goal with
          | |- context [let '(_, _) := ?x in _] => destruct x eqn:?
          end).
  reflexivity.
Qed.

Lemma span_loop_ids (txt : list Z) (toks : list SentencePiece.Token)
    (st : SentencePiece.loop_state) :
  SentencePiece.l_ids (foldl (SentencePiece.span_step txt) st toks)
  = SentencePiece.l_ids st ++ map SentencePiece.ID toks.
Proof.
  revert st. induction toks as [|tok toks IH]; intros st; simpl.
  - by rewrite app_nil_r.
  - rewrite IH, span_step_ids. by rewrite <- app_assoc.
Qed.

(** C10: for the SentencePiece adapter, the ids of [EncodeWithSpans] are
    the ids of [Encode], element for element, for every processor and
    every input text: the span reconstruction adds, drops and reorders
    nothing. *)
Theorem sentencepiece_EncodeWithSpans_ids (p : SentencePiece.Tokenizer) (s : string) :
  SentencePiece.IDs (SentencePiece.EncodeWithSpans p s) = SentencePiece.Encode p s.
Proof.
  unfold SentencePiece.EncodeWithSpans, SentencePiece.Encode, SentencePiece.sliceMap.
  cbn [SentencePiece.IDs].
  rewrite span_loop_ids, sliceMap_map. reflexivity.
Qed.

(** ** Dequantization of a Q4_0 block *)

Lemma store_Some (dst : list GGUF.float32) (i : nat) (v : GGUF.float32) :
  (i < length dst)%nat → GGUF.store dst i v = Some (<[i := v]> dst).
Proof.
  intros H. unfold GGUF.store.
  destruct (Nat.ltb_spec i (length dst)); [reflexivity | lia].
Qed.




(** ** Safetensors: the size check of [ReadTensor] *)

Lemma Shape_Size_nonneg_from (dims : list Z) (acc : Z) :
  0 ≤ acc → Forall (λ d, 0 ≤ d) dims → 0 ≤ foldl Z.mul acc dims.
Proof.
  revert acc. induction dims as [|d dims IH]; intros acc Hacc Hd; simpl; [done|].
  inversion Hd; subst. apply IH; [nia | done].
Qed.

Lemma ReadAt_error (data p : list byte) (off : Z) (p' : list byte) (e : error) :
  ReadAt data p off = (p', Some e) → e = ErrIO ∨ e = ErrEOF.
Proof.
  unfold ReadAt. intros H.
  destruct ((off <? 0) || (Z.of_nat (length data) <? off)).
  - inversion H. by left.
  - destruct (_ <? _)%nat; inversion H. by right.
Qed.

(** The test [int64(len(data)) != expectedBytes] never holds: the buffer
    was allocated from the same shape and dtype.  No call of
    [ReadTensor] ends in the size-mismatch error. *)
Lemma ReadTensor_never_SizeMismatch (mr : Safetensor.MMapReader) (name : string) :
  Safetensor.ReadTensor mr name ≠ Err ErrSizeMismatch.
Proof.
  unfold Safetensor.ReadTensor.
  destruct (Safetensor.Tensors (Safetensor.header mr) !! name) as [meta|]; [|discriminate].
  destruct (Safetensor.dtypeToGoMLX (Safetensor.Dtype meta)) as [dtype|e] eqn:Hdt.
  - destruct (existsb (λ d, d <? 0) (Safetensor.Shape meta)) eqn:Hneg; [discriminate|].
    assert (Hd : Forall (λ d, 0 ≤ d) (Safetensor.Shape meta)).
    { rewrite Forall_forall. intros d Hin.
      destruct (Z.ltb_spec d 0) as [Hlt|]; [|done].
      assert (Hex : existsb (λ d, d <? 0) (Safetensor.Shape meta) = true).
      { apply existsb_exists. exists d. split; [by apply list_elem_of_In|].
        by apply Z.ltb_lt. }
      congruence. }
    cbn [Safetensor.FromShape Safetensor.t_bytes Safetensor.t_dims].
    rewrite length_replicate, Z2Nat.id.
    + rewrite Z.eqb_refl. cbn [negb].
      destruct (ReadAt _ _ _) as [p' [e|]] eqn:Hr; [|discriminate].
      apply ReadAt_error in Hr as [->| ->]; discriminate.
    + pose proof (Shape_Size_nonneg_from (Safetensor.Shape meta) 1 ltac:(lia) Hd).
      unfold Safetensor.Shape_Size. destruct dtype; cbn; lia.
  - unfold Safetensor.dtypeToGoMLX in Hdt.
    destruct (Safetensor.MapOfNames !! _); inversion Hdt. discriminate.
Qed.

(** C2 (the code at the failing input): the header gives the tensor 't'
    a span of 4 bytes while its dtype and shape need 8; [ReadTensor]
    reports no size mismatch and copies 8 bytes, the 4 bytes after the
    declared span included. *)
Theorem ReadTensor_ignores_data_offsets :
  Safetensor.SizeBytes short_span_meta = 4
  ∧ Safetensor.NumElements short_span_meta * Safetensor.DType_Size Safetensor.Float32 = 8
  ∧ Safetensor.ReadTensor short_span_reader "t"
    = Ok (Safetensor.mkTensor Safetensor.Float32 [2]
            [x01; x02; x03; x04; x05; x06; x07; x08]).
Proof. split_and!; vm_compute; reflexivity. Qed.

(** ** Spans of the tokenizer pipeline *)

(** C1 (the code at the failing input): with a byte-level BPE
    descriptor the input [a b] (3 bytes) is encoded with the spans
    (0,1), (1,3), (3,4); the last one ends after the input.  The word
    [G_ b] starts at byte 1 of the input, and the byte offsets added to
    it are those of the two-byte image of the space. *)
Theorem EncodeWithSpans_span_out_of_bounds :
  UTF8.len "a b" = 3
  ∧ HFTokenizer.EncodeWithSpans bytelevel_bpe "a b"
    = HFTokenizer.mkEncoding [0; 1; 2]
        [HFTokenizer.mkSpan 0 1; HFTokenizer.mkSpan 1 3; HFTokenizer.mkSpan 3 4]
  ∧ forallb (span_in_bounds (UTF8.len "a b"))
      (HFTokenizer.Spans (HFTokenizer.EncodeWithSpans bytelevel_bpe "a b")) = false.
Proof. split_and!; vm_compute; reflexivity. Qed.

(** A second way out of the bounds: without a normalizer the offsets of
    the continuation bytes of a rune stay 0, and the unknown word
    e_acute of the 4-byte input [a e_acute] gets the span (2,1). *)
Lemma EncodeWithSpans_span_start_after_end :
  HFTokenizer.normalizeWithSpans ("a " ++ e_acute) = (("a " ++ e_acute)%string, [0; 1; 2; 0])
  ∧ HFTokenizer.EncodeWithSpans wordpiece_unk ("a " ++ e_acute)
    = HFTokenizer.mkEncoding [0; 1] [HFTokenizer.mkSpan 0 1; HFTokenizer.mkSpan 2 1].
Proof. split; vm_compute; reflexivity. Qed.

(** ** WordPiece *)

Lemma candidates_S (s k : nat) :
  reverse (seq (S s) (S k)) = (s + S k)%nat :: reverse (seq (S s) k).
Proof.
  rewrite seq_S, reverse_app. simpl. f_equal. lia.
Qed.

(** The inner loop of the source is the search for the longest end. *)
Lemma wp_match_first_match (t : HFTokenizer.Tokenizer) (runes : list Z) (s k : nat) :
  HFTokenizer.wp_match t runes s k
  = (λ p, (p.2, p.1)) <$> WordPieceSpec.first_match t runes s (reverse (seq (S s) k)).
Proof.
  induction k as [|k IH].
  - reflexivity.
  - rewrite candidates_S.
    cbn [HFTokenizer.wp_match WordPieceSpec.first_match].
    unfold WordPieceSpec.in_vocab, WordPieceSpec.piece.
    destruct (HFTokenizer.Vocab _ !! _) as [id|]; [reflexivity | exact IH].
Qed.

(** The outer loop of the source, which appends to [ids] and [offsets],
    against the greedy segmentation. *)
Lemma wp_loop_greedy (t : HFTokenizer.Tokenizer) (word : HFTokenizer.wordWithOffset)
    (runes : list Z) (fuel s : nat) (acc : HFTokenizer.tokens) :
  HFTokenizer.wp_loop t word runes fuel s acc
  = match WordPieceSpec.greedy t runes fuel s with
    | None => HFTokenizer.unk_or_nothing t word
    | Some ps =>
        (acc.1 ++ map (λ p, p.2) ps,
         acc.2 ++ map (λ p, HFTokenizer.sub_span word runes p.1.1 p.1.2) ps)
    end.
Proof.
  revert s acc. induction fuel as [|fuel IH]; intros s acc.
  - simpl. rewrite !app_nil_r. by destruct acc.
  - cbn [HFTokenizer.wp_loop WordPieceSpec.greedy].
    destruct (s <? length runes)%nat.
    + unfold WordPieceSpec.longest_end, WordPieceSpec.candidates.
      rewrite wp_match_first_match.
      destruct (WordPieceSpec.first_match t runes s _) as [[e id]|]; simpl; [|reflexivity].
      rewrite IH. simpl.
      destruct (WordPieceSpec.greedy t runes fuel e) as [ps|]; simpl; [|reflexivity].
      by rewrite <- !app_assoc.
    + simpl. rewrite !app_nil_r. by destruct acc.
Qed.

(** What [first_match] returns is in the vocabulary, and every candidate
    before it is not. *)
Lemma first_match_Some (t : HFTokenizer.Tokenizer) (runes : list Z) (s : nat)
    (ends : list nat) (e : nat) (id : Z) :
  WordPieceSpec.first_match t runes s ends = Some (e, id) →
  ∃ before after, ends = before ++ e :: after
    ∧ WordPieceSpec.in_vocab t runes s e = Some id
    ∧ Forall (λ e', WordPieceSpec.in_vocab t runes s e' = None) before.
Proof.
  induction ends as [|e0 ends IH]; intros H; simpl in H; [discriminate|].
  destruct (WordPieceSpec.in_vocab t runes s e0) as [id0|] eqn:Hv.
  - inversion H; subst. exists [], ends. by split_and!.
  - destruct (IH H) as (before & after & -> & Hin & Hb).
    exists (e0 :: before), after. split_and!; [done | done | by constructor].
Qed.

Lemma first_match_None (t : HFTokenizer.Tokenizer) (runes : list Z) (s : nat)
    (ends : list nat) :
  WordPieceSpec.first_match t runes s ends = None →
  Forall (λ e', WordPieceSpec.in_vocab t runes s e' = None) ends.
Proof.
  induction ends as [|e0 ends IH]; intros H; simpl in H; [constructor|].
  destruct (WordPieceSpec.in_vocab t runes s e0) eqn:Hv; [discriminate|].
  constructor; [done | by apply IH].
Qed.

Lemma candidates_split (s L e : nat) (before after : list nat) :
  WordPieceSpec.candidates s L = before ++ e :: after →
  (s < e ≤ L)%nat ∧ ∀ e', (e < e' ≤ L)%nat → e' ∈ before.
Proof.
  unfold WordPieceSpec.candidates. intros H.
  assert (Hrev : seq (S s) (L - s) = reverse after ++ e :: reverse before).
  { rewrite <- (reverse_involutive (seq (S s) (L - s))), H.
    rewrite reverse_app, reverse_cons, <- app_assoc. reflexivity. }
  assert (He : e ∈ seq (S s) (L - s)).
  { rewrite Hrev. apply elem_of_app. right. by left. }
  apply elem_of_seq in He. split; [lia|].
  intros e' He'.
  assert (Hin : e' ∈ seq (S s) (L - s)) by (apply elem_of_seq; lia).
  rewrite Hrev in Hin.
  apply elem_of_app in Hin as [Hin|Hin].
  - exfalso.
    apply list_elem_of_lookup in Hin as [i Hi].
    pose proof (lookup_lt_Some _ _ _ Hi) as Hlt.
    assert (Hseq : seq (S s) (L - s) !! i = Some e').
    { rewrite Hrev. by rewrite lookup_app_l. }
    assert (Hseq2 : seq (S s) (L - s) !! length (reverse after) = Some e).
    { rewrite Hrev. rewrite lookup_app_r by lia.
      by rewrite Nat.sub_diag. }
    apply lookup_seq in Hseq as [-> _]. apply lookup_seq in Hseq2 as [-> _]. lia.
  - apply elem_of_cons in Hin as [->|Hin]; [lia|].
    rewrite elem_of_reverse in Hin. exact Hin.
Qed.

(** [longest_end] is the longest end in (start, L] whose piece is in the
    vocabulary, and there is none when it returns [None]. *)
Lemma longest_end_spec (t : HFTokenizer.Tokenizer) (runes : list Z) (s : nat) :
  match WordPieceSpec.longest_end t runes s with
  | Some (e, id) =>
      (s < e ≤ length runes)%nat
      ∧ WordPieceSpec.in_vocab t runes s e = Some id
      ∧ ∀ e', (e < e' ≤ length runes)%nat → WordPieceSpec.in_vocab t runes s e' = None
  | None =>
      ∀ e', (s < e' ≤ length runes)%nat → WordPieceSpec.in_vocab t runes s e' = None
  end.
Proof.
  unfold WordPieceSpec.longest_end.
  destruct (WordPieceSpec.first_match _ _ _ _) as [[e id]|] eqn:H.
  - apply first_match_Some in H as (before & after & Hc & Hin & Hb).
    apply candidates_split in Hc as [Hr Hlonger].
    split_and!; [lia | lia | done |].
    intros e' He'. rewrite Forall_forall in Hb. by apply Hb, Hlonger.
  - apply first_match_None in H. rewrite Forall_forall in H.
    intros e' He'. apply H. unfold WordPieceSpec.candidates.
    apply elem_of_reverse, elem_of_seq. lia.
Qed.

Lemma range_from_length (l : list Z) (i : Z) (skip : nat) :
  (length (UTF8.range_from i skip l) ≤ length l)%nat.
Proof.
  revert i skip. induction l as [|b l IH]; intros i skip; [simpl; lia|].
  cbn [UTF8.range_from]. destruct skip as [|k].
  - destruct (UTF8.DecodeRune (b :: l)) as [r w]. simpl.
    specialize (IH (i + 1) (Nat.pred w)). lia.
  - simpl. specialize (IH (i + 1) k). lia.
Qed.

Lemma bytes_of_length (s : string) : length (UTF8.bytes_of s) = String.length s.
Proof.
  unfold UTF8.bytes_of, list_byte_of_string. rewrite !length_map.
  induction s as [|c s IH]; simpl; [reflexivity | by rewrite IH].
Qed.

(** A string has at most as many runes as bytes. *)
Lemma runes_le_bytes (s : string) : Z.of_nat (length (UTF8.runes_of s)) ≤ UTF8.len s.
Proof.
  unfold UTF8.runes_of, UTF8.range_string, UTF8.len.
  rewrite length_map, <- bytes_of_length.
  pose proof (range_from_length (UTF8.bytes_of s) 0 0). lia.
Qed.

(** C3, as stated, fails when the descriptor has no unk token: a word
    of 101 characters, more than the default 100, yields no id at all. *)
Lemma wordPiece_long_word_without_unk :
  length (UTF8.runes_of (HFTokenizer.text word_101_a)) = 101%nat
  ∧ HFTokenizer.wp_maxChars wordpiece_no_unk = 100
  ∧ HFTokenizer.wordPieceTokenizeWithSpans wordpiece_no_unk word_101_a = ([], []).
Proof. split_and!; vm_compute; reflexivity. Qed.

(** C3 (amended): for every non-empty word segment whose character
    count exceeds max_input_chars_per_word (100 when the descriptor
    gives 0), WordPiece emits the single unk id with the span of the
    whole segment if the tokenizer has an unk id, and nothing otherwise;
    for every segment whose byte length is at most that bound it is the
    greedy longest-match-from-left over character substrings, with the
    continuing-subword prefix ([##] when the descriptor gives none) on
    every match that does not start at position 0. *)
Theorem wordPiece_unk_or_greedy (t : HFTokenizer.Tokenizer) (word : HFTokenizer.wordWithOffset) :
  (HFTokenizer.text word ≠ ""%string →
   HFTokenizer.wp_maxChars t < Z.of_nat (length (UTF8.runes_of (HFTokenizer.text word))) →
   HFTokenizer.wordPieceTokenizeWithSpans t word
   = if 0 <=? HFTokenizer.unkID t
     then ([HFTokenizer.unkID t],
           [HFTokenizer.mkSpan (HFTokenizer.start word) (HFTokenizer.end_ word)])
     else ([], []))
  ∧ (UTF8.len (HFTokenizer.text word) ≤ HFTokenizer.wp_maxChars t →
     HFTokenizer.wordPieceTokenizeWithSpans t word = WordPieceSpec.greedy_tokens t word)
  ∧ (HFTokenizer.MaxInputCharsPerWord (HFTokenizer.Model_ (HFTokenizer.tokenizer t)) = 0 →
     HFTokenizer.wp_maxChars t = 100)
  ∧ (HFTokenizer.ContinuingSubwordPrefix (HFTokenizer.Model_ (HFTokenizer.tokenizer t))
     = ""%string → HFTokenizer.wp_prefix t = "##"%string).
Proof.
  split_and!.
  - intros Hne Hlong. unfold HFTokenizer.wordPieceTokenizeWithSpans.
    destruct (String.eqb_spec (HFTokenizer.text word) ""); [done|].
    pose proof (runes_le_bytes (HFTokenizer.text word)).
    destruct (Z.ltb_spec (HFTokenizer.wp_maxChars t) (UTF8.len (HFTokenizer.text word)));
      [reflexivity | lia].
  - intros Hshort. unfold HFTokenizer.wordPieceTokenizeWithSpans.
    destruct (String.eqb_spec (HFTokenizer.text word) "") as [He|_].
    + unfold WordPieceSpec.greedy_tokens. rewrite He. reflexivity.
    + destruct (Z.ltb_spec (HFTokenizer.wp_maxChars t) (UTF8.len (HFTokenizer.text word)));
        [lia|].
      unfold WordPieceSpec.greedy_tokens. rewrite wp_loop_greedy.
      destruct (WordPieceSpec.greedy _ _ _ _); reflexivity.
  - intros H. unfold HFTokenizer.wp_maxChars. by rewrite H.
  - intros H. unfold HFTokenizer.wp_prefix. by rewrite H.
Qed.

Lemma wordPiece_unk_or_greedy_witness :
  HFTokenizer.wordPieceTokenizeWithSpans wordpiece_unk word_101_a
  = ([1], [HFTokenizer.mkSpan 0 101])
  ∧ HFTokenizer.wordPieceTokenizeWithSpans wordpiece_unk (HFTokenizer.mkWord "aa" 3 5)
    = WordPieceSpec.greedy_tokens wordpiece_unk (HFTokenizer.mkWord "aa" 3 5)
  ∧ HFTokenizer.wp_maxChars wordpiece_unk = 100
  ∧ HFTokenizer.wp_prefix wordpiece_unk = "##"%string.
Proof.
  split_and!.
  - apply (proj1 (wordPiece_unk_or_greedy wordpiece_unk word_101_a)).
    + vm_compute. discriminate.
    + vm_compute. reflexivity.
  - apply (proj1 (proj2 (wordPiece_unk_or_greedy wordpiece_unk (HFTokenizer.mkWord "aa" 3 5)))).
    vm_compute. discriminate.
  - apply (proj1 (proj2 (proj2 (wordPiece_unk_or_greedy wordpiece_unk word_101_a)))).
    reflexivity.
  - apply (proj2 (proj2 (proj2 (wordPiece_unk_or_greedy wordpiece_unk word_101_a)))).
    reflexivity.
Defined.

(** The bound is compared with the byte length of the segment: a word of
    51 characters in 102 bytes is taken for too long, although the
    greedy match covers it with 51 pieces. *)
Lemma wordPiece_counts_bytes :
  length (UTF8.runes_of (HFTokenizer.text word_51_e_acute)) = 51%nat
  ∧ UTF8.len (HFTokenizer.text word_51_e_acute) = 102
  ∧ HFTokenizer.wordPieceTokenizeWithSpans wordpiece_accents word_51_e_acute
    = ([2], [HFTokenizer.mkSpan 0 102])
  ∧ (WordPieceSpec.greedy_tokens wordpiece_accents word_51_e_acute).1
    = 0 :: replicate 50 1.
Proof. split_and!; vm_compute; reflexivity. Qed.

(** The greedy match on the scenario S2: [testing] is [test], [##ing]. *)
Example wordPiece_testing :
  HFTokenizer.wordPieceTokenizeWithSpans
    (HFTokenizer.NewFromContent None
       (HFTokenizer.mkTokenizerJSON [] None
          (HFTokenizer.mkModel "WordPiece"
             (list_to_map [("hello"%string, 1); ("world"%string, 2); ("test"%string, 3);
                           ("##ing"%string, 4)]) [] "" "" 0 "")))
    (HFTokenizer.mkWord "testing" 0 7)
  = ([3; 4], [HFTokenizer.mkSpan 0 4; HFTokenizer.mkSpan 4 7]).
Proof. vm_compute. reflexivity. Qed.

(** ** GGUF: reading back what the wire format holds *)

Lemma byteZ_range (b : byte) : 0 ≤ byteZ b < 256.
Proof.
  unfold byteZ. pose proof (Byte.to_N_bounded b). lia.
Qed.

Lemma length_le_encode (w : nat) (z : Z) : length (le_encode w z) = w.
Proof.
  revert z. induction w as [|w IH]; intros z; simpl; [reflexivity|].
  destruct (Byte.of_N _); simpl; by rewrite IH.
Qed.

Lemma le_decode_encode (w : nat) (z : Z) :
  0 ≤ z < 256 ^ Z.of_nat w → le_decode (le_encode w z) = z.
Proof.
  revert z. induction w as [|w IH]; intros z Hz.
  - simpl in *. lia.
  - cbn [le_encode].
    assert (Hm : 0 ≤ z mod 256 < 256) by (apply Z.mod_pos_bound; lia).
    destruct (Byte.of_N (Z.to_N (z mod 256))) as [b|] eqn:Hb.
    + apply Byte.to_of_N in Hb. cbn [le_decode]. unfold byteZ. rewrite Hb.
      rewrite IH.
      * rewrite Z2N.id by lia. pose proof (Z.div_mod z 256). lia.
      * rewrite Nat2Z.inj_succ, Z.pow_succ_r in Hz by lia.
        split; [apply Z.div_pos; lia | apply Z.div_lt_upper_bound; lia].
    + apply Byte.of_N_None_iff in Hb. lia.
Qed.

Lemma readUint_encode (w : nat) (z : Z) (rest : list byte) :
  0 ≤ z < 256 ^ Z.of_nat w →
  GGUF.readUint w (le_encode w z ++ rest) = Ok (z, rest).
Proof.
  intros Hz. unfold GGUF.readUint.
  rewrite length_app, length_le_encode.
  destruct (Nat.ltb_spec (w + length rest) w); [lia|].
  rewrite take_app_length' by (by rewrite length_le_encode).
  rewrite drop_app_length' by (by rewrite length_le_encode).
  by rewrite le_decode_encode.
Qed.

Lemma length_list_byte_of_string (s : string) :
  length (list_byte_of_string s) = String.length s.
Proof.
  unfold list_byte_of_string. rewrite length_map.
  induction s as [|c s IH]; simpl; [reflexivity | by rewrite IH].
Qed.

Lemma readString_encode (s : string) (rest : list byte) :
  Z.of_nat (String.length s) ≤ 2 ^ 20 →
  GGUF.readString (GGUFWire.encodeString s ++ rest) = Ok (s, rest).
Proof.
  intros Hs. unfold GGUF.readString, GGUFWire.encodeString, GGUF.bind.
  rewrite <- app_assoc, readUint_encode by (change (256 ^ Z.of_nat 8) with (2 ^ 64); lia).
  destruct (Z.ltb_spec (2 ^ 20) (Z.of_nat (String.length s))); [lia|].
  unfold GGUF.readFull. rewrite Nat2Z.id.
  rewrite length_app, length_list_byte_of_string.
  destruct (Nat.ltb_spec (String.length s + length rest) (String.length s)); [lia|].
  rewrite take_app_length' by (by rewrite length_list_byte_of_string).
  rewrite drop_app_length' by (by rewrite length_list_byte_of_string).
  unfold GGUF.ret. by rewrite string_of_list_byte_of_string.
Qed.

(** A loop of [n] reads takes apart [n] encoded elements. *)
Lemma readN_encode {A : Type} (elem : GGUF.Reader A) (enc : A → list byte)
    (P : A → Prop) (xs : list A) (rest : list byte) :
  (∀ x r, P x → elem (enc x ++ r) = Ok (x, r)) →
  Forall P xs →
  GGUF.readN (length xs) elem (flat_map enc xs ++ rest) = Ok (xs, rest).
Proof.
  intros Helem HP. induction HP as [|x xs Hx HP IH]; [reflexivity|].
  cbn [length GGUF.readN flat_map]. unfold GGUF.bind.
  rewrite <- app_assoc, (Helem _ _ Hx), IH. reflexivity.
Qed.

Lemma to_signed_mod (bits z : Z) :
  0 < bits → - 2 ^ (bits - 1) ≤ z < 2 ^ (bits - 1) →
  to_signed bits (z mod 2 ^ bits) = z.
Proof.
  intros Hb Hz. unfold to_signed.
  assert (Hp : 2 ^ bits = 2 * 2 ^ (bits - 1)).
  { rewrite <- Z.pow_succ_r by lia. f_equal. lia. }
  destruct (Z_lt_le_dec z 0) as [Hneg|Hpos].
  - assert (Hm : z mod 2 ^ bits = z + 2 ^ bits).
    { symmetry. apply Z.mod_unique with (-1); lia. }
    rewrite Hm. destruct (Z.ltb_spec (z + 2 ^ bits) (2 ^ (bits - 1))); lia.
  - rewrite Z.mod_small by lia.
    destruct (Z.ltb_spec z (2 ^ (bits - 1))); lia.
Qed.

(** Every scalar reader reads back the value that was written. *)
Lemma readScalar_encode (tag : Z) (v : GGUF.Value) (rest : list byte) :
  GGUFWire.wf_scalar tag v →
  ∃ rd, GGUF.readScalar tag = Some rd ∧ rd (GGUFWire.encodeScalar v ++ rest) = Ok (v, rest).
Proof.
  destruct v as [z|z|z|z|z|z|z|b|s|z|z|z|t l]; cbn [GGUFWire.wf_scalar GGUFWire.encodeScalar].
  - intros [-> Hr]. eexists. split; [reflexivity|].
    unfold GGUF.bind. by rewrite readUint_encode.
  - intros [-> Hr]. eexists. split; [reflexivity|].
    unfold GGUF.bind.
    rewrite readUint_encode by (apply Z.mod_pos_bound; lia).
    unfold GGUF.ret. by rewrite (to_signed_mod 8).
  - intros [-> Hr]. eexists. split; [reflexivity|].
    unfold GGUF.bind. by rewrite readUint_encode.
  - intros [-> Hr]. eexists. split; [reflexivity|].
    unfold GGUF.bind.
    rewrite readUint_encode by (apply Z.mod_pos_bound; lia).
    unfold GGUF.ret. by rewrite (to_signed_mod 16).
  - intros [-> Hr]. eexists. split; [reflexivity|].
    unfold GGUF.bind. by rewrite readUint_encode.
  - intros [-> Hr]. eexists. split; [reflexivity|].
    unfold GGUF.bind.
    rewrite readUint_encode by (apply Z.mod_pos_bound; lia).
    unfold GGUF.ret. by rewrite (to_signed_mod 32).
  - intros [-> Hr]. eexists. split; [reflexivity|].
    unfold GGUF.bind. by rewrite readUint_encode.
  - intros ->. eexists. split; [reflexivity|]. by destruct b.
  - intros [-> Hr]. eexists. split; [reflexivity|].
    unfold GGUF.bind. by rewrite readString_encode.
  - intros [-> Hr]. eexists. split; [reflexivity|].
    unfold GGUF.bind. by rewrite readUint_encode.
  - intros [-> Hr]. eexists. split; [reflexivity|].
    unfold GGUF.bind.
    rewrite readUint_encode by (apply Z.mod_pos_bound; lia).
    unfold GGUF.ret. by rewrite (to_signed_mod 64).
  - intros [-> Hr]. eexists. split; [reflexivity|].
    unfold GGUF.bind. by rewrite readUint_encode.
  - intros [].
Qed.

Lemma scalar_tags_readScalar (tag : Z) :
  tag ∈ scalar_tags → 0 ≤ tag < 2 ^ 32 ∧ tag ≠ GGUF.valueTypeArray ∧ is_Some (GGUF.readScalar tag).
Proof.
  intros Ht. unfold scalar_tags in Ht.
  repeat (apply elem_of_cons in Ht as [->|Ht];
          [split_and!; [done | done | discriminate | by eexists] |]).
  by apply elem_of_nil in Ht.
Qed.

(** A flat array is read back as written. *)
Lemma readValue_flat_array (tag : Z) (vs : list GGUF.Value) (rest : list byte) :
  tag ∈ scalar_tags →
  Forall (GGUFWire.wf_scalar tag) vs →
  Z.of_nat (length vs) < 2 ^ 64 →
  GGUF.readValue GGUF.valueTypeArray (GGUFWire.encodeArray tag vs ++ rest)
  = Ok (GGUF.VSlice tag vs, rest).
Proof.
  intros Ht Hwf Hlen.
  destruct (scalar_tags_readScalar tag Ht) as (Hr & _ & [elem Helem]).
  unfold GGUF.readValue. rewrite Z.eqb_refl.
  unfold GGUF.readArray, GGUFWire.encodeArray, GGUF.bind.
  rewrite <- !app_assoc.
  rewrite readUint_encode by (change (256 ^ Z.of_nat 4) with (2 ^ 32); lia).
  rewrite readUint_encode by (change (256 ^ Z.of_nat 8) with (2 ^ 64); lia).
  rewrite Helem, Nat2Z.id.
  rewrite (readN_encode elem GGUFWire.encodeScalar (GGUFWire.wf_scalar tag)); [reflexivity | | done].
  intros x r Hx. destruct (readScalar_encode tag x r Hx) as (rd & Hrd & Hok).
  rewrite Helem in Hrd. by inversion Hrd.
Qed.

(** An array whose elements are arrays is refused, whatever follows. *)
Lemma readValue_nested_array (count : Z) (rest : list byte) :
  0 ≤ count < 2 ^ 64 →
  GGUF.readValue GGUF.valueTypeArray
    (le_encode 4 GGUF.valueTypeArray ++ le_encode 8 count ++ rest)
  = Err (ErrUnsupportedArrayElem GGUF.valueTypeArray).
Proof.
  intros Hc. unfold GGUF.readValue. rewrite Z.eqb_refl.
  unfold GGUF.readArray, GGUF.bind.
  rewrite readUint_encode by (vm_compute; split; [discriminate | reflexivity]).
  rewrite readUint_encode by (change (256 ^ Z.of_nat 8) with (2 ^ 64); lia).
  reflexivity.
Qed.

(** C4, as stated, fails: a key-value pair whose value is an array of
    arrays is not parsed. *)
Lemma readKeyValue_nested_array_fails :
  GGUF.readKeyValue nested_array_kv = Err (ErrUnsupportedArrayElem GGUF.valueTypeArray)
  ∧ is_ok (GGUF.readKeyValue nested_array_kv) = false.
Proof. split; vm_compute; reflexivity. Qed.

(** C4 (amended): parsing a key-value pair whose value is an array of
    arrays fails with the error for an unsupported array element type
    (the array reader does not recurse); a value that is an array of
    elements of one scalar type (the integer and float types, bool,
    string) is parsed into its elements. *)
Theorem readValue_arrays :
  (∀ (count : Z) (rest : list byte),
     0 ≤ count < 2 ^ 64 →
     GGUF.readValue GGUF.valueTypeArray
       (le_encode 4 GGUF.valueTypeArray ++ le_encode 8 count ++ rest)
     = Err (ErrUnsupportedArrayElem GGUF.valueTypeArray))
  ∧ (∀ (key : string) (count : Z) (rest : list byte),
       Z.of_nat (String.length key) ≤ 2 ^ 20 → 0 ≤ count < 2 ^ 64 →
       GGUF.readKeyValue
         (GGUFWire.encodeString key ++ le_encode 4 GGUF.valueTypeArray
          ++ le_encode 4 GGUF.valueTypeArray ++ le_encode 8 count ++ rest)
       = Err (ErrUnsupportedArrayElem GGUF.valueTypeArray))
  ∧ (∀ (tag : Z) (vs : list GGUF.Value) (rest : list byte),
       tag ∈ scalar_tags →
       Forall (GGUFWire.wf_scalar tag) vs →
       Z.of_nat (length vs) < 2 ^ 64 →
       GGUF.readValue GGUF.valueTypeArray (GGUFWire.encodeArray tag vs ++ rest)
       = Ok (GGUF.VSlice tag vs, rest)).
Proof.
  split_and!.
  - exact readValue_nested_array.
  - intros key count rest Hk Hc. unfold GGUF.readKeyValue, GGUF.bind.
    rewrite readString_encode by done.
    rewrite readUint_encode by (vm_compute; split; [discriminate | reflexivity]).
    by rewrite readValue_nested_array.
  - exact readValue_flat_array.
Qed.

Lemma readValue_arrays_witness :
  GGUF.readValue GGUF.valueTypeArray
    (le_encode 4 GGUF.valueTypeArray ++ le_encode 8 1 ++ [])
  = Err (ErrUnsupportedArrayElem GGUF.valueTypeArray)
  ∧ GGUF.readKeyValue
      (GGUFWire.encodeString "k" ++ le_encode 4 GGUF.valueTypeArray
       ++ le_encode 4 GGUF.valueTypeArray ++ le_encode 8 1 ++ [])
    = Err (ErrUnsupportedArrayElem GGUF.valueTypeArray)
  ∧ GGUF.readValue GGUF.valueTypeArray
      (GGUFWire.encodeArray GGUF.valueTypeUint32 [GGUF.VUint32 7] ++ [])
    = Ok (GGUF.VSlice GGUF.valueTypeUint32 [GGUF.VUint32 7], []).
Proof.
  destruct readValue_arrays as (Hnested & Hkv & Hflat).
  split_and!.
  - apply Hnested. lia.
  - apply Hkv; [vm_compute; discriminate | lia].
  - apply Hflat.
    + apply (bool_decide_unpack _). vm_compute. exact I.
    + apply Forall_cons. cbn [GGUFWire.wf_scalar].
      split_and!; [reflexivity | lia | lia | by apply Forall_nil].
    + simpl. lia.
Defined.

(** The flat array of the pair [flat_array_kv] is parsed. *)
Example readKeyValue_flat_array :
  GGUF.readKeyValue flat_array_kv
  = Ok (GGUF.mkKeyValue "k" (GGUF.VSlice GGUF.valueTypeUint32 [GGUF.VUint32 7]), []).
Proof. vm_compute. reflexivity. Qed.

(** ** GGUF: tensor types at parse time and at read time *)

Lemma readTensorInfo_encode (ti : GGUF.TensorInfo) (rest : list byte) :
  GGUFWire.wf_tensor_info ti →
  GGUF.readTensorInfo (GGUFWire.encodeTensorInfo ti ++ rest) = Ok (ti, rest).
Proof.
  destruct ti as [name shape ttype offset].
  intros (Hname & Hn & Hshape & Ht & Ho). cbn in Hname, Hn, Hshape, Ht, Ho.
  unfold GGUF.readTensorInfo, GGUFWire.encodeTensorInfo, GGUF.bind.
  cbn [GGUF.Name GGUF.Shape GGUF.Type_ GGUF.Offset].
  rewrite <- !app_assoc.
  rewrite readString_encode by done.
  rewrite readUint_encode by (change (256 ^ Z.of_nat 4) with (2 ^ 32); lia).
  rewrite Nat2Z.id.
  rewrite (readN_encode (GGUF.readUint 8) (le_encode 8) (λ d, 0 ≤ d < 2 ^ 64));
    [| intros x r Hx; by apply readUint_encode | done].
  rewrite readUint_encode by (change (256 ^ Z.of_nat 4) with (2 ^ 32); lia).
  rewrite readUint_encode by (change (256 ^ Z.of_nat 8) with (2 ^ 64); lia).
  reflexivity.
Qed.

Lemma readUint_error (w : nat) (s : list byte) (e : error) :
  GGUF.readUint w s = Err e → e = ErrEOF.
Proof.
  unfold GGUF.readUint. destruct (_ <? _)%nat; intros H; by inversion H.
Qed.

Lemma readString_error (s : list byte) (e : error) :
  GGUF.readString s = Err e → e = ErrEOF ∨ e = ErrStringTooLong.
Proof.
  unfold GGUF.readString, GGUF.bind.
  destruct (GGUF.readUint 8 s) as [[len s']|e'] eqn:Hlen.
  - destruct (2 ^ 20 <? len).
    + intros H. inversion H. by right.
    + unfold GGUF.readFull. destruct (_ <? _)%nat; intros H; inversion H. by left.
  - intros H. inversion H; subst. left. by apply readUint_error in Hlen.
Qed.

Lemma readN_readUint_error (n w : nat) (s : list byte) (e : error) :
  GGUF.readN n (GGUF.readUint w) s = Err e → e = ErrEOF.
Proof.
  revert s. induction n as [|n IH]; intros s; cbn [GGUF.readN]; [discriminate|].
  unfold GGUF.bind.
  destruct (GGUF.readUint w s) as [[x s']|e'] eqn:Hx.
  - destruct (GGUF.readN n (GGUF.readUint w) s') as [[xs s'']|e''] eqn:Hxs.
    + discriminate.
    + intros H. inversion H; subst. by apply IH in Hxs.
  - intros H. inversion H; subst. by apply readUint_error in Hx.
Qed.

(** The only failures of [readTensorInfo] are a short stream and an
    over-long name. *)
Lemma readTensorInfo_error (s : list byte) (e : error) :
  GGUF.readTensorInfo s = Err e → e = ErrEOF ∨ e = ErrStringTooLong.
Proof.
  unfold GGUF.readTensorInfo, GGUF.bind.
  destruct (GGUF.readString s) as [[name s1]|e1] eqn:H1;
    [|intros H; inversion H; subst; by apply readString_error in H1].
  destruct (GGUF.readUint 4 s1) as [[nDims s2]|e2] eqn:H2;
    [|intros H; inversion H; subst; left; by apply readUint_error in H2].
  destruct (GGUF.readN _ _ s2) as [[shape s3]|e3] eqn:H3;
    [|intros H; inversion H; subst; left; by apply readN_readUint_error in H3].
  destruct (GGUF.readUint 4 s3) as [[ttype s4]|e4] eqn:H4;
    [|intros H; inversion H; subst; left; by apply readUint_error in H4].
  destruct (GGUF.readUint 8 s4) as [[offset s5]|e5] eqn:H5;
    [|intros H; inversion H; subst; left; by apply readUint_error in H5].
  discriminate.
Qed.

(** [getDequantFunc] has a kernel exactly for the ten supported types. *)
Lemma getDequantFunc_supported (K : GGUF.kernels) (t : Z) :
  (GGUF.is_one_of t GGUF.supported_quants = true → is_ok (GGUF.getDequantFunc K t) = true)
  ∧ (GGUF.is_one_of t GGUF.supported_quants = false →
     GGUF.getDequantFunc K t = Err (ErrUnsupportedQuant t)).
Proof.
  unfold GGUF.getDequantFunc, GGUF.is_one_of, GGUF.supported_quants.
  cbn [existsb].
  repeat match goal with
         | |- context [Z.eqb t ?c] => destruct (Z.eqb t c) eqn:?
         end; cbn; split; intros; try reflexivity; try discriminate.
Qed.

Lemma wrap_i64_small (z : Z) : - 2 ^ 63 ≤ z < 2 ^ 63 → wrap_i64 z = z.
Proof.
  intros H. unfold wrap_i64. rewrite Z.mod_small by lia. lia.
Qed.

Lemma dims_not_negative (shape : list Z) :
  Forall (λ d, 0 ≤ d < 2 ^ 63) shape →
  reverse (map wrap_i64 shape) = reverse shape
  ∧ existsb (λ d, d <? 0) (reverse shape) = false.
Proof.
  intros H. split.
  - f_equal. induction H as [|d l Hd H IH]; [reflexivity|].
    simpl. rewrite IH, wrap_i64_small by lia. reflexivity.
  - apply not_true_is_false. intros Hex.
    apply existsb_exists in Hex as (d & Hin & Hneg).
    apply list_elem_of_In in Hin. rewrite elem_of_reverse in Hin.
    rewrite Forall_forall in H. specialize (H d Hin). lia.
Qed.

Lemma ReadAt_in_file (data p : list byte) (off : Z) :
  0 ≤ off ≤ Z.of_nat (length data) →
  ∃ p' err, ReadAt data p off = (p', err)
    ∧ (err = None ∨ err = Some ErrEOF)
    ∧ length p' = length p
    ∧ (off + Z.of_nat (length p) ≤ Z.of_nat (length data) →
       p' = take (length p) (drop (Z.to_nat off) data)).
Proof.
  intros Hoff. unfold ReadAt.
  destruct (Z.ltb_spec off 0); [lia|].
  destruct (Z.ltb_spec (Z.of_nat (length data)) off); [lia|].
  cbn [orb].
  set (src := take (length p) (drop (Z.to_nat off) data)).
  assert (Hsrc : (length src ≤ length p)%nat).
  { unfold src. rewrite length_take. lia. }
  assert (Hfull : off + Z.of_nat (length p) ≤ Z.of_nat (length data) →
                  length src = length p).
  { intros Hfit. unfold src. rewrite length_take, length_drop. lia. }
  destruct (Nat.ltb_spec (length src) (length p)) as [Hlt|Hge].
  - eexists _, _. split; [reflexivity|]. split; [by right|]. split.
    + rewrite length_app, length_drop. lia.
    + intros Hfit. specialize (Hfull Hfit). lia.
  - eexists _, _. split; [reflexivity|]. split; [by left|]. split.
    + rewrite length_app, length_drop. lia.
    + intros Hfit. rewrite drop_ge by lia. by rewrite app_nil_r.
Qed.

(** Reading a tensor of a quantized type without a kernel fails with
    the unsupported-quantization error. *)
Lemma ReadTensor_unsupported_quant (K : GGUF.kernels) (mr : GGUF.MMapReader)
    (name : string) (info : GGUF.TensorInfo) :
  GGUF.GetTensorInfo (GGUF.file mr) name = Some info →
  Forall (λ d, 0 ≤ d < 2 ^ 63) (GGUF.Shape info) →
  GGUF.IsQuantized (GGUF.Type_ info) = true →
  GGUF.is_one_of (GGUF.Type_ info) GGUF.supported_quants = false →
  GGUF.ReadTensor K mr name = Err (ErrUnsupportedQuant (GGUF.Type_ info)).
Proof.
  intros Hinfo Hdims Hq Hunsup. unfold GGUF.ReadTensor. rewrite Hinfo.
  unfold GGUF.GoMLXShape.
  destruct (dims_not_negative _ Hdims) as [-> ->].
  rewrite Hq. cbn [negb].
  by rewrite (proj2 (getDequantFunc_supported K (GGUF.Type_ info)) Hunsup).
Qed.

(** Reading a tensor of a native type whose offset lies in the file
    succeeds, whatever the other entries of the file are; when all its
    bytes lie in the file, the tensor holds exactly these bytes. *)
Lemma ReadTensor_native (K : GGUF.kernels) (mr : GGUF.MMapReader)
    (name : string) (info : GGUF.TensorInfo) :
  GGUF.GetTensorInfo (GGUF.file mr) name = Some info →
  Forall (λ d, 0 ≤ d < 2 ^ 63) (GGUF.Shape info) →
  GGUF.IsQuantized (GGUF.Type_ info) = false →
  0 ≤ GGUF.Offset info →
  0 ≤ GGUF.fileDataOffset (GGUF.file mr) →
  GGUF.fileDataOffset (GGUF.file mr) + GGUF.Offset info ≤ Z.of_nat (length (GGUF.reader mr)) →
  Z.of_nat (length (GGUF.reader mr)) < 2 ^ 63 →
  ∃ data,
    GGUF.ReadTensor K mr name
    = Ok (GGUF.mkTensor (GGUF.GoMLXDType (GGUF.Type_ info)) (reverse (GGUF.Shape info))
            (GGUF.Bytes data))
    ∧ ∀ n, n = Z.to_nat (foldl Z.mul 1 (reverse (GGUF.Shape info))
                         * GGUF.DType_Size (GGUF.GoMLXDType (GGUF.Type_ info))) →
        length data = n
        ∧ (GGUF.fileDataOffset (GGUF.file mr) + GGUF.Offset info + Z.of_nat n
           ≤ Z.of_nat (length (GGUF.reader mr)) →
           data = take n (drop (Z.to_nat (GGUF.fileDataOffset (GGUF.file mr) + GGUF.Offset info))
                            (GGUF.reader mr))).
Proof.
  intros Hinfo Hdims Hq Hoff Hdo Hin Hlen. unfold GGUF.ReadTensor. rewrite Hinfo.
  unfold GGUF.GoMLXShape.
  destruct (dims_not_negative _ Hdims) as [-> ->].
  rewrite Hq. cbn [negb].
  rewrite (wrap_i64_small (GGUF.Offset info)) by lia.
  rewrite wrap_i64_small by lia.
  set (n := Z.to_nat _).
  destruct (ReadAt_in_file (GGUF.reader mr) (replicate n x00)
              (GGUF.fileDataOffset (GGUF.file mr) + GGUF.Offset info))
    as (p' & err & Hr & Herr & Hl & Hfit); [lia|].
  rewrite Hr. rewrite length_replicate in Hl, Hfit.
  exists p'. split.
  - by destruct Herr as [-> | ->].
  - intros n' ->. fold n. split; [exact Hl | exact Hfit].
Qed.

(** C5: a tensor-info entry is parsed whatever its 32-bit type tag is,
    and the parse of an entry never reports an unsupported
    quantization; [getDequantFunc] fails exactly for the types outside
    the supported set (Q4_0, Q4_1, Q5_0, Q5_1, Q8_0, Q2_K, Q3_K, Q4_K,
    Q5_K, Q6_K); reading a tensor of a quantized type outside that set
    fails with that error, and a tensor of a native type in the same
    file is read all the same. *)
Theorem unsupported_quant_only_on_read :
  (∀ (ti : GGUF.TensorInfo) (rest : list byte),
     GGUFWire.wf_tensor_info ti →
     GGUF.readTensorInfo (GGUFWire.encodeTensorInfo ti ++ rest) = Ok (ti, rest))
  ∧ (∀ (s : list byte) (e : error),
       GGUF.readTensorInfo s = Err e → e = ErrEOF ∨ e = ErrStringTooLong)
  ∧ (∀ (K : GGUF.kernels) (t : Z),
       (GGUF.is_one_of t GGUF.supported_quants = true →
        is_ok (GGUF.getDequantFunc K t) = true)
       ∧ (GGUF.is_one_of t GGUF.supported_quants = false →
          GGUF.getDequantFunc K t = Err (ErrUnsupportedQuant t)))
  ∧ (∀ (K : GGUF.kernels) (mr : GGUF.MMapReader) (name : string) (info : GGUF.TensorInfo),
       GGUF.GetTensorInfo (GGUF.file mr) name = Some info →
       Forall (λ d, 0 ≤ d < 2 ^ 63) (GGUF.Shape info) →
       GGUF.IsQuantized (GGUF.Type_ info) = true →
       GGUF.is_one_of (GGUF.Type_ info) GGUF.supported_quants = false →
       GGUF.ReadTensor K mr name = Err (ErrUnsupportedQuant (GGUF.Type_ info)))
  ∧ (∀ (K : GGUF.kernels) (mr : GGUF.MMapReader) (name : string) (info : GGUF.TensorInfo),
       GGUF.GetTensorInfo (GGUF.file mr) name = Some info →
       Forall (λ d, 0 ≤ d < 2 ^ 63) (GGUF.Shape info) →
       GGUF.IsQuantized (GGUF.Type_ info) = false →
       0 ≤ GGUF.Offset info →
       0 ≤ GGUF.fileDataOffset (GGUF.file mr) →
       GGUF.fileDataOffset (GGUF.file mr) + GGUF.Offset info
         ≤ Z.of_nat (length (GGUF.reader mr)) →
       Z.of_nat (length (GGUF.reader mr)) < 2 ^ 63 →
       is_ok (GGUF.ReadTensor K mr name) = true).
Proof.
  split_and!.
  - exact readTensorInfo_encode.
  - exact readTensorInfo_error.
  - exact getDequantFunc_supported.
  - exact ReadTensor_unsupported_quant.
  - intros K mr name info H1 H2 H3 H4 H5 H6 H7.
    destruct (ReadTensor_native K mr name info H1 H2 H3 H4 H5 H6 H7) as (data & -> & _).
    reflexivity.
Qed.

Lemma unsupported_quant_only_on_read_witness :
  GGUF.readTensorInfo (GGUFWire.encodeTensorInfo tensor_q ++ []) = Ok (tensor_q, [])
  ∧ is_ok (GGUF.getDequantFunc no_kernels GGUF.TensorTypeQ4_0) = true
  ∧ GGUF.getDequantFunc no_kernels GGUF.TensorTypeIQ4_NL
    = Err (ErrUnsupportedQuant GGUF.TensorTypeIQ4_NL)
  ∧ GGUF.ReadTensor no_kernels two_tensor_reader "q"
    = Err (ErrUnsupportedQuant GGUF.TensorTypeIQ4_NL)
  ∧ is_ok (GGUF.ReadTensor no_kernels two_tensor_reader "w") = true.
Proof.
  destruct unsupported_quant_only_on_read as (Hparse & _ & Hget & Hbad & Hgood).
  split_and!.
  - apply Hparse. unfold GGUFWire.wf_tensor_info, tensor_q.
    cbn [GGUF.Name GGUF.Shape GGUF.Type_ GGUF.Offset].
    split; [vm_compute; discriminate|].
    split; [vm_compute; reflexivity|].
    split; [apply Forall_cons_2; [lia | apply Forall_nil_2]|].
    split; [vm_compute; split; [discriminate | reflexivity] | lia].
  - apply (proj1 (Hget no_kernels GGUF.TensorTypeQ4_0)). reflexivity.
  - apply (proj2 (Hget no_kernels GGUF.TensorTypeIQ4_NL)). reflexivity.
  - apply (Hbad no_kernels two_tensor_reader "q"%string tensor_q).
    + vm_compute. reflexivity.
    + apply Forall_cons_2; [lia | apply Forall_nil_2].
    + reflexivity.
    + reflexivity.
  - apply (Hgood no_kernels two_tensor_reader "w"%string tensor_w).
    + vm_compute. reflexivity.
    + apply Forall_cons_2; [lia | apply Forall_nil_2].
    + reflexivity.
    + vm_compute. discriminate.
    + vm_compute. discriminate.
    + vm_compute. discriminate.
    + vm_compute. reflexivity.
Defined.

(** On the two-tensor file: the read of q fails, the read of w returns
    its eight bytes. *)
Example ReadTensor_two_tensor_file :
  GGUF.ReadTensor no_kernels two_tensor_reader "q"
  = Err (ErrUnsupportedQuant GGUF.TensorTypeIQ4_NL)
  ∧ GGUF.ReadTensor no_kernels two_tensor_reader "w"
    = Ok (GGUF.mkTensor GGUF.Float32 [2]
            (GGUF.Bytes [x01; x02; x03; x04; x05; x06; x07; x08])).
Proof. split; vm_compute; reflexivity. Qed.

(** ** Safetensors: the iteration over a model *)

Lemma Sorted_le_prefix (l1 l2 : list Z) : Sorted Z.le (l1 ++ l2) → Sorted Z.le l1.
Proof.
  intros H. apply StronglySorted_Sorted.
  apply (StronglySorted_app_1_l Z.le l1 l2).
  apply Sorted_StronglySorted; [|exact H].
  intros x y z. apply Z.le_trans.
Qed.

(** The inner loop yields a prefix of the names it is given, and all of
    them when it finishes. *)
Lemma read_shard_prefix (mr : Safetensor.MMapReader) (c : Safetensor.consumer)
    (names : list string) (seen items : list (string * Safetensor.Tensor))
    (o : Safetensor.outcome) :
  Safetensor.read_shard mr c names seen = (items, o) →
  (∃ rest, names = map fst items ++ rest)
  ∧ (o = Safetensor.Finished → map fst items = names).
Proof.
  revert seen items o. induction names as [|n names IH]; intros seen items o H.
  - cbn in H. inversion H; subst. split; [by exists [] | done].
  - cbn [Safetensor.read_shard] in H.
    destruct (Safetensor.ReadTensor mr n) as [t|e].
    + destruct (c (seen ++ [(n, t)])).
      * destruct (Safetensor.read_shard mr c names (seen ++ [(n, t)])) as [items' o'] eqn:Hr.
        inversion H; subst. destruct (IH _ _ _ Hr) as [[rest Hrest] Hfin].
        split.
        -- exists rest. cbn. by rewrite <- Hrest.
        -- intros Ho. cbn. by rewrite (Hfin Ho).
      * inversion H; subst. split; [by exists names | discriminate].
    + inversion H; subst. split; [by exists (n :: names) | discriminate].
Qed.

(** Every item of the inner loop is what [ReadTensor] returns under
    its name. *)
Lemma read_shard_reads (mr : Safetensor.MMapReader) (c : Safetensor.consumer)
    (names : list string) (seen items : list (string * Safetensor.Tensor))
    (o : Safetensor.outcome) :
  Safetensor.read_shard mr c names seen = (items, o) →
  Forall (λ it, Safetensor.ReadTensor mr it.1 = Ok it.2) items.
Proof.
  revert seen items o. induction names as [|n names IH]; intros seen items o H.
  - cbn in H. inversion H; subst. constructor.
  - cbn [Safetensor.read_shard] in H.
    destruct (Safetensor.ReadTensor mr n) as [t|e] eqn:Hread.
    + destruct (c (seen ++ [(n, t)])).
      * destruct (Safetensor.read_shard mr c names (seen ++ [(n, t)])) as [items' o'] eqn:Hr.
        inversion H; subst. constructor; [exact Hread | by eapply IH].
      * inversion H; subst. by repeat constructor.
    + inversion H; subst. constructor.
Qed.

(** When every read succeeds and the consumer goes on, the inner loop
    finishes. *)
Lemma read_shard_finishes (mr : Safetensor.MMapReader) (c : Safetensor.consumer)
    (names : list string) (seen : list (string * Safetensor.Tensor)) :
  (∀ s, c s = true) →
  Forall (λ n, is_ok (Safetensor.ReadTensor mr n) = true) names →
  ∃ items, Safetensor.read_shard mr c names seen = (items, Safetensor.Finished).
Proof.
  intros Hc Hok. revert seen. induction Hok as [|n names Hn Hok IH]; intros seen.
  - by exists [].
  - cbn [Safetensor.read_shard].
    destruct (Safetensor.ReadTensor mr n) as [t|e]; [|discriminate].
    rewrite Hc. destruct (IH (seen ++ [(n, t)])) as [items ->]. by eexists.
Qed.

(** What [collect_offsets] collects: the names that the header has, each
    with its offset. *)
Lemma collect_offsets_elem (names : list string) (h : Safetensor.Header) (p : string * Z) :
  p ∈ Safetensor.collect_offsets names h →
  p.1 ∈ names ∧ is_Some (Safetensor.Tensors h !! p.1) ∧ p.2 = IterSpec.offset_in h p.1.
Proof.
  unfold Safetensor.collect_offsets. intros H.
  apply list_elem_of_omap in H as (n & Hn & Hf).
  destruct (Safetensor.Tensors h !! n) as [meta|] eqn:Hm; [|discriminate].
  cbn in Hf. inversion Hf; subst. cbn.
  split_and!; [done | by eexists |].
  unfold IterSpec.offset_in. by rewrite Hm.
Qed.

Lemma collect_offsets_all (names : list string) (h : Safetensor.Header) :
  Forall (λ n, is_Some (Safetensor.Tensors h !! n)) names →
  map fst (Safetensor.collect_offsets names h) = names.
Proof.
  unfold Safetensor.collect_offsets.
  induction 1 as [|n names [meta Hm] H IH]; [reflexivity|].
  cbn. rewrite Hm. cbn. by rewrite IH.
Qed.

(** The comparator of [sortTensorsByOffset] is a strict weak ordering,
    and "not less" under it is the order of the offsets. *)
Lemma cmp_offset_less (a b : string * Z) :
  Safetensor.cmp_offset a b < 0 ↔ a.2 < b.2.
Proof.
  unfold Safetensor.cmp_offset.
  destruct (Z.ltb_spec a.2 b.2); [lia|]. destruct (Z.ltb_spec b.2 a.2); lia.
Qed.

Lemma cmp_offset_strict_weak : strict_weak Safetensor.cmp_offset.
Proof.
  split; intros *; rewrite ?cmp_offset_less; lia.
Qed.

(** The merge sort keeps the contract of [slices.SortFunc]. *)
Lemma merge_SortFunc_sorts : sorts merge_SortFunc.
Proof.
  intros A cmp l. split.
  - apply (merge_sort_Permutation (not_less cmp)).
  - intros Hsw. unfold ascending.
    assert (HT : Total (not_less cmp)).
    { intros a b. unfold not_less.
      destruct (Z_lt_dec (cmp b a) 0) as [Hba|Hba]; [|by left].
      right. intros Hab. exact (sw_irrefl cmp Hsw a (sw_trans cmp Hsw a b a Hab Hba)). }
    apply (@Sorted_merge_sort _ (not_less cmp) (not_less_dec cmp) HT).
Qed.

(** [sortTensorsByOffset] returns names of the header, in ascending
    order of their offsets; they are a rearrangement of the names given
    when the header has them all. *)
Lemma sortTensorsByOffset_sorted (E : Safetensor.Env) (names : list string)
    (h : Safetensor.Header) :
  IterSpec.good_env E →
  Forall (λ n, n ∈ names ∧ is_Some (Safetensor.Tensors h !! n))
         (Safetensor.sortTensorsByOffset E names h)
  ∧ Sorted Z.le (map (IterSpec.offset_in h) (Safetensor.sortTensorsByOffset E names h))
  ∧ (Forall (λ n, is_Some (Safetensor.Tensors h !! n)) names →
     Safetensor.sortTensorsByOffset E names h ≡ₚ names).
Proof.
  intros (_ & Hsorts). unfold Safetensor.sortTensorsByOffset.
  set (l := Safetensor.collect_offsets names h).
  set (sorted := Safetensor.SortFunc E _ Safetensor.cmp_offset l).
  destruct (Hsorts _ Safetensor.cmp_offset l) as [Hperm Hsorted].
  fold sorted in Hperm, Hsorted.
  specialize (Hsorted cmp_offset_strict_weak).
  assert (Hall : Forall (λ p : string * Z,
                   p.1 ∈ names ∧ is_Some (Safetensor.Tensors h !! p.1)
                   ∧ p.2 = IterSpec.offset_in h p.1) sorted).
  { rewrite Forall_forall. intros p Hp. apply collect_offsets_elem.
    change (p ∈ l). by rewrite <- Hperm. }
  split_and!.
  - rewrite Forall_forall. intros n Hn.
    apply list_elem_of_fmap in Hn as (p & -> & Hp).
    rewrite Forall_forall in Hall. by destruct (Hall p Hp) as (? & ? & _).
  - assert (Heq : map (IterSpec.offset_in h) (map fst sorted) = map snd sorted).
    { rewrite map_map. apply Forall_fmap_ext_1.
      eapply Forall_impl; [exact Hall|]. intros p (_ & _ & Hp). by rewrite Hp. }
    rewrite Heq.
    apply (Sorted_fmap snd (λ a b, ¬ Safetensor.cmp_offset b a < 0) Z.le); [|exact Hsorted].
    intros a b Hab. rewrite cmp_offset_less in Hab. lia.
  - intros Hin. etrans; [apply Permutation_map, Hperm|].
    unfold l. by rewrite collect_offsets_all.
Qed.

Lemma shard_readable_open (E : Safetensor.Env) (f : string) (names : list string) :
  shard_readable E (f, names) →
  ∃ localPath h dataOffset data,
    Safetensor.DownloadFile E f = Ok localPath
    ∧ Safetensor.parseHeader E localPath = Ok (h, dataOffset)
    ∧ Safetensor.mmapOpen E localPath = Ok data
    ∧ Forall (λ n, is_Some (Safetensor.Tensors h !! n)
                   ∧ is_ok (Safetensor.ReadTensor
                              (Safetensor.mkMMapReader data dataOffset h) n) = true) names.
Proof.
  intros [Hne Hall]. cbn in Hne, Hall.
  destruct names as [|n0 names]; [done|].
  pose proof Hall as Hall0. apply Forall_cons in Hall0 as [H0 _].
  destruct H0 as (p & h & off & data & Hd & Hp & Hm & _ & _).
  exists p, h, off, data. split_and!; [done | done | done |].
  eapply Forall_impl; [exact Hall|]. intros n (p' & h' & off' & data' & Hd' & Hp' & Hm' & Hin & Hok).
  rewrite Hd in Hd'. inversion Hd'; subst p'.
  rewrite Hp in Hp'. inversion Hp'; subst h' off'.
  rewrite Hm in Hm'. inversion Hm'; subst data'. done.
Qed.

Lemma block_cons (f : string) (items : list (string * Safetensor.Tensor))
    (rest : list Safetensor.event) :
  Safetensor.EvOpen f :: Safetensor.yields items ++ Safetensor.EvClose f :: rest
  = IterSpec.block (f, items) ++ rest.
Proof.
  unfold IterSpec.block, Safetensor.yields. cbn. by rewrite <- app_assoc.
Qed.

(** The trace of the outer loop is a sequence of blocks, one per shard
    in the order of the loop, possibly cut short and followed by one
    error; within a block the offsets ascend.  When every shard is
    readable and the consumer goes on, no shard and no tensor is left
    out. *)
Lemma iter_shards_groups (E : Safetensor.Env) (c : Safetensor.consumer)
    (shards : list (string * list string)) (seen : list (string * Safetensor.Tensor)) :
  IterSpec.good_env E →
  ∃ groups tail,
    Safetensor.iter_shards E c shards seen = flat_map IterSpec.block groups ++ tail
    ∧ (tail = [] ∨ ∃ e, tail = [Safetensor.EvError e])
    ∧ (∃ rest, map fst shards = map fst groups ++ rest)
    ∧ Forall (IterSpec.group_sorted E) groups
    ∧ ((∀ s, c s = true) → Forall (shard_readable E) shards →
       tail = []
       ∧ Forall2 (λ g sh, g.1 = sh.1 ∧ map fst g.2 ≡ₚ sh.2) groups shards).
Proof.
  intros HE. revert seen. induction shards as [|[f names] shards IH]; intros seen.
  { exists [], []. split_and!; [done | by left | by exists [] | constructor |].
    intros _ _. split; [done | constructor]. }
  cbn [Safetensor.iter_shards].
  destruct (Safetensor.DownloadFile E f) as [path|e] eqn:Hd.
  2: { exists [], [Safetensor.EvError e].
       split_and!; [done | right; by eexists | by eexists | constructor |].
       intros _ Hr. apply Forall_cons in Hr as [Hr _].
       apply shard_readable_open in Hr as (p & h & off & data & Hd' & _).
       rewrite Hd in Hd'. discriminate. }
  destruct (Safetensor.parseHeader E path) as [[h off]|e] eqn:Hp.
  2: { exists [], [Safetensor.EvError e].
       split_and!; [done | right; by eexists | by eexists | constructor |].
       intros _ Hr. apply Forall_cons in Hr as [Hr _].
       apply shard_readable_open in Hr as (p & h & off & data & Hd' & Hp' & _).
       rewrite Hd in Hd'. inversion Hd'; subst. rewrite Hp in Hp'. discriminate. }
  destruct (Safetensor.mmapOpen E path) as [data|e] eqn:Hm.
  2: { exists [], [Safetensor.EvError e].
       split_and!; [done | right; by eexists | by eexists | constructor |].
       intros _ Hr. apply Forall_cons in Hr as [Hr _].
       apply shard_readable_open in Hr as (p & h' & off' & data & Hd' & Hp' & Hm' & _).
       rewrite Hd in Hd'. inversion Hd'; subst. rewrite Hm in Hm'. discriminate. }
  destruct (sortTensorsByOffset_sorted E names h HE) as (Hin & Hsorted & Hperm).
  set (sorted := Safetensor.sortTensorsByOffset E names h) in *.
  destruct (Safetensor.read_shard (Safetensor.mkMMapReader data off h) c sorted seen)
    as [items o] eqn:Hr.
  destruct (read_shard_prefix _ _ _ _ _ _ Hr) as [[rest Hrest] Hfin].
  assert (Hg : IterSpec.group_sorted E (f, items)).
  { exists (Safetensor.mkMMapReader data off h).
    unfold IterSpec.shard_reader. cbn [fst snd Safetensor.header]. rewrite Hd, Hp, Hm.
    split_and!; [done | |].
    - rewrite Hrest in Hin. apply Forall_app in Hin as [Hin _].
      apply Forall_fmap in Hin.
      pose proof (read_shard_reads _ _ _ _ _ _ Hr) as Hreads.
      rewrite Forall_forall in Hin, Hreads. rewrite Forall_forall.
      intros it Hit. split; [by destruct (Hin it Hit) | by apply Hreads].
    - rewrite Hrest, map_app in Hsorted. apply Sorted_le_prefix in Hsorted.
      by rewrite map_map in Hsorted. }
  assert (Hcomplete : (∀ s, c s = true) → shard_readable E (f, names) →
                      o = Safetensor.Finished ∧ map fst items ≡ₚ names).
  { intros Hc Hsh.
    apply shard_readable_open in Hsh as (p & h' & off' & data' & Hd' & Hp' & Hm' & Hall).
    rewrite Hd in Hd'. inversion Hd'; subst p.
    rewrite Hp in Hp'. inversion Hp'; subst h' off'.
    rewrite Hm in Hm'. inversion Hm'; subst data'.
    assert (Hok : Forall (λ n, is_ok (Safetensor.ReadTensor
                                        (Safetensor.mkMMapReader data off h) n) = true) sorted).
    { rewrite Forall_forall. intros n Hn. rewrite Forall_forall in Hin, Hall.
      destruct (Hin n Hn) as [Hnames _]. by destruct (Hall n Hnames). }
    destruct (read_shard_finishes _ c sorted seen Hc Hok) as [items' Hr'].
    rewrite Hr in Hr'. inversion Hr'; subst. split; [done|].
    rewrite (Hfin eq_refl). apply Hperm.
    eapply Forall_impl; [exact Hall|]. by intros n [? _]. }
  rewrite block_cons.
  destruct o as [| |e].
  - destruct (IH (seen ++ items)) as (groups & tail & Htrace & Htail & [rest' Hpre] & Hgs & Hcond).
    exists ((f, items) :: groups), tail.
    split_and!.
    + cbn [flat_map]. rewrite Htrace. by rewrite <- app_assoc.
    + done.
    + exists rest'. cbn. by rewrite Hpre.
    + by constructor.
    + intros Hc Hall. apply Forall_cons in Hall as [Hsh Hall].
      destruct (Hcond Hc Hall) as [-> HF2]. split; [done|].
      constructor; [|done]. split; [done|]. by apply Hcomplete.
  - exists [(f, items)], []. split_and!.
    + cbn [flat_map]. by rewrite !app_nil_r.
    + by left.
    + exists (map fst shards). reflexivity.
    + by constructor.
    + intros Hc Hall. apply Forall_cons in Hall as [Hsh _].
      by destruct (Hcomplete Hc Hsh) as [? _].
  - exists [(f, items)], [Safetensor.EvError e]. split_and!.
    + cbn [flat_map]. by rewrite !app_nil_r.
    + right. by eexists.
    + exists (map fst shards). reflexivity.
    + by constructor.
    + intros Hc Hall. apply Forall_cons in Hall as [Hsh _].
      by destruct (Hcomplete Hc Hsh) as [? _].
Qed.

(** "Group tensors by shard file": what the map built from the entries
    [l] of the weight map holds. *)
Lemma group_step_names (l : list (string * string)) :
  let G := foldl Safetensor.group_step ∅ l in
  flat_map snd (map_to_list G) ≡ₚ map fst l
  ∧ (∀ f names, G !! f = Some names → names ≠ [] ∧ ∀ n, n ∈ names → (n, f) ∈ l)
  ∧ (∀ n f, (n, f) ∈ l → is_Some (G !! f)).
Proof.
  induction l as [|[n f] l IH] using rev_ind.
  { cbn. split_and!.
    - by rewrite map_to_list_empty.
    - intros f names H. by rewrite lookup_empty in H.
    - intros n f H. by apply elem_of_nil in H. }
  cbn zeta in *. rewrite foldl_app. cbn [foldl].
  set (G := foldl Safetensor.group_step ∅ l) in *.
  destruct IH as (IH1 & IH2 & IH3).
  unfold Safetensor.group_step at 1 2 3. cbn [fst snd].
  split_and!.
  - rewrite map_app. cbn [map fst]. rewrite <- IH1.
    destruct (G !! f) as [old|] eqn:Hf; cbn [default].
    + rewrite <- insert_delete_eq.
      rewrite map_to_list_insert by apply lookup_delete_eq.
      rewrite <- (map_to_list_delete G f old Hf).
      cbn [flat_map snd]. rewrite <- !app_assoc.
      apply Permutation_app_head, Permutation_app_comm.
    + rewrite map_to_list_insert by done.
      cbn [flat_map snd app]. apply Permutation_cons_append.
  - intros f' names H.
    destruct (decide (f = f')) as [->|Hne].
    + rewrite lookup_insert_eq in H. inversion H; subst. split.
      * intros Heq. by apply app_eq_nil in Heq as [_ ?].
      * intros n' Hn'. apply elem_of_app in Hn' as [Hn'|Hn'].
        -- apply elem_of_app. left.
           destruct (G !! f') as [old|] eqn:Hf; cbn in Hn'.
           ++ by apply (IH2 f' old).
           ++ by apply elem_of_nil in Hn'.
        -- apply list_elem_of_singleton in Hn' as ->. apply elem_of_app. right. by left.
    + rewrite lookup_insert_ne in H by done.
      destruct (IH2 f' names H) as [Hne' Hin]. split; [done|].
      intros n' Hn'. apply elem_of_app. left. by apply Hin.
  - intros n' f' H. apply elem_of_app in H as [H|H].
    + destruct (decide (f = f')) as [->|Hne].
      * rewrite lookup_insert_eq. by eexists.
      * rewrite lookup_insert_ne by done. by apply (IH3 n').
    + apply list_elem_of_singleton in H. inversion H; subst.
      rewrite lookup_insert_eq. by eexists.
Qed.

Lemma Forall2_groups (groups : list (string * list (string * Safetensor.Tensor)))
    (shards : list (string * list string)) :
  Forall2 (λ g sh, g.1 = sh.1 ∧ map fst g.2 ≡ₚ sh.2) groups shards →
  map fst groups = map fst shards
  ∧ flat_map (λ g, map fst g.2) groups ≡ₚ flat_map snd shards.
Proof.
  induction 1 as [|g sh groups shards [H1 H2] HF [IH1 IH2]]; [done|].
  cbn. rewrite H1, IH1. split; [done|]. by apply Permutation_app.
Qed.

(** C6: the trace of [IterTensors] is a sequence of blocks, one per
    shard file: the mmap of the shard is opened, its tensors are
    yielded, the mmap is closed, and only then the next block begins
    (after the last block there may be one error).  No shard has two
    blocks.  Within a block the tensors are in the shard's header, each
    item yielded to the consumer is what the reader of the shard reads
    under its name, and the items come in ascending order of
    data_offsets[0]: [slices.SortFunc] is taken with its contract, the
    order comes from the comparator of [sortTensorsByOffset].  For a
    loaded model
    (the weight map is not empty, every tensor of it is in the header of
    its shard and can be read) and a consumer that takes every item,
    there is no error, the shards opened are exactly the shards of the
    weight map, and the tensors yielded are exactly the tensors of the
    weight map, each once. *)
Theorem IterTensors_grouped_sorted (E : Safetensor.Env) (m : Safetensor.Model)
    (c : Safetensor.consumer) :
  IterSpec.good_env E →
  ∃ groups tail,
    Safetensor.IterTensors E m c = flat_map IterSpec.block groups ++ tail
    ∧ (tail = [] ∨ ∃ e, tail = [Safetensor.EvError e])
    ∧ NoDup (map fst groups)
    ∧ (∀ g, g ∈ groups → IterSpec.group_sorted E g)
    ∧ (∀ wm : gmap string string,
         Safetensor.hasRepo m = true → Safetensor.Index m = Some wm → wm ≠ ∅ →
         (∀ name f, wm !! name = Some f → IterSpec.readable_from E name f) →
         (∀ s, c s = true) →
         tail = []
         ∧ (∀ f, f ∈ map fst groups ↔ ∃ name, wm !! name = Some f)
         ∧ flat_map (λ g, map fst g.2) groups ≡ₚ map fst (map_to_list wm)).
Proof.
  intros HE.
  assert (Hfail : ∀ e, (Safetensor.hasRepo m = false ∨ Safetensor.Index m = None
                        ∨ Safetensor.Index m = Some ∅) →
            Safetensor.IterTensors E m c = [Safetensor.EvError e] →
            ∃ groups tail,
              Safetensor.IterTensors E m c = flat_map IterSpec.block groups ++ tail
              ∧ (tail = [] ∨ ∃ e, tail = [Safetensor.EvError e])
              ∧ NoDup (map fst groups)
              ∧ (∀ g, g ∈ groups → IterSpec.group_sorted E g)
              ∧ (∀ wm : gmap string string,
                   Safetensor.hasRepo m = true → Safetensor.Index m = Some wm → wm ≠ ∅ →
                   (∀ name f, wm !! name = Some f → IterSpec.readable_from E name f) →
                   (∀ s, c s = true) →
                   tail = []
                   ∧ (∀ f, f ∈ map fst groups ↔ ∃ name, wm !! name = Some f)
                   ∧ flat_map (λ g, map fst g.2) groups ≡ₚ map fst (map_to_list wm))).
  { intros e Hwhy Htrace. exists [], [Safetensor.EvError e].
    split_and!; [done | right; by eexists | constructor | by intros g Hg%elem_of_nil |].
    intros wm Hrepo Hidx Hne _ _. exfalso.
    destruct Hwhy as [H|[H|H]]; [congruence | congruence |].
    rewrite Hidx in H. by inversion H. }
  destruct (Safetensor.hasRepo m) eqn:Hrepo.
  2: { apply (Hfail ErrNotLoaded); [by left|]. unfold Safetensor.IterTensors. by rewrite Hrepo. }
  destruct (Safetensor.Index m) as [wm|] eqn:Hidx.
  2: { apply (Hfail ErrNotLoaded); [by right; left|].
       unfold Safetensor.IterTensors. by rewrite Hrepo, Hidx. }
  destruct (decide (wm = ∅)) as [->|Hne].
  { apply (Hfail ErrNotLoaded); [by right; right|].
    unfold Safetensor.IterTensors. by rewrite Hrepo, Hidx. }
  clear Hfail.
  assert (Hsize : (size wm =? 0)%nat = false).
  { apply Nat.eqb_neq. intros H0. by apply map_size_empty_iff in H0. }
  unfold Safetensor.IterTensors. rewrite Hrepo, Hidx, Hsize. cbn [negb].
  pose proof HE as (Hrange & _).
  set (l := Safetensor.range_map E string wm).
  assert (Hl : l ≡ₚ map_to_list wm) by apply Hrange.
  unfold Safetensor.shardToTensors. fold l.
  destruct (group_step_names l) as (HG1 & HG2 & HG3). cbn zeta in HG1, HG2, HG3.
  set (G := foldl Safetensor.group_step ∅ l) in *.
  set (shards := Safetensor.range_map E (list string) G).
  assert (Hshards : shards ≡ₚ map_to_list G) by apply Hrange.
  destruct (iter_shards_groups E c shards [] HE)
    as (groups & tail & Htrace & Htail & [rest Hpre] & Hgs & Hcond).
  exists groups, tail. split_and!; [done | done | | |].
  - assert (Hnd : NoDup (map fst shards)).
    { rewrite Hshards. apply NoDup_fst_map_to_list. }
    rewrite Hpre in Hnd. by apply NoDup_app in Hnd as [? _].
  - intros g Hg. rewrite Forall_forall in Hgs. by apply Hgs.
  - intros wm' _ Hwm' _ Hread Hc. inversion Hwm'; subst wm'.
    assert (Hall : Forall (shard_readable E) shards).
    { rewrite Forall_forall. intros [f names] Hin.
      rewrite Hshards in Hin. apply elem_of_map_to_list in Hin.
      destruct (HG2 f names Hin) as [Hnames Hmem]. split; [done|].
      cbn [fst snd]. rewrite Forall_forall. intros n Hn. apply Hread.
      apply elem_of_map_to_list. rewrite <- Hl. by apply Hmem. }
    destruct (Hcond Hc Hall) as [-> HF2].
    destruct (Forall2_groups _ _ HF2) as [Hfst Hnames].
    split_and!; [done | |].
    + intros f. rewrite Hfst. split.
      * intros Hf. apply list_elem_of_fmap in Hf as ([f' names] & -> & Hin).
        rewrite Hshards in Hin. apply elem_of_map_to_list in Hin.
        destruct (HG2 f' names Hin) as [Hnames' Hmem].
        destruct names as [|n names]; [done|].
        exists n. apply elem_of_map_to_list. rewrite <- Hl. apply Hmem. by left.
      * intros [n Hn]. apply elem_of_map_to_list in Hn. rewrite <- Hl in Hn.
        destruct (HG3 n f Hn) as [names Hnames'].
        apply list_elem_of_fmap. exists (f, names). split; [done|].
        rewrite Hshards. by apply elem_of_map_to_list.
    + rewrite Hnames.
      rewrite (Permutation_flat_map snd Hshards).
      rewrite HG1. by apply Permutation_map.
Qed.

Lemma two_shard_env_good : IterSpec.good_env two_shard_env.
Proof.
  split.
  - intros V m. reflexivity.
  - exact merge_SortFunc_sorts.
Qed.

Lemma IterTensors_grouped_sorted_witness :
  ∃ groups tail,
    Safetensor.IterTensors two_shard_env two_shard_model (λ _, true)
    = flat_map IterSpec.block groups ++ tail
    ∧ (tail = [] ∨ ∃ e, tail = [Safetensor.EvError e])
    ∧ NoDup (map fst groups)
    ∧ (∀ g, g ∈ groups → IterSpec.group_sorted two_shard_env g)
    ∧ (∀ wm : gmap string string,
         Safetensor.hasRepo two_shard_model = true →
         Safetensor.Index two_shard_model = Some wm → wm ≠ ∅ →
         (∀ name f, wm !! name = Some f → IterSpec.readable_from two_shard_env name f) →
         (∀ s : list (string * Safetensor.Tensor), (λ _, true) s = true) →
         tail = []
         ∧ (∀ f, f ∈ map fst groups ↔ ∃ name, wm !! name = Some f)
         ∧ flat_map (λ g, map fst g.2) groups ≡ₚ map fst (map_to_list wm)).
Proof.
  exact (IterTensors_grouped_sorted two_shard_env two_shard_model (λ _, true)
           two_shard_env_good).
Defined.

(** Scenario S7 on the two-shard model: the three tensors of shard a in
    offset order, then the three of shard b, each shard between its
    open and its close. *)
Example IterTensors_two_shards :
  Safetensor.IterTensors two_shard_env two_shard_model (λ _, true)
  = [Safetensor.EvOpen "a.safetensors";
     Safetensor.EvYield "z" (u8_tensor x0a);
     Safetensor.EvYield "y" (u8_tensor x0b);
     Safetensor.EvYield "x" (u8_tensor x0c);
     Safetensor.EvClose "a.safetensors";
     Safetensor.EvOpen "b.safetensors";
     Safetensor.EvYield "p" (u8_tensor x14);
     Safetensor.EvYield "q" (u8_tensor x15);
     Safetensor.EvYield "r" (u8_tensor x16);
     Safetensor.EvClose "b.safetensors"].
Proof. vm_compute. reflexivity. Qed.

(** A consumer that stops after two items: the mmap is closed all the same. *)
Example IterTensors_two_shards_break :
  Safetensor.IterTensors two_shard_env two_shard_model (λ s, (length s <? 2)%nat)
  = [Safetensor.EvOpen "a.safetensors";
     Safetensor.EvYield "z" (u8_tensor x0a);
     Safetensor.EvYield "y" (u8_tensor x0b);
     Safetensor.EvClose "a.safetensors"].
Proof. vm_compute. reflexivity. Qed.

(** ** The byte-level alphabet on strings *)

Lemma byteZ_zbyte (z : Z) : 0 ≤ z < 256 → byteZ (UTF8.zbyte z) = z.
Proof.
  intros Hz. unfold UTF8.zbyte, byteZ. rewrite Z.mod_small by lia.
  destruct (Byte.of_N (Z.to_N z)) as [b|] eqn:Hb.
  - cbn. apply Byte.to_of_N in Hb. rewrite Hb. lia.
  - apply Byte.of_N_None_iff in Hb. lia.
Qed.

Lemma bytes_of_string_of (l : list Z) :
  Forall (λ b, 0 ≤ b < 256) l → UTF8.bytes_of (UTF8.string_of l) = l.
Proof.
  intros H. unfold UTF8.bytes_of, UTF8.string_of.
  rewrite list_byte_of_string_of_list_byte, map_map.
  induction H as [|b l Hb H IH]; [reflexivity|].
  cbn. by rewrite byteZ_zbyte, IH.
Qed.

(** The runes below U+0800 are written in one or two bytes and read back. *)
Lemma EncodeRune_bytes (r : Z) :
  0 ≤ r < 2048 → Forall (λ b, 0 ≤ b < 256) (UTF8.EncodeRune r).
Proof.
  intros Hr. unfold UTF8.EncodeRune.
  destruct (Z.ltb_spec r 0); [lia|].
  destruct (Z.ltb_spec 1114111 r); [lia|].
  destruct (Z.leb_spec 55296 r); [lia|]. cbn [orb andb].
  destruct (Z.ltb_spec r 128).
  - repeat constructor; lia.
  - destruct (Z.ltb_spec r 2048); [|lia].
    pose proof (Z.mod_pos_bound r 64 ltac:(lia)).
    assert (0 ≤ r / 64 < 32) by (split; [apply Z.div_pos; lia | apply Z.div_lt_upper_bound; lia]).
    repeat constructor; lia.
Qed.

Lemma range_from_EncodeRune (r i : Z) (rest : list Z) :
  0 ≤ r < 2048 →
  UTF8.range_from i 0 (UTF8.EncodeRune r ++ rest)
  = (i, r) :: UTF8.range_from (i + Z.of_nat (length (UTF8.EncodeRune r))) 0 rest.
Proof.
  intros Hr. unfold UTF8.EncodeRune.
  destruct (Z.ltb_spec r 0); [lia|].
  destruct (Z.ltb_spec 1114111 r); [lia|].
  destruct (Z.leb_spec 55296 r); [lia|]. cbn [orb andb].
  destruct (Z.ltb_spec r 128) as [Hsmall|Hbig].
  - cbn [app UTF8.range_from UTF8.DecodeRune length].
    destruct (Z.ltb_spec r 128); [|lia]. cbn [Nat.pred]. f_equal.
  - destruct (Z.ltb_spec r 2048); [|lia].
    pose proof (Z.mod_pos_bound r 64 ltac:(lia)) as Hm.
    assert (Hq : 2 ≤ r / 64 < 32).
    { split; [apply Z.div_le_lower_bound; lia | apply Z.div_lt_upper_bound; lia]. }
    pose proof (Z.div_mod r 64 ltac:(lia)) as Hdm.
    cbn [app UTF8.range_from UTF8.DecodeRune length].
    destruct (Z.ltb_spec (192 + r / 64) 128); [lia|].
    destruct (Z.leb_spec 194 (192 + r / 64)); [|lia].
    destruct (Z.leb_spec (192 + r / 64) 223); [|lia]. cbn [andb].
    unfold UTF8.is_cont.
    destruct (Z.leb_spec 128 (128 + r mod 64)); [|lia].
    destruct (Z.leb_spec (128 + r mod 64) 191); [|lia]. cbn [andb Nat.pred].
    f_equal; [f_equal; lia|].
    f_equal. lia.
Qed.

Lemma range_from_runes (rs : list Z) (i : Z) :
  Forall (λ r, 0 ≤ r < 2048) rs →
  map snd (UTF8.range_from i 0 (UTF8.bytes_of_runes rs)) = rs.
Proof.
  intros H. revert i. induction H as [|r rs Hr H IH]; intros i; [reflexivity|].
  unfold UTF8.bytes_of_runes in *. cbn [flat_map].
  rewrite range_from_EncodeRune by done. cbn [map snd]. by rewrite IH.
Qed.

Lemma b2u_range (b : Z) : 0 ≤ b < 256 → 0 ≤ HFTokenizer.b2u b < 2048.
Proof.
  intros Hb.
  pose proof (forallb_seqZ_bytes
                (λ b, (0 <=? HFTokenizer.b2u b) && (HFTokenizer.b2u b <? 2048))
                ltac:(vm_compute; reflexivity) b Hb) as H.
  cbn beta in H. apply andb_prop in H as [H1 H2]. lia.
Qed.

Lemma u2b_b2u (b : Z) :
  0 ≤ b < 256 → ByteLevel.unicodeToByte !! HFTokenizer.b2u b = Some b.
Proof.
  intros Hb.
  destruct (roundtrip_ok_spec b (forallb_seqZ_bytes roundtrip_ok roundtrip_ok_all b Hb))
    as (r & Hr & Hback).
  unfold HFTokenizer.b2u. by rewrite Hr.
Qed.

Lemma foldl_decode (tbl : gmap Z Z) (f : Z → Z) (bs : list Z) :
  Forall (λ b, tbl !! f b = Some b) bs →
  ∀ (irs : list (Z * Z)) (acc : list Z),
    map snd irs = map f bs →
    foldl (λ result (ir : Z * Z),
             match tbl !! ir.2 with
             | Some b => result ++ [b]
             | None => result ++ UTF8.EncodeRune ir.2
             end) acc irs = acc ++ bs.
Proof.
  induction 1 as [|b bs Hb Hbs IH]; intros irs acc Hirs.
  - destruct irs; [by rewrite app_nil_r | discriminate].
  - destruct irs as [|[i r] irs]; [discriminate|].
    cbn [map snd] in Hirs. injection Hirs as Hr Hirs.
    cbn [foldl snd]. rewrite Hr, Hb, (IH irs) by done.
    by rewrite <- app_assoc.
Qed.

(** [byteLevelDecode] undoes the byte-level image of every byte string:
    writing each byte as its code point and decoding the text gives the
    bytes back. *)
Lemma byteLevelDecode_inverse (bs : list Z) :
  Forall (λ b, 0 ≤ b < 256) bs →
  HFTokenizer.byteLevelDecode (UTF8.string_of_runes (map HFTokenizer.b2u bs))
  = UTF8.string_of bs.
Proof.
  intros Hbs. unfold HFTokenizer.byteLevelDecode. f_equal.
  assert (Hrunes : Forall (λ r, 0 ≤ r < 2048) (map HFTokenizer.b2u bs)).
  { apply Forall_fmap. eapply Forall_impl; [exact Hbs|]. intros b. apply b2u_range. }
  assert (Hbytes : Forall (λ b, 0 ≤ b < 256)
                     (UTF8.bytes_of_runes (map HFTokenizer.b2u bs))).
  { unfold UTF8.bytes_of_runes.
    induction Hrunes as [|r rs Hr H IH]; [constructor|].
    cbn [flat_map]. apply Forall_app. split; [by apply EncodeRune_bytes | exact IH]. }
  unfold UTF8.range_string, UTF8.string_of_runes.
  rewrite bytes_of_string_of by done.
  apply (foldl_decode ByteLevel.unicodeToByte HFTokenizer.b2u bs).
  - eapply Forall_impl; [exact Hbs|]. intros b. apply u2b_b2u.
  - by apply range_from_runes.
Qed.

(** ** GGUF: opening a file *)

Lemma readFull_app (l rest : list byte) :
  GGUF.readFull (length l) (l ++ rest) = Ok (l, rest).
Proof.
  unfold GGUF.readFull. rewrite length_app.
  destruct (Nat.ltb_spec (length l + length rest) (length l)); [lia|].
  by rewrite take_app_length, drop_app_length.
Qed.

Lemma tag_of_range (v : GGUF.Value) : 0 ≤ GGUFFileWire.tag_of v < 2 ^ 32.
Proof. destruct v; vm_compute; split; (discriminate || reflexivity). Qed.

(** A key-value pair is read back as written: a scalar of each of the
    twelve scalar types, or an array of scalars of one type. *)
Lemma readKeyValue_encode (kv : GGUF.KeyValue) (rest : list byte) :
  GGUFFileWire.wf_kv kv →
  GGUF.readKeyValue (GGUFFileWire.encodeKeyValue kv ++ rest) = Ok (kv, rest).
Proof.
  destruct kv as [key v]. intros [Hkey Hv]. cbn [GGUF.Key GGUF.KValue] in Hkey, Hv.
  unfold GGUF.readKeyValue, GGUFFileWire.encodeKeyValue, GGUF.bind.
  cbn [GGUF.Key GGUF.KValue].
  rewrite <- !app_assoc, readString_encode by done.
  rewrite readUint_encode
    by (change (256 ^ Z.of_nat 4) with (2 ^ 32); apply tag_of_range).
  assert (Hval : GGUF.readValue (GGUFFileWire.tag_of v) (GGUFFileWire.encodeValue v ++ rest)
                 = Ok (v, rest)).
  { destruct v as [z|z|z|z|z|z|z|b|s|z|z|z|t l] eqn:Ev.
    13: { destruct Hv as (Ht & Hall & Hlen).
          by apply readValue_flat_array. }
    all: rewrite <- Ev in *; cbn [GGUFFileWire.wf_value] in Hv.
    all: assert (Hwf : GGUFWire.wf_scalar (GGUFFileWire.tag_of v) v) by (by rewrite Ev in *).
    all: destruct (readScalar_encode _ v rest Hwf) as (rd & Hrd & Hok).
    all: unfold GGUF.readValue; rewrite Hrd.
    all: assert (Hne : (GGUFFileWire.tag_of v =? GGUF.valueTypeArray) = false)
           by (rewrite Ev; reflexivity).
    all: rewrite Hne.
    all: replace (GGUFFileWire.encodeValue v) with (GGUFWire.encodeScalar v)
           by (rewrite Ev; reflexivity).
    all: exact Hok. }
  by rewrite Hval.
Qed.

Lemma encodeString_length (s : string) :
  length (GGUFWire.encodeString s) = (8 + String.length s)%nat.
Proof.
  unfold GGUFWire.encodeString.
  by rewrite length_app, length_le_encode, length_list_byte_of_string.
Qed.

Lemma length_flat_map_ge {A : Type} (enc : A → list byte) (l : list A) :
  (∀ x, (1 ≤ length (enc x))%nat) → (length l ≤ length (flat_map enc l))%nat.
Proof.
  intros H. induction l as [|x l IH]; cbn [flat_map length]; [lia|].
  rewrite length_app. specialize (H x). lia.
Qed.

Lemma align_32 (n : Z) :
  0 ≤ n → n + (32 - n mod 32) mod 32 = GGUFFileWire.align_up_32 n.
Proof.
  intros Hn. unfold GGUFFileWire.align_up_32.
  pose proof (Z.div_mod n 32 ltac:(lia)) as Hdm.
  pose proof (Z.mod_pos_bound n 32 ltac:(lia)) as Hm.
  destruct (decide (n mod 32 = 0)) as [H0|H0].
  - rewrite H0, Z.sub_0_r, Z_mod_same_full.
    rewrite <- (Z.div_unique (n + 31) 32 (n / 32) 31); lia.
  - rewrite (Z.mod_small (32 - n mod 32)) by lia.
    rewrite <- (Z.div_unique (n + 31) 32 (n / 32 + 1) (n mod 32 - 1)); lia.
Qed.

Lemma align_default (file : GGUFFile.File) (n : Z) :
  GGUFFile.kvByKey file = ∅ → 0 ≤ n < 2 ^ 62 →
  GGUFFile.align file n = (32, GGUFFileWire.align_up_32 n).
Proof.
  intros Hnil Hn. unfold GGUFFile.align, GGUFFile.getKV.
  rewrite Hnil, lookup_empty. unfold GGUFFile.defaultAlignment.
  f_equal.
  assert (Hw : wrap_u64 n = n) by (unfold wrap_u64; apply Z.mod_small; lia).
  rewrite Hw.
  pose proof (Z.mod_pos_bound n 32 ltac:(lia)) as Hm.
  assert (Hw2 : wrap_u64 (32 - n mod 32) = 32 - n mod 32)
    by (unfold wrap_u64; apply Z.mod_small; lia).
  rewrite Hw2, align_32 by lia.
  assert (Hup : n ≤ GGUFFileWire.align_up_32 n < n + 32).
  { rewrite <- align_32 by lia.
    pose proof (Z.mod_pos_bound (32 - n mod 32) 32 ltac:(lia)). lia. }
  assert (Hw3 : wrap_u64 (GGUFFileWire.align_up_32 n) = GGUFFileWire.align_up_32 n)
    by (unfold wrap_u64; apply Z.mod_small; lia).
  rewrite Hw3. apply wrap_i64_small. lia.
Qed.

(** X: [Open] reads back a written header: the version, the pairs and
    the tensor-info entries, in their order, and both indexes.  The
    data region begins at the first multiple of 32 at or after the end
    of the header, whatever the pairs are, a pair with the key
    general.alignment included: [Open] looks that key up before the
    index of the pairs is built. *)
Theorem Open_encodeHeader (make_ok : Z → Z → bool) (version : Z)
    (kvs : list GGUF.KeyValue) (tis : list GGUF.TensorInfo) (rest : list byte) :
  2 ≤ version < 2 ^ 32 →
  Forall GGUFFileWire.wf_kv kvs →
  Forall GGUFWire.wf_tensor_info tis →
  make_ok 32 (Z.of_nat (length kvs)) = true →
  make_ok 56 (Z.of_nat (length tis)) = true →
  Z.of_nat (length (GGUFFileWire.encodeHeader version kvs tis)) < 2 ^ 62 →
  GGUFFile.Open make_ok (GGUFFileWire.encodeHeader version kvs tis ++ rest)
  = inl (GGUFFile.mkFile version 32 kvs tis
           (GGUFFile.index_kvs kvs) (GGUFFile.index_infos tis)
           (GGUFFileWire.align_up_32
              (Z.of_nat (length (GGUFFileWire.encodeHeader version kvs tis))))).
Proof.
  intros Hv Hkvs Htis Hmk Hmt Hlen.
  assert (Hnk : Z.of_nat (length kvs) < 2 ^ 64 ∧ Z.of_nat (length tis) < 2 ^ 64).
  { unfold GGUFFileWire.encodeHeader in Hlen. rewrite !length_app in Hlen.
    pose proof (length_flat_map_ge GGUFFileWire.encodeKeyValue kvs) as H1.
    pose proof (length_flat_map_ge GGUFWire.encodeTensorInfo tis) as H2.
    assert (length kvs ≤ length (flat_map GGUFFileWire.encodeKeyValue kvs))%nat.
    { apply H1. intros kv. unfold GGUFFileWire.encodeKeyValue.
      rewrite length_app, encodeString_length. lia. }
    assert (length tis ≤ length (flat_map GGUFWire.encodeTensorInfo tis))%nat.
    { apply H2. intros ti. unfold GGUFWire.encodeTensorInfo.
      rewrite length_app, encodeString_length. lia. }
    lia. }
  destruct Hnk as [Hnk Hnt].
  unfold GGUFFile.Open.
  set (hdr := GGUFFileWire.encodeHeader version kvs tis) in *.
  assert (Hhdr : hdr ++ rest
                 = list_byte_of_string GGUFFile.ggufMagic
                   ++ (le_encode 4 version
                       ++ (le_encode 8 (Z.of_nat (length tis))
                           ++ (le_encode 8 (Z.of_nat (length kvs))
                               ++ (flat_map GGUFFileWire.encodeKeyValue kvs
                                   ++ (flat_map GGUFWire.encodeTensorInfo tis ++ rest)))))).
  { unfold hdr, GGUFFileWire.encodeHeader. by rewrite <- !app_assoc. }
  rewrite Hhdr at 1.
  change 4%nat with (length (list_byte_of_string GGUFFile.ggufMagic)) at 1.
  rewrite readFull_app, string_of_list_byte_of_string.
  rewrite String.eqb_refl. cbn [negb].
  rewrite readUint_encode by (change (256 ^ Z.of_nat 4) with (2 ^ 32); lia).
  unfold GGUFFile.minSupportedVersion.
  destruct (Z.ltb_spec version 2); [lia|].
  rewrite readUint_encode by (change (256 ^ Z.of_nat 8) with (2 ^ 64); lia).
  rewrite readUint_encode by (change (256 ^ Z.of_nat 8) with (2 ^ 64); lia).
  rewrite Hmk. cbn [negb]. rewrite Nat2Z.id.
  rewrite (readN_encode GGUF.readKeyValue GGUFFileWire.encodeKeyValue GGUFFileWire.wf_kv);
    [| intros x r Hx; by apply readKeyValue_encode | done].
  rewrite Hmt. cbn [negb]. rewrite Nat2Z.id.
  rewrite (readN_encode GGUF.readTensorInfo GGUFWire.encodeTensorInfo GGUFWire.wf_tensor_info);
    [| intros x r Hx; by apply readTensorInfo_encode | done].
  rewrite length_app.
  replace (length hdr + length rest - length rest)%nat with (length hdr) by lia.
  rewrite align_default; [reflexivity | reflexivity | lia].
Qed.

Lemma Open_encodeHeader_witness :
  GGUFFile.Open make_small (header_align_64 ++ [x00; x00; x00; x00])
  = inl (GGUFFile.mkFile 3 32 [kv_arch; kv_align_64] [tensor_w]
           (GGUFFile.index_kvs [kv_arch; kv_align_64]) (GGUFFile.index_infos [tensor_w])
           (GGUFFileWire.align_up_32 (Z.of_nat (length header_align_64)))).
Proof.
  apply (Open_encodeHeader make_small 3 [kv_arch; kv_align_64] [tensor_w]).
  - lia.
  - apply Forall_cons_2; [|apply Forall_cons_2; [|apply Forall_nil_2]].
    + split; [vm_compute; discriminate|]. cbn. split; [reflexivity | vm_compute; discriminate].
    + split; [vm_compute; discriminate|]. cbn. split; [reflexivity | lia].
  - apply Forall_cons_2; [|apply Forall_nil_2].
    unfold GGUFWire.wf_tensor_info, tensor_w.
    cbn [GGUF.Name GGUF.Shape GGUF.Type_ GGUF.Offset].
    split; [vm_compute; discriminate|].
    split; [vm_compute; reflexivity|].
    split; [apply Forall_cons_2; [lia | apply Forall_nil_2]|].
    split; [vm_compute; split; [discriminate | reflexivity] | lia].
  - reflexivity.
  - reflexivity.
  - vm_compute. reflexivity.
Defined.

(** Every reader of the parser takes its bytes from the front of the
    stream. *)
Lemma consumes_ret {A : Type} (a : A) : consumes (GGUF.ret a).
Proof. intros s a' s' H. inversion H; subst. by exists []. Qed.

Lemma consumes_fail {A : Type} (e : error) : consumes (@GGUF.fail A e).
Proof. intros s a s' H. discriminate. Qed.

Lemma consumes_bind {A B : Type} (m : GGUF.Reader A) (k : A → GGUF.Reader B) :
  consumes m → (∀ a, consumes (k a)) → consumes (GGUF.bind m k).
Proof.
  intros Hm Hk s b s' H. unfold GGUF.bind in H.
  destruct (m s) as [[a s1]|e] eqn:Hms; [|discriminate].
  destruct (Hm _ _ _ Hms) as [pre1 ->]. destruct (Hk a _ _ _ H) as [pre2 ->].
  exists (pre1 ++ pre2). by rewrite <- app_assoc.
Qed.

Lemma consumes_readUint (w : nat) : consumes (GGUF.readUint w).
Proof.
  intros s a s' H. unfold GGUF.readUint in H.
  destruct (length s <? w)%nat; [discriminate|]. inversion H; subst.
  exists (take w s). by rewrite take_drop.
Qed.

Lemma consumes_readFull (n : nat) : consumes (GGUF.readFull n).
Proof.
  intros s a s' H. unfold GGUF.readFull in H.
  destruct (length s <? n)%nat; [discriminate|]. inversion H; subst.
  exists (take n s). by rewrite take_drop.
Qed.

Lemma consumes_readN {A : Type} (n : nat) (elem : GGUF.Reader A) :
  consumes elem → consumes (GGUF.readN n elem).
Proof.
  intros He. induction n as [|n IH]; cbn [GGUF.readN].
  - apply consumes_ret.
  - apply consumes_bind; [done|]. intros x.
    apply consumes_bind; [done|]. intros xs. apply consumes_ret.
Qed.

Lemma consumes_readString : consumes GGUF.readString.
Proof.
  unfold GGUF.readString. apply consumes_bind; [apply consumes_readUint|].
  intros len. destruct (2 ^ 20 <? len); [apply consumes_fail|].
  apply consumes_bind; [apply consumes_readFull|]. intros buf. apply consumes_ret.
Qed.

Lemma consumes_readScalar (vtype : Z) (rd : GGUF.Reader GGUF.Value) :
  GGUF.readScalar vtype = Some rd → consumes rd.
Proof.
  unfold GGUF.readScalar. intros H.
  repeat match type of H with
         | (if ?c then _ else _) = _ => destruct c
         end;
    try discriminate; inversion H; subst;
    (apply consumes_bind;
     [first [apply consumes_readUint | apply consumes_readString]
     | intros v; apply consumes_ret]).
Qed.

Lemma consumes_readArray : consumes GGUF.readArray.
Proof.
  unfold GGUF.readArray. apply consumes_bind; [apply consumes_readUint|]. intros elemType.
  apply consumes_bind; [apply consumes_readUint|]. intros count.
  destruct (GGUF.readScalar elemType) as [elem|] eqn:He; [|apply consumes_fail].
  apply consumes_bind; [|intros vals; apply consumes_ret].
  apply consumes_readN. by eapply consumes_readScalar.
Qed.

Lemma consumes_readValue (vtype : Z) : consumes (GGUF.readValue vtype).
Proof.
  unfold GGUF.readValue. destruct (vtype =? GGUF.valueTypeArray); [apply consumes_readArray|].
  destruct (GGUF.readScalar vtype) as [rd|] eqn:He; [|apply consumes_fail].
  by eapply consumes_readScalar.
Qed.

Lemma consumes_readKeyValue : consumes GGUF.readKeyValue.
Proof.
  unfold GGUF.readKeyValue. apply consumes_bind; [apply consumes_readString|]. intros key.
  apply consumes_bind; [apply consumes_readUint|]. intros typeTag.
  apply consumes_bind; [apply consumes_readValue|]. intros val. apply consumes_ret.
Qed.

Lemma consumes_readTensorInfo : consumes GGUF.readTensorInfo.
Proof.
  unfold GGUF.readTensorInfo. apply consumes_bind; [apply consumes_readString|]. intros name.
  apply consumes_bind; [apply consumes_readUint|]. intros nDims.
  apply consumes_bind; [apply consumes_readN, consumes_readUint|]. intros shape.
  apply consumes_bind; [apply consumes_readUint|]. intros ttype.
  apply consumes_bind; [apply consumes_readUint|]. intros offset. apply consumes_ret.
Qed.

Lemma consumes_read_header : consumes read_header.
Proof.
  unfold read_header.
  apply consumes_bind; [apply consumes_readFull|]. intros magic.
  apply consumes_bind; [apply consumes_readUint|]. intros version.
  apply consumes_bind; [apply consumes_readUint|]. intros tensorCount.
  apply consumes_bind; [apply consumes_readUint|]. intros kvCount.
  apply consumes_bind; [apply consumes_readN, consumes_readKeyValue|]. intros kvs.
  apply consumes_bind; [apply consumes_readN, consumes_readTensorInfo|]. intros tis.
  apply consumes_ret.
Qed.

(** X: whenever [Open] succeeds, the alignment it records is 32 and the
    data region begins at the first multiple of 32 at or after the end
    of the header: the file is the header, which is what the reads of
    [Open] take from it, followed by the rest, and the data offset is
    the length of the header rounded up to a multiple of 32, less than
    32 bytes after the header.  No metadata of the file changes the
    alignment. *)
Theorem Open_alignment_is_32 (make_ok : Z → Z → bool) (content : list byte)
    (f : GGUFFile.File) :
  Z.of_nat (length content) < 2 ^ 62 →
  GGUFFile.Open make_ok content = inl f →
  GGUFFile.Alignment f = 32
  ∧ ∃ hdr rest,
      content = hdr ++ rest
      ∧ read_header content
        = Ok ((GGUFFile.Version f, GGUFFile.KeyValues f, GGUFFile.TensorInfos f), rest)
      ∧ GGUFFile.dataOffset f = GGUFFileWire.align_up_32 (Z.of_nat (length hdr))
      ∧ GGUFFile.dataOffset f mod 32 = 0
      ∧ Z.of_nat (length hdr) ≤ GGUFFile.dataOffset f < Z.of_nat (length hdr) + 32.
Proof.
  intros Hlen Hopen.
  assert (Hrd : ∃ rest,
            read_header content
            = Ok ((GGUFFile.Version f, GGUFFile.KeyValues f, GGUFFile.TensorInfos f), rest)
            ∧ GGUFFile.Alignment f = 32
            ∧ GGUFFile.dataOffset f
              = GGUFFileWire.align_up_32 (Z.of_nat (length content - length rest))).
  { revert Hopen. unfold GGUFFile.Open, read_header, GGUF.bind.
    destruct (GGUF.readFull 4 content) as [[magic s1]|e]; [|discriminate].
    destruct (negb _); [discriminate|].
    destruct (GGUF.readUint 4 s1) as [[version s2]|e]; [|discriminate].
    destruct (version <? _); [discriminate|].
    destruct (GGUF.readUint 8 s2) as [[tensorCount s3]|e]; [|discriminate].
    destruct (GGUF.readUint 8 s3) as [[kvCount s4]|e]; [|discriminate].
    destruct (negb (make_ok 32 kvCount)); [discriminate|].
    destruct (GGUF.readN _ GGUF.readKeyValue s4) as [[kvs s5]|e]; [|discriminate].
    destruct (negb (make_ok 56 tensorCount)); [discriminate|].
    destruct (GGUF.readN _ GGUF.readTensorInfo s5) as [[tis s6]|e]; [|discriminate].
    rewrite align_default by (reflexivity || lia).
    intros H. inversion H; subst f. exists s6. done. }
  destruct Hrd as (rest & Hrd & Ha & Hoff).
  destruct (consumes_read_header _ _ _ Hrd) as [hdr Hcontent].
  split; [exact Ha|]. exists hdr, rest.
  assert (Hn : (length content - length rest = length hdr)%nat).
  { rewrite Hcontent, length_app. lia. }
  rewrite Hn in Hoff. rewrite Hoff.
  do 3 (split; [done|]). split.
  - unfold GGUFFileWire.align_up_32. by rewrite Z.mul_comm, Z_mod_mult.
  - rewrite <- align_32 by lia.
    pose proof (Z.mod_pos_bound (32 - Z.of_nat (length hdr) mod 32) 32 ltac:(lia)). lia.
Qed.

Lemma Open_alignment_is_32_witness :
  GGUFFile.Alignment
    (GGUFFile.mkFile 3 32 [kv_arch; kv_align_64] [tensor_w]
       (GGUFFile.index_kvs [kv_arch; kv_align_64]) (GGUFFile.index_infos [tensor_w]) 160) = 32
  ∧ ∃ hdr rest,
      header_align_64 = hdr ++ rest
      ∧ read_header header_align_64 = Ok ((3, [kv_arch; kv_align_64], [tensor_w]), rest)
      ∧ 160 = GGUFFileWire.align_up_32 (Z.of_nat (length hdr))
      ∧ 160 mod 32 = 0
      ∧ Z.of_nat (length hdr) ≤ 160 < Z.of_nat (length hdr) + 32.
Proof.
  apply (Open_alignment_is_32 make_small header_align_64
           (GGUFFile.mkFile 3 32 [kv_arch; kv_align_64] [tensor_w]
              (GGUFFile.index_kvs [kv_arch; kv_align_64])
              (GGUFFile.index_infos [tensor_w]) 160)).
  - vm_compute. reflexivity.
  - vm_compute. reflexivity.
Defined.

(** X: what [Open] refuses before it reads any metadata: a file shorter
    than the magic, a magic other than GGUF, a version below 2. *)
Theorem Open_rejects_bad_header (make_ok : Z → Z → bool) :
  (∀ content, (length content < 4)%nat →
     GGUFFile.Open make_ok content = inr (GGUFFile.ReadFailed ErrEOF))
  ∧ (∀ magic rest, length magic = 4%nat →
       string_of_list_byte magic ≠ "GGUF"%string →
       GGUFFile.Open make_ok (magic ++ rest)
       = inr (GGUFFile.InvalidMagic (string_of_list_byte magic)))
  ∧ (∀ version rest, 0 ≤ version < 2 →
       GGUFFile.Open make_ok
         (list_byte_of_string "GGUF" ++ le_encode 4 version ++ rest)
       = inr (GGUFFile.UnsupportedVersion version)).
Proof.
  split_and!.
  - intros content Hlen. unfold GGUFFile.Open, GGUF.readFull.
    by destruct (Nat.ltb_spec (length content) 4); [|lia].
  - intros magic rest Hlen Hne. unfold GGUFFile.Open.
    rewrite <- Hlen, readFull_app.
    destruct (String.eqb_spec (string_of_list_byte magic) GGUFFile.ggufMagic) as [Heq|_];
      [by destruct Hne | reflexivity].
  - intros version rest Hv. unfold GGUFFile.Open.
    change 4%nat with (length (list_byte_of_string "GGUF")) at 1.
    rewrite readFull_app, string_of_list_byte_of_string.
    change (negb ("GGUF" =? GGUFFile.ggufMagic)%string) with false. cbn iota.
    rewrite readUint_encode by (change (256 ^ Z.of_nat 4) with (2 ^ 32); lia).
    unfold GGUFFile.minSupportedVersion.
    by destruct (Z.ltb_spec version 2); [|lia].
Qed.

Lemma Open_rejects_bad_header_witness :
  GGUFFile.Open make_small [x47; x47] = inr (GGUFFile.ReadFailed ErrEOF)
  ∧ GGUFFile.Open make_small ([x47; x47; x4d; x4c] ++ [x00])
    = inr (GGUFFile.InvalidMagic (string_of_list_byte [x47; x47; x4d; x4c]))
  ∧ GGUFFile.Open make_small (list_byte_of_string "GGUF" ++ le_encode 4 1 ++ [])
    = inr (GGUFFile.UnsupportedVersion 1).
Proof.
  destruct (Open_rejects_bad_header make_small) as (Hshort & Hmagic & Hversion).
  split_and!.
  - apply Hshort. simpl. lia.
  - apply Hmagic; [reflexivity | vm_compute; discriminate].
  - apply Hversion. lia.
Defined.

(** The index built by a loop of map assignments holds, for a key, the
    last element of the list with that key. *)
Lemma index_last {A : Type} (key : A → string) (l : list A) (k : string) :
  foldl (λ m x, <[key x := x]> m) (∅ : gmap string A) l !! k
  = last (filter (λ x, key x = k) l).
Proof.
  induction l as [|x l IH] using rev_ind; [reflexivity|].
  rewrite foldl_app, filter_app. cbn [foldl].
  destruct (decide (key x = k)) as [Hk|Hk].
  - rewrite Hk, lookup_insert_eq.
    rewrite (filter_cons_True _ x []) by done.
    rewrite filter_nil. by rewrite last_snoc.
  - rewrite lookup_insert_ne by done.
    rewrite (filter_cons_False _ x []) by done.
    rewrite filter_nil, app_nil_r. exact IH.
Qed.

(** X: the lookups of an opened file.  A tensor name, or a metadata key,
    is found exactly when an entry of the file has it, and the entry
    found is the last one with that name or key; every name that
    [ListTensorNames] lists is found. *)
Theorem Open_lookups (make_ok : Z → Z → bool) (content : list byte) (f : GGUFFile.File) :
  GGUFFile.Open make_ok content = inl f →
  (∀ name, GGUFFile.GetTensorInfo f name
           = last (filter (λ ti, GGUF.Name ti = name) (GGUFFile.TensorInfos f)))
  ∧ (∀ key, GGUFFile.GetKeyValue f key
            = last (filter (λ kv, GGUF.Key kv = key) (GGUFFile.KeyValues f)))
  ∧ (∀ name, name ∈ GGUFFile.ListTensorNames f
             ↔ ∃ ti, GGUFFile.GetTensorInfo f name = Some ti ∧ GGUF.Name ti = name).
Proof.
  unfold GGUFFile.Open.
  destruct (GGUF.readFull 4 content) as [[magic s1]|e]; [|discriminate].
  destruct (negb _); [discriminate|].
  destruct (GGUF.readUint 4 s1) as [[version s2]|e]; [|discriminate].
  destruct (version <? _); [discriminate|].
  destruct (GGUF.readUint 8 s2) as [[tensorCount s3]|e]; [|discriminate].
  destruct (GGUF.readUint 8 s3) as [[kvCount s4]|e]; [|discriminate].
  destruct (negb (make_ok 32 kvCount)); [discriminate|].
  destruct (GGUF.readN _ GGUF.readKeyValue s4) as [[kvs s5]|e]; [|discriminate].
  destruct (negb (make_ok 56 tensorCount)); [discriminate|].
  destruct (GGUF.readN _ GGUF.readTensorInfo s5) as [[tis s6]|e]; [|discriminate].
  destruct (GGUFFile.align _ _) as [alignment off].
  intros H. inversion H; subst f. clear H.
  unfold GGUFFile.GetTensorInfo, GGUFFile.GetKeyValue, GGUFFile.getKV,
    GGUFFile.ListTensorNames.
  cbn [GGUFFile.tensorByName GGUFFile.kvByKey GGUFFile.TensorInfos GGUFFile.KeyValues].
  assert (Hti : ∀ name, GGUFFile.index_infos tis !! name
                        = last (filter (λ ti, GGUF.Name ti = name) tis))
    by (intros name; apply (index_last GGUF.Name)).
  split_and!.
  - exact Hti.
  - intros key. apply (index_last GGUF.Key).
  - intros name. rewrite Hti. split.
    + intros Hin. apply list_elem_of_fmap in Hin as (ti & -> & Hin).
      assert (Hne : filter (λ ti', GGUF.Name ti' = GGUF.Name ti) tis ≠ []).
      { intros Hnil.
        assert (Hf : ti ∈ filter (λ ti', GGUF.Name ti' = GGUF.Name ti) tis)
          by (by apply list_elem_of_filter).
        rewrite Hnil in Hf. by apply elem_of_nil in Hf. }
      destruct (last (filter (λ ti', GGUF.Name ti' = GGUF.Name ti) tis)) as [ti'|] eqn:Hl.
      * exists ti'. split; [done|].
        apply last_Some_elem_of in Hl. by apply list_elem_of_filter in Hl as [? _].
      * by apply last_None in Hl.
    + intros (ti & Hl & Hname). apply last_Some_elem_of in Hl.
      apply list_elem_of_filter in Hl as [_ Hin].
      apply list_elem_of_fmap. by exists ti.
Qed.

Lemma Open_lookups_witness :
  (∀ name, GGUFFile.GetTensorInfo
             (GGUFFile.mkFile 3 32 [kv_arch; kv_align_64] [tensor_w]
                (GGUFFile.index_kvs [kv_arch; kv_align_64])
                (GGUFFile.index_infos [tensor_w]) 160) name
           = last (filter (λ ti, GGUF.Name ti = name) [tensor_w]))
  ∧ (∀ key, GGUFFile.GetKeyValue
              (GGUFFile.mkFile 3 32 [kv_arch; kv_align_64] [tensor_w]
                 (GGUFFile.index_kvs [kv_arch; kv_align_64])
                 (GGUFFile.index_infos [tensor_w]) 160) key
            = last (filter (λ kv, GGUF.Key kv = key) [kv_arch; kv_align_64]))
  ∧ (∀ name, name ∈ [GGUF.Name tensor_w]
             ↔ ∃ ti, GGUFFile.GetTensorInfo
                       (GGUFFile.mkFile 3 32 [kv_arch; kv_align_64] [tensor_w]
                          (GGUFFile.index_kvs [kv_arch; kv_align_64])
                          (GGUFFile.index_infos [tensor_w]) 160) name = Some ti
                     ∧ GGUF.Name ti = name).
Proof.
  apply (Open_lookups make_small header_align_64). vm_compute. reflexivity.
Defined.

(** ** Safetensors: what [ReadTensor] returns *)

Lemma ReadAt_cases (data p : list byte) (off : Z) :
  0 ≤ off →
  (off + Z.of_nat (length p) ≤ Z.of_nat (length data) →
   ReadAt data p off = (take (length p) (drop (Z.to_nat off) data), None))
  ∧ (off ≤ Z.of_nat (length data) < off + Z.of_nat (length p) →
     (ReadAt data p off).2 = Some ErrEOF)
  ∧ (Z.of_nat (length data) < off → ReadAt data p off = (p, Some ErrIO)).
Proof.
  intros Hoff. unfold ReadAt.
  destruct (Z.ltb_spec off 0); [lia|]. cbn [orb].
  split_and!.
  - intros Hfit. destruct (Z.ltb_spec (Z.of_nat (length data)) off); [lia|].
    set (src := take (length p) (drop (Z.to_nat off) data)).
    assert (Hsrc : length src = length p).
    { unfold src. rewrite length_take, length_drop. lia. }
    rewrite Hsrc, Nat.ltb_irrefl, drop_all. by rewrite app_nil_r.
  - intros Hshort. destruct (Z.ltb_spec (Z.of_nat (length data)) off); [lia|].
    set (src := take (length p) (drop (Z.to_nat off) data)).
    assert (Hsrc : (length src < length p)%nat).
    { unfold src. rewrite length_take, length_drop. lia. }
    by destruct (Nat.ltb_spec (length src) (length p)); [|lia].
  - intros Hout. by destruct (Z.ltb_spec (Z.of_nat (length data)) off); [|lia].
Qed.

Lemma existsb_neg_false (dims : list Z) :
  Forall (λ d, 0 ≤ d) dims → existsb (λ d, d <? 0) dims = false.
Proof.
  induction 1 as [|d dims Hd H IH]; [reflexivity|].
  cbn [existsb]. rewrite IH. by destruct (Z.ltb_spec d 0); [lia|].
Qed.

(** X: [MMapReader.ReadTensor] of a tensor of the header with a known
    dtype reads [n] bytes, the product of the dimensions times the size
    of an element, from the byte [dataOffset + data_offsets[0]] of the
    file on.  When the file has them, the tensor holds exactly these
    bytes; when the file ends before, the read fails with the
    end-of-file error; when the start lies behind the end of the file,
    it fails with the error of the file layer. *)
Theorem Safetensor_ReadTensor_region (mr : Safetensor.MMapReader) (name : string)
    (meta : Safetensor.TensorMetadata) (dtype : Safetensor.DType) :
  Safetensor.Tensors (Safetensor.header mr) !! name = Some meta →
  Safetensor.dtypeToGoMLX (Safetensor.Dtype meta) = Ok dtype →
  Forall (λ d, 0 ≤ d) (Safetensor.Shape meta) →
  0 ≤ Safetensor.dataOffset mr + (Safetensor.DataOffsets meta).1 →
  let n := Safetensor.Shape_Size (Safetensor.Shape meta) * Safetensor.DType_Size dtype in
  let off := Safetensor.dataOffset mr + (Safetensor.DataOffsets meta).1 in
  let size := Z.of_nat (length (Safetensor.reader mr)) in
  (off + n ≤ size →
   Safetensor.ReadTensor mr name
   = Ok (Safetensor.mkTensor dtype (Safetensor.Shape meta)
           (take (Z.to_nat n) (drop (Z.to_nat off) (Safetensor.reader mr)))))
  ∧ (off ≤ size < off + n → Safetensor.ReadTensor mr name = Err ErrEOF)
  ∧ (size < off → Safetensor.ReadTensor mr name = Err ErrIO).
Proof.
  intros Hmeta Hdt Hdims Hoff n off size.
  assert (Hn : 0 ≤ n).
  { pose proof (Shape_Size_nonneg_from (Safetensor.Shape meta) 1 ltac:(lia) Hdims).
    unfold n, Safetensor.Shape_Size. destruct dtype; cbn; lia. }
  assert (Hread : Safetensor.ReadTensor mr name
                  = match ReadAt (Safetensor.reader mr) (replicate (Z.to_nat n) x00) off with
                    | (_, Some e) => Err e
                    | (data', None) => Ok (Safetensor.mkTensor dtype (Safetensor.Shape meta) data')
                    end).
  { unfold Safetensor.ReadTensor. rewrite Hmeta, Hdt, existsb_neg_false by done.
    cbn [Safetensor.FromShape Safetensor.t_bytes Safetensor.t_dims].
    fold n. rewrite length_replicate, Z2Nat.id by done.
    by rewrite Z.eqb_refl. }
  rewrite Hread.
  destruct (ReadAt_cases (Safetensor.reader mr) (replicate (Z.to_nat n) x00) off Hoff)
    as (Hfit & Hshort & Hout).
  rewrite length_replicate, Z2Nat.id in Hfit, Hshort by done.
  split_and!.
  - intros H. by rewrite (Hfit H).
  - intros H. specialize (Hshort H).
    destruct (ReadAt _ _ _) as [p' [e|]]; cbn in Hshort; by inversion Hshort.
  - intros H. by rewrite (Hout H).
Qed.

Lemma Safetensor_ReadTensor_region_witness :
  (8 + 54 + 0 + 8 ≤ Z.of_nat (length short_span_file) →
   Safetensor.ReadTensor short_span_reader "t"
   = Ok (Safetensor.mkTensor Safetensor.Float32 [2]
           (take (Z.to_nat 8) (drop (Z.to_nat (8 + 54 + 0)) short_span_file))))
  ∧ (8 + 54 + 0 ≤ Z.of_nat (length short_span_file) < 8 + 54 + 0 + 8 →
     Safetensor.ReadTensor short_span_reader "t" = Err ErrEOF)
  ∧ (Z.of_nat (length short_span_file) < 8 + 54 + 0 →
     Safetensor.ReadTensor short_span_reader "t" = Err ErrIO).
Proof.
  apply (Safetensor_ReadTensor_region short_span_reader "t" short_span_meta Safetensor.Float32).
  - vm_compute. reflexivity.
  - vm_compute. reflexivity.
  - apply Forall_cons_2; [lia | apply Forall_nil_2].
  - vm_compute. discriminate.
Defined.

(** ** Safetensors: the iterator and its consumer *)

Lemma yielded_app (a b : list Safetensor.event) :
  SafetensorModel.yielded (a ++ b) = SafetensorModel.yielded a ++ SafetensorModel.yielded b.
Proof. unfold SafetensorModel.yielded. apply omap_app. Qed.

Lemma yielded_yields (items : list (string * Safetensor.Tensor)) :
  SafetensorModel.yielded (Safetensor.yields items) = items.
Proof.
  induction items as [|[n t] items IH]; [reflexivity|].
  cbn. f_equal. exact IH.
Qed.

Lemma yielded_block (f : string) (items : list (string * Safetensor.Tensor))
    (rest : list Safetensor.event) :
  SafetensorModel.yielded
    (Safetensor.EvOpen f :: Safetensor.yields items ++ Safetensor.EvClose f :: rest)
  = items ++ SafetensorModel.yielded rest.
Proof.
  change (Safetensor.EvOpen f :: Safetensor.yields items ++ Safetensor.EvClose f :: rest)
    with ([Safetensor.EvOpen f] ++ Safetensor.yields items ++ [Safetensor.EvClose f] ++ rest).
  rewrite !yielded_app, yielded_yields. reflexivity.
Qed.

Lemma errors_yields (items : list (string * Safetensor.Tensor)) :
  forallb (λ ev, negb (SafetensorModel.is_error ev)) (Safetensor.yields items) = true.
Proof. induction items as [|[n t] items IH]; [reflexivity | exact IH]. Qed.

(** The inner loop asks the consumer about every item it yields, with
    all the items yielded so far, and goes on only after a yes. *)
Lemma read_shard_consumer (mr : Safetensor.MMapReader) (c : Safetensor.consumer)
    (names : list string) (seen items : list (string * Safetensor.Tensor))
    (o : Safetensor.outcome) :
  Safetensor.read_shard mr c names seen = (items, o) →
  (∀ k, (0 < k ≤ length items)%nat → (k < length items)%nat ∨ o ≠ Safetensor.Stopped →
        c (seen ++ take k items) = true)
  ∧ (o = Safetensor.Stopped → items ≠ [] ∧ c (seen ++ items) = false)
  ∧ Forall (λ it, it.1 ∈ names ∧ Safetensor.ReadTensor mr it.1 = Ok it.2) items.
Proof.
  revert seen items o. induction names as [|n names IH]; intros seen items o H.
  - cbn in H. inversion H; subst. split_and!.
    + intros k Hk. cbn in Hk. lia.
    + discriminate.
    + constructor.
  - cbn [Safetensor.read_shard] in H.
    destruct (Safetensor.ReadTensor mr n) as [t|e] eqn:Hread.
    2: { inversion H; subst. split_and!.
         - intros k Hk. cbn in Hk. lia.
         - discriminate.
         - constructor. }
    destruct (c (seen ++ [(n, t)])) eqn:Hc.
    + destruct (Safetensor.read_shard mr c names (seen ++ [(n, t)])) as [items' o'] eqn:Hr.
      inversion H; subst. destruct (IH _ _ _ Hr) as (IH1 & IH2 & IH3).
      split_and!.
      * intros k Hk Hwhy. cbn [length] in Hk.
        destruct k as [|k]; [lia|]. cbn [take].
        destruct k as [|k].
        -- by rewrite take_0.
        -- rewrite (cons_middle (n, t)), app_assoc. apply IH1; [lia|].
           destruct Hwhy as [Hlt|Hne]; [left; cbn [length] in Hlt; lia | by right].
      * intros Ho. destruct (IH2 Ho) as [Hne Hc']. split; [discriminate|].
        by rewrite (cons_middle (n, t)), app_assoc.
      * constructor.
        -- cbn. split; [by left | done].
        -- eapply Forall_impl; [exact IH3|]. intros it [Hin Hrd]. split; [by right | done].
    + inversion H; subst. split_and!.
      * intros k Hk Hwhy. cbn [length] in Hk. destruct Hwhy as [Hlt|Hne]; [|done].
        cbn [length] in Hlt. lia.
      * intros _. split; [discriminate | done].
      * constructor; [|constructor]. cbn. split; [by left | done].
Qed.

Lemma last_cons_ne {A : Type} (x : A) (l : list A) : l ≠ [] → last (x :: l) = last l.
Proof. by destruct l. Qed.

Lemma last_app_ne {A : Type} (l1 l2 : list A) : l2 ≠ [] → last (l1 ++ l2) = last l2.
Proof.
  intros Hne. induction l1 as [|x l1 IH]; [reflexivity|].
  cbn [app]. rewrite last_cons_ne; [exact IH|].
  intros Hnil. apply app_eq_nil in Hnil as [_ ?]. done.
Qed.

Lemma iter_shards_consumer (E : Safetensor.Env) (c : Safetensor.consumer)
    (shards : list (string * list string)) (seen : list (string * Safetensor.Tensor)) :
  let tr := Safetensor.iter_shards E c shards seen in
  let ys := SafetensorModel.yielded tr in
  (∀ k, (0 < k < length ys)%nat → c (seen ++ take k ys) = true)
  ∧ (ys ≠ [] → c (seen ++ ys) = false →
     (∃ f, last tr = Some (Safetensor.EvClose f))
     ∧ forallb (λ ev, negb (SafetensorModel.is_error ev)) tr = true).
Proof.
  revert seen. induction shards as [|[f names] shards IH]; intros seen; cbn zeta.
  { cbn. split; [intros k Hk; lia | done]. }
  cbn [Safetensor.iter_shards].
  destruct (Safetensor.DownloadFile E f) as [path|e].
  2: { cbn. split; [intros k Hk; lia | done]. }
  destruct (Safetensor.parseHeader E path) as [[h off]|e].
  2: { cbn. split; [intros k Hk; lia | done]. }
  destruct (Safetensor.mmapOpen E path) as [data|e].
  2: { cbn. split; [intros k Hk; lia | done]. }
  destruct (Safetensor.read_shard _ c _ seen) as [items o] eqn:Hr.
  destruct (read_shard_consumer _ _ _ _ _ _ Hr) as (Hpre & Hstop & _).
  rewrite yielded_block.
  destruct o as [| |e].
  - specialize (IH (seen ++ items)). cbn zeta in IH. destruct IH as [IH1 IH2].
    set (tr' := Safetensor.iter_shards E c shards (seen ++ items)) in *.
    set (ys' := SafetensorModel.yielded tr') in *.
    split.
    + intros k Hk. rewrite length_app in Hk.
      destruct (decide (k ≤ length items)%nat) as [Hle|Hgt].
      * rewrite take_app_le by done. apply Hpre; [lia | by right].
      * rewrite take_app_ge by lia. rewrite app_assoc. apply IH1. lia.
    + intros Hne Hc.
      assert (Hys' : ys' ≠ []).
      { intros Hnil. rewrite Hnil, app_nil_r in Hc, Hne.
        assert (Hc' : c (seen ++ take (length items) items) = true).
        { apply Hpre; [|by right]. destruct items; [done | cbn; lia]. }
        rewrite firstn_all in Hc'. congruence. }
      rewrite app_assoc in Hc. destruct (IH2 Hys' Hc) as [[f' Hlast] Herr].
      assert (Htr' : tr' ≠ []).
      { intros Hnil. rewrite Hnil in Hlast. discriminate. }
      split.
      * exists f'. rewrite last_cons_ne.
        -- rewrite last_app_ne; [by rewrite last_cons_ne | discriminate].
        -- intros Hnil. apply app_eq_nil in Hnil as [_ ?]. done.
      * cbn [forallb SafetensorModel.is_error negb andb].
        rewrite forallb_app, errors_yields. cbn [forallb SafetensorModel.is_error negb andb].
        exact Herr.
  - cbn [SafetensorModel.yielded omap]. rewrite app_nil_r. split.
    + intros k Hk. apply Hpre; [lia | left; lia].
    + intros _ _. split.
      * exists f. rewrite last_cons_ne.
        -- by rewrite last_app_ne.
        -- intros Hnil. apply app_eq_nil in Hnil as [_ ?]. done.
      * cbn [forallb SafetensorModel.is_error negb andb].
        rewrite forallb_app, errors_yields. reflexivity.
  - cbn [SafetensorModel.yielded omap]. rewrite app_nil_r. split.
    + intros k Hk. apply Hpre; [lia | left; lia].
    + intros Hne Hc. exfalso.
      assert (Hc' : c (seen ++ take (length items) items) = true).
      { apply Hpre; [|by right]. destruct items; [done | cbn; lia]. }
      rewrite firstn_all in Hc'. congruence.
Qed.

(** X: the iterator stops at the first refusal.  Run against a consumer
    [c], the iterator hands over an item only after [c] has accepted
    every item before it; when [c] refuses an item, that item is the
    last one, the mmap of the open shard is closed, and the trace holds
    no error. *)
Theorem IterTensors_stops_at_refusal (E : Safetensor.Env) (m : Safetensor.Model)
    (c : Safetensor.consumer) :
  let tr := Safetensor.IterTensors E m c in
  let ys := SafetensorModel.yielded tr in
  (∀ k, (0 < k < length ys)%nat → c (take k ys) = true)
  ∧ (ys ≠ [] → c ys = false →
     (∃ f, last tr = Some (Safetensor.EvClose f))
     ∧ forallb (λ ev, negb (SafetensorModel.is_error ev)) tr = true).
Proof.
  cbn zeta. unfold Safetensor.IterTensors.
  destruct (negb (Safetensor.hasRepo m)).
  { cbn. split; [intros k Hk; lia | done]. }
  destruct (Safetensor.Index m) as [wm|].
  2: { cbn. split; [intros k Hk; lia | done]. }
  destruct (size wm =? 0)%nat.
  { cbn. split; [intros k Hk; lia | done]. }
  exact (iter_shards_consumer E c _ []).
Qed.

Lemma sortTensorsByOffset_names (E : Safetensor.Env) (names : list string)
    (h : Safetensor.Header) (n : string) :
  (∀ l, Safetensor.SortFunc E _ Safetensor.cmp_offset l ≡ₚ l) →
  n ∈ Safetensor.sortTensorsByOffset E names h → n ∈ names.
Proof.
  intros Hperm Hn. unfold Safetensor.sortTensorsByOffset in Hn.
  apply list_elem_of_fmap in Hn as (p & -> & Hp).
  rewrite (Hperm _) in Hp. by apply collect_offsets_elem in Hp as [? _].
Qed.

Lemma iter_shards_yield (E : Safetensor.Env) (c : Safetensor.consumer)
    (shards : list (string * list string)) (seen : list (string * Safetensor.Tensor))
    (name : string) (t : Safetensor.Tensor) :
  (∀ l, Safetensor.SortFunc E _ Safetensor.cmp_offset l ≡ₚ l) →
  (name, t) ∈ SafetensorModel.yielded (Safetensor.iter_shards E c shards seen) →
  ∃ f names localPath h off data,
    (f, names) ∈ shards ∧ name ∈ names
    ∧ Safetensor.DownloadFile E f = Ok localPath
    ∧ Safetensor.parseHeader E localPath = Ok (h, off)
    ∧ Safetensor.mmapOpen E localPath = Ok data
    ∧ Safetensor.ReadTensor (Safetensor.mkMMapReader data off h) name = Ok t.
Proof.
  intros Hperm. revert seen. induction shards as [|[f names] shards IH]; intros seen Hin.
  { cbn in Hin. by apply elem_of_nil in Hin. }
  cbn [Safetensor.iter_shards] in Hin.
  destruct (Safetensor.DownloadFile E f) as [path|e] eqn:Hd.
  2: { cbn in Hin. by apply elem_of_nil in Hin. }
  destruct (Safetensor.parseHeader E path) as [[h off]|e] eqn:Hp.
  2: { cbn in Hin. by apply elem_of_nil in Hin. }
  destruct (Safetensor.mmapOpen E path) as [data|e] eqn:Hm.
  2: { cbn in Hin. by apply elem_of_nil in Hin. }
  destruct (Safetensor.read_shard _ c _ seen) as [items o] eqn:Hr.
  destruct (read_shard_consumer _ _ _ _ _ _ Hr) as (_ & _ & Hitems).
  rewrite yielded_block in Hin. apply elem_of_app in Hin as [Hin|Hin].
  - rewrite Forall_forall in Hitems. destruct (Hitems _ Hin) as [Hn Hread].
    cbn [fst snd] in Hn, Hread.
    exists f, names, path, h, off, data.
    split_and!; [by left | by eapply sortTensorsByOffset_names | done..].
  - assert (Hrest : ∃ seen', (name, t) ∈ SafetensorModel.yielded
                                 (Safetensor.iter_shards E c shards seen')).
    { destruct o as [| |e]; [by eexists | |]; cbn in Hin; by apply elem_of_nil in Hin. }
    destruct Hrest as [seen' Hin'].
    destruct (IH seen' Hin') as (f' & names' & p' & h' & o' & d' & Hsh & Hrest').
    exists f', names', p', h', o', d'. split; [by right | done].
Qed.

(** X: the iterator and [GetTensor] agree.  Every item that
    [IterTensors] yields, under whatever consumer, is the item that
    [GetTensor] returns for its name. *)
Theorem IterTensors_yields_GetTensor (E : Safetensor.Env) (m : Safetensor.Model)
    (c : Safetensor.consumer) (name : string) (t : Safetensor.Tensor) :
  (∀ (V : Type) (mp : gmap string V), Safetensor.range_map E V mp ≡ₚ map_to_list mp) →
  (∀ l, Safetensor.SortFunc E _ Safetensor.cmp_offset l ≡ₚ l) →
  (name, t) ∈ SafetensorModel.yielded (Safetensor.IterTensors E m c) →
  SafetensorModel.GetTensor E m name = Ok (name, t).
Proof.
  intros Hrange Hperm. unfold Safetensor.IterTensors.
  destruct (Safetensor.hasRepo m) eqn:Hrepo; cbn [negb].
  2: { intros Hin. cbn in Hin. by apply elem_of_nil in Hin. }
  destruct (Safetensor.Index m) as [wm|] eqn:Hidx.
  2: { intros Hin. cbn in Hin. by apply elem_of_nil in Hin. }
  destruct (size wm =? 0)%nat eqn:Hsize.
  { intros Hin. cbn in Hin. by apply elem_of_nil in Hin. }
  intros Hin.
  apply iter_shards_yield in Hin
    as (f & names & path & h & off & data & Hsh & Hn & Hd & Hp & Hm & Hread); [|done].
  unfold Safetensor.shardToTensors in Hsh.
  set (l := Safetensor.range_map E string wm) in *.
  destruct (group_step_names l) as (_ & HG2 & _). cbn zeta in HG2.
  rewrite (Hrange _) in Hsh. apply elem_of_map_to_list in Hsh.
  destruct (HG2 f names Hsh) as [_ Hmem].
  assert (Hwm : wm !! name = Some f).
  { apply elem_of_map_to_list. rewrite <- (Hrange _ wm). by apply Hmem. }
  unfold SafetensorModel.GetTensor, SafetensorModel.GetTensorFilename.
  rewrite Hidx, Hwm. unfold SafetensorModel.GetTensorFromFile.
  by rewrite Hrepo, Hidx, Hsize, Hd, Hp, Hm, Hread.
Qed.

Lemma IterTensors_yields_GetTensor_witness :
  SafetensorModel.GetTensor two_shard_env two_shard_model "y" = Ok ("y"%string, u8_tensor x0b).
Proof.
  apply (IterTensors_yields_GetTensor two_shard_env two_shard_model (λ _, true)).
  - intros V mp. reflexivity.
  - intros l. apply (merge_sort_Permutation (not_less Safetensor.cmp_offset)).
  - vm_compute. apply list_elem_of_further, list_elem_of_here.
Defined.

(** ** GGUF: more block kernels *)

Lemma all_from_spec (P : Z → bool) (fuel : nat) (i : Z) :
  all_from P fuel i = true → ∀ z, i ≤ z < i + Z.of_nat fuel → P z = true.
Proof.
  revert i. induction fuel as [|k IH]; intros i H z Hz; [lia|].
  cbn [all_from] in H. apply andb_prop in H as [Hi Hk].
  destruct (decide (z = i)) as [->|Hne]; [exact Hi|].
  apply (IH (i + 1) Hk). lia.
Qed.

Lemma dequantQ8_0_loop (src : list byte) (d : GGUF.float32) (dst0 : list GGUF.float32)
    (n : nat) :
  (n ≤ 32)%nat → (32 ≤ length dst0)%nat → (34 ≤ length src)%nat →
  ∃ dst, foldl (GGUF.dequantQ8_0_step src d) (Some dst0) (seq 0 n) = Some dst
         ∧ length dst = length dst0
         ∧ (∀ j, (j < n)%nat →
              ∃ q, src !! (2 + j)%nat = Some q
                   ∧ dst !! j = Some (GGUF.f32_mul d (GGUF.f32_of_int (to_signed 8 (byteZ q)))))
         ∧ (∀ i, (n ≤ i)%nat → dst !! i = dst0 !! i).
Proof.
  intros Hn Hlen Hsrc. induction n as [|n IH].
  - exists dst0. cbn. split_and!; [done | done | intros j Hj; lia | done].
  - destruct IH as (dst & Hfold & Hl & Hinv & Hrest); [lia|].
    rewrite seq_S, foldl_app, Hfold. cbn [foldl Nat.add].
    destruct (lookup_lt_is_Some_2 src (2 + n)) as [q Hq]; [lia|].
    unfold GGUF.dequantQ8_0_step. cbn [mbind option_bind]. rewrite Hq.
    cbn [mbind option_bind]. rewrite store_Some by lia.
    eexists. split; [reflexivity|]. split; [by rewrite length_insert|]. split.
    + intros j Hj. destruct (decide (j = n)) as [->|Hne].
      * exists q. split; [done|]. apply list_lookup_insert_eq. lia.
      * destruct (Hinv j) as (q' & Hq' & Hv); [lia|].
        exists q'. split; [done|]. by rewrite list_lookup_insert_ne by lia.
    + intros i Hi. rewrite list_lookup_insert_ne by lia. apply Hrest. lia.
Qed.

(** X: a Q8_0 block of 34 bytes dequantizes to 32 float32 values,
    dst[j] = scale * int8(src[2+j]), the scale being the IEEE half of
    the first two bytes; what lies behind the 32 values in the
    destination is not touched. *)
Theorem dequantQ8_0_block (src : list byte) (dst0 : list GGUF.float32) :
  (34 ≤ length src)%nat → (32 ≤ length dst0)%nat →
  ∃ dst, GGUF.dequantQ8_0 src dst0 = Some dst
         ∧ length dst = length dst0
         ∧ (∀ j, (j < 32)%nat →
              ∃ q, src !! (2 + j)%nat = Some q
                   ∧ dst !! j
                     = Some (GGUF.f32_mul (GGUF.float16ToFloat32 (le_decode (take 2 src)))
                               (GGUF.f32_of_int (to_signed 8 (byteZ q)))))
         ∧ (∀ i, (32 ≤ i)%nat → dst !! i = dst0 !! i).
Proof.
  intros Hsrc Hdst. unfold GGUF.dequantQ8_0, GGUF.Uint16_at.
  destruct (Nat.leb_spec (0 + 2) (length src)) as [_|]; [|lia].
  cbn [mbind option_bind drop].
  exact (dequantQ8_0_loop src _ dst0 32 ltac:(lia) Hdst Hsrc).
Qed.

Lemma dequantQ8_0_block_witness :
  ∃ dst, GGUF.dequantQ8_0 q8_0_test_block (replicate 32 f32_zero) = Some dst
         ∧ length dst = length (replicate 32 f32_zero)
         ∧ ∃ q, q8_0_test_block !! (2 + 1)%nat = Some q
                ∧ dst !! 1%nat
                  = Some (GGUF.f32_mul
                            (GGUF.float16ToFloat32 (le_decode (take 2 q8_0_test_block)))
                            (GGUF.f32_of_int (to_signed 8 (byteZ q)))).
Proof.
  destruct (dequantQ8_0_block q8_0_test_block (replicate 32 f32_zero))
    as (dst & H & Hl & Hv & _); [vm_compute; lia | vm_compute; lia |].
  exists dst. split; [exact H|]. split; [exact Hl|]. apply Hv. lia.
Defined.

Lemma land_16 (a : Z) : Z.land a 16 = if Z.testbit a 4 then 16 else 0.
Proof.
  apply Z.bits_inj'. intros n Hn. rewrite Z.land_spec.
  change 16 with (2 ^ 4) at 1. rewrite Z.pow2_bits_eqb by lia.
  destruct (Z.eqb_spec 4 n) as [<-|Hne].
  - rewrite andb_true_r. destruct (Z.testbit a 4); reflexivity.
  - rewrite andb_false_r. destruct (Z.testbit a 4).
    + change 16 with (2 ^ 4). rewrite Z.pow2_bits_eqb by lia.
      symmetry. by apply Z.eqb_neq.
    + by rewrite Z.bits_0.
Qed.

Lemma fifth_bit_low (qh j : Z) :
  0 ≤ j < 16 →
  Z.land (wrap_u32 (Z.shiftl (Z.shiftr qh j) 4)) 16 = 16 * bit qh j.
Proof.
  intros Hj. rewrite land_16. unfold wrap_u32.
  rewrite Z.mod_pow2_bits_low by lia.
  rewrite Z.shiftl_spec by lia. rewrite Z.shiftr_spec by lia.
  replace (4 - 4 + j) with j by lia. unfold bit. by destruct (Z.testbit qh j).
Qed.

Lemma fifth_bit_high (qh j : Z) :
  0 ≤ j < 16 → Z.land (Z.shiftr qh (j + 12)) 16 = 16 * bit qh (j + 16).
Proof.
  intros Hj. rewrite land_16. rewrite Z.shiftr_spec by lia.
  replace (4 + (j + 12)) with (j + 16) by lia.
  unfold bit. by destruct (Z.testbit qh (j + 16)).
Qed.

Lemma fifth_bit_ok_all : forallb fifth_bit_ok (seqZ 0 256) = true.
Proof. vm_compute. reflexivity. Qed.

Lemma fifth_bit_values (q : byte) (c : Z) :
  c = 0 ∨ c = 1 →
  Z.lor (Z.land (byteZ q) 15) (16 * c) = byteZ q mod 16 + 16 * c
  ∧ Z.lor (Z.shiftr (byteZ q) 4) (16 * c) = byteZ q / 16 + 16 * c.
Proof.
  intros Hc.
  pose proof (forallb_seqZ_bytes fifth_bit_ok fifth_bit_ok_all (byteZ q) (byteZ_range q)) as H.
  unfold fifth_bit_ok in H.
  apply andb_prop in H as [H H4]. apply andb_prop in H as [H H3].
  apply andb_prop in H as [H1 H2].
  apply Z.eqb_eq in H1, H2, H3, H4.
  destruct Hc as [-> | ->];
    [change (16 * 0) with 0 | change (16 * 1) with 16]; split; lia.
Qed.

Lemma bit_01 (z i : Z) : bit z i = 0 ∨ bit z i = 1.
Proof. unfold bit. destruct (Z.testbit z i); [by right | by left]. Qed.

Lemma dequantQ5_0_loop (qs : list byte) (qh : Z) (d : GGUF.float32)
    (dst0 : list GGUF.float32) (n : nat) :
  (n ≤ 16)%nat → length dst0 = 32%nat → (16 ≤ length qs)%nat →
  ∃ dst, foldl (GGUFKernels.dequantQ5_0_step qs qh d) (Some dst0) (seq 0 n) = Some dst
         ∧ length dst = 32%nat
         ∧ ∀ j, (j < n)%nat →
             ∃ q, qs !! j = Some q
                  ∧ dst !! j
                    = Some (GGUF.f32_mul
                              (GGUF.f32_of_int
                                 (byteZ q mod 16 + 16 * bit qh (Z.of_nat j) - 16)) d)
                  ∧ dst !! (j + 16)%nat
                    = Some (GGUF.f32_mul
                              (GGUF.f32_of_int
                                 (byteZ q / 16 + 16 * bit qh (Z.of_nat j + 16) - 16)) d).
Proof.
  intros Hn Hlen Hqs. induction n as [|n IH].
  - exists dst0. cbn. split_and!; [done | done | intros j Hj; lia].
  - destruct IH as (dst & Hfold & Hl & Hinv); [lia|].
    rewrite seq_S, foldl_app, Hfold. cbn [foldl Nat.add].
    destruct (lookup_lt_is_Some_2 qs n) as [q Hq]; [lia|].
    unfold GGUFKernels.dequantQ5_0_step. cbn [mbind option_bind]. rewrite Hq.
    cbn [mbind option_bind].
    rewrite fifth_bit_low, fifth_bit_high by lia.
    destruct (fifth_bit_values q (bit qh (Z.of_nat n)) (bit_01 _ _)) as [-> _].
    destruct (fifth_bit_values q (bit qh (Z.of_nat n + 16)) (bit_01 _ _)) as [_ ->].
    rewrite store_Some by lia. cbn [mbind option_bind].
    rewrite store_Some by (rewrite length_insert; lia).
    eexists. split; [reflexivity|]. split; [by rewrite !length_insert|].
    intros j Hj. destruct (decide (j = n)) as [->|Hne].
    + exists q. split; [done|]. split.
      * rewrite list_lookup_insert_ne by lia. apply list_lookup_insert_eq. lia.
      * apply list_lookup_insert_eq. rewrite length_insert. lia.
    + destruct (Hinv j) as (q' & Hq' & Hlo & Hhi); [lia|].
      exists q'. split; [done|]. rewrite !list_lookup_insert_ne by lia. done.
Qed.

(** X: a Q5_0 block of 22 bytes dequantizes to 32 float32 values.  The
    value j of the first half is the low nibble of the byte 6+j with
    the bit j of the 32-bit word of the bytes 2..5 as its fifth bit;
    the value j of the second half is the high nibble with the bit
    j+16.  Each is offset by -16 and multiplied by the scale. *)
Theorem dequantQ5_0_block (src : list byte) (dst0 : list GGUF.float32) :
  length src = 22%nat → length dst0 = 32%nat →
  ∃ dst, GGUFKernels.dequantQ5_0 src dst0 = Some dst
         ∧ length dst = 32%nat
         ∧ ∀ j, (j < 16)%nat →
             ∃ q, src !! (6 + j)%nat = Some q
                  ∧ dst !! j
                    = Some (GGUF.f32_mul
                              (GGUF.f32_of_int
                                 (byteZ q mod 16
                                  + 16 * bit (le_decode (take 4 (drop 2 src))) (Z.of_nat j) - 16))
                              (GGUF.float16ToFloat32 (le_decode (take 2 src))))
                  ∧ dst !! (j + 16)%nat
                    = Some (GGUF.f32_mul
                              (GGUF.f32_of_int
                                 (byteZ q / 16
                                  + 16 * bit (le_decode (take 4 (drop 2 src))) (Z.of_nat j + 16)
                                  - 16))
                              (GGUF.float16ToFloat32 (le_decode (take 2 src)))).
Proof.
  intros Hsrc Hdst. unfold GGUFKernels.dequantQ5_0, GGUF.Uint16_at, GGUFKernels.Uint32_at.
  destruct (Nat.leb_spec (0 + 2) (length src)) as [_|]; [|lia].
  cbn [mbind option_bind drop].
  destruct (Nat.leb_spec (2 + 4) (length src)) as [_|]; [|lia].
  cbn [mbind option_bind].
  destruct (dequantQ5_0_loop (drop 6 src) (le_decode (take 4 (drop 2 src)))
              (GGUF.float16ToFloat32 (le_decode (take 2 src))) dst0 16)
    as (dst & Hfold & Hl & Hinv); [lia | done | rewrite length_drop; lia |].
  exists dst. split; [exact Hfold|]. split; [exact Hl|].
  intros j Hj. destruct (Hinv j Hj) as (q & Hq & Hlo & Hhi).
  exists q. rewrite lookup_drop in Hq. done.
Qed.

Lemma dequantQ5_0_block_witness :
  ∃ dst, GGUFKernels.dequantQ5_0 q5_0_test_block (replicate 32 f32_zero) = Some dst
         ∧ length dst = 32%nat.
Proof.
  destruct (dequantQ5_0_block q5_0_test_block (replicate 32 f32_zero))
    as (dst & H & Hl & _); [reflexivity | reflexivity |].
  exists dst. split; [exact H | exact Hl].
Defined.

Lemma scale_pair_ok_all :
  all_from (λ a, all_from (scale_pair_ok a) 256 0) 256 0 = true.
Proof. vm_compute. reflexivity. Qed.

Lemma scale_pair (a b : byte) :
  Z.lor (Z.land (byteZ a) 15) (Z.shiftl (Z.shiftr (byteZ b) 6) 4 mod 256)
  = byteZ a mod 16 + 16 * (byteZ b / 64)
  ∧ Z.lor (Z.shiftr (byteZ a) 4) (Z.shiftl (Z.shiftr (byteZ b) 6) 4 mod 256)
    = byteZ a / 16 + 16 * (byteZ b / 64).
Proof.
  pose proof (byteZ_range a) as Ha. pose proof (byteZ_range b) as Hb.
  pose proof (all_from_spec _ _ _ scale_pair_ok_all (byteZ a) ltac:(lia)) as H.
  cbn beta in H.
  pose proof (all_from_spec _ _ _ H (byteZ b) ltac:(lia)) as H'.
  unfold scale_pair_ok in H'. apply andb_prop in H' as [H1 H2].
  apply Z.eqb_eq in H1, H2. by split.
Qed.

(** X: [getScaleMinK4] unpacks, for each of the 8 sub-blocks, a scale
    and a min of 6 bits from the 12 bytes: for j < 4 the low 6 bits of
    the bytes j and j+4; for j >= 4 the nibbles of the byte j+4, with
    the top 2 bits of the bytes j-4 and j above them.  No index leaves
    the 12 bytes. *)
Theorem getScaleMinK4_unpacks (j : Z) (scales : list byte) :
  0 ≤ j < 8 → length scales = 12%nat →
  ∃ sc m, GGUFKernels.getScaleMinK4 j scales = Some (sc, m)
          ∧ 0 ≤ sc < 64 ∧ 0 ≤ m < 64
          ∧ (j < 4 →
             sc = byte_at scales (Z.to_nat j) mod 64
             ∧ m = byte_at scales (Z.to_nat (j + 4)) mod 64)
          ∧ (4 ≤ j →
             sc = byte_at scales (Z.to_nat (j + 4)) mod 16
                  + 16 * (byte_at scales (Z.to_nat (j - 4)) / 64)
             ∧ m = byte_at scales (Z.to_nat (j + 4)) / 16
                   + 16 * (byte_at scales (Z.to_nat j) / 64)).
Proof.
  intros Hj Hlen.
  assert (Hat : ∀ i, 0 ≤ i < 12 →
            ∃ b, scales !! Z.to_nat i = Some b ∧ byte_at scales (Z.to_nat i) = byteZ b).
  { intros i Hi. destruct (lookup_lt_is_Some_2 scales (Z.to_nat i)) as [b Hb]; [lia|].
    exists b. split; [done|]. unfold byte_at. by rewrite Hb. }
  unfold GGUFKernels.getScaleMinK4.
  destruct (Z.ltb_spec j 4) as [Hlo|Hhi].
  - destruct (Hat j ltac:(lia)) as (a & Ha & Ha').
    destruct (Hat (j + 4) ltac:(lia)) as (b & Hb & Hb').
    destruct (Z.ltb_spec j 0); [lia|]. destruct (Z.ltb_spec (j + 4) 0); [lia|].
    rewrite Ha, Hb. cbn [fmap option_fmap option_map mbind option_bind].
    change 63 with (Z.ones 6). rewrite !Z.land_ones by lia.
    pose proof (Z.mod_pos_bound (byteZ a) (2 ^ 6) ltac:(lia)).
    pose proof (Z.mod_pos_bound (byteZ b) (2 ^ 6) ltac:(lia)).
    eexists _, _. split; [reflexivity|].
    rewrite Ha', Hb'. change (2 ^ 6) with 64 in *.
    split_and!; [lia | lia | lia | lia | done | lia].
  - destruct (Hat (j + 4) ltac:(lia)) as (a & Ha & Ha').
    destruct (Hat (j - 4) ltac:(lia)) as (b & Hb & Hb').
    destruct (Hat j ltac:(lia)) as (c & Hc & Hc').
    destruct (Z.ltb_spec j 0); [lia|]. destruct (Z.ltb_spec (j + 4) 0); [lia|].
    destruct (Z.ltb_spec (j - 4) 0); [lia|].
    rewrite Ha, Hb, Hc. cbn [fmap option_fmap option_map mbind option_bind].
    destruct (scale_pair a b) as [-> _]. destruct (scale_pair a c) as [_ ->].
    pose proof (byteZ_range a). pose proof (byteZ_range b). pose proof (byteZ_range c).
    pose proof (Z.mod_pos_bound (byteZ a) 16 ltac:(lia)).
    assert (0 ≤ byteZ a / 16 < 16)
      by (split; [apply Z.div_pos; lia | apply Z.div_lt_upper_bound; lia]).
    assert (0 ≤ byteZ b / 64 < 4)
      by (split; [apply Z.div_pos; lia | apply Z.div_lt_upper_bound; lia]).
    assert (0 ≤ byteZ c / 64 < 4)
      by (split; [apply Z.div_pos; lia | apply Z.div_lt_upper_bound; lia]).
    eexists _, _. split; [reflexivity|].
    rewrite Ha', Hb', Hc'.
    split_and!; [lia | lia | lia | lia | lia | done].
Qed.

Lemma getScaleMinK4_unpacks_witness :
  ∃ sc m, GGUFKernels.getScaleMinK4 4 k4_test_scales = Some (sc, m)
          ∧ 0 ≤ sc < 64 ∧ 0 ≤ m < 64.
Proof.
  destruct (getScaleMinK4_unpacks 4 k4_test_scales) as (sc & m & H & Hsc & Hm & _);
    [lia | reflexivity |].
  exists sc, m. split_and!; [exact H | lia..].
Defined.

(** ** GGUF: the conversion of halves *)

Lemma half_ok_all : all_from FloatValue.half_ok (Z.to_nat 65536) 0 = true.
Proof. vm_compute. reflexivity. Qed.

(** X: [float16ToFloat32] is exact on every bit pattern: the float32
    it returns stands for the number, the signed zero, the infinity or
    the not-a-number that the IEEE binary16 pattern stands for, and it
    is a float32 (at most 24 bits of mantissa, exponent in range).
    Subnormal halves become the normal float32 of the same value. *)
Theorem float16ToFloat32_exact (bits : Z) :
  0 ≤ bits < 65536 →
  FloatValue.of_float32 (GGUF.float16ToFloat32 bits) = FloatValue.of_half bits
  ∧ FloatValue.is_binary32 (GGUF.float16ToFloat32 bits) = true.
Proof.
  intros Hb.
  pose proof (all_from_spec _ _ _ half_ok_all bits ltac:(lia)) as H.
  unfold FloatValue.half_ok in H. apply andb_prop in H as [Hv Hf].
  split; [|exact Hf].
  destruct (FloatValue.of_float32 _) as [s x|s|], (FloatValue.of_half bits) as [s' x'|s'|];
    cbn in Hv; try discriminate.
  - apply andb_prop in Hv as [Hs Hx]. apply Bool.eqb_prop in Hs. apply Z.eqb_eq in Hx.
    by subst.
  - apply Bool.eqb_prop in Hv. by subst.
  - reflexivity.
Qed.

Lemma float16ToFloat32_exact_witness :
  FloatValue.of_float32 (GGUF.float16ToFloat32 14336) = FloatValue.of_half 14336
  ∧ FloatValue.is_binary32 (GGUF.float16ToFloat32 14336) = true.
Proof. apply float16ToFloat32_exact. lia. Defined.

(** ** GGUF: the bytes of a native tensor *)

Lemma foldl_mul_product (dims : list Z) (acc : Z) :
  foldl Z.mul acc dims = acc * dims_product dims.
Proof.
  revert acc. induction dims as [|d dims IH]; intros acc; cbn [foldl dims_product foldr].
  - lia.
  - rewrite IH. unfold dims_product. lia.
Qed.

Lemma dims_product_app (l1 l2 : list Z) :
  dims_product (l1 ++ l2) = dims_product l1 * dims_product l2.
Proof.
  unfold dims_product. induction l1 as [|d l1 IH]; cbn [app foldr]; [lia|].
  rewrite IH. lia.
Qed.

Lemma dims_product_reverse (l : list Z) : dims_product (reverse l) = dims_product l.
Proof.
  induction l as [|d l IH]; [reflexivity|].
  rewrite reverse_cons, dims_product_app, IH. unfold dims_product. cbn [foldr]. lia.
Qed.

Lemma dims_product_nonneg (l : list Z) : Forall (λ d, 0 ≤ d) l → 0 ≤ dims_product l.
Proof.
  unfold dims_product. induction 1 as [|d l Hd H IH]; cbn [foldr]; [lia | nia].
Qed.

(** The product in [uint64] is the product modulo 2^64. *)
Lemma foldl_wrap_u64 (dims : list Z) (acc : Z) :
  foldl (λ n d, wrap_u64 (n * d)) (wrap_u64 acc) dims = wrap_u64 (acc * dims_product dims).
Proof.
  revert acc. induction dims as [|d dims IH]; intros acc; cbn [foldl dims_product foldr].
  - by rewrite Z.mul_1_r.
  - assert (Hw : wrap_u64 (wrap_u64 acc * d) = wrap_u64 (acc * d)).
    { unfold wrap_u64. by rewrite Z.mul_mod_idemp_l by lia. }
    rewrite Hw, IH. unfold dims_product. f_equal. lia.
Qed.

Lemma NumElements_product (ti : GGUF.TensorInfo) :
  GGUF.Shape ti ≠ [] →
  0 ≤ dims_product (GGUF.Shape ti) < 2 ^ 64 →
  GGUF.NumElements ti = dims_product (GGUF.Shape ti).
Proof.
  intros Hne Hp. unfold GGUF.NumElements.
  destruct (GGUF.Shape ti) as [|d l] eqn:Hs; [done|]. cbn [length Nat.eqb].
  change 1 with (wrap_u64 1) at 1. rewrite foldl_wrap_u64, Z.mul_1_l.
  unfold wrap_u64. by apply Z.mod_small.
Qed.

(** For the native types, a block is one element and its size is the
    size of the dtype. *)
Lemma native_type_sizes (t : Z) :
  GGUF.IsQuantized t = false →
  GGUF.BlockSize t = 1 ∧ GGUF.TypeSize t = GGUF.DType_Size (GGUF.GoMLXDType t)
  ∧ 1 ≤ GGUF.TypeSize t ≤ 8.
Proof.
  unfold GGUF.IsQuantized. intros H. apply negb_false_iff in H.
  unfold GGUF.BlockSize. rewrite H.
  unfold GGUF.is_one_of, GGUF.native_types in H. cbn [existsb] in H.
  repeat apply orb_prop in H as [H|H]; try discriminate;
    apply Z.eqb_eq in H; subst t; vm_compute; split_and!; (reflexivity || discriminate).
Qed.

(** X: [ReadTensor] of a tensor of a native type returns the [n] bytes
    of the file from the tensor's offset on, [n] the product of the
    dimensions times the element size.  When the file ends before, the
    read succeeds all the same and the missing bytes are zero; only a
    start behind the end of the file is an error. *)
Theorem GGUF_ReadTensor_native_bytes (K : GGUF.kernels) (mr : GGUF.MMapReader)
    (name : string) (info : GGUF.TensorInfo) :
  GGUF.GetTensorInfo (GGUF.file mr) name = Some info →
  Forall (λ d, 0 ≤ d < 2 ^ 63) (GGUF.Shape info) →
  GGUF.IsQuantized (GGUF.Type_ info) = false →
  0 ≤ GGUF.Offset info → 0 ≤ GGUF.fileDataOffset (GGUF.file mr) →
  GGUF.fileDataOffset (GGUF.file mr) + GGUF.Offset info < 2 ^ 63 →
  let n := Z.to_nat (dims_product (GGUF.Shape info) * GGUF.TypeSize (GGUF.Type_ info)) in
  let off := GGUF.fileDataOffset (GGUF.file mr) + GGUF.Offset info in
  (off ≤ Z.of_nat (length (GGUF.reader mr)) →
   GGUF.ReadTensor K mr name
   = Ok (GGUF.mkTensor (GGUF.GoMLXDType (GGUF.Type_ info)) (reverse (GGUF.Shape info))
           (GGUF.Bytes (take n (drop (Z.to_nat off) (GGUF.reader mr) ++ replicate n x00)))))
  ∧ (Z.of_nat (length (GGUF.reader mr)) < off → GGUF.ReadTensor K mr name = Err ErrIO).
Proof.
  intros Hinfo Hdims Hq Hoff Hdo Hsum n off.
  destruct (native_type_sizes _ Hq) as (_ & Hts & _).
  assert (Hread : GGUF.ReadTensor K mr name
                  = match ReadAt (GGUF.reader mr) (replicate n x00) off with
                    | (data', None) | (data', Some ErrEOF) =>
                        Ok (GGUF.mkTensor (GGUF.GoMLXDType (GGUF.Type_ info))
                              (reverse (GGUF.Shape info)) (GGUF.Bytes data'))
                    | (_, Some e) => Err e
                    end).
  { unfold GGUF.ReadTensor. rewrite Hinfo. unfold GGUF.GoMLXShape.
    destruct (dims_not_negative _ Hdims) as [-> ->].
    rewrite Hq. cbn [negb].
    rewrite (wrap_i64_small (GGUF.Offset info)) by lia.
    rewrite wrap_i64_small by lia.
    rewrite foldl_mul_product, Z.mul_1_l, dims_product_reverse, <- Hts. reflexivity. }
  rewrite Hread. unfold ReadAt.
  destruct (Z.ltb_spec off 0); [lia|]. cbn [orb].
  split.
  - intros Hin. destruct (Z.ltb_spec (Z.of_nat (length (GGUF.reader mr))) off); [lia|].
    set (src := take (length (replicate n x00)) (drop (Z.to_nat off) (GGUF.reader mr))).
    assert (Hdata : src ++ drop (length src) (replicate n x00)
                    = take n (drop (Z.to_nat off) (GGUF.reader mr) ++ replicate n x00)).
    { unfold src. rewrite length_replicate.
      set (tail := drop (Z.to_nat off) (GGUF.reader mr)).
      destruct (decide (n ≤ length tail)%nat) as [Hle|Hgt].
      - rewrite take_app_le by done.
        rewrite drop_ge by (rewrite length_take, length_replicate; lia).
        by rewrite app_nil_r.
      - rewrite (take_ge tail) by lia. rewrite take_app_ge by lia.
        f_equal. rewrite drop_replicate, take_replicate. f_equal. lia. }
    rewrite Hdata. by destruct (_ <? _)%nat.
  - intros Hout. by destruct (Z.ltb_spec (Z.of_nat (length (GGUF.reader mr))) off); [|lia].
Qed.

Lemma GGUF_ReadTensor_native_bytes_witness :
  (0 + 32 ≤ Z.of_nat (length (GGUF.reader two_tensor_reader)) →
   GGUF.ReadTensor no_kernels two_tensor_reader "w"
   = Ok (GGUF.mkTensor (GGUF.GoMLXDType GGUF.TensorTypeF32) (reverse [2])
           (GGUF.Bytes
              (take (Z.to_nat (dims_product [2] * GGUF.TypeSize GGUF.TensorTypeF32))
                 (drop (Z.to_nat (0 + 32)) two_tensor_data
                  ++ replicate (Z.to_nat (dims_product [2] * GGUF.TypeSize GGUF.TensorTypeF32))
                       x00)))))
  ∧ (Z.of_nat (length (GGUF.reader two_tensor_reader)) < 0 + 32 →
     GGUF.ReadTensor no_kernels two_tensor_reader "w" = Err ErrIO).
Proof.
  apply (GGUF_ReadTensor_native_bytes no_kernels two_tensor_reader "w" tensor_w).
  - vm_compute. reflexivity.
  - apply Forall_cons_2; [lia | apply Forall_nil_2].
  - reflexivity.
  - vm_compute. discriminate.
  - vm_compute. discriminate.
  - vm_compute. reflexivity.
Defined.

(** X: [ReadTensorRaw] and [ReadTensor] agree on the tensors of native
    types with at least one dimension: they read the same bytes, or
    fail with the same error.  For a tensor without dimensions
    [ReadTensorRaw] returns no byte at all. *)
Theorem ReadTensorRaw_native (K : GGUF.kernels) (mr : GGUF.MMapReader)
    (name : string) (info : GGUF.TensorInfo) :
  GGUF.GetTensorInfo (GGUF.file mr) name = Some info →
  Forall (λ d, 0 ≤ d < 2 ^ 63) (GGUF.Shape info) →
  GGUF.IsQuantized (GGUF.Type_ info) = false →
  dims_product (GGUF.Shape info) < 2 ^ 59 →
  (GGUF.Shape info ≠ [] →
   GGUFKernels.ReadTensorRaw mr name
   = match GGUF.ReadTensor K mr name with
     | Ok t => match GGUF.t_data t with
               | GGUF.Bytes data => Ok (data, info)
               | GGUF.Floats _ => Err ErrPanic
               end
     | Err e => Err e
     end)
  ∧ (GGUF.Shape info = [] →
     0 ≤ GGUF.fileDataOffset (GGUF.file mr) + GGUF.Offset info
         ≤ Z.of_nat (length (GGUF.reader mr)) →
     GGUF.fileDataOffset (GGUF.file mr) + GGUF.Offset info < 2 ^ 63 →
     0 ≤ GGUF.Offset info < 2 ^ 63 →
     GGUFKernels.ReadTensorRaw mr name = Ok ([], info)).
Proof.
  intros Hinfo Hdims Hq Hprod.
  destruct (native_type_sizes _ Hq) as (Hbs & Hts & Hrange).
  assert (Hnn : 0 ≤ dims_product (GGUF.Shape info)).
  { apply dims_product_nonneg. eapply Forall_impl; [exact Hdims|]. by intros d [Hd _]. }
  split.
  - intros Hne.
    assert (Hnb : GGUF.NumBytes info
                  = dims_product (GGUF.Shape info) * GGUF.TypeSize (GGUF.Type_ info)).
    { unfold GGUF.NumBytes. rewrite Hbs.
      destruct (Z.eqb_spec (GGUF.TypeSize (GGUF.Type_ info)) 0); [lia|]. cbn [orb Z.eqb].
      rewrite NumElements_product by (done || lia).
      rewrite Z.div_1_r. rewrite (wrap_i64_small (dims_product _)) by lia.
      apply wrap_i64_small. nia. }
    unfold GGUFKernels.ReadTensorRaw, GGUF.ReadTensor. rewrite Hinfo.
    unfold GGUF.GoMLXShape.
    destruct (dims_not_negative _ Hdims) as [-> ->].
    rewrite Hq. cbn [negb]. rewrite Hnb.
    destruct (Z.ltb_spec (dims_product (GGUF.Shape info) * GGUF.TypeSize (GGUF.Type_ info)) 0);
      [nia|].
    rewrite foldl_mul_product, Z.mul_1_l, dims_product_reverse, <- Hts.
    destruct (ReadAt _ _ _) as [p' [[]|]]; reflexivity.
  - intros Hnil Hoff Hsum Ho.
    unfold GGUFKernels.ReadTensorRaw. rewrite Hinfo.
    assert (Hnb : GGUF.NumBytes info = 0).
    { unfold GGUF.NumBytes, GGUF.NumElements. rewrite Hbs, Hnil. cbn [length Nat.eqb].
      destruct (Z.eqb_spec (GGUF.TypeSize (GGUF.Type_ info)) 0); reflexivity. }
    rewrite Hnb. change (0 <? 0) with false. cbn iota.
    change (replicate (Z.to_nat 0) x00) with (@nil byte).
    rewrite (wrap_i64_small (GGUF.Offset info)) by lia.
    rewrite wrap_i64_small by lia.
    destruct (ReadAt_cases (GGUF.reader mr) [] _ (proj1 Hoff)) as (Hfit & _ & _).
    rewrite Hfit by (cbn [length]; lia). reflexivity.
Qed.

Lemma ReadTensorRaw_native_witness :
  GGUFKernels.ReadTensorRaw two_tensor_reader "w"
  = match GGUF.ReadTensor no_kernels two_tensor_reader "w" with
    | Ok t => match GGUF.t_data t with
              | GGUF.Bytes data => Ok (data, tensor_w)
              | GGUF.Floats _ => Err ErrPanic
              end
    | Err e => Err e
    end.
Proof.
  refine (proj1 (ReadTensorRaw_native no_kernels two_tensor_reader "w" tensor_w _ _ _ _) _).
  - vm_compute. reflexivity.
  - apply Forall_cons_2; [lia | apply Forall_nil_2].
  - reflexivity.
  - vm_compute. reflexivity.
  - discriminate.
Defined.

(** ** GGUF: the iterator of a model *)

Lemma gguf_read_all (E : GGUFModel.Env) (mr : GGUF.MMapReader) (c : GGUFModel.consumer)
    (infos : list GGUF.TensorInfo) (seen : list (string * GGUF.Tensor)) :
  ∃ items pre tail,
    GGUFModel.read_all E mr c infos seen
    = map (λ it, GGUFModel.EvYield it.1 it.2) items ++ tail
    ∧ (tail = [] ∨ ∃ e, tail = [GGUFModel.EvError e])
    ∧ map fst items = map GGUF.Name pre
    ∧ (∃ rest, infos = pre ++ rest)
    ∧ Forall (λ it, GGUF.ReadTensor (GGUFModel.K E) mr it.1 = Ok it.2) items
    ∧ ((∀ s, c s = true) →
       Forall (λ info, is_ok (GGUF.ReadTensor (GGUFModel.K E) mr (GGUF.Name info)) = true) infos →
       tail = [] ∧ pre = infos).
Proof.
  revert seen. induction infos as [|info infos IH]; intros seen.
  { exists [], [], []. split_and!; [done | by left | done | by exists [] | constructor | done]. }
  cbn [GGUFModel.read_all].
  destruct (GGUF.ReadTensor (GGUFModel.K E) mr (GGUF.Name info)) as [t|e] eqn:Hread.
  - destruct (c (seen ++ [(GGUF.Name info, t)])) eqn:Hc.
    + destruct (IH (seen ++ [(GGUF.Name info, t)]))
        as (items & pre & tail & Htr & Htail & Hnames & [rest Hrest] & Hall & Hcond).
      exists ((GGUF.Name info, t) :: items), (info :: pre), tail.
      split_and!.
      * cbn. by rewrite Htr.
      * done.
      * cbn. by rewrite Hnames.
      * exists rest. cbn. by rewrite Hrest.
      * by constructor.
      * intros Hc' Hok. apply Forall_cons in Hok as [_ Hok].
        destruct (Hcond Hc' Hok) as [-> ->]. done.
    + exists [(GGUF.Name info, t)], [info], [].
      split_and!; [done | by left | done | by exists infos | by constructor; [|constructor] |].
      intros Hc'. rewrite Hc' in Hc. discriminate.
  - exists [], [], [GGUFModel.EvError e].
    split_and!; [done | right; by eexists | done | by eexists | constructor |].
    intros _ Hok. apply Forall_cons in Hok as [Hok _]. rewrite Hread in Hok. discriminate.
Qed.

(** The comparator of [IterTensors] is a strict weak ordering, and
    "less" under it is the order of the offsets. *)
Lemma cmp_info_offset_less (a b : GGUF.TensorInfo) :
  GGUFModel.cmp_info_offset a b < 0 ↔ GGUF.Offset a < GGUF.Offset b.
Proof.
  unfold GGUFModel.cmp_info_offset.
  destruct (Z.ltb_spec (GGUF.Offset a) (GGUF.Offset b)); [lia|].
  destruct (Z.ltb_spec (GGUF.Offset b) (GGUF.Offset a)); lia.
Qed.

Lemma cmp_info_offset_strict_weak : strict_weak GGUFModel.cmp_info_offset.
Proof.
  split; intros *; rewrite ?cmp_info_offset_less; lia.
Qed.

(** X: the iterator of a GGUF model.  Once the mmap is open, the trace
    is, in every run: the open of the mmap, the tensors of a front part
    of the tensor infos sorted by ascending offset (the first items of
    the sorted infos, none passed over), then possibly one error, then
    the close of the mmap.  [slices.SortFunc] is taken with its
    contract, the order comes from the comparator of the source.  Each
    item is what [GetTensor] returns for its name.  When every tensor
    can be read and the consumer takes every item, there is no error and
    the items are those of all the sorted infos. *)
Theorem GGUF_IterTensors_sorted (E : GGUFModel.Env) (m : GGUFModel.Model)
    (c : GGUFModel.consumer) (f : GGUF.File) (data : list byte) :
  GGUFModel.File_ m = Some f →
  GGUFModel.mmapOpen E (GGUFModel.path m) = Ok data →
  sorts (GGUFModel.SortFunc E) →
  ∃ items sorted tail,
    GGUFModel.IterTensors E m c
    = GGUFModel.EvOpen :: map (λ it, GGUFModel.EvYield it.1 it.2) items
        ++ tail ++ [GGUFModel.EvClose]
    ∧ (tail = [] ∨ ∃ e, tail = [GGUFModel.EvError e])
    ∧ sorted ≡ₚ GGUF.TensorInfos f
    ∧ Sorted Z.le (map GGUF.Offset sorted)
    ∧ map fst items = map GGUF.Name (take (length items) sorted)
    ∧ Forall (λ it, GGUFModel.GetTensor E m it.1 = Ok it) items
    ∧ ((∀ s, c s = true) →
       Forall (λ info, is_ok (GGUF.ReadTensor (GGUFModel.K E) (GGUF.mkMMapReader data f)
                                (GGUF.Name info)) = true) (GGUF.TensorInfos f) →
       tail = [] ∧ map fst items = map GGUF.Name sorted).
Proof.
  intros Hf Hopen Hsorts. unfold GGUFModel.IterTensors. rewrite Hf, Hopen.
  destruct (Hsorts _ GGUFModel.cmp_info_offset (GGUF.TensorInfos f)) as [Hperm Hsorted].
  specialize (Hsorted cmp_info_offset_strict_weak).
  set (sorted := GGUFModel.SortFunc E _ GGUFModel.cmp_info_offset (GGUF.TensorInfos f)) in *.
  set (mr := GGUF.mkMMapReader data f).
  destruct (gguf_read_all E mr c sorted [])
    as (items & pre & tail & Htr & Htail & Hnames & [rest Hrest] & Hall & Hcond).
  assert (Hlen : length items = length pre).
  { rewrite <- (length_map fst items), Hnames. apply length_map. }
  exists items, sorted, tail. split_and!.
  - cbn zeta. by rewrite Htr, <- app_assoc.
  - done.
  - exact Hperm.
  - apply (Sorted_fmap GGUF.Offset (λ a b, ¬ GGUFModel.cmp_info_offset b a < 0) Z.le);
      [|exact Hsorted].
    intros a b Hab. rewrite cmp_info_offset_less in Hab. lia.
  - rewrite Hnames, Hlen, Hrest. by rewrite take_app_length.
  - eapply Forall_impl; [exact Hall|]. intros [n t] Hread. cbn [fst snd] in *.
    unfold GGUFModel.GetTensor. rewrite Hf, Hopen. fold mr. by rewrite Hread.
  - intros Hc Hok.
    assert (Hok' : Forall (λ info, is_ok (GGUF.ReadTensor (GGUFModel.K E) mr (GGUF.Name info))
                                   = true) sorted).
    { rewrite Forall_forall in Hok |- *. intros info Hin. apply Hok.
      by rewrite <- Hperm. }
    destruct (Hcond Hc Hok') as [-> ->]. done.
Qed.

Lemma GGUF_IterTensors_sorted_witness :
  ∃ items sorted tail,
    GGUFModel.IterTensors vw_env vw_model (λ _, true)
    = GGUFModel.EvOpen :: map (λ it, GGUFModel.EvYield it.1 it.2) items
        ++ tail ++ [GGUFModel.EvClose]
    ∧ (tail = [] ∨ ∃ e, tail = [GGUFModel.EvError e])
    ∧ sorted ≡ₚ [tensor_v; tensor_w]
    ∧ Sorted Z.le (map GGUF.Offset sorted)
    ∧ map fst items = map GGUF.Name (take (length items) sorted).
Proof.
  destruct (GGUF_IterTensors_sorted vw_env vw_model (λ _, true)
              (GGUF.mkFile [tensor_v; tensor_w] 0) two_tensor_data)
    as (items & sorted & tail & H1 & H2 & H3 & H4 & H5 & _).
  - reflexivity.
  - reflexivity.
  - exact merge_SortFunc_sorts.
  - exists items, sorted, tail. split_and!; done.
Defined.

(** On the two-tensor model: w (offset 32) comes before v (offset 36),
    though the file lists v first. *)
Example GGUF_IterTensors_vw :
  GGUFModel.IterTensors vw_env vw_model (λ _, true)
  = [GGUFModel.EvOpen;
     GGUFModel.EvYield "w" (GGUF.mkTensor GGUF.Float32 [2]
                              (GGUF.Bytes [x01; x02; x03; x04; x05; x06; x07; x08]));
     GGUFModel.EvYield "v" (GGUF.mkTensor GGUF.Float32 [1]
                              (GGUF.Bytes [x05; x06; x07; x08]));
     GGUFModel.EvClose].
Proof. vm_compute. reflexivity. Qed.

(** ** GGUF: what a successful parse has consumed *)

Lemma le_decode_range (bs : list byte) : 0 ≤ le_decode bs < 256 ^ Z.of_nat (length bs).
Proof.
  induction bs as [|b bs IH]; [cbn; lia|].
  cbn [le_decode length]. rewrite Nat2Z.inj_succ, Z.pow_succ_r by lia.
  pose proof (byteZ_range b). lia.
Qed.

Lemma le_encode_decode (bs : list byte) : le_encode (length bs) (le_decode bs) = bs.
Proof.
  induction bs as [|b bs IH]; [reflexivity|].
  cbn [le_decode length le_encode].
  pose proof (byteZ_range b) as Hb. pose proof (le_decode_range bs) as Hr.
  assert (Hm : (byteZ b + 256 * le_decode bs) mod 256 = byteZ b).
  { symmetry. apply (Z.mod_unique _ _ (le_decode bs)); lia. }
  assert (Hq : (byteZ b + 256 * le_decode bs) / 256 = le_decode bs).
  { symmetry. apply (Z.div_unique _ _ _ (byteZ b)); lia. }
  rewrite Hm, Hq, IH. unfold byteZ. rewrite N2Z.id, Byte.of_to_N. reflexivity.
Qed.

Lemma readUint_sound (w : nat) (s rest : list byte) (z : Z) :
  GGUF.readUint w s = Ok (z, rest) →
  s = le_encode w z ++ rest ∧ 0 ≤ z < 256 ^ Z.of_nat w.
Proof.
  unfold GGUF.readUint. destruct (Nat.ltb_spec (length s) w) as [|Hlen]; [discriminate|].
  intros H. inversion H; subst. clear H.
  assert (Hl : length (take w s) = w) by (rewrite length_take; lia).
  split.
  - rewrite <- Hl at 1. rewrite le_encode_decode. by rewrite take_drop.
  - pose proof (le_decode_range (take w s)) as Hr. by rewrite Hl in Hr.
Qed.

Lemma readString_sound (s rest : list byte) (str : string) :
  GGUF.readString s = Ok (str, rest) →
  s = GGUFWire.encodeString str ++ rest ∧ Z.of_nat (String.length str) ≤ 2 ^ 20.
Proof.
  unfold GGUF.readString, GGUF.bind.
  destruct (GGUF.readUint 8 s) as [[len s1]|e] eqn:Hlen; [|discriminate].
  apply readUint_sound in Hlen as [-> Hr].
  destruct (Z.ltb_spec (2 ^ 20) len) as [|Hle]; [discriminate|].
  unfold GGUF.readFull.
  destruct (Nat.ltb_spec (length s1) (Z.to_nat len)) as [|Hl]; [discriminate|].
  intros Heq. inversion Heq; subst. clear Heq.
  assert (Hsl : String.length (string_of_list_byte (take (Z.to_nat len) s1)) = Z.to_nat len).
  { rewrite <- length_list_byte_of_string, list_byte_of_string_of_list_byte.
    rewrite length_take. lia. }
  unfold GGUFWire.encodeString. rewrite Hsl, Z2Nat.id by lia.
  rewrite list_byte_of_string_of_list_byte, <- app_assoc, take_drop.
  split; [reflexivity | lia].
Qed.

Lemma readN_sound {A : Type} (elem : GGUF.Reader A) (enc : A → list byte) (P : A → Prop)
    (n : nat) (s rest : list byte) (xs : list A) :
  (∀ s x r, elem s = Ok (x, r) → s = enc x ++ r ∧ P x) →
  GGUF.readN n elem s = Ok (xs, rest) →
  s = flat_map enc xs ++ rest ∧ Forall P xs ∧ length xs = n.
Proof.
  intros Helem. revert s xs. induction n as [|n IH]; intros s xs; cbn [GGUF.readN].
  - intros H. inversion H; subst. split_and!; [done | constructor | done].
  - unfold GGUF.bind.
    destruct (elem s) as [[x s1]|e] eqn:Hx; [|discriminate].
    destruct (GGUF.readN n elem s1) as [[xs' s2]|e] eqn:Hxs; [|discriminate].
    intros H. inversion H; subst. clear H.
    apply Helem in Hx as [-> HP]. apply IH in Hxs as (-> & HF & Hl).
    cbn [flat_map length]. rewrite <- app_assoc.
    split_and!; [done | by constructor | by rewrite Hl].
Qed.

(** X: a tensor-info entry that [readTensorInfo] returns is the entry
    whose wire form was at the front of the stream: the bytes consumed
    are exactly the encoding of the entry returned, and its fields are
    within the ranges of their wire types (the name is at most 1 MiB
    long). *)
Theorem readTensorInfo_sound (s rest : list byte) (ti : GGUF.TensorInfo) :
  GGUF.readTensorInfo s = Ok (ti, rest) →
  s = GGUFWire.encodeTensorInfo ti ++ rest ∧ GGUFWire.wf_tensor_info ti.
Proof.
  unfold GGUF.readTensorInfo, GGUF.bind.
  destruct (GGUF.readString s) as [[name s1]|e] eqn:H1; [|discriminate].
  destruct (GGUF.readUint 4 s1) as [[nDims s2]|e] eqn:H2; [|discriminate].
  destruct (GGUF.readN _ _ s2) as [[shape s3]|e] eqn:H3; [|discriminate].
  destruct (GGUF.readUint 4 s3) as [[ttype s4]|e] eqn:H4; [|discriminate].
  destruct (GGUF.readUint 8 s4) as [[offset s5]|e] eqn:H5; [|discriminate].
  intros H. inversion H; subst. clear H.
  apply readString_sound in H1 as [-> Hname].
  apply readUint_sound in H2 as [-> Hn].
  apply (readN_sound (GGUF.readUint 8) (le_encode 8) (λ d, 0 ≤ d < 2 ^ 64)) in H3
    as (-> & Hshape & Hlen).
  2: { intros s x r Hx. apply readUint_sound in Hx as [-> Hr]. done. }
  apply readUint_sound in H4 as [-> Ht].
  apply readUint_sound in H5 as [-> Ho].
  change (256 ^ Z.of_nat 4) with (2 ^ 32) in *. change (256 ^ Z.of_nat 8) with (2 ^ 64) in *.
  unfold GGUFWire.encodeTensorInfo, GGUFWire.wf_tensor_info.
  cbn [GGUF.Name GGUF.Shape GGUF.Type_ GGUF.Offset].
  rewrite Hlen, Z2Nat.id by lia. rewrite <- !app_assoc.
  split; [reflexivity|]. split; [done|]. split; [lia|]. split; [done|]. split; done.
Qed.

Lemma readTensorInfo_sound_witness :
  GGUFWire.encodeTensorInfo tensor_w ++ [x07]
  = GGUFWire.encodeTensorInfo tensor_w ++ [x07]
  ∧ GGUFWire.wf_tensor_info tensor_w.
Proof.
  apply (readTensorInfo_sound (GGUFWire.encodeTensorInfo tensor_w ++ [x07]) [x07] tensor_w).
  vm_compute. reflexivity.
Defined.

(** ** The SentencePiece adapter: the spans *)

Lemma skip_blanks_range (rest : list Z) (pos : Z) :
  pos ≤ SentencePiece.skip_blanks rest pos ≤ pos + Z.of_nat (length rest).
Proof.
  revert pos. induction rest as [|b rest IH]; intros pos; cbn [SentencePiece.skip_blanks length].
  - lia.
  - destruct (_ || _); [|lia]. specialize (IH (pos + 1)). lia.
Qed.

Lemma is_prefix_length (needle hay : list Z) :
  SentencePiece.is_prefix needle hay = true → (length needle ≤ length hay)%nat.
Proof.
  revert hay. induction needle as [|n ns IH]; intros hay H; [cbn; lia|].
  destruct hay as [|h hs]; [discriminate|].
  cbn in H. apply andb_prop in H as [_ H]. apply IH in H. cbn. lia.
Qed.

Lemma Index_range (hay needle : list Z) :
  0 ≤ SentencePiece.Index hay needle →
  SentencePiece.Index hay needle + Z.of_nat (length needle) ≤ Z.of_nat (length hay).
Proof.
  induction hay as [|h hay IH]; cbn [SentencePiece.Index].
  - destruct (SentencePiece.is_prefix needle []) eqn:Hp; [|lia].
    apply is_prefix_length in Hp. cbn in *. lia.
  - destruct (SentencePiece.is_prefix needle (h :: hay)) eqn:Hp.
    + apply is_prefix_length in Hp. lia.
    + destruct (Z.ltb_spec (SentencePiece.Index hay needle) 0); [lia|].
      intros _. cbn [length]. lia.
Qed.

Lemma findSubstring_range (s sub : list Z) (pos : Z) :
  0 ≤ pos → 0 ≤ SentencePiece.findSubstring s sub pos →
  pos ≤ SentencePiece.findSubstring s sub pos
  ∧ SentencePiece.findSubstring s sub pos + Z.of_nat (length sub) ≤ Z.of_nat (length s).
Proof.
  intros Hpos. unfold SentencePiece.findSubstring.
  destruct (Z.leb_spec (Z.of_nat (length s)) pos); [lia|].
  destruct (Z.ltb_spec (SentencePiece.Index (drop (Z.to_nat pos) s) sub) 0) as [|Hi]; [lia|].
  intros _. pose proof (Index_range _ _ Hi) as Hr. rewrite length_drop in Hr. lia.
Qed.

(** One step of the loop keeps the position inside the text and adds
    one id and one span inside the text. *)
Lemma span_step_inv (txt : list Z) (st : SentencePiece.loop_state) (tok : SentencePiece.Token) :
  let n := Z.of_nat (length txt) in
  let ok sp := 0 ≤ SentencePiece.Start sp ≤ SentencePiece.End_ sp
               ∧ SentencePiece.End_ sp ≤ n in
  0 ≤ SentencePiece.l_pos st ≤ n →
  length (SentencePiece.l_spans st) = length (SentencePiece.l_ids st) →
  Forall ok (SentencePiece.l_spans st) →
  let st' := SentencePiece.span_step txt st tok in
  0 ≤ SentencePiece.l_pos st' ≤ n
  ∧ length (SentencePiece.l_spans st') = length (SentencePiece.l_ids st')
  ∧ Forall ok (SentencePiece.l_spans st').
Proof.
  intros n ok Hpos Hlen Hok. unfold SentencePiece.span_step.
  set (piece := UTF8.bytes_of (SentencePiece.Text tok)).
  set (split := match piece with
                | 226 :: 150 :: 129 :: tl => (tl, true)
                | _ => (piece, false)
                end).
  destruct split as [matchPiece hasLeadingSpace].
  set (pos := if hasLeadingSpace
              then SentencePiece.skip_blanks (drop (Z.to_nat (SentencePiece.l_pos st)) txt)
                     (SentencePiece.l_pos st)
              else SentencePiece.l_pos st).
  assert (Hp : 0 ≤ pos ≤ n).
  { unfold pos. destruct hasLeadingSpace; [|done].
    pose proof (skip_blanks_range (drop (Z.to_nat (SentencePiece.l_pos st)) txt)
                  (SentencePiece.l_pos st)) as Hr.
    rewrite length_drop in Hr. unfold n. lia. }
  set (res := match matchPiece with
              | [] =>
                  if hasLeadingSpace && (0 <? pos)
                  then (SentencePiece.mkSpan (pos - 1) pos, pos)
                  else (SentencePiece.mkSpan pos pos, pos)
              | _ :: _ =>
                  let foundAt := SentencePiece.findSubstring txt matchPiece pos in
                  if 0 <=? foundAt
                  then (SentencePiece.mkSpan foundAt (foundAt + Z.of_nat (length matchPiece)),
                        foundAt + Z.of_nat (length matchPiece))
                  else
                    let p1 := pos + Z.of_nat (length matchPiece) in
                    let p2 := if Z.of_nat (length txt) <? p1 then Z.of_nat (length txt) else p1 in
                    (SentencePiece.mkSpan pos p2, p2)
              end).
  assert (Hres : ok res.1 ∧ 0 ≤ res.2 ≤ n).
  { unfold res, ok. destruct matchPiece as [|b mp].
    - destruct (hasLeadingSpace && (0 <? pos)) eqn:Hc; cbn [fst snd SentencePiece.Start SentencePiece.End_].
      + apply andb_prop in Hc as [_ Hc]. apply Z.ltb_lt in Hc. lia.
      + lia.
    - cbn zeta.
      destruct (Z.leb_spec 0 (SentencePiece.findSubstring txt (b :: mp) pos)) as [Hf|Hf].
      + destruct (findSubstring_range txt (b :: mp) pos (proj1 Hp) Hf) as [H1 H2].
        cbn [fst snd SentencePiece.Start SentencePiece.End_]. unfold n. lia.
      + cbn [fst snd SentencePiece.Start SentencePiece.End_].
        destruct (Z.ltb_spec (Z.of_nat (length txt)) (pos + Z.of_nat (length (b :: mp))));
          unfold n; lia. }
  fold res. destruct res as [sp pos']. cbn [fst snd] in Hres. destruct Hres as [Hsp Hpos'].
  cbn [SentencePiece.l_pos SentencePiece.l_spans SentencePiece.l_ids].
  split_and!.
  - lia.
  - lia.
  - rewrite !length_app. cbn [length]. lia.
  - apply Forall_app. split; [done|]. by constructor.
Qed.

(** X: the spans of the SentencePiece adapter lie inside the text.
    [EncodeWithSpans] returns one span per id, and every span [a, b)
    satisfies 0 <= a <= b <= len(text), whatever pieces the processor
    returns. *)
Theorem sentencepiece_spans_in_bounds (p : SentencePiece.Tokenizer) (s : string) :
  let r := SentencePiece.EncodeWithSpans p s in
  length (SentencePiece.Spans r) = length (SentencePiece.IDs r)
  ∧ Forall (λ sp, 0 ≤ SentencePiece.Start sp ≤ SentencePiece.End_ sp
                  ∧ SentencePiece.End_ sp ≤ UTF8.len s)
           (SentencePiece.Spans r).
Proof.
  cbn zeta. unfold SentencePiece.EncodeWithSpans.
  cbn [SentencePiece.Spans SentencePiece.IDs].
  assert (Hlen : UTF8.len s = Z.of_nat (length (UTF8.bytes_of s))).
  { unfold UTF8.len. by rewrite bytes_of_length. }
  rewrite Hlen. set (txt := UTF8.bytes_of s).
  assert (Hinv : ∀ toks st,
            0 ≤ SentencePiece.l_pos st ≤ Z.of_nat (length txt) →
            length (SentencePiece.l_spans st) = length (SentencePiece.l_ids st) →
            Forall (λ sp, 0 ≤ SentencePiece.Start sp ≤ SentencePiece.End_ sp
                          ∧ SentencePiece.End_ sp ≤ Z.of_nat (length txt))
                   (SentencePiece.l_spans st) →
            let st' := foldl (SentencePiece.span_step txt) st toks in
            length (SentencePiece.l_spans st') = length (SentencePiece.l_ids st')
            ∧ Forall (λ sp, 0 ≤ SentencePiece.Start sp ≤ SentencePiece.End_ sp
                            ∧ SentencePiece.End_ sp ≤ Z.of_nat (length txt))
                     (SentencePiece.l_spans st')).
  { induction toks as [|tok toks IH]; intros st H1 H2 H3; cbn [foldl]; [done|].
    destruct (span_step_inv txt st tok H1 H2 H3) as (H1' & H2' & H3').
    by apply IH. }
  apply Hinv; cbn; [lia | done | constructor].
Qed.

(** ** The tokenizer pipeline: one span per id *)

Lemma unk_or_nothing_lengths (t : HFTokenizer.Tokenizer) (word : HFTokenizer.wordWithOffset) :
  length (HFTokenizer.unk_or_nothing t word).1 = length (HFTokenizer.unk_or_nothing t word).2.
Proof. unfold HFTokenizer.unk_or_nothing. by destruct (0 <=? _). Qed.

Lemma wp_loop_lengths (t : HFTokenizer.Tokenizer) (word : HFTokenizer.wordWithOffset)
    (runes : list Z) (fuel s : nat) (acc : HFTokenizer.tokens) :
  length acc.1 = length acc.2 →
  length (HFTokenizer.wp_loop t word runes fuel s acc).1
  = length (HFTokenizer.wp_loop t word runes fuel s acc).2.
Proof.
  revert s acc. induction fuel as [|fuel IH]; intros s acc Hacc; cbn [HFTokenizer.wp_loop]; [done|].
  destruct (s <? length runes)%nat; [|done].
  destruct (HFTokenizer.wp_match t runes s (length runes - s)) as [[id e]|].
  - apply IH. cbn [fst snd]. rewrite !length_app. cbn [length]. lia.
  - apply unk_or_nothing_lengths.
Qed.

Lemma uni_loop_lengths (t : HFTokenizer.Tokenizer) (word : HFTokenizer.wordWithOffset)
    (runes : list Z) (fuel s : nat) (acc : HFTokenizer.tokens) :
  0 ≤ HFTokenizer.unkID t →
  length acc.1 = length acc.2 →
  length (HFTokenizer.uni_loop t word runes fuel s acc).1
  = length (HFTokenizer.uni_loop t word runes fuel s acc).2.
Proof.
  intros Hunk. revert s acc.
  induction fuel as [|fuel IH]; intros s acc Hacc; cbn [HFTokenizer.uni_loop]; [done|].
  destruct (s <? length runes)%nat; [|done].
  destruct (HFTokenizer.uni_match t runes s (length runes - s)) as [[id e]|].
  - apply IH. cbn [fst snd]. rewrite !length_app. cbn [length]. lia.
  - apply IH. cbn [fst snd].
    destruct (HFTokenizer.Vocab _ !! _).
    + rewrite !length_app. cbn [length]. lia.
    + destruct (Z.leb_spec 0 (HFTokenizer.unkID t)); [|lia].
      rewrite !length_app. cbn [length]. lia.
Qed.

Lemma bpe_lengths (t : HFTokenizer.Tokenizer) (word : HFTokenizer.wordWithOffset) :
  length (HFTokenizer.bpeTokenizeWithSpans t word).1
  = length (HFTokenizer.bpeTokenizeWithSpans t word).2.
Proof.
  unfold HFTokenizer.bpeTokenizeWithSpans.
  destruct (String.eqb (HFTokenizer.text word) ""); [done|]. cbn zeta.
  match goal with
  | |- context [match ?single with Some r => r | None => _ end] => destruct single as [r|] eqn:Hs
  end.
  - match type of Hs with
    | match ?syms with _ => _ end = _ => destruct syms as [|sy [|? ?]]; try discriminate
    end.
    destruct (HFTokenizer.Vocab _ !! _); [|discriminate]. cbn in Hs. by inversion Hs.
  - match goal with
    | |- context [foldl ?f ([], []) ?syms] =>
        assert (Hf : ∀ l (acc : HFTokenizer.tokens),
                  length acc.1 = length acc.2 →
                  length (foldl f acc l).1 = length (foldl f acc l).2);
          [|by apply Hf]
    end.
    induction l as [|sym l IH]; intros acc Hacc; cbn [foldl]; [done|].
    apply IH. destruct (HFTokenizer.Vocab _ !! _).
    + cbn [fst snd]. rewrite !length_app. cbn [length]. lia.
    + destruct (0 <=? _); [|done]. cbn [fst snd]. rewrite !length_app. cbn [length]. lia.
Qed.

Lemma tokenizeWord_lengths (t : HFTokenizer.Tokenizer) (word : HFTokenizer.wordWithOffset) :
  String.eqb (HFTokenizer.Type_ (HFTokenizer.Model_ (HFTokenizer.tokenizer t))) "Unigram" = false
  ∨ 0 ≤ HFTokenizer.unkID t →
  length (HFTokenizer.tokenizeWordWithSpans t word).1
  = length (HFTokenizer.tokenizeWordWithSpans t word).2.
Proof.
  intros Hwhy. unfold HFTokenizer.tokenizeWordWithSpans.
  destruct (HFTokenizer.addedTokens t !! HFTokenizer.text word); [done|]. cbn zeta.
  destruct (String.eqb _ "WordPiece").
  { unfold HFTokenizer.wordPieceTokenizeWithSpans.
    destruct (String.eqb _ ""); [done|].
    destruct (_ <? _); [apply unk_or_nothing_lengths|].
    by apply wp_loop_lengths. }
  destruct (String.eqb _ "BPE"); [apply bpe_lengths|].
  destruct (String.eqb _ "Unigram") eqn:Hu.
  { destruct Hwhy as [Hwhy|Hunk]; [discriminate|].
    unfold HFTokenizer.unigramTokenizeWithSpans.
    destruct (String.eqb _ ""); [done|]. by apply uni_loop_lengths. }
  destruct (HFTokenizer.Vocab _ !! _); [done|]. apply unk_or_nothing_lengths.
Qed.

(** X: one span per id.  Whatever words normalization and
    pre-tokenization hand over (any normalizer, any pre-tokenizer), the
    loop of [EncodeWithSpans] over them appends exactly as many spans as
    ids, for a WordPiece or BPE model and for every other model but a
    Unigram model without an unk id; so [EncodeWithSpans] returns as
    many spans as ids, its result being that of the loop on the words
    of the text.  (A Unigram model without an unk id records a span, but
    no id, for a rune that nothing of its vocabulary covers.) *)
Theorem EncodeWithSpans_one_span_per_id (t : HFTokenizer.Tokenizer)
    (words : list HFTokenizer.wordWithOffset) :
  String.eqb (HFTokenizer.Type_ (HFTokenizer.Model_ (HFTokenizer.tokenizer t))) "Unigram" = false
  ∨ 0 ≤ HFTokenizer.unkID t →
  length (tokenizeWords t words).1 = length (tokenizeWords t words).2
  ∧ ∀ s : string,
      (∃ ws, HFTokenizer.EncodeWithSpans t s
             = HFTokenizer.mkEncoding (tokenizeWords t ws).1 (tokenizeWords t ws).2)
      ∧ length (HFTokenizer.IDs (HFTokenizer.EncodeWithSpans t s))
        = length (HFTokenizer.Spans (HFTokenizer.EncodeWithSpans t s)).
Proof.
  intros Hwhy.
  assert (Hf : ∀ ws (acc : HFTokenizer.tokens),
            length acc.1 = length acc.2 →
            length (foldl (λ (acc : HFTokenizer.tokens) word,
                             let '(wordIDs, wordSpans) := HFTokenizer.tokenizeWordWithSpans t word in
                             (acc.1 ++ wordIDs, acc.2 ++ wordSpans)) acc ws).1
            = length (foldl (λ (acc : HFTokenizer.tokens) word,
                               let '(wordIDs, wordSpans) := HFTokenizer.tokenizeWordWithSpans t word in
                               (acc.1 ++ wordIDs, acc.2 ++ wordSpans)) acc ws).2).
  { induction ws as [|w ws IH]; intros acc Hacc; cbn [foldl]; [done|].
    apply IH. pose proof (tokenizeWord_lengths t w Hwhy) as Hw.
    destruct (HFTokenizer.tokenizeWordWithSpans t w) as [ids spans]. cbn [fst snd] in *.
    rewrite !length_app. lia. }
  assert (Hall : ∀ ws, length (tokenizeWords t ws).1 = length (tokenizeWords t ws).2).
  { intros ws. unfold tokenizeWords. by apply Hf. }
  split; [apply Hall|]. intros s.
  assert (Hs : ∃ ws, HFTokenizer.EncodeWithSpans t s
                     = HFTokenizer.mkEncoding (tokenizeWords t ws).1 (tokenizeWords t ws).2).
  { unfold HFTokenizer.EncodeWithSpans.
    destruct (HFTokenizer.normalizeWithSpans s) as [normalized normSpans].
    by exists (HFTokenizer.preTokenizeWithSpans t normalized normSpans). }
  split; [exact Hs|]. destruct Hs as [ws ->].
  cbn [HFTokenizer.IDs HFTokenizer.Spans]. apply Hall.
Qed.

Lemma EncodeWithSpans_one_span_per_id_witness :
  length (tokenizeWords bytelevel_bpe
            [HFTokenizer.mkWord "a" 0 1; HFTokenizer.mkWord "zz" 1 3]).1
  = length (tokenizeWords bytelevel_bpe
              [HFTokenizer.mkWord "a" 0 1; HFTokenizer.mkWord "zz" 1 3]).2
  ∧ length (HFTokenizer.IDs (HFTokenizer.EncodeWithSpans bytelevel_bpe "a b"))
    = length (HFTokenizer.Spans (HFTokenizer.EncodeWithSpans bytelevel_bpe "a b")).
Proof.
  destruct (EncodeWithSpans_one_span_per_id bytelevel_bpe
              [HFTokenizer.mkWord "a" 0 1; HFTokenizer.mkWord "zz" 1 3]) as [H1 H2].
  - left. vm_compute. reflexivity.
  - split; [exact H1 | exact (proj2 (H2 "a b"%string))].
Defined.

(** The Unigram model without an unk id on the text b: a span and no id. *)
Example unigram_span_without_id :
  HFTokenizer.EncodeWithSpans unigram_no_unk "b"
  = HFTokenizer.mkEncoding [] [HFTokenizer.mkSpan 0 1].
Proof. vm_compute. reflexivity. Qed.

(** ** The subword models: the spans of one word *)

Lemma EncodeRune_nonempty (r : Z) : (1 ≤ length (UTF8.EncodeRune r))%nat.
Proof.
  unfold UTF8.EncodeRune.
  destruct (_ || _); [cbn; lia|].
  destruct (r <? 128); [cbn; lia|].
  destruct (r <? 2048); [cbn; lia|].
  destruct (r <? 65536); cbn; lia.
Qed.

Lemma byte_len_prefix_lt (runes : list Z) (s e : nat) :
  (s < e ≤ length runes)%nat →
  UTF8.byte_len_prefix runes s < UTF8.byte_len_prefix runes e.
Proof.
  intros Hse. unfold UTF8.byte_len_prefix, UTF8.bytes_of_runes.
  assert (Htake : take e runes = take s runes ++ take (e - s) (drop s runes)).
  { rewrite <- (take_drop s (take e runes)). f_equal.
    - rewrite take_take. f_equal. lia.
    - by rewrite skipn_firstn_comm. }
  rewrite Htake, flat_map_app, length_app.
  destruct (take (e - s) (drop s runes)) as [|r l] eqn:Hl.
  - assert (Hlen : length (take (e - s) (drop s runes)) = (e - s)%nat).
    { rewrite length_take, length_drop. lia. }
    rewrite Hl in Hlen. cbn in Hlen. lia.
  - cbn [flat_map]. rewrite length_app. pose proof (EncodeRune_nonempty r). lia.
Qed.

Lemma tiles_snoc (a m e : Z) (l : list HFTokenizer.TokenSpan) :
  tiles a m l → m < e → tiles a e (l ++ [HFTokenizer.mkSpan m e]).
Proof.
  revert a. induction l as [|sp l IH]; intros a Hl Hlt; cbn [tiles app] in *.
  - subst. cbn. done.
  - destruct Hl as (H1 & H2 & H3). split_and!; [done | done |]. by apply IH.
Qed.

Lemma wp_match_range (t : HFTokenizer.Tokenizer) (runes : list Z) (s k : nat)
    (id : Z) (e : nat) :
  HFTokenizer.wp_match t runes s k = Some (id, e) → (s < e ≤ s + k)%nat.
Proof.
  induction k as [|k IH]; cbn [HFTokenizer.wp_match]; [discriminate|].
  cbn zeta. destruct (HFTokenizer.Vocab _ !! _).
  - intros H. inversion H; subst. lia.
  - intros H. apply IH in H. lia.
Qed.

Lemma uni_match_range (t : HFTokenizer.Tokenizer) (runes : list Z) (s k : nat)
    (id : Z) (e : nat) :
  HFTokenizer.uni_match t runes s k = Some (id, e) → (s < e ≤ s + k)%nat.
Proof.
  induction k as [|k IH]; cbn [HFTokenizer.uni_match]; [discriminate|].
  cbn zeta. destruct (HFTokenizer.Vocab _ !! _).
  - intros H. inversion H; subst. lia.
  - intros H. apply IH in H. lia.
Qed.

Lemma wp_loop_tiles (t : HFTokenizer.Tokenizer) (word : HFTokenizer.wordWithOffset)
    (runes : list Z) (fuel s : nat) (acc : HFTokenizer.tokens) :
  (s ≤ length runes)%nat → (length runes - s ≤ fuel)%nat →
  tiles (HFTokenizer.start word) (HFTokenizer.start word + UTF8.byte_len_prefix runes s) acc.2 →
  HFTokenizer.wp_loop t word runes fuel s acc = HFTokenizer.unk_or_nothing t word
  ∨ tiles (HFTokenizer.start word)
      (HFTokenizer.start word + UTF8.byte_len_prefix runes (length runes))
      (HFTokenizer.wp_loop t word runes fuel s acc).2.
Proof.
  revert s acc. induction fuel as [|fuel IH]; intros s acc Hs Hfuel Hacc;
    cbn [HFTokenizer.wp_loop].
  - right. replace (length runes) with s by lia. done.
  - destruct (Nat.ltb_spec s (length runes)) as [Hlt|Hge].
    2: { right. replace (length runes) with s by lia. done. }
    destruct (HFTokenizer.wp_match t runes s (length runes - s)) as [[id e]|] eqn:Hm;
      [|by left].
    apply wp_match_range in Hm.
    apply IH; [lia | lia |]. cbn [snd]. unfold HFTokenizer.sub_span.
    apply tiles_snoc; [done|].
    pose proof (byte_len_prefix_lt runes s e ltac:(lia)). lia.
Qed.

(** X: the spans of the pieces of a word under WordPiece.  When the
    word is not given up (the result is not that of the unk exit), the
    spans tile the word: the first begins at the start of the word,
    every next one begins where the one before ends, none is empty, and
    the last ends at the start of the word plus the byte length of its
    runes. *)
Theorem wordPiece_spans_tile (t : HFTokenizer.Tokenizer) (word : HFTokenizer.wordWithOffset) :
  HFTokenizer.wordPieceTokenizeWithSpans t word = HFTokenizer.unk_or_nothing t word
  ∨ tiles (HFTokenizer.start word)
      (HFTokenizer.start word + rune_bytes (HFTokenizer.text word))
      (HFTokenizer.wordPieceTokenizeWithSpans t word).2.
Proof.
  unfold HFTokenizer.wordPieceTokenizeWithSpans, rune_bytes.
  destruct (String.eqb_spec (HFTokenizer.text word) "") as [He|Hne].
  { right. rewrite He. cbn. lia. }
  destruct (_ <? _); [by left|]. cbn zeta.
  set (runes := UTF8.runes_of (HFTokenizer.text word)).
  destruct (wp_loop_tiles t word runes (length runes) 0 ([], [])) as [H|H].
  - lia.
  - lia.
  - cbn [tiles snd]. unfold UTF8.byte_len_prefix. rewrite take_0. cbn. lia.
  - by left.
  - right. unfold UTF8.byte_len_prefix in H. by rewrite firstn_all in H.
Qed.

Lemma uni_loop_tiles (t : HFTokenizer.Tokenizer) (word : HFTokenizer.wordWithOffset)
    (runes : list Z) (fuel s : nat) (acc : HFTokenizer.tokens) :
  (s ≤ length runes)%nat → (length runes - s ≤ fuel)%nat →
  tiles (HFTokenizer.start word) (HFTokenizer.start word + UTF8.byte_len_prefix runes s) acc.2 →
  tiles (HFTokenizer.start word)
    (HFTokenizer.start word + UTF8.byte_len_prefix runes (length runes))
    (HFTokenizer.uni_loop t word runes fuel s acc).2.
Proof.
  revert s acc. induction fuel as [|fuel IH]; intros s acc Hs Hfuel Hacc;
    cbn [HFTokenizer.uni_loop].
  - replace (length runes) with s by lia. done.
  - destruct (Nat.ltb_spec s (length runes)) as [Hlt|Hge].
    2: { replace (length runes) with s by lia. done. }
    destruct (HFTokenizer.uni_match t runes s (length runes - s)) as [[id e]|] eqn:Hm.
    + apply uni_match_range in Hm.
      apply IH; [lia | lia |]. cbn [snd]. unfold HFTokenizer.sub_span.
      apply tiles_snoc; [done|].
      pose proof (byte_len_prefix_lt runes s e ltac:(lia)). lia.
    + apply IH; [lia | lia |]. cbn [snd]. unfold HFTokenizer.sub_span.
      apply tiles_snoc; [done|].
      pose proof (byte_len_prefix_lt runes s (S s) ltac:(lia)). lia.
Qed.

(** X: the spans of the pieces of a word under Unigram always tile the
    word, from its start to its start plus the byte length of its
    runes, without a gap and without an empty span. *)
Theorem unigram_spans_tile (t : HFTokenizer.Tokenizer) (word : HFTokenizer.wordWithOffset) :
  tiles (HFTokenizer.start word)
    (HFTokenizer.start word + rune_bytes (HFTokenizer.text word))
    (HFTokenizer.unigramTokenizeWithSpans t word).2.
Proof.
  unfold HFTokenizer.unigramTokenizeWithSpans, rune_bytes.
  destruct (String.eqb_spec (HFTokenizer.text word) "") as [He|Hne].
  { rewrite He. cbn. lia. }
  cbn zeta. set (runes := UTF8.runes_of (HFTokenizer.text word)).
  pose proof (uni_loop_tiles t word runes (length runes) 0 ([], [])) as H.
  unfold UTF8.byte_len_prefix in H. rewrite firstn_all in H.
  apply H; [lia | lia |]. cbn [tiles snd]. rewrite take_0. cbn. lia.
Qed.

(** ** The default pipeline on ASCII text *)

Lemma range_from_ascii_cons (i b : Z) (tl : list Z) :
  0 ≤ b < 128 → UTF8.range_from i 0 (b :: tl) = (i, b) :: UTF8.range_from (i + 1) 0 tl.
Proof.
  intros Hb. cbn [UTF8.range_from UTF8.DecodeRune].
  by destruct (Z.ltb_spec b 128); [|lia].
Qed.

Lemma EncodeRune_ascii (b : Z) : 0 ≤ b < 128 → UTF8.EncodeRune b = [b].
Proof.
  intros Hb. unfold UTF8.EncodeRune.
  destruct (Z.ltb_spec b 0); [lia|]. destruct (Z.ltb_spec 1114111 b); [lia|].
  destruct (Z.leb_spec 55296 b); [lia|]. cbn [orb andb].
  by destruct (Z.ltb_spec b 128); [|lia].
Qed.

Lemma runes_ascii (bs : list Z) (i : Z) :
  Forall (λ b, 0 ≤ b < 128) bs → map snd (UTF8.range_from i 0 bs) = bs.
Proof.
  intros H. revert i. induction H as [|b bs Hb H IH]; intros i; [reflexivity|].
  rewrite range_from_ascii_cons by done. cbn [map snd]. by rewrite IH.
Qed.

Lemma bytes_of_runes_ascii (bs : list Z) :
  Forall (λ b, 0 ≤ b < 128) bs → UTF8.bytes_of_runes bs = bs.
Proof.
  unfold UTF8.bytes_of_runes. induction 1 as [|b bs Hb H IH]; [reflexivity|].
  cbn [flat_map]. by rewrite EncodeRune_ascii, IH.
Qed.

Lemma rune_bytes_ascii (bs : list Z) :
  Forall (λ b, 0 ≤ b < 128) bs → rune_bytes (UTF8.string_of bs) = Z.of_nat (length bs).
Proof.
  intros H. unfold rune_bytes, UTF8.runes_of, UTF8.range_string.
  assert (H256 : Forall (λ b, 0 ≤ b < 256) bs).
  { eapply Forall_impl; [exact H|]. intros b Hb. cbn beta in Hb. lia. }
  rewrite bytes_of_string_of by done.
  by rewrite runes_ascii, bytes_of_runes_ascii.
Qed.

(** The offsets of the nil normalizer on ASCII text are the identity. *)
Lemma normalize_offsets_ascii (bs : list Z) (i : nat) (offs : list Z) :
  Forall (λ b, 0 ≤ b < 128) bs →
  length offs = (i + length bs)%nat →
  (∀ j, (j < i)%nat → offs !! j = Some (Z.of_nat j)) →
  let r := foldl (λ offsets (ir : Z * Z), <[Z.to_nat ir.1 := ir.1]> offsets) offs
             (UTF8.range_from (Z.of_nat i) 0 bs) in
  length r = length offs
  ∧ ∀ j, (j < i + length bs)%nat → r !! j = Some (Z.of_nat j).
Proof.
  intros H. revert i offs. induction H as [|b bs Hb H IH]; intros i offs Hlen Hpre; cbn zeta.
  - cbn. split; [done|]. intros j Hj. apply Hpre. cbn in Hj. lia.
  - rewrite range_from_ascii_cons by done. cbn [foldl fst].
    replace (Z.of_nat i + 1) with (Z.of_nat (S i)) by lia.
    rewrite Nat2Z.id.
    destruct (IH (S i) (<[i := Z.of_nat i]> offs)) as [Hl Hall].
    + rewrite length_insert. cbn [length] in Hlen. lia.
    + intros j Hj. destruct (decide (j = i)) as [->|Hne].
      * apply list_lookup_insert_eq. cbn [length] in Hlen. lia.
      * rewrite list_lookup_insert_ne by done. apply Hpre. lia.
    + cbn zeta in Hl, Hall. rewrite length_insert in Hl. split; [done|].
      intros j Hj. apply Hall. cbn [length] in Hj. lia.
Qed.

(** What the loop of [fieldsWithOffsets] keeps, on ASCII text with the
    identity offsets, before the byte [i]. *)
Definition fields_inv (n : Z) (i : Z) (st : HFTokenizer.pt_state) : Prop :=
  Forall (λ w, 0 ≤ HFTokenizer.start w ∧ HFTokenizer.start w < HFTokenizer.end_ w
               ∧ HFTokenizer.end_ w ≤ n
               ∧ rune_bytes (HFTokenizer.text w) = HFTokenizer.end_ w - HFTokenizer.start w)
         (HFTokenizer.words st)
  ∧ Forall (λ b, 0 ≤ b < 128) (HFTokenizer.current st)
  ∧ (HFTokenizer.current st = [] → HFTokenizer.currentStart st = -1)
  ∧ (HFTokenizer.current st ≠ [] →
     HFTokenizer.currentStart st = i - Z.of_nat (length (HFTokenizer.current st))
     ∧ 0 ≤ HFTokenizer.currentStart st).

Lemma at_identity (offs : list Z) (n : nat) (j : Z) :
  (∀ k, (k < n)%nat → offs !! k = Some (Z.of_nat k)) → 0 ≤ j < Z.of_nat n →
  HFTokenizer.at_ offs j = j.
Proof.
  intros Hid Hj. unfold HFTokenizer.at_. rewrite (Hid (Z.to_nat j)) by lia. cbn. lia.
Qed.

Lemma fields_step_inv (n : nat) (offs : list Z) (i b : Z) (st : HFTokenizer.pt_state) :
  length offs = n → (∀ k, (k < n)%nat → offs !! k = Some (Z.of_nat k)) →
  0 ≤ i < Z.of_nat n → 0 ≤ b < 128 →
  fields_inv (Z.of_nat n) i st →
  fields_inv (Z.of_nat n) (i + 1) (HFTokenizer.fields_step (Z.of_nat n) offs st (i, b)).
Proof.
  intros Hlen Hid Hi Hb (Hws & Hcur & Hempty & Hne). unfold HFTokenizer.fields_step.
  destruct (UTF8.IsSpace b).
  - destruct (Z.ltb_spec 0 (Z.of_nat (length (HFTokenizer.current st)))) as [Hpos|Hzero].
    + assert (Hcne : HFTokenizer.current st ≠ []) by (intros Hn; rewrite Hn in Hpos; cbn in Hpos; lia).
      destruct (Hne Hcne) as [Hcs Hcs0].
      rewrite Hlen.
      destruct (Z.ltb_spec (HFTokenizer.currentStart st) (Z.of_nat n)); [|lia].
      destruct (Z.leb_spec i (Z.of_nat n)); [|lia].
      destruct (Z.ltb_spec 0 i); [|lia]. cbn [andb].
      rewrite (at_identity offs n (HFTokenizer.currentStart st)) by (done || lia).
      rewrite (at_identity offs n (i - 1)) by (done || lia).
      split_and!; cbn [HFTokenizer.words HFTokenizer.current HFTokenizer.currentStart].
      * apply Forall_app. split; [done|]. constructor; [|constructor].
        cbn [HFTokenizer.start HFTokenizer.end_ HFTokenizer.text].
        rewrite rune_bytes_ascii by done. lia.
      * constructor.
      * done.
      * done.
    + assert (Hc : HFTokenizer.current st = []) by (destruct (HFTokenizer.current st); [done | cbn in Hzero; lia]).
      split_and!; [done | done | done |]. intros Hcne. done.
  - split_and!; cbn [HFTokenizer.words HFTokenizer.current HFTokenizer.currentStart].
    + done.
    + rewrite EncodeRune_ascii by done. apply Forall_app. split; [done|]. by constructor.
    + intros Hnil. apply app_eq_nil in Hnil as [_ Hnil].
      rewrite EncodeRune_ascii in Hnil by done. discriminate.
    + intros _. rewrite EncodeRune_ascii by done. rewrite length_app. cbn [length].
      destruct (HFTokenizer.current st) as [|c cs] eqn:Hc.
      * rewrite (Hempty eq_refl). cbn. lia.
      * destruct (Hne ltac:(done)) as [Hcs Hcs0].
        destruct (Z.eqb_spec (HFTokenizer.currentStart st) (-1)); [lia|].
        cbn [length] in *. lia.
Qed.

Lemma fields_loop_inv (n : nat) (offs : list Z) (bs : list Z) (i : nat)
    (st : HFTokenizer.pt_state) :
  length offs = n → (∀ k, (k < n)%nat → offs !! k = Some (Z.of_nat k)) →
  Forall (λ b, 0 ≤ b < 128) bs → (i + length bs = n)%nat →
  fields_inv (Z.of_nat n) (Z.of_nat i) st →
  fields_inv (Z.of_nat n) (Z.of_nat n)
    (foldl (HFTokenizer.fields_step (Z.of_nat n) offs) st (UTF8.range_from (Z.of_nat i) 0 bs)).
Proof.
  intros Hlen Hid H. revert i st. induction H as [|b bs Hb H IH]; intros i st Hn Hinv.
  - assert (Hni : i = n) by (cbn [length] in Hn; lia). subst i. exact Hinv.
  - rewrite range_from_ascii_cons by done. cbn [foldl].
    replace (Z.of_nat i + 1) with (Z.of_nat (S i)) by lia.
    apply IH; [cbn [length] in Hn; lia|].
    replace (Z.of_nat (S i)) with (Z.of_nat i + 1) by lia.
    apply fields_step_inv; try done. cbn [length] in Hn. lia.
Qed.

(** The words of [fieldsWithOffsets] on ASCII text with the offsets of
    the nil normalizer: each lies inside the text, is not empty, and is
    as long as its range. *)
Lemma fieldsWithOffsets_ascii (s : string) :
  is_ascii s →
  Forall (λ w, 0 ≤ HFTokenizer.start w ∧ HFTokenizer.start w < HFTokenizer.end_ w
               ∧ HFTokenizer.end_ w ≤ UTF8.len s
               ∧ rune_bytes (HFTokenizer.text w) = HFTokenizer.end_ w - HFTokenizer.start w)
         (HFTokenizer.fieldsWithOffsets s (HFTokenizer.normalizeWithSpans s).2).
Proof.
  intros Hs. unfold is_ascii in Hs.
  set (bs := UTF8.bytes_of s) in *. set (n := length bs).
  assert (Hn : UTF8.len s = Z.of_nat n).
  { unfold UTF8.len, n, bs. by rewrite bytes_of_length. }
  unfold HFTokenizer.normalizeWithSpans. cbn [snd].
  set (offs := foldl _ _ _).
  assert (Hoffs : length offs = n ∧ ∀ k, (k < n)%nat → offs !! k = Some (Z.of_nat k)).
  { pose proof (normalize_offsets_ascii bs 0 (replicate (String.length s) 0) Hs) as H.
    cbn zeta in H. unfold UTF8.range_string in offs. fold bs in offs.
    change (Z.of_nat 0) with 0 in H. fold offs in H.
    rewrite length_replicate in H.
    assert (Hsl : String.length s = n) by (unfold n, bs; by rewrite bytes_of_length).
    destruct H as [H1 H2]; [lia | intros j Hj; lia |].
    split; [lia|]. intros k Hk. apply H2. lia. }
  destruct Hoffs as [Hlen Hid].
  unfold HFTokenizer.fieldsWithOffsets. rewrite Hn.
  unfold UTF8.range_string. fold bs.
  pose proof (fields_loop_inv n offs bs 0 (HFTokenizer.mkPt [] [] (-1)) Hlen Hid Hs
                ltac:(unfold n; lia)) as Hinv.
  change (Z.of_nat 0) with 0 in Hinv.
  destruct Hinv as (Hws & Hcur & Hempty & Hne).
  { split_and!; cbn; [constructor | constructor | done | done]. }
  unfold HFTokenizer.flush_tail.
  set (st := foldl (HFTokenizer.fields_step _ _) _ _) in *.
  destruct (Z.ltb_spec 0 (Z.of_nat (length (HFTokenizer.current st)))) as [Hpos|Hzero]; [|done].
  assert (Hcne : HFTokenizer.current st ≠ [])
    by (intros Hnil; rewrite Hnil in Hpos; cbn in Hpos; lia).
  destruct (Hne Hcne) as [Hcs Hcs0]. rewrite Hlen.
  destruct (Z.ltb_spec (HFTokenizer.currentStart st) (Z.of_nat n)); [|lia].
  destruct (Z.ltb_spec 0 (Z.of_nat n)); [|lia].
  unfold HFTokenizer.last_plus_1. rewrite Hlen.
  rewrite (at_identity offs n (HFTokenizer.currentStart st)) by (done || lia).
  rewrite (at_identity offs n (Z.of_nat n - 1)) by (done || lia).
  apply Forall_app. split; [done|]. constructor; [|constructor].
  cbn [HFTokenizer.start HFTokenizer.end_ HFTokenizer.text].
  rewrite rune_bytes_ascii by done. lia.
Qed.

Lemma tiles_bounds (a b : Z) (l : list HFTokenizer.TokenSpan) :
  tiles a b l →
  a ≤ b ∧ Forall (λ sp, a ≤ HFTokenizer.Start sp ∧ HFTokenizer.Start sp < HFTokenizer.End_ sp
                        ∧ HFTokenizer.End_ sp ≤ b) l.
Proof.
  revert a. induction l as [|sp l IH]; intros a; cbn [tiles].
  - intros ->. split; [lia | constructor].
  - intros (H1 & H2 & H3). destruct (IH _ H3) as [Hle Hall].
    split; [lia|]. constructor; [lia|].
    eapply Forall_impl; [exact Hall|]. intros sp' Hsp'. cbn beta in Hsp'. lia.
Qed.

Lemma tokenizeWord_inside (t : HFTokenizer.Tokenizer) (w : HFTokenizer.wordWithOffset) (n : Z) :
  String.eqb (HFTokenizer.Type_ (HFTokenizer.Model_ (HFTokenizer.tokenizer t))) "BPE" = false →
  0 ≤ HFTokenizer.start w → HFTokenizer.start w < HFTokenizer.end_ w →
  HFTokenizer.end_ w ≤ n →
  rune_bytes (HFTokenizer.text w) = HFTokenizer.end_ w - HFTokenizer.start w →
  Forall (span_inside n) (HFTokenizer.tokenizeWordWithSpans t w).2.
Proof.
  intros Hbpe H0 Hlt Hn Hrb.
  assert (Hwhole : span_inside n (HFTokenizer.mkSpan (HFTokenizer.start w) (HFTokenizer.end_ w)))
    by (unfold span_inside; cbn; lia).
  assert (Hunk : Forall (span_inside n) (HFTokenizer.unk_or_nothing t w).2).
  { unfold HFTokenizer.unk_or_nothing. destruct (0 <=? _); cbn; [by constructor | constructor]. }
  assert (Htiles : ∀ l, tiles (HFTokenizer.start w)
                          (HFTokenizer.start w + rune_bytes (HFTokenizer.text w)) l →
                        Forall (span_inside n) l).
  { intros l Hl. apply tiles_bounds in Hl as [_ Hall].
    eapply Forall_impl; [exact Hall|]. intros sp Hsp. cbn beta in Hsp.
    unfold span_inside. lia. }
  unfold HFTokenizer.tokenizeWordWithSpans.
  destruct (HFTokenizer.addedTokens t !! HFTokenizer.text w); [by constructor|]. cbn zeta.
  assert (Hbase : tiles (HFTokenizer.start w)
                    (HFTokenizer.start w
                     + UTF8.byte_len_prefix (UTF8.runes_of (HFTokenizer.text w)) 0) [])
    by (cbn [tiles]; unfold UTF8.byte_len_prefix; rewrite take_0; cbn; lia).
  destruct (String.eqb _ "WordPiece").
  { unfold HFTokenizer.wordPieceTokenizeWithSpans.
    destruct (String.eqb _ ""); [constructor|].
    destruct (_ <? _); [done|]. cbn zeta.
    destruct (wp_loop_tiles t w (UTF8.runes_of (HFTokenizer.text w))
                (length (UTF8.runes_of (HFTokenizer.text w))) 0 ([], []))
      as [-> | Ht]; [lia | lia | exact Hbase | done |].
    apply Htiles. unfold rune_bytes.
    unfold UTF8.byte_len_prefix in Ht. by rewrite firstn_all in Ht. }
  rewrite Hbpe.
  destruct (String.eqb _ "Unigram").
  { unfold HFTokenizer.unigramTokenizeWithSpans.
    destruct (String.eqb _ ""); [constructor|]. cbn zeta.
    apply Htiles. unfold rune_bytes.
    pose proof (uni_loop_tiles t w (UTF8.runes_of (HFTokenizer.text w))
                  (length (UTF8.runes_of (HFTokenizer.text w))) 0 ([], [])
                  ltac:(lia) ltac:(lia) Hbase) as Ht.
    unfold UTF8.byte_len_prefix in Ht. by rewrite firstn_all in Ht. }
  destruct (HFTokenizer.Vocab _ !! _); [by constructor | done].
Qed.

(** X: the default pipeline on ASCII text keeps its spans inside the
    text.  With no normalizer, with no pre-tokenizer or one that splits
    on whitespace, and with a model other than BPE, every span [a, b)
    that [EncodeWithSpans] returns for a text of ASCII bytes satisfies
    0 <= a < b <= len(text). *)
Theorem EncodeWithSpans_ascii_in_bounds (t : HFTokenizer.Tokenizer) (s : string) :
  is_ascii s →
  HFTokenizer.PreTokenizer_ (HFTokenizer.tokenizer t) = None
  ∨ HFTokenizer.PreTokenizer_ (HFTokenizer.tokenizer t) = Some HFTokenizer.PTFields →
  String.eqb (HFTokenizer.Type_ (HFTokenizer.Model_ (HFTokenizer.tokenizer t))) "BPE" = false →
  Forall (span_inside (UTF8.len s))
         (HFTokenizer.Spans (HFTokenizer.EncodeWithSpans t s)).
Proof.
  intros Hs Hpt Hbpe. unfold HFTokenizer.EncodeWithSpans.
  pose proof (fieldsWithOffsets_ascii s Hs) as Hws.
  destruct (HFTokenizer.normalizeWithSpans s) as [normalized normSpans] eqn:Hnorm.
  assert (Hnz : normalized = s) by (unfold HFTokenizer.normalizeWithSpans in Hnorm; by inversion Hnorm).
  subst normalized. cbn [snd] in Hws.
  assert (Hpre : HFTokenizer.preTokenizeWithSpans t s normSpans
                 = HFTokenizer.fieldsWithOffsets s normSpans).
  { unfold HFTokenizer.preTokenizeWithSpans. by destruct Hpt as [-> | ->]. }
  rewrite Hpre. cbn [HFTokenizer.Spans].
  revert Hws. generalize (HFTokenizer.fieldsWithOffsets s normSpans). intros ws Hws.
  assert (Hf : ∀ (acc : HFTokenizer.tokens),
            Forall (span_inside (UTF8.len s)) acc.2 →
            Forall (span_inside (UTF8.len s))
              (foldl (λ (acc : HFTokenizer.tokens) word,
                        let '(wordIDs, wordSpans) := HFTokenizer.tokenizeWordWithSpans t word in
                        (acc.1 ++ wordIDs, acc.2 ++ wordSpans)) acc ws).2).
  { induction Hws as [|w ws Hw Hws IH]; intros acc Hacc; cbn [foldl]; [done|].
    apply IH. destruct Hw as (H0 & Hlt & Hn & Hrb).
    pose proof (tokenizeWord_inside t w (UTF8.len s) Hbpe H0 Hlt Hn Hrb) as Hin.
    destruct (HFTokenizer.tokenizeWordWithSpans t w) as [ids spans]. cbn [fst snd] in *.
    apply Forall_app. by split. }
  apply Hf. constructor.
Qed.

Lemma EncodeWithSpans_ascii_in_bounds_witness :
  Forall (span_inside (UTF8.len "a b"))
         (HFTokenizer.Spans (HFTokenizer.EncodeWithSpans wordpiece_unk "a b")).
Proof.
  apply EncodeWithSpans_ascii_in_bounds.
  - unfold is_ascii. vm_compute. repeat constructor; discriminate.
  - left. reflexivity.
  - vm_compute. reflexivity.
Defined.

Lemma byteLevelDecode_inverse_witness :
  HFTokenizer.byteLevelDecode (UTF8.string_of_runes (map HFTokenizer.b2u [32; 97; 255]))
  = UTF8.string_of [32; 97; 255].
Proof.
  apply byteLevelDecode_inverse. repeat constructor; lia.
Defined.

(** ** The tokenizer: ids and tokens *)

Lemma foldl_insert_hit {A K V : Type} `{Countable K} (kf : A → K) (vf : A → V)
    (l : list A) (m0 : gmap K V) (k : K) (v : V) :
  (∀ x, x ∈ l → kf x = k → vf x = v) →
  (∃ x, x ∈ l ∧ kf x = k) ∨ m0 !! k = Some v →
  foldl (λ m x, <[kf x := vf x]> m) m0 l !! k = Some v.
Proof.
  revert m0. induction l as [|a l IH]; intros m0 Hall Hex.
  - destruct Hex as [(x & Hx & _)|Hm]; [by apply elem_of_nil in Hx | exact Hm].
  - cbn [foldl]. apply IH.
    + intros x Hx. apply Hall. by right.
    + destruct (decide (kf a = k)) as [Hk|Hk].
      * right. rewrite Hk, lookup_insert_eq. f_equal. apply Hall; [by left | exact Hk].
      * destruct Hex as [(x & Hx & Hkx)|Hm].
        -- apply elem_of_cons in Hx as [->|Hx]; [done|]. left. by exists x.
        -- right. by rewrite lookup_insert_ne.
Qed.

Lemma foldl_insert_inv {A K V : Type} `{Countable K} (kf : A → K) (vf : A → V)
    (l : list A) (m0 : gmap K V) (k : K) (v : V) :
  foldl (λ m x, <[kf x := vf x]> m) m0 l !! k = Some v →
  (∃ x, x ∈ l ∧ kf x = k ∧ vf x = v) ∨ m0 !! k = Some v.
Proof.
  revert m0. induction l as [|a l IH]; intros m0 Hl; [by right|].
  cbn [foldl] in Hl. apply IH in Hl as [(x & Hx & Hk & Hv)|Hm].
  - left. exists x. split; [by right | done].
  - destruct (decide (kf a = k)) as [Hk|Hk].
    + rewrite Hk, lookup_insert_eq in Hm. injection Hm as Hv.
      left. exists a. split; [by left | done].
    + rewrite lookup_insert_ne in Hm by done. by right.
Qed.

Lemma foldl_insert_map {A B K V : Type} `{Countable K} (g : A → B) (kf : B → K) (vf : B → V)
    (l : list A) (m0 : gmap K V) :
  foldl (λ m x, <[kf (g x) := vf (g x)]> m) m0 l
  = foldl (λ m y, <[kf y := vf y]> m) m0 (map g l).
Proof. revert m0. induction l as [|a l IH]; intros m0; [done|]. cbn. apply IH. Qed.

(** [idToToken] as one pass over the pairs. *)
Lemma idToToken_pairs (order : list (string * Z)) (tj : HFTokenizer.TokenizerJSON) :
  HFDecode.idToToken order tj
  = foldl (λ m (kv : string * Z), <[kv.2 := kv.1]> m) ∅
          (order ++ map (λ at_, (HFTokenizer.Content at_, HFTokenizer.ID at_))
                        (HFTokenizer.AddedTokens tj)).
Proof.
  unfold HFDecode.idToToken. rewrite foldl_app.
  by rewrite <- (foldl_insert_map (λ at_, (HFTokenizer.Content at_, HFTokenizer.ID at_)) snd fst).
Qed.

Lemma addedTokens_pairs (cfg : option string) (tj : HFTokenizer.TokenizerJSON) :
  HFTokenizer.addedTokens (HFTokenizer.NewFromContent cfg tj)
  = foldl (λ m (kv : string * Z), <[kv.1 := kv.2]> m) ∅
          (map (λ at_, (HFTokenizer.Content at_, HFTokenizer.ID at_))
               (HFTokenizer.AddedTokens tj)).
Proof.
  cbn. by rewrite <- (foldl_insert_map (λ at_, (HFTokenizer.Content at_, HFTokenizer.ID at_)) fst snd).
Qed.

(** [TokenToID] finds only pairs of the descriptor. *)
Lemma TokenToID_entry (cfg : option string) (tj : HFTokenizer.TokenizerJSON)
    (tok : string) (id : Z) :
  HFDecode.TokenToID (HFTokenizer.NewFromContent cfg tj) tok = Some id →
  (tok, id) ∈ HFDecode.entries tj.
Proof.
  unfold HFDecode.TokenToID, HFDecode.entries. rewrite addedTokens_pairs.
  destruct (foldl _ _ _ !! tok) as [id'|] eqn:Ha.
  - intros [= ->]. apply foldl_insert_inv in Ha as [([tok' id'] & Hx & Hk & Hv)|Hm].
    + cbn in Hk, Hv. subst. apply elem_of_app. by right.
    + by rewrite lookup_empty in Hm.
  - cbn. intros Hv. apply elem_of_app. left. by apply elem_of_map_to_list.
Qed.

(** ** [TokenToID] and [IDToToken] are inverse to each other on a
    descriptor that gives no token two ids and no id two tokens (the
    same pair may be listed more than once, as the added tokens of a
    vocabulary usually are), in whatever order the vocabulary map is
    visited. *)
Theorem TokenToID_IDToToken (cfg : option string) (tj : HFTokenizer.TokenizerJSON)
    (order : list (string * Z)) (tok : string) (id : Z) :
  order ≡ₚ map_to_list (HFTokenizer.Vocab (HFTokenizer.Model_ tj)) →
  (∀ tok1 id1 tok2 id2,
     (tok1, id1) ∈ HFDecode.entries tj → (tok2, id2) ∈ HFDecode.entries tj →
     tok1 = tok2 ↔ id1 = id2) →
  HFDecode.TokenToID (HFTokenizer.NewFromContent cfg tj) tok = Some id
  ↔ HFDecode.IDToToken (HFDecode.idToToken order tj) id = Some tok.
Proof.
  intros Hperm Hbij.
  set (added := map (λ at_, (HFTokenizer.Content at_, HFTokenizer.ID at_))
                    (HFTokenizer.AddedTokens tj)).
  assert (Hin : ∀ x, x ∈ order ++ added ↔ x ∈ HFDecode.entries tj).
  { intros x. unfold HFDecode.entries. fold added. rewrite !elem_of_app.
    by rewrite Hperm. }
  unfold HFDecode.IDToToken. rewrite idToToken_pairs. fold added. split.
  - intros Ht. apply TokenToID_entry in Ht.
    apply (foldl_insert_hit snd fst).
    + intros [tok' id'] Hx Hk. cbn in Hk |- *. subst id'.
      apply Hin in Hx. by apply (Hbij tok' id tok id).
    + left. exists (tok, id). split; [by apply Hin | done].
  - intros Hi. apply (foldl_insert_inv snd fst) in Hi as [([tok' id'] & Hx & Hk & Hv)|Hm];
      [|by rewrite lookup_empty in Hm].
    cbn in Hk, Hv. subst tok' id'. apply Hin in Hx.
    unfold HFDecode.TokenToID. rewrite addedTokens_pairs. fold added.
    destruct (foldl _ _ _ !! tok) as [id'|] eqn:Ha.
    + apply (foldl_insert_inv fst snd) in Ha as [([tok' id''] & Hx' & Hk & Hv)|Hm];
        [|by rewrite lookup_empty in Hm].
      cbn in Hk, Hv. subst tok' id''. f_equal.
      apply (Hbij tok id' tok id); [|exact Hx|done].
      unfold HFDecode.entries. fold added. apply elem_of_app. by right.
    + unfold HFDecode.entries in Hx. fold added in Hx.
      apply elem_of_app in Hx as [Hx|Hx]; [by apply elem_of_map_to_list in Hx|].
      assert (Hsome : foldl (λ (m : gmap string Z) (kv : string * Z), <[kv.1 := kv.2]> m) ∅ added
                      !! tok = Some id).
      { apply (foldl_insert_hit fst snd).
        - intros [tok' id'] Hx' Hk. cbn in Hk |- *. subst tok'.
          apply (Hbij tok id' tok id); [| |done].
          + unfold HFDecode.entries. fold added. apply elem_of_app. by right.
          + unfold HFDecode.entries. fold added. apply elem_of_app. by right.
        - left. by exists (tok, id). }
      rewrite Ha in Hsome. discriminate.
Qed.
Lemma pairs_agree_all (l : list (string * Z)) :
  forallb (λ x, forallb (pairs_agree x) l) l = true →
  ∀ tok1 id1 tok2 id2, (tok1, id1) ∈ l → (tok2, id2) ∈ l → tok1 = tok2 ↔ id1 = id2.
Proof.
  intros Hall tok1 id1 tok2 id2 H1 H2.
  pose proof (forallb_elem_of _ _ Hall _ H1) as Hrow. cbn beta in Hrow.
  pose proof (forallb_elem_of _ _ Hrow _ H2) as Hxy.
  unfold pairs_agree in Hxy. cbn [fst snd] in Hxy. apply Bool.eqb_prop in Hxy.
  destruct (String.eqb_spec tok1 tok2) as [Ht|Ht], (Z.eqb_spec id1 id2) as [Hi|Hi];
    try discriminate; split; intros; done.
Qed.

Lemma TokenToID_IDToToken_witness :
  HFDecode.TokenToID (HFTokenizer.NewFromContent None added_json) "<s>" = Some 3
  ↔ HFDecode.IDToToken
      (HFDecode.idToToken
         (reverse (map_to_list (HFTokenizer.Vocab (HFTokenizer.Model_ added_json))))
         added_json) 3
    = Some "<s>"%string.
Proof.
  apply TokenToID_IDToToken.
  - apply reverse_Permutation.
  - apply pairs_agree_all. vm_compute. reflexivity.
Defined.
Lemma foldl_insert_union {A K V : Type} `{Countable K} (kf : A → K) (vf : A → V)
    (l : list A) (base : gmap K V) :
  ∀ m : gmap K V,
    foldl (λ m x, <[kf x := vf x]> m) (m ∪ base) l
    = foldl (λ m x, <[kf x := vf x]> m) m l ∪ base.
Proof.
  induction l as [|a l IH]; intros m; [reflexivity|].
  cbn [foldl]. by rewrite <- IH, insert_union_l.
Qed.

(** ** [GetVocab] and [TokenToID] give the same id for every token, and
    none for the same tokens: an added token hides a vocabulary entry
    of the same content in both. *)
Theorem GetVocab_TokenToID (cfg : option string) (tj : HFTokenizer.TokenizerJSON)
    (tok : string) :
  HFDecode.GetVocab tj !! tok
  = HFDecode.TokenToID (HFTokenizer.NewFromContent cfg tj) tok.
Proof.
  unfold HFDecode.GetVocab, HFDecode.TokenToID.
  change (HFTokenizer.addedTokens (HFTokenizer.NewFromContent cfg tj))
    with (foldl (λ m at_, <[HFTokenizer.Content at_ := HFTokenizer.ID at_]> m)
                (∅ : gmap string Z) (HFTokenizer.AddedTokens tj)).
  rewrite <- (left_id_L ∅ (∪) (HFTokenizer.Vocab (HFTokenizer.Model_ tj))) at 1.
  rewrite (foldl_insert_union HFTokenizer.Content HFTokenizer.ID).
  rewrite lookup_union.
  destruct (foldl _ ∅ _ !! tok) as [id|]; [|by rewrite (left_id_L None _)].
  by destruct (_ !! tok).
Qed.
(** ** Strings and their bytes *)

Lemma zbyte_byteZ (b : byte) : UTF8.zbyte (byteZ b) = b.
Proof.
  unfold UTF8.zbyte, byteZ.
  pose proof (Byte.to_N_bounded b) as Hb.
  rewrite Z.mod_small by lia. rewrite N2Z.id, Byte.of_to_N. reflexivity.
Qed.

Lemma string_of_bytes_of (s : string) : UTF8.string_of (UTF8.bytes_of s) = s.
Proof.
  unfold UTF8.string_of, UTF8.bytes_of. rewrite map_map.
  rewrite (map_ext _ id) by apply zbyte_byteZ.
  rewrite map_id. apply string_of_list_byte_of_string.
Qed.

Lemma bytes_of_range (s : string) : Forall (λ b, 0 ≤ b < 256) (UTF8.bytes_of s).
Proof.
  unfold UTF8.bytes_of. apply Forall_forall. intros z Hz.
  apply list_elem_of_fmap in Hz as (b & -> & _).
  unfold byteZ. pose proof (Byte.to_N_bounded b). lia.
Qed.

Lemma bytes_of_app (a b : string) :
  UTF8.bytes_of (a ++ b) = UTF8.bytes_of a ++ UTF8.bytes_of b.
Proof.
  unfold UTF8.bytes_of. rewrite <- map_app. f_equal.
  induction a as [|c a IH]; [reflexivity|].
  change (String c a +:+ b) with (String c (a +:+ b)).
  unfold list_byte_of_string in *. cbn [list_ascii_of_string map app]. by rewrite IH.
Qed.

Lemma string_of_app (l1 l2 : list Z) :
  UTF8.string_of (l1 ++ l2) = (UTF8.string_of l1 ++ UTF8.string_of l2)%string.
Proof.
  unfold UTF8.string_of, string_of_list_byte. rewrite !map_app.
  generalize (map ascii_of_byte (map UTF8.zbyte l1)) as a.
  generalize (map ascii_of_byte (map UTF8.zbyte l2)) as b.
  intros b a. induction a as [|c a IH]; [reflexivity|].
  cbn [app string_of_list_ascii].
  change (String c (string_of_list_ascii a) +:+ string_of_list_ascii b)
    with (String c (string_of_list_ascii a +:+ string_of_list_ascii b)).
  by rewrite IH.
Qed.

Lemma bytes_of_Join (l : list string) :
  UTF8.bytes_of (HFDecode.Join l) = flat_map UTF8.bytes_of l.
Proof.
  unfold HFDecode.Join. induction l as [|a l IH]; [reflexivity|].
  destruct l as [|b l].
  - cbn. by rewrite app_nil_r.
  - change (String.concat "" (a :: b :: l)) with (a +:+ String.concat "" (b :: l)).
    rewrite bytes_of_app, IH. reflexivity.
Qed.

Lemma EncodeRune_range (r : Z) : Forall (λ b, 0 ≤ b < 256) (UTF8.EncodeRune r).
Proof.
  unfold UTF8.EncodeRune.
  destruct (_ || _ || _) eqn:Hbad; [repeat constructor; lia|].
  apply orb_false_elim in Hbad as [Hbad _]. apply orb_false_elim in Hbad as [H0 H1].
  apply Z.ltb_ge in H0, H1.
  destruct (Z.ltb_spec r 128); [repeat constructor; lia|].
  destruct (Z.ltb_spec r 2048).
  { pose proof (Z.mod_pos_bound r 64 ltac:(lia)).
    assert (0 ≤ r / 64 < 32) by (split; [apply Z.div_pos; lia | apply Z.div_lt_upper_bound; lia]).
    repeat constructor; lia. }
  destruct (Z.ltb_spec r 65536).
  { pose proof (Z.mod_pos_bound r 64 ltac:(lia)).
    pose proof (Z.mod_pos_bound (r / 64) 64 ltac:(lia)).
    assert (0 ≤ r / 4096 < 16) by (split; [apply Z.div_pos; lia | apply Z.div_lt_upper_bound; lia]).
    repeat constructor; lia. }
  pose proof (Z.mod_pos_bound r 64 ltac:(lia)).
  pose proof (Z.mod_pos_bound (r / 64) 64 ltac:(lia)).
  pose proof (Z.mod_pos_bound (r / 4096) 64 ltac:(lia)).
  assert (0 ≤ r / 262144 < 5) by (split; [apply Z.div_pos; lia | apply Z.div_lt_upper_bound; lia]).
  repeat constructor; lia.
Qed.

Lemma bytes_of_runes_range (rs : list Z) : Forall (λ b, 0 ≤ b < 256) (UTF8.bytes_of_runes rs).
Proof.
  unfold UTF8.bytes_of_runes. induction rs as [|r rs IH]; [constructor|].
  cbn [flat_map]. apply Forall_app. split; [apply EncodeRune_range | exact IH].
Qed.

Lemma bytes_of_runes_app (a b : list Z) :
  UTF8.bytes_of_runes (a ++ b) = UTF8.bytes_of_runes a ++ UTF8.bytes_of_runes b.
Proof. unfold UTF8.bytes_of_runes. apply flat_map_app. Qed.

Lemma bytes_of_string_of_runes (rs : list Z) :
  UTF8.bytes_of (UTF8.string_of_runes rs) = UTF8.bytes_of_runes rs.
Proof. unfold UTF8.string_of_runes. apply bytes_of_string_of, bytes_of_runes_range. Qed.

(** ** Strings without a space *)

Lemma no_space_app (a b : string) :
  no_space (a ++ b) = no_space a && no_space b.
Proof.
  induction a as [|c a IH]; [reflexivity|].
  change (String c a +:+ b) with (String c (a +:+ b)).
  cbn [no_space]. rewrite IH. by rewrite andb_assoc.
Qed.

Lemma remove_first_space_pair (a b : string) :
  no_space a = true →
  HFTokenizer.remove_first_space (a ++ " " ++ b) = (a ++ b)%string.
Proof.
  induction a as [|c a IH]; intros Ha; [reflexivity|].
  change (String c a +:+ " " +:+ b) with (String c (a +:+ " " +:+ b)).
  change (String c a +:+ b) with (String c (a +:+ b)).
  cbn [no_space HFTokenizer.remove_first_space] in Ha |- *.
  apply andb_prop in Ha as [Hc Ha].
  apply negb_true_iff in Hc. rewrite Hc. f_equal. by apply IH.
Qed.

Lemma no_space_b2u (b : Z) :
  0 ≤ b < 256 → no_space (UTF8.string_of_runes [HFTokenizer.b2u b]) = true.
Proof.
  intros Hb.
  pose proof (forallb_seqZ_bytes
                (λ b, no_space (UTF8.string_of_runes [HFTokenizer.b2u b]))
                ltac:(vm_compute; reflexivity) b Hb) as H.
  cbn beta in H. exact H.
Qed.
(** ** The merge loop of BPE keeps the text of the word *)

Lemma bpe_best_spec (ranks : gmap string Z) (all : list HFTokenizer.symbolWithPos) :
  ∀ (syms : list HFTokenizer.symbolWithPos) (i : nat) (best : option (string * Z * nat)),
    drop i all = syms →
    (∀ p r j, best = Some (p, r, j) → pair_at ranks all p j) →
    ∀ p r j, HFTokenizer.bpe_best ranks syms i best = Some (p, r, j) → pair_at ranks all p j.
Proof.
  induction syms as [|a syms IH]; intros i best Hdrop Hbest p r j Hres.
  - cbn in Hres. by apply (Hbest p r j).
  - destruct syms as [|b tl].
    { cbn in Hres. by apply (Hbest p r j). }
    cbn [HFTokenizer.bpe_best] in Hres.
    assert (Ha : all !! i = Some a).
    { pose proof (lookup_drop all i 0) as H0. rewrite Hdrop, Nat.add_0_r in H0.
      by rewrite <- H0. }
    assert (Hb : all !! S i = Some b).
    { pose proof (lookup_drop all i 1) as H1. rewrite Hdrop in H1.
      replace (S i) with (i + 1)%nat by lia. by rewrite <- H1. }
    assert (Hd : drop (S i) all = b :: tl).
    { replace (S i) with (i + 1)%nat by lia. rewrite <- drop_drop, Hdrop. reflexivity. }
    eapply (IH (S i) _ Hd); [|exact Hres].
    intros p' r' j' Hb'.
    destruct (ranks !! _) as [rank|] eqn:Hrank; [|by apply (Hbest p' r' j')].
    assert (Hnew : pair_at ranks all
                     (HFTokenizer.sym_text a ++ " " ++ HFTokenizer.sym_text b)%string i).
    { exists a, b. split_and!; [done..|]. by rewrite Hrank. }
    destruct best as [[[bp br] bj]|].
    + destruct (_ || _).
      * injection Hb' as <- <- <-. exact Hnew.
      * by apply (Hbest p' r' j').
    + injection Hb' as <- <- <-. exact Hnew.
Qed.

Lemma bpe_merge_keeps (V ranks : gmap string Z) (bs : list Z) :
  (∀ pair rank, ranks !! pair = Some rank →
                is_Some (V !! HFTokenizer.remove_first_space pair)) →
  ∀ (fuel : nat) (syms : list HFTokenizer.symbolWithPos),
    Forall (sym_known V) syms →
    flat_map (λ sym, UTF8.bytes_of (HFTokenizer.sym_text sym)) syms = bs →
    Forall (sym_known V) (HFTokenizer.bpe_merge ranks fuel syms)
    ∧ flat_map (λ sym, UTF8.bytes_of (HFTokenizer.sym_text sym))
               (HFTokenizer.bpe_merge ranks fuel syms) = bs.
Proof.
  intros Hmerge. induction fuel as [|fuel IH]; intros syms Hk Hbs; [by split|].
  cbn [HFTokenizer.bpe_merge].
  destruct (_ <? _)%nat; [|by split].
  destruct (HFTokenizer.bpe_best ranks syms 0 None) as [[[bestPair bestRank] bestIdx]|] eqn:Hbest;
    [|by split].
  destruct (syms !! bestIdx) as [a|] eqn:Ha; [|by split].
  destruct (syms !! S bestIdx) as [b|] eqn:Hb; [|by split].
  pose proof (bpe_best_spec ranks syms syms 0 None (drop_0 _) ltac:(discriminate)
                _ _ _ Hbest) as (a' & b' & Ha' & Hb' & Hp & Hin).
  rewrite Ha in Ha'. rewrite Hb in Hb'. injection Ha' as <-. injection Hb' as <-.
  destruct Hin as [rank Hrank].
  pose proof (Hmerge _ _ Hrank) as HV.
  assert (Hka : sym_known V a) by (eapply Forall_lookup_1; eauto).
  assert (Hkb : sym_known V b) by (eapply Forall_lookup_1; eauto).
  destruct Hka as [Hsa _], Hkb as [Hsb _].
  assert (Htext : HFTokenizer.remove_first_space bestPair
                  = (HFTokenizer.sym_text a ++ HFTokenizer.sym_text b)%string).
  { rewrite Hp. by apply remove_first_space_pair. }
  assert (Hsplit : syms = take bestIdx syms ++ [a; b] ++ drop (bestIdx + 2) syms).
  { rewrite <- (take_drop_middle syms bestIdx a Ha) at 1. f_equal. cbn [app]. f_equal.
    replace (bestIdx + 2)%nat with (S (S bestIdx)) by lia.
    by apply drop_S. }
  apply IH.
  - rewrite Hsplit in Hk. apply Forall_app in Hk as [Hk1 Hk2].
    apply Forall_app in Hk2 as [_ Hk3].
    apply Forall_app. split; [exact Hk1|]. apply Forall_app. split; [|exact Hk3].
    constructor; [|constructor]. split; cbn [HFTokenizer.sym_text].
    + rewrite Htext, no_space_app, Hsa, Hsb. reflexivity.
    + exact HV.
  - rewrite <- Hbs. rewrite Hsplit at 3.
    rewrite !flat_map_app. f_equal. f_equal.
    cbn [flat_map HFTokenizer.sym_text]. rewrite Htext, bytes_of_app.
    by rewrite !app_nil_r.
Qed.

Lemma omap_singleton {A B : Type} (f : A → option B) (x : A) (y : B) :
  f x = Some y → omap f [x] = [y].
Proof. intros Hx. cbn. by rewrite Hx. Qed.

Lemma bpe_ids_tokens (t : HFTokenizer.Tokenizer) (i2t : gmap Z string)
    (word : HFTokenizer.wordWithOffset) (runes : list Z) :
  inverts t i2t →
  ∀ (syms : list HFTokenizer.symbolWithPos) (acc : HFTokenizer.tokens),
    Forall (sym_known (HFTokenizer.Vocab (HFTokenizer.Model_ (HFTokenizer.tokenizer t)))) syms →
    omap (λ id, i2t !! id)
      (foldl (λ (acc : HFTokenizer.tokens) sym,
                match HFTokenizer.Vocab (HFTokenizer.Model_ (HFTokenizer.tokenizer t))
                      !! HFTokenizer.sym_text sym with
                | Some id =>
                    (acc.1 ++ [id],
                     acc.2 ++ [HFTokenizer.sub_span word runes (HFTokenizer.sym_start sym)
                                                    (HFTokenizer.sym_end sym)])
                | None =>
                    if 0 <=? HFTokenizer.unkID t
                    then (acc.1 ++ [HFTokenizer.unkID t],
                          acc.2 ++ [HFTokenizer.sub_span word runes (HFTokenizer.sym_start sym)
                                                         (HFTokenizer.sym_end sym)])
                    else acc
                end) acc syms).1
    = omap (λ id, i2t !! id) acc.1 ++ map HFTokenizer.sym_text syms.
Proof.
  intros Hinv. induction syms as [|sym syms IH]; intros acc Hk.
  - cbn. by rewrite app_nil_r.
  - apply Forall_cons in Hk as [[_ [id Hid]] Hk].
    cbn [foldl]. rewrite IH by done. rewrite Hid. cbn [fst].
    rewrite omap_app, (omap_singleton _ id (HFTokenizer.sym_text sym))
      by exact (Hinv _ _ (or_intror Hid)).
    cbn [map]. by rewrite <- app_assoc.
Qed.

Lemma initial_symbols (V : gmap string Z) (runes : list Z) :
  Forall (λ r, no_space (UTF8.string_of_runes [r]) = true
               ∧ is_Some (V !! UTF8.string_of_runes [r])) runes →
  ∀ g h : nat → nat,
    Forall (sym_known V)
           (imap (λ i r, HFTokenizer.mkSym (UTF8.string_of_runes [r]) (g i) (h i)) runes)
    ∧ flat_map (λ sym, UTF8.bytes_of (HFTokenizer.sym_text sym))
               (imap (λ i r, HFTokenizer.mkSym (UTF8.string_of_runes [r]) (g i) (h i)) runes)
      = UTF8.bytes_of_runes runes.
Proof.
  induction 1 as [|r runes Hr Hrs IH]; intros g h; [by split|].
  cbn [imap]. destruct (IH (g ∘ S) (h ∘ S)) as [IH1 IH2]. split.
  - constructor; [exact Hr | exact IH1].
  - cbn [flat_map HFTokenizer.sym_text].
    trans (UTF8.bytes_of_runes [r] ++ UTF8.bytes_of_runes runes).
    + f_equal; [apply bytes_of_string_of_runes | exact IH2].
    + unfold UTF8.bytes_of_runes. cbn [flat_map]. by rewrite app_nil_r.
Qed.

(** The tokens of a BPE word spell the word. *)
Lemma bpe_word_tokens (t : HFTokenizer.Tokenizer) (i2t : gmap Z string)
    (word : HFTokenizer.wordWithOffset) :
  HFTokenizer.EndOfWordSuffix (HFTokenizer.Model_ (HFTokenizer.tokenizer t)) = ""%string →
  Forall (λ r, no_space (UTF8.string_of_runes [r]) = true
               ∧ is_Some (HFTokenizer.Vocab (HFTokenizer.Model_ (HFTokenizer.tokenizer t))
                          !! UTF8.string_of_runes [r]))
         (UTF8.runes_of (HFTokenizer.text word)) →
  merges_known t → inverts t i2t →
  flat_map UTF8.bytes_of
    (omap (λ id, i2t !! id) (HFTokenizer.bpeTokenizeWithSpans t word).1)
  = UTF8.bytes_of_runes (UTF8.runes_of (HFTokenizer.text word)).
Proof.
  intros Hsuf Hrunes Hmerge Hinv. unfold HFTokenizer.bpeTokenizeWithSpans. cbv zeta.
  destruct (String.eqb_spec (HFTokenizer.text word) "") as [He|_].
  { rewrite He. reflexivity. }
  rewrite Hsuf. cbn [String.eqb negb].
  set (runes := UTF8.runes_of (HFTokenizer.text word)) in *.
  destruct (initial_symbols _ runes Hrunes (λ i, i) S) as [Hk0 Hb0].
  set (syms0 := imap _ runes) in *.
  destruct (match syms0 with [s] => _ | _ => None end) as [r|] eqn:Hsingle.
  - destruct syms0 as [|s [|s' tl]]; try discriminate.
    destruct (_ !! HFTokenizer.sym_text s) as [id|] eqn:Hid; [|discriminate].
    cbn in Hsingle. injection Hsingle as <-. cbn [fst].
    rewrite (omap_singleton _ id (HFTokenizer.sym_text s)) by exact (Hinv _ _ (or_intror Hid)).
    exact Hb0.
  - destruct (bpe_merge_keeps _ (HFTokenizer.mergeRanks t) _ Hmerge (length syms0) syms0 Hk0 Hb0)
      as [Hk Hb].
    rewrite (bpe_ids_tokens t i2t word runes Hinv _ ([], []) Hk).
    change (omap (λ id, i2t !! id) ([], []).1) with (@nil string).
    cbn [app]. rewrite <- Hb.
    generalize (HFTokenizer.bpe_merge (HFTokenizer.mergeRanks t) (length syms0) syms0).
    intros l. induction l as [|x l IHl]; [reflexivity|].
    cbn [map flat_map]. by rewrite IHl.
Qed.
(** ** The byte-level pre-tokenizer splits the bytes of the text *)

Lemma bl_word_text (e : Z) (st : HFTokenizer.bl_state) :
  HFTokenizer.text (HFTokenizer.bl_word e st) = UTF8.string_of (HFTokenizer.bl_current st).
Proof. unfold HFTokenizer.bl_word. by destruct (_ <? _). Qed.

Lemma bytes_of_runes_nil (rs : list Z) : UTF8.bytes_of_runes rs = [] → rs = [].
Proof.
  destruct rs as [|r rs]; [done|]. unfold UTF8.bytes_of_runes. cbn [flat_map].
  pose proof (EncodeRune_nonempty r). destruct (UTF8.EncodeRune r); [cbn in *; lia | discriminate].
Qed.

Lemma bytes_of_runes_cons (r : Z) (rs : list Z) :
  UTF8.bytes_of_runes (r :: rs) = UTF8.EncodeRune r ++ UTF8.bytes_of_runes rs.
Proof. reflexivity. Qed.

Lemma bl_inner (here : list Z) (l : list Z) :
  ∀ st : HFTokenizer.bl_state,
    let st' := foldl (λ st' b, HFTokenizer.mkBl (HFTokenizer.bl_words st')
                                  (HFTokenizer.bl_current st' ++ UTF8.EncodeRune (HFTokenizer.b2u b))
                                  (HFTokenizer.bl_offsets st' ++ here)) st l in
    HFTokenizer.bl_words st' = HFTokenizer.bl_words st
    ∧ HFTokenizer.bl_current st'
      = HFTokenizer.bl_current st ++ UTF8.bytes_of_runes (map HFTokenizer.b2u l).
Proof.
  induction l as [|b l IH]; intros st; cbv zeta.
  - cbn [foldl map]. unfold UTF8.bytes_of_runes. cbn [flat_map]. by rewrite app_nil_r.
  - cbn [foldl].
    specialize (IH (HFTokenizer.mkBl (HFTokenizer.bl_words st)
                      (HFTokenizer.bl_current st ++ UTF8.EncodeRune (HFTokenizer.b2u b))
                      (HFTokenizer.bl_offsets st ++ here))).
    cbv zeta in IH. destruct IH as [H1 H2]. split.
    + rewrite H1. reflexivity.
    + rewrite H2. cbn [HFTokenizer.bl_current map].
      rewrite bytes_of_runes_cons, <- app_assoc. reflexivity.
Qed.

Lemma bl_flush (e : Z) (st : HFTokenizer.bl_state) (done : list Z) :
  bl_inv st done →
  ∃ bss,
    Forall2 (λ w bs, HFTokenizer.text w = UTF8.string_of_runes (map HFTokenizer.b2u bs))
            (if 0 <? Z.of_nat (length (HFTokenizer.bl_current st))
             then HFTokenizer.bl_words st ++ [HFTokenizer.bl_word e st]
             else HFTokenizer.bl_words st) bss
    ∧ concat bss = done.
Proof.
  intros (bss & cur & Hw & Hc & Hd).
  destruct (Z.ltb_spec 0 (Z.of_nat (length (HFTokenizer.bl_current st)))) as [Hlen|Hlen].
  - exists (bss ++ [cur]). split.
    + apply Forall2_app; [exact Hw|]. constructor; [|constructor].
      by rewrite bl_word_text, Hc.
    + rewrite concat_app. cbn. by rewrite app_nil_r.
  - exists bss. split; [exact Hw|].
    assert (Hnil : HFTokenizer.bl_current st = []).
    { destruct (HFTokenizer.bl_current st); [done | cbn in Hlen; lia]. }
    rewrite Hnil in Hc. symmetry in Hc. apply bytes_of_runes_nil in Hc.
    apply map_eq_nil in Hc. subst cur. by rewrite app_nil_r in Hd.
Qed.

Lemma bl_step_inv (offs : list Z) (st : HFTokenizer.bl_state) (i r : Z) (done : list Z) :
  bl_inv st done →
  bl_inv (HFTokenizer.bl_step offs st (i, r)) (done ++ UTF8.EncodeRune r).
Proof.
  intros Hinv. unfold HFTokenizer.bl_step.
  destruct (Z.eqb_spec r 32) as [->|Hr].
  - destruct (bl_flush i st done Hinv) as (bss & Hw & Hd).
    exists bss, [32]. cbn [HFTokenizer.bl_words HFTokenizer.bl_current]. split_and!.
    + exact Hw.
    + cbn [map]. rewrite bytes_of_runes_cons. unfold UTF8.bytes_of_runes. cbn [flat_map].
      by rewrite app_nil_r.
    + rewrite Hd. reflexivity.
  - destruct Hinv as (bss & cur & Hw & Hc & Hd).
    destruct (bl_inner (if i <? Z.of_nat (length offs) then [HFTokenizer.at_ offs i] else [])
                (UTF8.EncodeRune r) st) as [H1 H2].
    cbv zeta in H1, H2.
    exists bss, (cur ++ UTF8.EncodeRune r). split_and!.
    + by rewrite H1.
    + by rewrite H2, Hc, map_app, bytes_of_runes_app.
    + by rewrite app_assoc, Hd.
Qed.

Lemma bl_loop_inv (offs : list Z) (irs : list (Z * Z)) :
  ∀ (st : HFTokenizer.bl_state) (done : list Z),
    bl_inv st done →
    bl_inv (foldl (HFTokenizer.bl_step offs) st irs)
           (done ++ UTF8.bytes_of_runes (map snd irs)).
Proof.
  induction irs as [|[i r] irs IH]; intros st done Hinv.
  - cbn. by rewrite app_nil_r.
  - cbn [foldl map snd]. rewrite bytes_of_runes_cons, app_assoc.
    apply IH. by apply bl_step_inv.
Qed.

(** The words of the byte-level pre-tokenizer are, in the byte-level
    alphabet, pieces of the bytes of the text in their order. *)
Lemma byteLevel_words (s : string) (offs : list Z) :
  ∃ bss,
    Forall2 (λ w bs, HFTokenizer.text w = UTF8.string_of_runes (map HFTokenizer.b2u bs))
            (HFTokenizer.byteLevelPreTokenizeWithOffsets s offs) bss
    ∧ concat bss = UTF8.bytes_of_runes (UTF8.runes_of s).
Proof.
  unfold HFTokenizer.byteLevelPreTokenizeWithOffsets. cbv zeta.
  apply (bl_flush (UTF8.len s)).
  apply (bl_loop_inv offs (UTF8.range_string s) (HFTokenizer.mkBl [] [] []) []).
  exists [], []. split_and!; [constructor | reflexivity | reflexivity].
Qed.

(** The tokens of a word of the byte-level pre-tokenizer spell the word. *)
Lemma byteLevel_word_tokens (t : HFTokenizer.Tokenizer) (i2t : gmap Z string)
    (w : HFTokenizer.wordWithOffset) (bs : list Z) :
  HFTokenizer.Type_ (HFTokenizer.Model_ (HFTokenizer.tokenizer t)) = "BPE"%string →
  HFTokenizer.EndOfWordSuffix (HFTokenizer.Model_ (HFTokenizer.tokenizer t)) = ""%string →
  merges_known t → inverts t i2t →
  HFTokenizer.text w = UTF8.string_of_runes (map HFTokenizer.b2u bs) →
  Forall (λ b, 0 ≤ b < 256
               ∧ is_Some (HFTokenizer.Vocab (HFTokenizer.Model_ (HFTokenizer.tokenizer t))
                          !! UTF8.string_of_runes [HFTokenizer.b2u b])) bs →
  flat_map UTF8.bytes_of
    (omap (λ id, i2t !! id) (HFTokenizer.tokenizeWordWithSpans t w).1)
  = UTF8.bytes_of_runes (map HFTokenizer.b2u bs).
Proof.
  intros Hty Hsuf Hmerge Hinv Htext Hbs.
  assert (Hr : UTF8.runes_of (HFTokenizer.text w) = map HFTokenizer.b2u bs).
  { unfold UTF8.runes_of, UTF8.range_string.
    rewrite Htext, bytes_of_string_of_runes. apply range_from_runes.
    apply Forall_fmap. eapply Forall_impl; [exact Hbs|].
    intros b [Hb _]. by apply b2u_range. }
  unfold HFTokenizer.tokenizeWordWithSpans.
  destruct (HFTokenizer.addedTokens t !! HFTokenizer.text w) as [id|] eqn:Hadd.
  - cbn [fst]. rewrite (omap_singleton _ id (HFTokenizer.text w))
      by exact (Hinv _ _ (or_introl Hadd)).
    cbn [flat_map]. by rewrite app_nil_r, Htext, bytes_of_string_of_runes.
  - cbv zeta. rewrite Hty. cbn [String.eqb Ascii.eqb Bool.eqb andb].
    rewrite (bpe_word_tokens t i2t w Hsuf); [by rewrite Hr | | exact Hmerge | exact Hinv].
    rewrite Hr. apply Forall_fmap. eapply Forall_impl; [exact Hbs|].
    intros b [Hb Hv]. cbn beta. split; [by apply no_space_b2u | exact Hv].
Qed.

Lemma encode_ids (t : HFTokenizer.Tokenizer) (ws : list HFTokenizer.wordWithOffset) :
  ∀ acc : HFTokenizer.tokens,
    (foldl (λ (acc : HFTokenizer.tokens) word,
              let '(wordIDs, wordSpans) := HFTokenizer.tokenizeWordWithSpans t word in
              (acc.1 ++ wordIDs, acc.2 ++ wordSpans)) acc ws).1
    = acc.1 ++ flat_map (λ w, (HFTokenizer.tokenizeWordWithSpans t w).1) ws.
Proof.
  induction ws as [|w ws IH]; intros acc.
  - cbn. by rewrite app_nil_r.
  - cbn [foldl flat_map]. rewrite IH.
    destruct (HFTokenizer.tokenizeWordWithSpans t w) as [ids spans].
    cbn [fst]. by rewrite <- app_assoc.
Qed.
Lemma words_tokens (t : HFTokenizer.Tokenizer) (i2t : gmap Z string)
    (ws : list HFTokenizer.wordWithOffset) (bss : list (list Z)) :
  HFTokenizer.Type_ (HFTokenizer.Model_ (HFTokenizer.tokenizer t)) = "BPE"%string →
  HFTokenizer.EndOfWordSuffix (HFTokenizer.Model_ (HFTokenizer.tokenizer t)) = ""%string →
  merges_known t → inverts t i2t →
  Forall2 (λ w bs, HFTokenizer.text w = UTF8.string_of_runes (map HFTokenizer.b2u bs)) ws bss →
  Forall (λ b, 0 ≤ b < 256
               ∧ is_Some (HFTokenizer.Vocab (HFTokenizer.Model_ (HFTokenizer.tokenizer t))
                          !! UTF8.string_of_runes [HFTokenizer.b2u b])) (concat bss) →
  flat_map UTF8.bytes_of
    (omap (λ id, i2t !! id)
          (flat_map (λ w, (HFTokenizer.tokenizeWordWithSpans t w).1) ws))
  = UTF8.bytes_of_runes (map HFTokenizer.b2u (concat bss)).
Proof.
  intros Hty Hsuf Hmerge Hinv Hw. induction Hw as [|w bs ws bss Htext Hw IH]; intros Hbs.
  - reflexivity.
  - cbn [concat flat_map] in Hbs |- *. apply Forall_app in Hbs as [Hbs1 Hbs2].
    rewrite omap_app, flat_map_app, map_app, bytes_of_runes_app.
    rewrite (byteLevel_word_tokens t i2t w bs) by done.
    by rewrite IH.
Qed.

Lemma applyDecoder_byte_level (t : HFTokenizer.Tokenizer) (tokens : list string) :
  HFDecode.applyDecoder t (Some byte_level_decoder) tokens
  = HFTokenizer.byteLevelDecode (HFDecode.Join tokens).
Proof. reflexivity. Qed.

(** ** Byte-level BPE: [Decode] after [Encode] gives the text back.

    For a descriptor without normalizer, with the "ByteLevel"
    pre-tokenizer, a "BPE" model without end-of-word suffix and the
    "ByteLevel" decoder: when the vocabulary holds the byte-level symbol
    of every byte of the text and the result of every merge, and
    [idToToken] gives back the token of every id, decoding the ids of a
    text gives the text (after the prefix space, if one is asked for),
    with every byte that is not well-formed UTF-8 replaced by U+FFFD. *)
Theorem Decode_Encode_byte_level (t : HFTokenizer.Tokenizer) (i2t : gmap Z string)
    (f : bool) (s : string) :
  HFTokenizer.PreTokenizer_ (HFTokenizer.tokenizer t) = Some (HFTokenizer.PTByteLevel f) →
  HFTokenizer.Type_ (HFTokenizer.Model_ (HFTokenizer.tokenizer t)) = "BPE"%string →
  HFTokenizer.EndOfWordSuffix (HFTokenizer.Model_ (HFTokenizer.tokenizer t)) = ""%string →
  (∀ b, b ∈ UTF8.bytes_of (valid_text (byte_level_text f s)) →
        is_Some (HFTokenizer.Vocab (HFTokenizer.Model_ (HFTokenizer.tokenizer t))
                 !! UTF8.string_of_runes [HFTokenizer.b2u b])) →
  merges_known t → inverts t i2t →
  HFDecode.Decode t i2t (Some byte_level_decoder) (HFTokenizer.Encode t s)
  = valid_text (byte_level_text f s).
Proof.
  intros Hpt Hty Hsuf Hvocab Hmerge Hinv.
  unfold HFDecode.Decode. rewrite applyDecoder_byte_level.
  unfold HFTokenizer.Encode, HFTokenizer.EncodeWithSpans, byte_level_text in *.
  destruct (HFTokenizer.normalizeWithSpans s) as [n offs] eqn:Hn.
  assert (n = s) as -> by (unfold HFTokenizer.normalizeWithSpans in Hn; congruence).
  cbn [snd] in Hvocab |- *.
  unfold HFTokenizer.preTokenizeWithSpans. rewrite Hpt.
  cbn [HFTokenizer.applyPreTokenizerWithSpans].
  destruct (HFTokenizer.add_prefix_space f s offs) as [s1 offs1].
  cbn [fst HFTokenizer.IDs] in Hvocab |- *.
  rewrite encode_ids. cbn [fst app].
  destruct (byteLevel_words s1 offs1) as (bss & Hw & Hc).
  assert (Hall : UTF8.bytes_of (valid_text s1) = concat bss).
  { unfold valid_text. by rewrite bytes_of_string_of_runes, Hc. }
  assert (Hbs : Forall (λ b, 0 ≤ b < 256
                  ∧ is_Some (HFTokenizer.Vocab (HFTokenizer.Model_ (HFTokenizer.tokenizer t))
                             !! UTF8.string_of_runes [HFTokenizer.b2u b])) (concat bss)).
  { apply Forall_forall. intros b Hb. split.
    - rewrite Hc in Hb. pose proof (bytes_of_runes_range (UTF8.runes_of s1)) as Hr.
      by apply (proj1 (Forall_forall _ _) Hr).
    - apply Hvocab. by rewrite Hall. }
  pose proof (words_tokens t i2t _ bss Hty Hsuf Hmerge Hinv Hw Hbs) as Hkey.
  unfold HFTokenizer.byteLevelDecode, UTF8.range_string.
  rewrite bytes_of_Join, Hkey.
  unfold valid_text, UTF8.string_of_runes. rewrite <- Hc. f_equal.
  apply (foldl_decode ByteLevel.unicodeToByte HFTokenizer.b2u (concat bss)).
  - eapply Forall_impl; [exact Hbs|]. intros b [Hb _]. by apply u2b_b2u.
  - apply range_from_runes. apply Forall_fmap.
    eapply Forall_impl; [exact Hbs|]. intros b [Hb _]. by apply b2u_range.
Qed.

Lemma Decode_Encode_byte_level_witness :
  HFDecode.Decode bytelevel_merge
    (HFDecode.idToToken
       (map_to_list (HFTokenizer.Vocab (HFTokenizer.Model_ bytelevel_merge_json)))
       bytelevel_merge_json)
    (Some byte_level_decoder) (HFTokenizer.Encode bytelevel_merge "ab a")
  = valid_text (byte_level_text false "ab a").
Proof.
  apply Decode_Encode_byte_level.
  - reflexivity.
  - reflexivity.
  - reflexivity.
  - intros b Hb.
    assert (He : UTF8.bytes_of (valid_text (byte_level_text false "ab a")) = [97; 98; 32; 97])
      by (vm_compute; reflexivity).
    rewrite He in Hb.
    do 4 (apply elem_of_cons in Hb as [->|Hb]; [vm_compute; by eexists|]).
    by apply elem_of_nil in Hb.
  - apply map_Forall_lookup, map_Forall_to_list. vm_compute.
    repeat constructor. by eexists.
  - intros tok id [Ha|Hv].
    { change (HFTokenizer.addedTokens bytelevel_merge) with (∅ : gmap string Z) in Ha.
      by rewrite lookup_empty in Ha. }
    revert tok id Hv. apply map_Forall_lookup, map_Forall_to_list. vm_compute.
    repeat constructor.
Defined.

(** ** UTF-8: scalar values are read back as written *)

Ltac bsolve :=
  repeat match goal with
         | |- context [if ?a =? ?b then _ else _] => destruct (Z.eqb_spec a b)
         end;
  rewrite ?andb_true_iff, ?andb_false_iff, ?Z.leb_le, ?Z.leb_gt, ?Z.ltb_lt, ?Z.ltb_ge;
  lia.

Ltac test_is c v := replace c with v by (symmetry; bsolve).

Lemma EncodeRune_cases (r : Z) :
  valid_rune r →
  (r < 128 ∧ UTF8.EncodeRune r = [r])
  ∨ (128 ≤ r < 2048 ∧ UTF8.EncodeRune r = [192 + r / 64; 128 + r mod 64])
  ∨ (2048 ≤ r < 65536
     ∧ UTF8.EncodeRune r = [224 + r / 4096; 128 + (r / 64) mod 64; 128 + r mod 64])
  ∨ (65536 ≤ r
     ∧ UTF8.EncodeRune r
       = [240 + r / 262144; 128 + (r / 4096) mod 64; 128 + (r / 64) mod 64; 128 + r mod 64]).
Proof.
  intros [Hr Hs]. unfold UTF8.EncodeRune.
  destruct (Z.ltb_spec r 0); [lia|].
  destruct (Z.ltb_spec 1114111 r); [lia|].
  assert (Hsur : (55296 <=? r) && (r <=? 57343) = false).
  { apply andb_false_iff. destruct (Z.leb_spec 55296 r); [|by left].
    right. apply Z.leb_gt. lia. }
  rewrite Hsur. cbn [orb].
  destruct (Z.ltb_spec r 128); [by left|].
  destruct (Z.ltb_spec r 2048); [right; left; split; [lia|done]|].
  destruct (Z.ltb_spec r 65536); [right; right; left; split; [lia|done]|].
  right; right; right. split; [lia|done].
Qed.

Lemma DecodeRune_EncodeRune (r : Z) (rest : list Z) :
  valid_rune r →
  UTF8.DecodeRune (UTF8.EncodeRune r ++ rest) = (r, length (UTF8.EncodeRune r)).
Proof.
  intros Hv. pose proof Hv as [Hr Hs].
  destruct (EncodeRune_cases r Hv) as [[H1 ->]|[[H2 ->]|[[H3 ->]|[H4 ->]]]].
  - cbn [app length UTF8.DecodeRune]. by test_is (r <? 128) true.
  - pose proof (Z.mod_pos_bound r 64 ltac:(lia)).
    pose proof (Z.div_mod r 64 ltac:(lia)).
    assert (2 ≤ r / 64 < 32) by lia.
    set (b0 := 192 + r / 64) in *. set (b1 := 128 + r mod 64) in *.
    cbn [app length UTF8.DecodeRune]. unfold UTF8.is_cont.
    test_is (b0 <? 128) false.
    test_is ((194 <=? b0) && (b0 <=? 223)) true.
    test_is ((128 <=? b1) && (b1 <=? 191)) true.
    f_equal. lia.
  - pose proof (Z.mod_pos_bound r 64 ltac:(lia)).
    pose proof (Z.mod_pos_bound (r / 64) 64 ltac:(lia)).
    pose proof (Z.div_mod r 64 ltac:(lia)).
    pose proof (Z.div_mod (r / 64) 64 ltac:(lia)).
    assert (Hq : r / 4096 = r / 64 / 64) by (rewrite Z.div_div by lia; done).
    assert (0 ≤ r / 4096 < 16) by lia.
    set (b0 := 224 + r / 4096) in *. set (b1 := 128 + (r / 64) mod 64) in *.
    set (b2 := 128 + r mod 64) in *.
    cbn [app length UTF8.DecodeRune]. unfold UTF8.is_cont.
    test_is (b0 <? 128) false.
    test_is ((194 <=? b0) && (b0 <=? 223)) false.
    test_is ((224 <=? b0) && (b0 <=? 239)) true.
    test_is (((if b0 =? 224 then 160 else 128) <=? b1)
             && (b1 <=? (if b0 =? 237 then 159 else 191))
             && ((128 <=? b2) && (b2 <=? 191))) true.
    f_equal. lia.
  - pose proof (Z.mod_pos_bound r 64 ltac:(lia)).
    pose proof (Z.mod_pos_bound (r / 64) 64 ltac:(lia)).
    pose proof (Z.mod_pos_bound (r / 4096) 64 ltac:(lia)).
    pose proof (Z.div_mod r 64 ltac:(lia)).
    pose proof (Z.div_mod (r / 64) 64 ltac:(lia)).
    pose proof (Z.div_mod (r / 4096) 64 ltac:(lia)).
    assert (Hq : r / 4096 = r / 64 / 64) by (rewrite Z.div_div by lia; done).
    assert (Hq' : r / 262144 = r / 4096 / 64) by (rewrite Z.div_div by lia; done).
    assert (0 ≤ r / 262144 < 5) by lia.
    set (b0 := 240 + r / 262144) in *. set (b1 := 128 + (r / 4096) mod 64) in *.
    set (b2 := 128 + (r / 64) mod 64) in *. set (b3 := 128 + r mod 64) in *.
    cbn [app length UTF8.DecodeRune]. unfold UTF8.is_cont.
    test_is (b0 <? 128) false.
    test_is ((194 <=? b0) && (b0 <=? 223)) false.
    test_is ((224 <=? b0) && (b0 <=? 239)) false.
    test_is ((240 <=? b0) && (b0 <=? 244)) true.
    test_is (((if b0 =? 240 then 144 else 128) <=? b1)
             && (b1 <=? (if b0 =? 244 then 143 else 191))
             && ((128 <=? b2) && (b2 <=? 191)) && ((128 <=? b3) && (b3 <=? 191))) true.
    f_equal. lia.
Qed.

Lemma DecodeRune_valid (l : list Z) :
  Forall (λ b, 0 ≤ b < 256) l → valid_rune (UTF8.DecodeRune l).1.
Proof.
  intros Hl. unfold valid_rune, UTF8.DecodeRune, UTF8.RuneError, UTF8.is_cont.
  destruct l as [|b0 tl]; [cbn; lia|].
  apply Forall_cons in Hl as [H0 Hl].
  destruct (Z.ltb_spec b0 128); [cbn; lia|].
  destruct ((194 <=? b0) && (b0 <=? 223)) eqn:E2.
  { apply andb_prop in E2 as [Ea Eb]. apply Z.leb_le in Ea, Eb.
    destruct tl as [|b1 tl]; [cbn; lia|].
    destruct ((128 <=? b1) && (b1 <=? 191)) eqn:E; [|cbn; lia].
    apply andb_prop in E as [Ec Ed]. apply Z.leb_le in Ec, Ed. cbn. lia. }
  destruct ((224 <=? b0) && (b0 <=? 239)) eqn:E3.
  { apply andb_prop in E3 as [Ea Eb]. apply Z.leb_le in Ea, Eb.
    destruct tl as [|b1 [|b2 tl]]; [cbn; lia..|].
    destruct (_ && _ && _) eqn:E; [|cbn; lia].
    apply andb_prop in E as [E Eg]. apply andb_prop in E as [Ec Ed].
    apply andb_prop in Eg as [Ee Ef].
    apply Z.leb_le in Ec, Ed, Ee, Ef. cbn [fst].
    destruct (Z.eqb_spec b0 224), (Z.eqb_spec b0 237); lia. }
  destruct ((240 <=? b0) && (b0 <=? 244)) eqn:E4; [|cbn; lia].
  apply andb_prop in E4 as [Ea Eb]. apply Z.leb_le in Ea, Eb.
  destruct tl as [|b1 [|b2 [|b3 tl]]]; [cbn; lia..|].
  destruct (_ && _ && _ && _) eqn:E; [|cbn; lia].
  apply andb_prop in E as [E Ei]. apply andb_prop in E as [E Eg].
  apply andb_prop in E as [Ec Ed].
  apply andb_prop in Eg as [Ee Ef]. apply andb_prop in Ei as [Ej Ek].
  apply Z.leb_le in Ec, Ed, Ee, Ef, Ej, Ek. cbn [fst].
  destruct (Z.eqb_spec b0 240), (Z.eqb_spec b0 244); lia.
Qed.

Lemma range_from_skip (l1 rest : list Z) (i : Z) :
  UTF8.range_from i (length l1) (l1 ++ rest)
  = UTF8.range_from (i + Z.of_nat (length l1)) 0 rest.
Proof.
  revert i. induction l1 as [|b l1 IH]; intros i.
  - cbn [length app]. rewrite Z.add_0_r. by destruct rest.
  - cbn [length app UTF8.range_from]. rewrite IH. f_equal. lia.
Qed.

Lemma range_from_rune (r i : Z) (rest : list Z) :
  valid_rune r →
  UTF8.range_from i 0 (UTF8.EncodeRune r ++ rest)
  = (i, r) :: UTF8.range_from (i + Z.of_nat (length (UTF8.EncodeRune r))) 0 rest.
Proof.
  intros Hv. pose proof (DecodeRune_EncodeRune r rest Hv) as Hd.
  pose proof (EncodeRune_nonempty r) as Hne.
  destruct (UTF8.EncodeRune r) as [|b tl]; [cbn in Hne; lia|].
  cbn [app] in Hd |- *. cbn [UTF8.range_from]. rewrite Hd.
  cbn [length Nat.pred]. rewrite range_from_skip. f_equal. f_equal. lia.
Qed.

Lemma runes_of_valid (rs : list Z) (i : Z) :
  Forall valid_rune rs →
  map snd (UTF8.range_from i 0 (UTF8.bytes_of_runes rs)) = rs.
Proof.
  intros H. revert i. induction H as [|r rs Hr H IH]; intros i; [reflexivity|].
  rewrite bytes_of_runes_cons, range_from_rune by done.
  cbn [map snd]. by rewrite IH.
Qed.

Lemma range_from_valid (l : list Z) :
  Forall (λ b, 0 ≤ b < 256) l →
  ∀ (i : Z) (skip : nat), Forall (λ ir : Z * Z, valid_rune ir.2) (UTF8.range_from i skip l).
Proof.
  induction 1 as [|b l Hb Hl IH]; intros i skip; [constructor|].
  cbn [UTF8.range_from]. destruct skip as [|k]; [|apply IH].
  pose proof (DecodeRune_valid (b :: l) (Forall_cons_2 _ _ _ Hb Hl)) as Hv.
  destruct (UTF8.DecodeRune (b :: l)) as [r w]. constructor; [exact Hv | apply IH].
Qed.

Lemma runes_of_all_valid (s : string) : Forall valid_rune (UTF8.runes_of s).
Proof.
  unfold UTF8.runes_of, UTF8.range_string. apply Forall_fmap.
  apply (range_from_valid _ (bytes_of_range s)).
Qed.

Lemma runes_of_string_of_runes (rs : list Z) :
  Forall valid_rune rs → UTF8.runes_of (UTF8.string_of_runes rs) = rs.
Proof.
  intros H. unfold UTF8.runes_of, UTF8.range_string.
  rewrite bytes_of_string_of_runes. by apply runes_of_valid.
Qed.
(** ** The words of [fieldsWithOffsets] *)

Lemma fields_step_state (S : list Z) (textLen : Z) (offs : list Z)
    (st : HFTokenizer.pt_state) (i r : Z) :
  (UTF8.IsSpace r = false → valid_rune r ∧ r ∈ S) →
  fields_state S st → fields_state S (HFTokenizer.fields_step textLen offs st (i, r)).
Proof.
  intros Hr [Hw (cur & Hc & Hcur)]. unfold HFTokenizer.fields_step.
  destruct (UTF8.IsSpace r) eqn:Hsp.
  - destruct (Z.ltb_spec 0 (Z.of_nat (length (HFTokenizer.current st)))) as [Hlen|Hlen].
    + split; cbn [HFTokenizer.words HFTokenizer.current].
      * apply Forall_app. split; [exact Hw|]. constructor; [|constructor].
        exists cur. cbn [HFTokenizer.text]. split_and!; [by rewrite Hc | | exact Hcur].
        intros ->. rewrite Hc in Hlen. cbn in Hlen. lia.
      * exists []. split; [reflexivity | constructor].
    + split; [exact Hw|]. by exists cur.
  - split; cbn [HFTokenizer.words HFTokenizer.current]; [exact Hw|].
    exists (cur ++ [r]). split.
    + rewrite bytes_of_runes_app, Hc. f_equal.
      rewrite bytes_of_runes_cons. unfold UTF8.bytes_of_runes. cbn [flat_map].
      by rewrite app_nil_r.
    + apply Forall_app. split; [exact Hcur|]. constructor; [|constructor].
      destruct (Hr eq_refl) as [Hv Hin]. done.
Qed.

Lemma fields_loop_state (S : list Z) (textLen : Z) (offs : list Z) (irs : list (Z * Z)) :
  Forall (λ ir : Z * Z, UTF8.IsSpace ir.2 = false → valid_rune ir.2 ∧ ir.2 ∈ S) irs →
  ∀ st, fields_state S st →
        fields_state S (foldl (HFTokenizer.fields_step textLen offs) st irs).
Proof.
  induction 1 as [|[i r] irs Hir Hirs IH]; intros st Hst; [exact Hst|].
  cbn [foldl]. apply IH. by apply fields_step_state.
Qed.

Lemma fields_words (s : string) (offs : list Z) :
  Forall (word_of (UTF8.runes_of s)) (HFTokenizer.fieldsWithOffsets s offs).
Proof.
  unfold HFTokenizer.fieldsWithOffsets.
  set (st := foldl (HFTokenizer.fields_step (UTF8.len s) offs)
                   (HFTokenizer.mkPt [] [] (-1)) (UTF8.range_string s)).
  assert (Hst : fields_state (UTF8.runes_of s) st).
  { apply fields_loop_state.
    - apply Forall_forall. intros [i r] Hir _. cbn [snd]. split.
      + pose proof (range_from_valid _ (bytes_of_range s) 0 0%nat) as Hv.
        apply (proj1 (Forall_forall _ _) Hv (i, r) Hir).
      + unfold UTF8.runes_of. apply list_elem_of_fmap. by exists (i, r).
    - split; [constructor|]. exists []. split; [reflexivity | constructor]. }
  destruct Hst as [Hw (cur & Hc & Hcur)]. unfold HFTokenizer.flush_tail.
  destruct (Z.ltb_spec 0 (Z.of_nat (length (HFTokenizer.current st)))) as [Hlen|Hlen];
    [|exact Hw].
  apply Forall_app. split; [exact Hw|]. constructor; [|constructor].
  exists cur. cbn [HFTokenizer.text]. split_and!; [by rewrite Hc | | exact Hcur].
  intros ->. rewrite Hc in Hlen. cbn in Hlen. lia.
Qed.
(** ** The pieces of a word under WordPiece *)

Lemma str_app_assoc (a b c : string) : (a +:+ b) +:+ c = a +:+ (b +:+ c).
Proof.
  induction a as [|x a IH]; [reflexivity|].
  change ((String x a +:+ b) +:+ c) with (String x ((a +:+ b) +:+ c)).
  change (String x a +:+ (b +:+ c)) with (String x (a +:+ (b +:+ c))).
  by rewrite IH.
Qed.

Lemma str_app_nil_r (a : string) : a +:+ "" = a.
Proof.
  induction a as [|x a IH]; [reflexivity|].
  change (String x a +:+ "") with (String x (a +:+ "")). by rewrite IH.
Qed.

Lemma cat_app (a b : list string) : cat (a ++ b) = cat a +:+ cat b.
Proof.
  induction a as [|x a IH]; [reflexivity|].
  cbn [app cat foldr]. fold (cat (a ++ b)). fold (cat a). by rewrite IH, str_app_assoc.
Qed.

Lemma string_of_runes_app (a b : list Z) :
  UTF8.string_of_runes (a ++ b) = UTF8.string_of_runes a +:+ UTF8.string_of_runes b.
Proof. unfold UTF8.string_of_runes. by rewrite bytes_of_runes_app, string_of_app. Qed.

Lemma substr_take (runes : list Z) (s e : nat) :
  (s ≤ e)%nat →
  UTF8.string_of_runes (take s runes) +:+ HFTokenizer.substr runes s e
  = UTF8.string_of_runes (take e runes).
Proof.
  intros Hse. unfold HFTokenizer.substr.
  rewrite <- string_of_runes_app, take_take_drop. f_equal. f_equal. lia.
Qed.

Lemma substr_single (runes : list Z) (s : nat) (r : Z) :
  runes !! s = Some r → HFTokenizer.substr runes s (s + 1) = UTF8.string_of_runes [r].
Proof.
  intros Hr. unfold HFTokenizer.substr.
  replace (s + 1 - s)%nat with 1%nat by lia.
  by rewrite (drop_S _ _ _ Hr).
Qed.

Lemma wp_match_sound (t : HFTokenizer.Tokenizer) (runes : list Z) (s k : nat)
    (id : Z) (e : nat) :
  HFTokenizer.wp_match t runes s k = Some (id, e) →
  (s < e ≤ s + k)%nat
  ∧ HFTokenizer.Vocab (HFTokenizer.Model_ (HFTokenizer.tokenizer t))
    !! (if (0 <? s)%nat then HFTokenizer.wp_prefix t +:+ HFTokenizer.substr runes s e
        else HFTokenizer.substr runes s e) = Some id.
Proof.
  induction k as [|k IH]; cbn [HFTokenizer.wp_match]; [discriminate|].
  cbv zeta. intros H.
  match type of H with
  | match ?x with _ => _ end = _ => destruct x as [id'|] eqn:Hv
  end.
  - inversion H; subst. split; [lia | exact Hv].
  - apply IH in H as [H1 H2]. split; [lia | exact H2].
Qed.

Lemma wp_match_found (t : HFTokenizer.Tokenizer) (runes : list Z) (s k : nat) :
  (1 ≤ k)%nat →
  is_Some (HFTokenizer.Vocab (HFTokenizer.Model_ (HFTokenizer.tokenizer t))
           !! (if (0 <? s)%nat then HFTokenizer.wp_prefix t +:+ HFTokenizer.substr runes s (s + 1)
               else HFTokenizer.substr runes s (s + 1))) →
  is_Some (HFTokenizer.wp_match t runes s k).
Proof.
  intros Hk Hone. induction k as [|k IH]; [lia|].
  cbn [HFTokenizer.wp_match]. cbv zeta.
  match goal with
  | |- is_Some (match ?x with _ => _ end) => destruct x as [id'|] eqn:Hv
  end; [by eapply mk_is_Some|].
  destruct k as [|k'].
  - rewrite Hv in Hone. by destruct Hone.
  - apply IH. lia.
Qed.

Lemma wp_loop_pieces (t : HFTokenizer.Tokenizer) (i2t : gmap Z string)
    (word : HFTokenizer.wordWithOffset) (runes : list Z) :
  inverts t i2t → runes ≠ [] → Forall (rune_known t) runes →
  ∀ (fuel s : nat) (acc : HFTokenizer.tokens),
    (s ≤ length runes)%nat → (length runes - s ≤ fuel)%nat →
    (s = 0%nat ∧ omap (λ id, i2t !! id) acc.1 = [])
    ∨ ((0 < s)%nat
       ∧ pieces_of (HFTokenizer.wp_prefix t) (omap (λ id, i2t !! id) acc.1)
                   (UTF8.string_of_runes (take s runes))) →
    pieces_of (HFTokenizer.wp_prefix t)
      (omap (λ id, i2t !! id) (HFTokenizer.wp_loop t word runes fuel s acc).1)
      (UTF8.string_of_runes runes).
Proof.
  intros Hinv Hne Hknown.
  assert (Hdone : ∀ (s : nat) (acc : HFTokenizer.tokens),
             (s ≤ length runes)%nat → (length runes ≤ s)%nat →
             (s = 0%nat ∧ omap (λ id, i2t !! id) acc.1 = [])
             ∨ ((0 < s)%nat
                ∧ pieces_of (HFTokenizer.wp_prefix t) (omap (λ id, i2t !! id) acc.1)
                            (UTF8.string_of_runes (take s runes))) →
             pieces_of (HFTokenizer.wp_prefix t) (omap (λ id, i2t !! id) acc.1)
                       (UTF8.string_of_runes runes)).
  { intros s acc Hs1 Hs2 [[-> _]|[_ Hp]].
    - destruct runes; [done | cbn in Hs2; lia].
    - by rewrite take_ge in Hp by lia. }
  induction fuel as [|fuel IH]; intros s acc Hs Hfuel Hacc; cbn [HFTokenizer.wp_loop].
  { apply (Hdone s); [lia | lia | exact Hacc]. }
  destruct (Nat.ltb_spec s (length runes)) as [Hlt|Hge];
    [|apply (Hdone s); [lia | lia | exact Hacc]].
  destruct (lookup_lt_is_Some_2 runes s Hlt) as [r Hr].
  pose proof (proj1 (Forall_forall _ _) Hknown r (list_elem_of_lookup_2 _ _ _ Hr))
    as [Hk1 Hk2].
  assert (Hone : is_Some (HFTokenizer.Vocab (HFTokenizer.Model_ (HFTokenizer.tokenizer t))
           !! (if (0 <? s)%nat
               then HFTokenizer.wp_prefix t +:+ HFTokenizer.substr runes s (s + 1)
               else HFTokenizer.substr runes s (s + 1)))).
  { rewrite (substr_single runes s r Hr). by destruct (0 <? s)%nat. }
  destruct (wp_match_found t runes s (length runes - s) ltac:(lia) Hone) as [[id e] Hm].
  rewrite Hm. apply wp_match_sound in Hm as [He Hv].
  apply IH; [lia | lia |]. right. split; [lia|]. cbn [fst].
  rewrite omap_app, (omap_singleton _ id _ (Hinv _ _ (or_intror Hv))).
  destruct Hacc as [[-> Hnil]|[Hpos (p0 & ps & Htoks & Htxt)]].
  - rewrite Hnil. cbn [app]. change (0 <? 0)%nat with false. cbn iota.
    exists (HFTokenizer.substr runes 0 e), []. split; [reflexivity|].
    cbn [cat foldr]. rewrite str_app_nil_r. unfold HFTokenizer.substr.
    by rewrite drop_0, Nat.sub_0_r.
  - rewrite Htoks. destruct (Nat.ltb_spec 0 s) as [_|]; [|lia].
    exists p0, (ps ++ [HFTokenizer.substr runes s e]). split.
    + by rewrite map_app.
    + rewrite cat_app. cbn [cat foldr]. rewrite str_app_nil_r.
      rewrite <- str_app_assoc, Htxt. apply substr_take. lia.
Qed.

Lemma string_of_runes_nonempty (rs : list Z) :
  rs ≠ [] → UTF8.string_of_runes rs ≠ ""%string.
Proof.
  intros Hne He. apply Hne, bytes_of_runes_nil.
  rewrite <- bytes_of_string_of_runes, He. reflexivity.
Qed.

Lemma wp_word_pieces (t : HFTokenizer.Tokenizer) (i2t : gmap Z string)
    (w : HFTokenizer.wordWithOffset) (rs : list Z) :
  HFTokenizer.Type_ (HFTokenizer.Model_ (HFTokenizer.tokenizer t)) = "WordPiece"%string →
  inverts t i2t →
  HFTokenizer.text w = UTF8.string_of_runes rs → rs ≠ [] →
  Forall valid_rune rs → Forall (rune_known t) rs →
  UTF8.len (HFTokenizer.text w) ≤ HFTokenizer.wp_maxChars t →
  pieces_of (HFTokenizer.wp_prefix t)
    (omap (λ id, i2t !! id) (HFTokenizer.tokenizeWordWithSpans t w).1)
    (HFTokenizer.text w).
Proof.
  intros Hty Hinv Htext Hne Hvalid Hknown Hlen.
  assert (Hrunes : UTF8.runes_of (HFTokenizer.text w) = rs).
  { rewrite Htext. by apply runes_of_string_of_runes. }
  unfold HFTokenizer.tokenizeWordWithSpans.
  destruct (HFTokenizer.addedTokens t !! HFTokenizer.text w) as [id|] eqn:Hadd.
  - cbn [fst]. rewrite (omap_singleton _ id _ (Hinv _ _ (or_introl Hadd))).
    exists (HFTokenizer.text w), []. split; [reflexivity|].
    cbn [cat foldr]. apply str_app_nil_r.
  - cbv zeta. rewrite Hty. cbn [String.eqb Ascii.eqb Bool.eqb andb].
    unfold HFTokenizer.wordPieceTokenizeWithSpans.
    destruct (String.eqb_spec (HFTokenizer.text w) "") as [He|_].
    { rewrite Htext in He. by apply string_of_runes_nonempty in He. }
    destruct (Z.ltb_spec (HFTokenizer.wp_maxChars t) (UTF8.len (HFTokenizer.text w)));
      [lia|].
    cbv zeta. rewrite Hrunes, Htext.
    apply (wp_loop_pieces t i2t w rs Hinv Hne Hknown); [lia | lia |].
    left. by split.
Qed.
(** ** Gluing pieces back *)

Lemma prefix_app (p x : string) : String.prefix p (p +:+ x) = true.
Proof.
  induction p as [|c p IH]; [by destruct x|].
  change (String c p +:+ x) with (String c (p +:+ x)).
  cbn [String.prefix]. by destruct (Ascii.ascii_dec c c).
Qed.

Lemma prefix_mono (p a b : string) :
  String.prefix p a = true → String.prefix p (a +:+ b) = true.
Proof.
  revert a. induction p as [|c p IH]; intros a Ha.
  - by destruct (a +:+ b).
  - destruct a as [|d a]; [discriminate|].
    change (String d a +:+ b) with (String d (a +:+ b)).
    cbn [String.prefix] in Ha |- *. destruct (Ascii.ascii_dec c d); [by apply IH | done].
Qed.

Lemma str_length_app (a b : string) :
  String.length (a +:+ b) = (String.length a + String.length b)%nat.
Proof.
  induction a as [|c a IH]; [reflexivity|].
  change (String c a +:+ b) with (String c (a +:+ b)). cbn [String.length]. by rewrite IH.
Qed.

Lemma substring_all (x : string) : String.substring 0 (String.length x) x = x.
Proof. induction x as [|c x IH]; [reflexivity|]. cbn. by rewrite IH. Qed.

Lemma substring_app_drop (p x : string) :
  String.substring (String.length p) (String.length x) (p +:+ x) = x.
Proof.
  induction p as [|c p IH]; [apply substring_all|].
  change (String c p +:+ x) with (String c (p +:+ x)). cbn [String.length String.substring].
  exact IH.
Qed.

Lemma TrimPrefix_app (p x : string) : HFDecode.TrimPrefix (p +:+ x) p = x.
Proof.
  unfold HFDecode.TrimPrefix, HFDecode.HasPrefix. rewrite prefix_app, str_length_app.
  replace (String.length p + String.length x - String.length p)%nat
    with (String.length x) by lia.
  apply substring_app_drop.
Qed.

Lemma glue_conts (p : string) (ps : list string) :
  ∀ (n : nat) (acc : string),
    foldl (HFDecode.glue_step p) (n, acc) (map (String.append p) ps)
    = ((n + length ps)%nat, acc +:+ cat ps).
Proof.
  induction ps as [|x ps IH]; intros n acc.
  - cbn [map foldl length cat foldr]. by rewrite str_app_nil_r, Nat.add_0_r.
  - cbn [map foldl]. unfold HFDecode.glue_step at 2. cbn [fst snd].
    unfold HFDecode.HasPrefix. rewrite prefix_app, TrimPrefix_app, IH.
    cbn [length cat foldr]. fold (cat ps). rewrite str_app_assoc. f_equal. lia.
Qed.

Lemma glue_word (p p0 : string) (ps : list string) (n : nat) (acc : string) :
  HFDecode.HasPrefix p0 p = false →
  foldl (HFDecode.glue_step p) (n, acc) (p0 :: map (String.append p) ps)
  = ((S n + length ps)%nat,
     ((if (0 <? n)%nat then acc +:+ " " else acc) +:+ p0) +:+ cat ps).
Proof.
  intros Hp0. cbn [foldl]. unfold HFDecode.glue_step at 2. cbn [fst snd].
  rewrite Hp0. apply glue_conts.
Qed.

Lemma pieces_first (p : string) (toks : list string) (txt : string) :
  pieces_of p toks txt → HFDecode.HasPrefix txt p = false →
  ∃ p0 ps, toks = p0 :: map (String.append p) ps ∧ p0 +:+ cat ps = txt
           ∧ HFDecode.HasPrefix p0 p = false.
Proof.
  intros (p0 & ps & Htoks & Htxt) Hno. exists p0, ps. split_and!; [done..|].
  destruct (HFDecode.HasPrefix p0 p) eqn:Hp; [|done].
  unfold HFDecode.HasPrefix in *. rewrite <- Htxt, (prefix_mono _ _ _ Hp) in Hno.
  discriminate.
Qed.

Lemma glue_words {A : Type} (p : string) (toks : A → list string) (txt : A → string)
    (ws : list A) :
  Forall (λ w, pieces_of p (toks w) (txt w) ∧ HFDecode.HasPrefix (txt w) p = false) ws →
  ∀ (n : nat) (acc : string),
    (0 < n)%nat →
    ∃ n', (0 < n')%nat
          ∧ foldl (HFDecode.glue_step p) (n, acc) (flat_map toks ws)
            = (n', acc +:+ cat (map (λ w, " " +:+ txt w) ws)).
Proof.
  induction 1 as [|w ws [Hw Hno] Hws IH]; intros n acc Hn.
  - exists n. split; [done|]. cbn. by rewrite str_app_nil_r.
  - destruct (pieces_first p _ _ Hw Hno) as (p0 & ps & Htoks & Htxt & Hp0).
    cbn [flat_map map cat foldr]. fold (cat (map (λ w, " " +:+ txt w) ws)).
    rewrite foldl_app, Htoks, (glue_word p p0 ps n acc Hp0).
    destruct (Nat.ltb_spec 0 n) as [_|]; [|lia].
    destruct (IH (S n + length ps)%nat (((acc +:+ " ") +:+ p0) +:+ cat ps) ltac:(lia))
      as (n' & Hn' & Hfold).
    exists n'. split; [done|]. rewrite Hfold. f_equal.
    rewrite <- Htxt, !str_app_assoc. reflexivity.
Qed.

Lemma concat_space (x : string) (xs : list string) :
  String.concat " " (x :: xs) = x +:+ cat (map (λ y, " " +:+ y) xs).
Proof.
  revert x. induction xs as [|y xs IH]; intros x.
  - cbn. by rewrite str_app_nil_r.
  - change (String.concat " " (x :: y :: xs)) with (x +:+ " " +:+ String.concat " " (y :: xs)).
    rewrite IH. cbn [map cat foldr]. fold (cat (map (λ y, " " +:+ y) xs)).
    by rewrite !str_app_assoc.
Qed.

(** The pieces of words, glued, are the words with one space between them. *)
Lemma glue_pieces_words {A : Type} (p : string) (toks : A → list string) (txt : A → string)
    (ws : list A) :
  Forall (λ w, pieces_of p (toks w) (txt w) ∧ HFDecode.HasPrefix (txt w) p = false) ws →
  HFDecode.glue_pieces p (flat_map toks ws) = String.concat " " (map txt ws).
Proof.
  intros Hws. unfold HFDecode.glue_pieces. destruct Hws as [|w ws [Hw Hno] Hws]; [reflexivity|].
  destruct (pieces_first p _ _ Hw Hno) as (p0 & ps & Htoks & Htxt & Hp0).
  cbn [flat_map map]. rewrite foldl_app, Htoks, (glue_word p p0 ps 0 "" Hp0).
  change (0 <? 0)%nat with false. cbn iota.
  destruct (glue_words p toks txt ws Hws (1 + length ps)%nat (("" +:+ p0) +:+ cat ps)
              ltac:(lia)) as (n' & _ & Hfold).
  rewrite Hfold. cbn [snd]. rewrite concat_space, map_map.
  f_equal. exact Htxt.
Qed.

Lemma omap_flat_map {A B C : Type} (f : B → option C) (g : A → list B) (l : list A) :
  omap f (flat_map g l) = flat_map (λ x, omap f (g x)) l.
Proof.
  induction l as [|x l IH]; [reflexivity|].
  cbn [flat_map]. by rewrite omap_app, IH.
Qed.

Lemma applyDecoder_glue (t : HFTokenizer.Tokenizer) (decoder : option HFDecode.Decoder)
    (tokens : list string) :
  glues_with_model_prefix t decoder →
  HFDecode.applyDecoder t decoder tokens = HFDecode.glue_pieces (HFTokenizer.wp_prefix t) tokens.
Proof.
  destruct decoder as [d|]; [|reflexivity].
  intros [Hty Hp]. unfold HFDecode.applyDecoder. rewrite Hty.
  cbn [String.eqb Ascii.eqb Bool.eqb andb]. unfold HFDecode.wordPieceDecode. by rewrite Hp.
Qed.

(** ** WordPiece: [Decode] after [Encode] gives the words of the text.

    For a descriptor without normalizer and pre-tokenizer, with a
    "WordPiece" model and no decoder or a "WordPiece" decoder of the
    same prefix: when the vocabulary holds every rune of the text that
    is not a space, alone and as a continuation, no word is longer than
    the limit or begins with the prefix, and [idToToken] gives back the
    token of every id, decoding the ids of a text gives its words with
    one space between them. *)
Theorem Decode_Encode_WordPiece (t : HFTokenizer.Tokenizer) (i2t : gmap Z string)
    (decoder : option HFDecode.Decoder) (s : string) :
  HFTokenizer.PreTokenizer_ (HFTokenizer.tokenizer t) = None →
  HFTokenizer.Type_ (HFTokenizer.Model_ (HFTokenizer.tokenizer t)) = "WordPiece"%string →
  glues_with_model_prefix t decoder →
  inverts t i2t →
  Forall (λ w, UTF8.len (HFTokenizer.text w) ≤ HFTokenizer.wp_maxChars t
               ∧ HFDecode.HasPrefix (HFTokenizer.text w) (HFTokenizer.wp_prefix t) = false)
         (HFTokenizer.fieldsWithOffsets s (HFTokenizer.normalizeWithSpans s).2) →
  (∀ r, r ∈ UTF8.runes_of s → UTF8.IsSpace r = false → rune_known t r) →
  HFDecode.Decode t i2t decoder (HFTokenizer.Encode t s)
  = String.concat " "
      (map HFTokenizer.text
           (HFTokenizer.fieldsWithOffsets s (HFTokenizer.normalizeWithSpans s).2)).
Proof.
  intros Hpt Hty Hdec Hinv Hwords Hknown.
  unfold HFDecode.Decode. rewrite (applyDecoder_glue t decoder _ Hdec).
  unfold HFTokenizer.Encode, HFTokenizer.EncodeWithSpans.
  destruct (HFTokenizer.normalizeWithSpans s) as [n offs] eqn:Hn.
  assert (n = s) as -> by (unfold HFTokenizer.normalizeWithSpans in Hn; congruence).
  cbn [snd] in Hwords |- *.
  unfold HFTokenizer.preTokenizeWithSpans. rewrite Hpt.
  cbn [HFTokenizer.IDs]. rewrite encode_ids. cbn [fst app].
  rewrite omap_flat_map.
  apply (glue_pieces_words (HFTokenizer.wp_prefix t)
           (λ w, omap (λ id, i2t !! id) (HFTokenizer.tokenizeWordWithSpans t w).1)
           HFTokenizer.text).
  pose proof (fields_words s offs) as Hfw.
  apply Forall_forall. intros w Hw.
  destruct (proj1 (Forall_forall _ _) Hwords w Hw) as [Hlen Hno].
  destruct (proj1 (Forall_forall _ _) Hfw w Hw) as (rs & Htext & Hne & Hrs).
  split; [|exact Hno].
  apply (wp_word_pieces t i2t w rs Hty Hinv Htext Hne); [| |exact Hlen].
  - eapply Forall_impl; [exact Hrs|]. by intros r (Hv & _ & _).
  - eapply Forall_impl; [exact Hrs|]. intros r (_ & Hsp & Hin). by apply Hknown.
Qed.

Lemma Decode_Encode_WordPiece_witness :
  HFDecode.Decode wordpiece_ab
    (HFDecode.idToToken
       (map_to_list (HFTokenizer.Vocab (HFTokenizer.Model_ wordpiece_ab_json)))
       wordpiece_ab_json)
    (Some wordpiece_decoder) (HFTokenizer.Encode wordpiece_ab "abba  b")
  = String.concat " "
      (map HFTokenizer.text
           (HFTokenizer.fieldsWithOffsets "abba  b"
              (HFTokenizer.normalizeWithSpans "abba  b").2)).
Proof.
  apply Decode_Encode_WordPiece.
  - reflexivity.
  - reflexivity.
  - split; reflexivity.
  - intros tok id [Ha|Hv].
    { change (HFTokenizer.addedTokens wordpiece_ab) with (∅ : gmap string Z) in Ha.
      by rewrite lookup_empty in Ha. }
    revert tok id Hv. apply map_Forall_lookup, map_Forall_to_list. vm_compute.
    repeat constructor.
  - vm_compute. repeat constructor; discriminate.
  - intros r Hr Hsp.
    assert (He : UTF8.runes_of "abba  b" = [97; 98; 98; 97; 32; 32; 98])
      by (vm_compute; reflexivity).
    rewrite He in Hr.
    do 4 (apply elem_of_cons in Hr as [->|Hr];
          [split; vm_compute; by eapply mk_is_Some|]).
    do 2 (apply elem_of_cons in Hr as [->|Hr]; [discriminate Hsp|]).
    apply elem_of_cons in Hr as [->|Hr]; [split; vm_compute; by eapply mk_is_Some|].
    by apply elem_of_nil in Hr.
Defined.
